(** * GraphExperiments: the FasterNeighborsRevisited canonical-form engine

    A shallow embedding of [faster_neighbors_revisited.py], the properties of
    it that the specification states, and further properties of the code.

    Python values are modelled as follows.
    - node identifiers and labels are Python ints: [Z];
    - a dict from nodes to labels is a [gmap Z Z]; a lookup [d[k]] of a
      missing key raises [KeyError];
    - a [networkx.Graph] is its adjacency structure in insertion order
      ([_adj], a dict of dicts): an association list from a node to the list
      of its neighbours;
    - an exception is a value of [exn]; a computation that may raise returns
      a [result]; the [while True] loops take fuel and yield [OutOfFuel] when
      it is used up;
    - [list.sort] is a stable sort that only uses [<] on the keys;
    - what [full_comparison] and [fancy_expand_graph] print is part of their
      result; the diagnostic prints of [__init__] and [set_canonical_form]
      change no state and are left out. *)

From stdpp Require Import gmap list sorting strings.

Local Open Scope Z_scope.

#[local] Set Warnings "-clear-no-such-hyp".

(** ** Exceptions and results *)

Inductive exn : Set :=
| ValueError      (* max() of an empty sequence *)
| KeyError        (* dict lookup of a missing key *)
| IndexError      (* list index out of range *)
| NetworkXError.  (* a node that is not in the graph *)

Inductive result (A : Type) : Type :=
| Ok (a : A)
| Raise (e : exn)
| OutOfFuel.
Arguments Ok {A} a.
Arguments Raise {A} e.
Arguments OutOfFuel {A}.

#[global] Instance result_ret : MRet result := @Ok.
#[global] Instance result_bind : MBind result := λ A B f m,
  match m with
  | Ok a => f a
  | Raise e => Raise e
  | OutOfFuel => OutOfFuel
  end.

Definition is_Ok {A} (r : result A) : Prop := ∃ a, r = Ok a.

(** [d[k]] on a dict. *)
Definition getitem {V} (d : gmap Z V) (k : Z) : result V :=
  match d !! k with
  | Some v => Ok v
  | None => Raise KeyError
  end.

(** [l[i]] on a list, for a non-negative index. *)
Definition list_getitem {A} (l : list A) (i : nat) : result A :=
  match l !! i with
  | Some v => Ok v
  | None => Raise IndexError
  end.

(** [[f(x) for x in l]] where [f] may raise. *)
Fixpoint mapR {A B} (f : A → result B) (l : list A) : result (list B) :=
  match l with
  | [] => Ok []
  | x :: l' => y ← f x; ys ← mapR f l'; Ok (y :: ys)
  end.

(** [for x in l: s = f(s, x)] where [f] may raise. *)
Fixpoint foldR {A S} (f : S → A → result S) (s : S) (l : list A) : result S :=
  match l with
  | [] => Ok s
  | x :: l' => s' ← f s x; foldR f s' l'
  end.

(** [max(l)]: raises [ValueError] on the empty list. *)
Definition py_max (l : list Z) : result Z :=
  match l with
  | [] => Raise ValueError
  | x :: l' => Ok (foldl Z.max x l')
  end.

(** [[l for n, l in d.items()]]. *)
Definition dict_values (d : gmap Z Z) : list Z := (map_to_list d).*2.

(** [{n: f(n) for n in nodes}] where [f] may raise. *)
Definition dict_comprehension (f : Z → result Z) (nodes : list Z) : result (gmap Z Z) :=
  foldR (λ d n, v ← f n; Ok (<[n := v]> d)) ∅ nodes.

(** ** Comparison of ints, lists and tuples, as Python orders them *)

(** [a < b] on lists: the first elements that are not [==] decide, a proper
    prefix is smaller. *)
Fixpoint lex_ltb {A} `{EqDecision A} (ltb : A → A → bool) (a b : list A) : bool :=
  match a, b with
  | _, [] => false
  | [], _ :: _ => true
  | x :: a', y :: b' => if decide (x = y) then lex_ltb ltb a' b' else ltb x y
  end.

(** [a < b] on ints. *)
Definition int_ltb (a b : Z) : bool := bool_decide (a < b).

(** [a < b] on lists of ints. *)
Definition list_ltb : list Z → list Z → bool := lex_ltb int_ltb.

(** [a < b] on pairs [(int, int)]. *)
Definition pair_ltb (a b : Z * Z) : bool :=
  if decide (a.1 = b.1) then int_ltb a.2 b.2 else int_ltb a.1 b.1.

(** [a < b] on lists of pairs [(int, int)]. *)
Definition pairs_ltb : list (Z * Z) → list (Z * Z) → bool := lex_ltb pair_ltb.

(** The key of a node in a plain instance: [(label, sorted neighbour labels)]. *)
Definition plain_key : Type := Z * list Z.

(** [a < b] on plain keys. *)
Definition plain_key_ltb (a b : plain_key) : bool :=
  if decide (a.1 = b.1) then list_ltb a.2 b.2 else int_ltb a.1 b.1.

(** ** Sorting *)

(** [list.sort] is stable and compares with [<] only.  [lt] is the
    comparison of two elements (by their keys); it may raise, as a user
    defined [__lt__] can.  The result of a stable sort is determined by the
    order, this is insertion sort from the right. *)
Section sort.
Context {A : Type} (lt : A → A → result bool).

Fixpoint sort_insert (x : A) (l : list A) : result (list A) :=
  match l with
  | [] => Ok [x]
  | y :: l' =>
      b ← lt y x;
      if b : bool then (r ← sort_insert x l'; Ok (y :: r)) else Ok (x :: y :: l')
  end.

Fixpoint py_sort (l : list A) : result (list A) :=
  match l with
  | [] => Ok []
  | x :: l' => s ← py_sort l'; sort_insert x s
  end.
End sort.

(** Sorting a list of ints. *)
Definition sort_Z (l : list Z) : list Z :=
  match py_sort (λ a b, Ok (int_ltb a b)) l with
  | Ok s => s
  | _ => l
  end.

(** ** networkx.Graph *)

(** The adjacency structure, in insertion order. *)
Definition Graph : Type := list (Z * list Z).

Definition empty_graph : Graph := [].

(** [G.nodes()] *)
Definition nodes_of (G : Graph) : list Z := G.*1.

(** [n in G] *)
Definition has_node (G : Graph) (n : Z) : bool := bool_decide (n ∈ nodes_of G).

Fixpoint adj_lookup (G : Graph) (n : Z) : option (list Z) :=
  match G with
  | [] => None
  | (m, ns) :: G' => if decide (m = n) then Some ns else adj_lookup G' n
  end.

(** [G.neighbors(n)] *)
Definition neighbors (G : Graph) (n : Z) : result (list Z) :=
  match adj_lookup G n with
  | Some ns => Ok ns
  | None => Raise NetworkXError
  end.

(** [G.has_edge(u, v)] *)
Definition has_edge (G : Graph) (u v : Z) : bool :=
  match adj_lookup G u with
  | Some ns => bool_decide (v ∈ ns)
  | None => false
  end.

(** [G.add_node(n)] *)
Definition add_node (G : Graph) (n : Z) : Graph :=
  if has_node G n then G else G ++ [(n, [])].

(** [_adj[u][v] = {}] for a node [u] of the graph. *)
Fixpoint adj_add (G : Graph) (u v : Z) : Graph :=
  match G with
  | [] => []
  | (m, ns) :: G' =>
      if decide (m = u)
      then (m, if bool_decide (v ∈ ns) then ns else ns ++ [v]) :: G'
      else (m, ns) :: adj_add G' u v
  end.

(** [G.add_edge(u, v)] *)
Definition add_edge (G : Graph) (u v : Z) : Graph :=
  adj_add (adj_add (add_node (add_node G u) v) u v) v u.

(** [G.edges()]: every edge once, from the endpoint that comes first. *)
Fixpoint edges_from (seen : list Z) (G : Graph) : list (Z * Z) :=
  match G with
  | [] => []
  | (n, ns) :: G' =>
      ((λ v, (n, v)) <$> filter (λ v, v ∉ seen) ns) ++ edges_from (n :: seen) G'
  end.

Definition edges_of (G : Graph) : list (Z * Z) := edges_from [] G.

(** A graph as networkx keeps it: every node once, every neighbour a node
    and listed once, adjacency symmetric. *)
Definition graph_wf (G : Graph) : Prop :=
  NoDup (nodes_of G) ∧
  Forall (λ x, NoDup x.2 ∧ Forall (λ v, has_edge G v x.1 = true) x.2) G.

#[global] Instance graph_wf_dec (G : Graph) : Decision (graph_wf G).
Proof. unfold graph_wf. apply _. Defined.

(** Every node of the graph has a label. *)
Definition labels_total (G : Graph) (labels : gmap Z Z) : Prop :=
  Forall (λ n, is_Some (labels !! n)) (nodes_of G).

#[global] Instance labels_total_dec (G : Graph) (labels : gmap Z Z) :
  Decision (labels_total G labels).
Proof. unfold labels_total. apply _. Defined.

(** [single_source_shortest_path_length(G, source)]: breadth-first search by
    levels; the dict holds the distance of every reachable node.  A level
    adds at least one unseen node, so [length G] levels are enough. *)
Definition bfs_visit (G : Graph) (level : Z) (acc : gmap Z Z * list Z) (v : Z)
  : gmap Z Z * list Z :=
  foldl (λ '(seen, nextlevel) w,
           match seen !! w with
           | Some _ => (seen, nextlevel)
           | None => (<[w := level]> seen, nextlevel ++ [w])
           end)
        acc (default [] (adj_lookup G v)).

Fixpoint bfs_levels (fuel : nat) (G : Graph) (seen : gmap Z Z) (thislevel : list Z)
    (level : Z) : gmap Z Z :=
  match fuel with
  | O => seen
  | S fuel' =>
      match thislevel with
      | [] => seen
      | _ =>
          let '(seen', nextlevel) := foldl (bfs_visit G (level + 1)) (seen, []) thislevel in
          bfs_levels fuel' G seen' nextlevel (level + 1)
      end
  end.

Definition single_source_shortest_path_length (G : Graph) (source : Z)
  : result (gmap Z Z) :=
  if has_node G source
  then Ok (bfs_levels (length G) G {[source := 0]} [source] 0)
  else Raise NetworkXError.

(** ** GraphExpander *)

(** [node_list[-1]] *)
Definition list_last_item (l : list Z) : result Z :=
  match last l with
  | Some x => Ok x
  | None => Raise IndexError
  end.

(** One turn of [for edge in G.edges()] in [expand_graph]. *)
Definition expand_edge (edge_label : Z) (st : Z * Graph * gmap Z Z) (edge : Z * Z)
  : Z * Graph * gmap Z Z :=
  let '(next_node_label, new_G, new_labels) := st in
  let next_node_label := next_node_label + 1 in
  let new_G := add_node new_G next_node_label in
  let new_G := add_edge new_G edge.1 next_node_label in
  let new_G := add_edge new_G edge.2 next_node_label in
  (next_node_label, new_G, <[next_node_label := edge_label]> new_labels).

Definition expand_graph (G : Graph) (external_labels : gmap Z Z)
  : result (Graph * gmap Z Z) :=
  m ← py_max (dict_values external_labels);
  let edge_label := m + 1 in
  let node_list := sort_Z (nodes_of G) in
  next_node_label ← list_last_item node_list;
  '(new_G, new_labels) ←
    foldR (λ '(g, ls) node,
             l ← getitem external_labels node;
             Ok (add_node g node, <[node := l]> ls))
          (empty_graph, ∅) node_list;
  let '(_, new_G, new_labels) :=
    foldl (expand_edge edge_label) (next_node_label, new_G, new_labels) (edges_of G) in
  Ok (new_G, new_labels).

(** ** PartitionRefiner: the parts shared by all instances *)

(** [max(len(self.nodes), max([l for n, l in self.internal_labels.items()]) + 1)] *)
Definition higher_than_any_internal_label (nodes : list Z) (internal_labels : gmap Z Z)
  : result Z :=
  m ← py_max (dict_values internal_labels);
  Ok (Z.max (Z.of_nat (length nodes)) (m + 1)).

(** [{n: set(self.G.neighbors(n)) for n in self.nodes}] *)
Definition mapping_to_neighbors_of (G : Graph) (nodes : list Z) : result (gmap Z (list Z)) :=
  foldR (λ d n, ns ← neighbors G n; Ok (<[n := ns]> d)) ∅ nodes.

Section assign.
Context {K : Type}.
(** [prev != current[1]] on keys. *)
Context (key_ne : K → K → result bool).

(** The loop of [assign_new_labels_for_sorted_ids]; the state is
    [(prev, next_numeric_label, label_definitions, new_labels)]. *)
Fixpoint assign_loop (sorted_ids : list (Z * K)) (prev : option K)
    (next_numeric_label : Z) (label_definitions : list K) (new_labels : gmap Z Z)
  : result (gmap Z Z * list K) :=
  match sorted_ids with
  | [] => Ok (new_labels, label_definitions)
  | current :: rest =>
      changed ← match prev with
                 | None => Ok true
                 | Some p => key_ne p current.2
                 end;
      let '(next_numeric_label, label_definitions) :=
        if changed : bool
        then (next_numeric_label + 1, label_definitions ++ [current.2])
        else (next_numeric_label, label_definitions) in
      assign_loop rest (Some current.2) next_numeric_label label_definitions
        (<[current.1 := next_numeric_label]> new_labels)
  end.

(** Returns [(new_labels, self.label_definitions)]. *)
Definition assign_new_labels_for_sorted_ids (sorted_ids : list (Z * K))
  : result (gmap Z Z * list K) :=
  assign_loop sorted_ids None (-1) [] ∅.
End assign.

(** [if k not in d: d[k] = node] *)
Definition setdefault (d : gmap Z Z) (k node : Z) : gmap Z Z :=
  match d !! k with
  | Some _ => d
  | None => <[k := node]> d
  end.

(** The loop of [are_new_labels_effectively_the_same]. *)
Fixpoint same_groups_loop (internal_labels new_labels : gmap Z Z) (nodes : list Z)
    (old_group_identifiers new_group_identifiers : gmap Z Z) : result bool :=
  match nodes with
  | [] => Ok true
  | node :: rest =>
      old_label ← getitem internal_labels node;
      new_label ← getitem new_labels node;
      let old_group_identifiers := setdefault old_group_identifiers old_label node in
      let new_group_identifiers := setdefault new_group_identifiers new_label node in
      o ← getitem old_group_identifiers old_label;
      n ← getitem new_group_identifiers new_label;
      if decide (o ≠ n) then Ok false
      else same_groups_loop internal_labels new_labels rest
             old_group_identifiers new_group_identifiers
  end.

Definition are_new_labels_effectively_the_same (nodes : list Z)
    (internal_labels new_labels : gmap Z Z) : result bool :=
  same_groups_loop internal_labels new_labels nodes ∅ ∅.

(** ** Plain instances ([nodewise=False]) *)

(** [prev != current[1]] on plain keys. *)
Definition plain_key_ne (a b : plain_key) : result bool := Ok (bool_decide (a ≠ b)).

Definition plain_get_new_ids_in_order (nodes : list Z)
    (mapping_to_neighbors : gmap Z (list Z)) (internal_labels : gmap Z Z)
  : result (list (Z * plain_key)) :=
  ids ← mapR (λ node,
                ns ← getitem mapping_to_neighbors node;
                neighbors ← mapR (getitem internal_labels) ns;
                l ← getitem internal_labels node;
                Ok (node, (l, sort_Z neighbors)))
             nodes;
  py_sort (λ x y, Ok (plain_key_ltb x.2 y.2)) ids.

(** The [while True] loop of [__init__]; returns
    [(self.internal_labels, self.label_definitions, counter)]. *)
Fixpoint plain_loop (fuel : nat) (nodes : list Z) (mapping_to_neighbors : gmap Z (list Z))
    (internal_labels : gmap Z Z) (counter : nat)
  : result (gmap Z Z * list plain_key * nat) :=
  match fuel with
  | O => OutOfFuel
  | S fuel' =>
      sorted_ids ← plain_get_new_ids_in_order nodes mapping_to_neighbors internal_labels;
      '(new_labels, label_definitions) ←
        assign_new_labels_for_sorted_ids plain_key_ne sorted_ids;
      same ← are_new_labels_effectively_the_same nodes internal_labels new_labels;
      if same : bool then Ok (internal_labels, label_definitions, counter)
      else plain_loop fuel' nodes mapping_to_neighbors new_labels (S counter)
  end.

Record Plain : Type := {
  p_nodes : list Z;
  p_mapping_to_neighbors : gmap Z (list Z);
  p_internal_labels : gmap Z Z;
  p_external_labels : gmap Z Z;
  p_higher_than_any_internal_label : Z;
  p_label_definitions : list plain_key;
  p_label_pairings : list (Z * Z);
  p_counter : nat  (* the rounds before the one that found the fixpoint *)
}.

(** [self.label_pairings], sorted. *)
Definition label_pairings_of (nodes : list Z) (internal_labels external_labels : gmap Z Z)
  : result (list (Z * Z)) :=
  ps ← mapR (λ n, i ← getitem internal_labels n;
                  e ← getitem external_labels n;
                  Ok (i, e)) nodes;
  py_sort (λ x y, Ok (pair_ltb x y)) ps.

(** [FasterNeighborsRevisited(G, external_labels, nodewise=False)] *)
Definition plain_instance (fuel : nat) (G : Graph) (external_labels : gmap Z Z)
  : result Plain :=
  let nodes := nodes_of G in
  mapping_to_neighbors ← mapping_to_neighbors_of G nodes;
  internal_labels ← dict_comprehension (getitem external_labels) nodes;
  external ← dict_comprehension (getitem external_labels) nodes;
  H ← higher_than_any_internal_label nodes internal_labels;
  '(internal_labels, label_definitions, counter) ←
    plain_loop fuel nodes mapping_to_neighbors internal_labels 0;
  label_pairings ← label_pairings_of nodes internal_labels external_labels;
  Ok {| p_nodes := nodes;
        p_mapping_to_neighbors := mapping_to_neighbors;
        p_internal_labels := internal_labels;
        p_external_labels := external;
        p_higher_than_any_internal_label := H;
        p_label_definitions := label_definitions;
        p_label_pairings := label_pairings;
        p_counter := counter |}.

(** The part of [full_comparison] that compares [label_definitions], from
    index [i] on; [other.label_definitions[i]] may raise. *)
Fixpoint compare_definitions (self_defs other_defs : list plain_key) (i : nat) : result Z :=
  match self_defs with
  | [] => Ok 0
  | s :: rest =>
      o ← list_getitem other_defs i;
      if int_ltb s.1 o.1 then Ok (-1)
      else if int_ltb o.1 s.1 then Ok 1
      else if list_ltb s.2 o.2 then Ok (-1)
      else if list_ltb o.2 s.2 then Ok 1
      else compare_definitions rest other_defs (S i)
  end.

(** [self.full_comparison(other)] for two plain instances. *)
Definition plain_full_comparison (self other : Plain) : result Z :=
  if pairs_ltb (p_label_pairings self) (p_label_pairings other) then Ok (-1)
  else if pairs_ltb (p_label_pairings other) (p_label_pairings self) then Ok 1
  else compare_definitions (p_label_definitions self) (p_label_definitions other) 0.

(** ** Nodewise instances ([nodewise="Master"] and [nodewise="Servant"]) *)

(** The key of a node in a nodewise instance: [(label, plain instance)]. *)
Definition nodewise_key : Type := Z * Plain.

(** [a < b] on nodewise keys: tuples are compared at the first component
    where they are not [==]; [__eq__] and [__lt__] of the instances call
    [full_comparison]. *)
Definition nodewise_key_lt (a b : nodewise_key) : result bool :=
  if decide (a.1 = b.1)
  then c ← plain_full_comparison a.2 b.2;
       if decide (c = 0) then Ok false
       else c' ← plain_full_comparison a.2 b.2; Ok (bool_decide (c' = -1))
  else Ok (int_ltb a.1 b.1).

(** [a != b] on nodewise keys. *)
Definition nodewise_key_ne (a b : nodewise_key) : result bool :=
  if decide (a.1 = b.1)
  then c ← plain_full_comparison a.2 b.2; Ok (bool_decide (c ≠ 0))
  else Ok true.

(** The combination of an overlay value and a label in
    [get_new_ids_in_order]. *)
Definition overlay_key (H o l : Z) : Z := o * H + l.

(** One turn of [for node in self.nodes] in [get_new_ids_in_order]; the
    state is [(self.nodewise_overlays, ids)]. *)
Definition nodewise_id_of (fuel : nat) (G : Graph) (nodes : list Z) (H : Z)
    (internal_labels : gmap Z Z)
    (st : gmap Z (gmap Z Z) * list (Z * nodewise_key)) (node : Z)
  : result (gmap Z (gmap Z Z) * list (Z * nodewise_key)) :=
  let '(nodewise_overlays, ids) := st in
  overlay ← getitem nodewise_overlays node;
  new_labels ← dict_comprehension
                  (λ n, o ← getitem overlay n;
                        l ← getitem internal_labels n;
                        Ok (overlay_key H o l)) nodes;
  l ← getitem internal_labels node;
  sub ← plain_instance fuel G new_labels;
  Ok (<[node := p_internal_labels sub]> nodewise_overlays, ids ++ [(node, (l, sub))]).

(** Returns [(self.nodewise_overlays, ids)]. *)
Definition nodewise_get_new_ids_in_order (fuel : nat) (G : Graph) (nodes : list Z) (H : Z)
    (internal_labels : gmap Z Z) (nodewise_overlays : gmap Z (gmap Z Z))
  : result (gmap Z (gmap Z Z) * list (Z * nodewise_key)) :=
  '(nodewise_overlays, ids) ←
    foldR (nodewise_id_of fuel G nodes H internal_labels) (nodewise_overlays, []) nodes;
  ids ← py_sort (λ x y, nodewise_key_lt x.2 y.2) ids;
  Ok (nodewise_overlays, ids).

(** The [while True] loop of [__init__]; returns [(self.internal_labels,
    self.label_definitions, self.nodewise_overlays, counter)].  [fuel] also
    bounds the loops of the plain instances that are built. *)
Fixpoint nodewise_loop (fuel rounds : nat) (G : Graph) (nodes : list Z) (H : Z)
    (internal_labels : gmap Z Z) (nodewise_overlays : gmap Z (gmap Z Z)) (counter : nat)
  : result (gmap Z Z * list nodewise_key * gmap Z (gmap Z Z) * nat) :=
  match rounds with
  | O => OutOfFuel
  | S rounds' =>
      '(nodewise_overlays, sorted_ids) ←
        nodewise_get_new_ids_in_order fuel G nodes H internal_labels nodewise_overlays;
      '(new_labels, label_definitions) ←
        assign_new_labels_for_sorted_ids nodewise_key_ne sorted_ids;
      same ← are_new_labels_effectively_the_same nodes internal_labels new_labels;
      if same : bool
      then Ok (internal_labels, label_definitions, nodewise_overlays, counter)
      else nodewise_loop fuel rounds' G nodes H new_labels nodewise_overlays (S counter)
  end.

(** ** NodewiseOverlayBuilder *)

(** The head start of node [node]: shortest-path distances combined with the
    basic colouring.  Returns [max_value]. *)
Definition head_start_max_value (G : Graph) (nodes : list Z) (basic_overlay : gmap Z Z)
    (node : Z) : result Z :=
  path_labels ← single_source_shortest_path_length G node;
  m ← py_max (dict_values path_labels);
  let max_dist := m + 1 in
  let path_labels :=
    foldl (λ pl n, match pl !! n with
                   | Some _ => pl
                   | None => <[n := max_dist]> pl
                   end) path_labels nodes in
  overlay ← dict_comprehension
              (λ n, d ← getitem path_labels n;
                    b ← getitem basic_overlay n;
                    Ok (d + b * Z.of_nat (length nodes))) nodes;
  py_max (dict_values overlay).

(** The overlay of node [node] as [__init__] leaves it. *)
Definition initial_overlay (G : Graph) (nodes : list Z)
    (basic_overlay external_labels : gmap Z Z) (node : Z) : result (gmap Z Z) :=
  max_value ← head_start_max_value G nodes basic_overlay node;
  overlay ← dict_comprehension (getitem external_labels) nodes;
  Ok (<[node := max_value + 1]> overlay).

Definition initial_overlays (G : Graph) (nodes : list Z)
    (basic_overlay external_labels : gmap Z Z) : result (gmap Z (gmap Z Z)) :=
  foldR (λ ovs node,
           ov ← initial_overlay G nodes basic_overlay external_labels node;
           Ok (<[node := ov]> ovs)) ∅ nodes.

Record Nodewise : Type := {
  nw_initial_nodes : list Z;
  nw_initial_G : Graph;
  nw_G : Graph;
  nw_nodes : list Z;
  nw_mapping_to_neighbors : gmap Z (list Z);
  nw_internal_labels : gmap Z Z;
  nw_external_labels : gmap Z Z;
  nw_higher_than_any_internal_label : Z;
  nw_label_definitions : list nodewise_key;
  nw_nodewise_overlays : gmap Z (gmap Z Z);
  nw_counter : nat
}.

(** [__init__] of a nodewise instance up to the [while] loop;
    [expanded_labels] is [external_labels] after [expand_graph]. *)
Definition nodewise_setup (fuel : nat) (G : Graph) (external_labels : gmap Z Z)
  : result (Nodewise * gmap Z Z) :=
  '(eG, expanded_labels) ← expand_graph G external_labels;
  let nodes := nodes_of eG in
  mapping_to_neighbors ← mapping_to_neighbors_of eG nodes;
  internal_labels ← dict_comprehension (getitem expanded_labels) nodes;
  external ← dict_comprehension (getitem expanded_labels) nodes;
  H ← higher_than_any_internal_label nodes internal_labels;
  basic_overlay ← plain_instance fuel eG expanded_labels;
  nodewise_overlays ←
    initial_overlays eG nodes (p_internal_labels basic_overlay) external;
  Ok ({| nw_initial_nodes := nodes_of G;
         nw_initial_G := G;
         nw_G := eG;
         nw_nodes := nodes;
         nw_mapping_to_neighbors := mapping_to_neighbors;
         nw_internal_labels := internal_labels;
         nw_external_labels := external;
         nw_higher_than_any_internal_label := H;
         nw_label_definitions := [];
         nw_nodewise_overlays := nodewise_overlays;
         nw_counter := 0 |}, expanded_labels).

(** [__init__] of a nodewise instance up to the end of the [while] loop. *)
Definition nodewise_init (fuel : nat) (G : Graph) (external_labels : gmap Z Z)
  : result (Nodewise * gmap Z Z) :=
  '(self, expanded_labels) ← nodewise_setup fuel G external_labels;
  '(internal_labels, label_definitions, nodewise_overlays, counter) ←
    nodewise_loop fuel fuel (nw_G self) (nw_nodes self)
      (nw_higher_than_any_internal_label self) (nw_internal_labels self)
      (nw_nodewise_overlays self) 0;
  Ok ({| nw_initial_nodes := nw_initial_nodes self;
         nw_initial_G := nw_initial_G self;
         nw_G := nw_G self;
         nw_nodes := nw_nodes self;
         nw_mapping_to_neighbors := nw_mapping_to_neighbors self;
         nw_internal_labels := internal_labels;
         nw_external_labels := nw_external_labels self;
         nw_higher_than_any_internal_label := nw_higher_than_any_internal_label self;
         nw_label_definitions := label_definitions;
         nw_nodewise_overlays := nodewise_overlays;
         nw_counter := counter |}, expanded_labels).

(** [FasterNeighborsRevisited(G, external_labels, nodewise="Servant")]:
    the instance and its [label_pairings]. *)
Definition servant_instance (fuel : nat) (G : Graph) (external_labels : gmap Z Z)
  : result (Nodewise * list (Z * Z)) :=
  '(self, expanded_labels) ← nodewise_init fuel G external_labels;
  label_pairings ←
    label_pairings_of (nw_nodes self) (nw_internal_labels self) expanded_labels;
  Ok (self, label_pairings).

(** ** CanonicalOrderer *)

(** The relabelling loop of [further_sort], from index 1 on. *)
Fixpoint further_sort_relabel (l : list (Z * (Z * Z))) (next_label : Z) (prev_value : Z * Z)
  : list (Z * Z) :=
  match l with
  | [] => []
  | x :: rest =>
      if decide (x.2 ≠ prev_value)
      then (x.1, next_label + 1) :: further_sort_relabel rest (next_label + 1) x.2
      else (x.1, next_label) :: further_sort_relabel rest next_label prev_value
  end.

(** [self.further_sort(initial_list, new_labels)]; returns [initial_list]. *)
Definition further_sort (initial_list : list (Z * Z)) (new_labels : gmap Z Z)
  : result (list (Z * Z)) :=
  l ← mapR (λ x, v ← getitem new_labels x.1; Ok (x.1, (x.2, v))) initial_list;
  l ← py_sort (λ x y, Ok (pair_ltb x.2 y.2)) l;
  match l with
  | [] => Raise IndexError
  | x :: rest => Ok ((x.1, 0) :: further_sort_relabel rest 0 x.2)
  end.

(** The inner [while next_idx < len(ordering) and ...] loop. *)
Fixpoint skip_ties (fuel : nat) (ordering : list (Z * Z)) (key : Z) (next_idx : nat)
  : result nat :=
  match fuel with
  | O => OutOfFuel
  | S fuel' =>
      match ordering !! next_idx with
      | Some x =>
          if decide (key = x.2) then skip_ties fuel' ordering key (S next_idx)
          else Ok next_idx
      | None => Ok next_idx
      end
  end.

(** The [while selected_index < len(ordering)] loop. *)
Fixpoint select_untied (fuel : nat) (ordering : list (Z * Z)) (selected_index : nat)
  : result nat :=
  match fuel with
  | O => OutOfFuel
  | S fuel' =>
      match ordering !! selected_index, ordering !! S selected_index with
      | Some x, Some y =>
          if decide (x.2 = y.2)
          then next_idx ← skip_ties fuel' ordering x.2 (S selected_index);
               select_untied fuel' ordering next_idx
          else Ok selected_index
      | _, _ => Ok selected_index
      end
  end.

(** [selected_index + 1 < len(ordering) and
     ordering[selected_index][1] == ordering[selected_index + 1][1]] *)
Definition tied_with_next (ordering : list (Z * Z)) (selected_index : nat) : bool :=
  match ordering !! selected_index, ordering !! S selected_index with
  | Some x, Some y => bool_decide (x.2 = y.2)
  | _, _ => false
  end.

(** The label map handed to the servant: the placed nodes get their
    position, the others their key above all positions. *)
Definition tie_break_labels (final_node_order : list Z) (ordering : list (Z * Z))
  : gmap Z Z :=
  let new_labels :=
    foldl (λ d n, <[n.1 := n.2 + Z.of_nat (length final_node_order)]> d) ∅ ordering in
  foldl (λ d jn, <[jn.2 := Z.of_nat jn.1]> d) new_labels (imap (λ j n, (j, n)) final_node_order).

(** The [if selected_index >= len(ordering) or ...] block: when no untied
    node was found, a servant refines the remaining nodes and the head is
    taken.  Returns [(ordering, selected_index)]. *)
Definition tie_break (fuel : nat) (initial_G : Graph) (final_node_order : list Z)
    (ordering : list (Z * Z)) (selected_index : nat) : result (list (Z * Z) * nat) :=
  if bool_decide (length ordering ≤ selected_index)%nat
     || tied_with_next ordering selected_index
  then
    let new_labels := tie_break_labels final_node_order ordering in
    more_refined ← servant_instance fuel initial_G new_labels;
    ordering ← further_sort ordering (nw_internal_labels more_refined.1);
    Ok (ordering, O)
  else Ok (ordering, selected_index).

(** The body of [for i in range(1, len(self.initial_nodes))], [count] turns
    of it; the state is [(final_node_order, ordering)]. *)
Fixpoint canonical_order_loop (fuel : nat) (initial_G : Graph)
    (nodewise_overlays : gmap Z (gmap Z Z)) (count : nat)
    (final_node_order : list Z) (ordering : list (Z * Z)) : result (list Z) :=
  match count with
  | O => Ok final_node_order
  | S count' =>
      last_node ← list_last_item final_node_order;
      overlay ← getitem nodewise_overlays last_node;
      ordering ← further_sort ordering overlay;
      selected_index ← select_untied fuel ordering 0;
      '(ordering, selected_index) ←
        tie_break fuel initial_G final_node_order ordering selected_index;
      chosen ← list_getitem ordering selected_index;
      let final_node_order := final_node_order ++ [chosen.1] in
      let ordering :=
        if bool_decide (1 < length ordering)%nat then delete selected_index ordering
        else ordering in
      canonical_order_loop fuel initial_G nodewise_overlays count' final_node_order ordering
  end.

(** The rows of the upper triangular adjacency matrix. *)
Fixpoint matrix_rows (initial_G : Graph) (order : list Z) : list (list Z) :=
  match order with
  | [] => []
  | n :: rest =>
      ((λ m, if has_edge initial_G n m then 1 else 0) <$> rest) :: matrix_rows initial_G rest
  end.

Record CanonicalForm : Type := {
  final_node_order : list Z;
  ordered_labels : list Z;
  matrix : list (list Z)
}.

(** [self.set_canonical_form()] *)
Definition set_canonical_form (fuel : nat) (self : Nodewise) : result CanonicalForm :=
  let ordering := (λ n, (n, 0)) <$> nw_initial_nodes self in
  ordering ← further_sort ordering (nw_internal_labels self);
  first ← list_getitem ordering 0;
  order ← canonical_order_loop fuel (nw_initial_G self) (nw_nodewise_overlays self)
             (length (nw_initial_nodes self) - 1) [first.1] (drop 1 ordering);
  labels ← mapR (getitem (nw_external_labels self)) order;
  Ok {| final_node_order := order;
        ordered_labels := labels;
        matrix := matrix_rows (nw_initial_G self) order |}.

(** [{n: 0 for n in G.nodes()}], the default of [external_labels]. *)
Definition default_labels (G : Graph) : gmap Z Z :=
  foldl (λ d n, <[n := 0]> d) ∅ (nodes_of G).

(** [FasterNeighborsRevisited(G, external_labels)], the top-level instance
    ([nodewise="Master"]), and its canonical form. *)
Definition master_instance (fuel : nat) (G : Graph) (external_labels : option (gmap Z Z))
  : result (Nodewise * CanonicalForm) :=
  let external_labels := default (default_labels G) external_labels in
  '(self, _) ← nodewise_init fuel G external_labels;
  cf ← set_canonical_form fuel self;
  Ok (self, cf).

Definition canonicalize (fuel : nat) (G : Graph) (external_labels : option (gmap Z Z))
  : result CanonicalForm :=
  r ← master_instance fuel G external_labels; Ok r.2.

(** ** CanonicalFormComparator *)

(** What [print] writes. *)
Inductive output : Type :=
| Text (s : string)       (* [print("...")] *)
| RowNumber (i : Z)       (* [print("%d:" % (i+1))] *)
| Row (r : list Z).       (* [print(self.matrix[i])] *)

(** [a < b] on matrices (lists of rows). *)
Definition matrix_ltb : list (list Z) → list (list Z) → bool := lex_ltb list_ltb.

(** The rows that differ, as the two [for i in range(0, len(self.matrix))]
    loops print them; [other.matrix[i]] may raise. *)
Fixpoint print_differing_rows (self_matrix other_matrix : list (list Z)) (i : nat)
  : result (list output) :=
  match self_matrix with
  | [] => Ok []
  | r :: rest =>
      o ← list_getitem other_matrix i;
      out ← print_differing_rows rest other_matrix (S i);
      Ok (if decide (r ≠ o)
          then [RowNumber (Z.of_nat i + 1); Row r; Row o; Text "---"] ++ out
          else out)
  end.

(** The instances that [full_comparison] can meet. *)
Inductive Instance : Type :=
| PlainInstance (p : Plain)                             (* nodewise=False *)
| ServantInstance (s : Nodewise) (label_pairings : list (Z * Z))
| MasterInstance (m : Nodewise) (cf : CanonicalForm).

(** The truth value of [self.nodewise]. *)
Definition nodewise (i : Instance) : bool :=
  match i with
  | PlainInstance _ => false
  | ServantInstance _ _ | MasterInstance _ _ => true
  end.

Definition never_occur : output := Text "This comparison should never occur!".

(** [self.full_comparison(other)]: what is printed and what is returned.  A
    servant has no [ordered_labels] (an [AttributeError], here [KeyError] on
    the attribute dict). *)
Definition full_comparison (self other : Instance) : result (list output * Z) :=
  if negb (nodewise self) && nodewise other then Ok ([never_occur], -1)
  else if nodewise self && negb (nodewise other) then Ok ([never_occur], 1)
  else
    match self, other with
    | MasterInstance _ a, MasterInstance _ b =>
        if list_ltb (ordered_labels a) (ordered_labels b) then Ok ([], -1)
        else if list_ltb (ordered_labels b) (ordered_labels a) then Ok ([], 1)
        else if matrix_ltb (matrix a) (matrix b)
        then out ← print_differing_rows (matrix a) (matrix b) 0; Ok (out, -1)
        else if matrix_ltb (matrix b) (matrix a)
        then out ← print_differing_rows (matrix a) (matrix b) 0; Ok (out, 1)
        else Ok ([], 0)
    | PlainInstance p, PlainInstance q =>
        c ← plain_full_comparison p q; Ok ([], c)
    | _, _ => Raise KeyError
    end.

(** [self == other] *)
Definition instance_eq (self other : Instance) : result bool :=
  r ← full_comparison self other; Ok (bool_decide (r.2 = 0)).

(** [self < other], [self > other], [self <= other] and [self >= other] *)
Definition instance_lt (self other : Instance) : result bool :=
  r ← full_comparison self other; Ok (bool_decide (r.2 = -1)).

Definition instance_gt (self other : Instance) : result bool :=
  r ← full_comparison self other; Ok (bool_decide (r.2 = 1)).

Definition instance_le (self other : Instance) : result bool :=
  r ← full_comparison self other; Ok (bool_decide (r.2 < 1)).

Definition instance_ge (self other : Instance) : result bool :=
  r ← full_comparison self other; Ok (bool_decide (r.2 > -1)).

(** ** GraphExpander: [fancy_expand_graph] *)

(** [for n1 in G.neighbors(edge[0]): if n1 in G.neighbors(edge[1])]: the
    loop over the neighbours [ns] of the first endpoint; [v] is the second
    endpoint. *)
Fixpoint triangle_loop (G : Graph) (v : Z) (ns : list Z) : result bool :=
  match ns with
  | [] => Ok false
  | n1 :: rest =>
      ns1 ← neighbors G v;
      if bool_decide (n1 ∈ ns1) then Ok true else triangle_loop G v rest
  end.

(** One turn of [for edge in G.edges()] in [fancy_expand_graph]; the state is
    [(next_node_label, new_G, new_labels, a_triangle, a_non_triangle)]. *)
Definition fancy_expand_edge (G : Graph) (expanded_edge_label : Z)
    (st : Z * Graph * gmap Z Z * bool * bool) (edge : Z * Z)
  : result (Z * Graph * gmap Z Z * bool * bool) :=
  let '(next_node_label, new_G, new_labels, a_triangle, a_non_triangle) := st in
  ns ← neighbors G edge.1;
  triangle ← triangle_loop G edge.2 ns;
  if triangle : bool then
    let next_node_label := next_node_label + 1 in
    let new_G := add_node new_G next_node_label in
    let new_G := add_edge new_G edge.1 next_node_label in
    let new_G := add_edge new_G edge.2 next_node_label in
    Ok (next_node_label, new_G, <[next_node_label := expanded_edge_label]> new_labels,
        true, a_non_triangle)
  else
    Ok (next_node_label, add_edge new_G edge.1 edge.2, new_labels, a_triangle, true).

(** [self.fancy_expand_graph(G, external_labels)]; [nodewise] is the truth
    value of [self.nodewise].  Returns what is printed and
    [(new_G, new_labels)]. *)
Definition fancy_expand_graph (nodewise : bool) (G : Graph) (external_labels : gmap Z Z)
  : result (list output * (Graph * gmap Z Z)) :=
  m ← py_max (dict_values external_labels);
  let expanded_edge_label := m + 1 in
  let node_list := sort_Z (nodes_of G) in
  next_node_label ← list_last_item node_list;
  '(new_G, new_labels) ←
    foldR (λ '(g, ls) node,
             l ← getitem external_labels node;
             Ok (add_node g node, <[node := l]> ls))
          (empty_graph, ∅) node_list;
  '(_, new_G, new_labels, a_triangle, a_non_triangle) ←
    foldR (fancy_expand_edge G expanded_edge_label)
          (next_node_label, new_G, new_labels, false, false) (edges_of G);
  let out :=
    if nodewise : bool then
      [Text (if a_non_triangle : bool
             then (if a_triangle : bool then "Both kinds!" else "All non-triangles")
             else "All triangles")]
    else [] in
  Ok (out, (new_G, new_labels)).

(** ** Graphs under a renaming of their nodes *)

(** The graph [π(G)]: every node [n] renamed to [π n], in the same order. *)
Definition rename_graph (π : Z → Z) (G : Graph) : Graph :=
  (λ x : Z * list Z, (π x.1, π <$> x.2)) <$> (G : list (Z * list Z)).

(** The label map of [π(G)] that gives [π n] the label of [n]. *)
Definition rename_labels (π : Z → Z) (nodes : list Z) (labels : gmap Z Z) : gmap Z Z :=
  foldl (λ d n, match labels !! n with
                | Some l => <[π n := l]> d
                | None => d
                end) ∅ nodes.

(** [π] is an isomorphism from [G] to [G']: a bijection between the nodes
    that keeps adjacency. *)
Definition isomorphism (π : Z → Z) (G G' : Graph) : Prop :=
  π <$> nodes_of G ≡ₚ nodes_of G' ∧
  ∀ u v, u ∈ nodes_of G → v ∈ nodes_of G → has_edge G' (π u) (π v) = has_edge G u v.

(** The second label dict gives [π n] the label that the first gives [n]. *)
Definition labels_along (π : Z → Z) (nodes : list Z) (labels labels' : gmap Z Z) : Prop :=
  ∀ n, n ∈ nodes → labels' !! π n = labels !! n.

(** The same graph with its nodes inserted in another order. *)
Definition same_graph (G G' : Graph) : Prop :=
  nodes_of G ≡ₚ nodes_of G' ∧ ∀ u v, has_edge G u v = has_edge G' u v.

(** ** Counting labels *)

(** The number of distinct labels in a label dict. *)
Definition distinct_labels (labels : gmap Z Z) : nat := size (map_img labels : gset Z).

(** Two label dicts induce the same partition of [nodes]. *)
Definition same_partition (nodes : list Z) (old new : gmap Z Z) : Prop :=
  ∀ n m, n ∈ nodes → m ∈ nodes → (old !! n = old !! m ↔ new !! n = new !! m).

(** ** Example graphs *)

(** The path 0 - 1 - 2. *)
Definition path3 : Graph := [(0, [1]); (1, [0; 2]); (2, [1])].

(** The triangle 0 - 1 - 2 - 0. *)
Definition triangle3 : Graph := [(0, [1; 2]); (1, [0; 2]); (2, [0; 1])].

(** The path 1 - 0 - 2. *)
Definition path3_from_centre : Graph := [(0, [1; 2]); (1, [0]); (2, [0])].

(** Three nodes without edges. *)
Definition three_isolated : Graph := [(0, []); (1, []); (2, [])].

(** The edge 0 - 1 and the isolated node 2. *)
Definition edge01_and_2 : Graph := [(0, [1]); (1, [0]); (2, [])].

(** The edge 1 - 2 and the isolated node 0. *)
Definition edge12_and_0 : Graph := [(0, []); (1, [2]); (2, [1])].

(** The permutation 0 -> 1 -> 2 -> 0. *)
Definition rotate3 (n : Z) : Z := if decide (n = 2) then 0 else n + 1.

(** The permutation that exchanges 0 and 1. *)
Definition swap01 (n : Z) : Z := if decide (n = 0) then 1 else if decide (n = 1) then 0 else n.

(** Every node of a three-node graph labelled 10. *)
Definition all_ten : gmap Z Z := list_to_map [(0, 10); (1, 10); (2, 10)].

(** A ranking of three nodes and new labels for them. *)
Definition example_ordering : list (Z * Z) := [(0, 0); (1, 0); (2, 1)].

Definition example_new_labels : gmap Z Z := list_to_map [(0, 7); (1, 3); (2, 3)].

(** Sorted ids as a plain instance gets them on [edge01_and_2]. *)
Definition example_sorted_ids : list (Z * plain_key) :=
  [(2, (0, [])); (0, (1, [2])); (1, (1, [2]))].

(** A plain instance record, the fields as a one-node graph gives them. *)
Definition some_plain : Plain :=
  {| p_nodes := [0]; p_mapping_to_neighbors := {[0 := []]};
     p_internal_labels := {[0 := 0]}; p_external_labels := {[0 := 0]};
     p_higher_than_any_internal_label := 1; p_label_definitions := [(0, [])];
     p_label_pairings := [(0, 0)]; p_counter := 0 |}.


Definition some_canonical_form : CanonicalForm :=
  {| final_node_order := [0]; ordered_labels := [0]; matrix := [[]] |}.

(** The canonical forms of [path3] and of [edge12_and_0] with the default
    labels. *)
Definition path3_form : CanonicalForm :=
  {| final_node_order := [1; 0; 2]; ordered_labels := [0; 0; 0];
     matrix := [[1; 1]; [0]; []] |}.

Definition edge12_and_0_form : CanonicalForm :=
  {| final_node_order := [0; 1; 2]; ordered_labels := [0; 0; 0];
     matrix := [[0; 0]; [1]; []] |}.

Definition some_nodewise : Nodewise :=
  {| nw_initial_nodes := [0]; nw_initial_G := [(0, [])]; nw_G := [(0, [])];
     nw_nodes := [0]; nw_mapping_to_neighbors := {[0 := []]};
     nw_internal_labels := {[0 := 0]}; nw_external_labels := {[0 := 0]};
     nw_higher_than_any_internal_label := 1;
     nw_label_definitions := [(0, some_plain)];
     nw_nodewise_overlays := {[0 := {[0 := 0]}]}; nw_counter := 0 |}.

(** ** Orders *)

(** A strict total order, as [<] is on ints, tuples and lists of them. *)
Record StrictTotal {A} (ltb : A → A → bool) : Prop := {
  st_irrefl x : ltb x x = false;
  st_trans x y z : ltb x y = true → ltb y z = true → ltb x z = true;
  st_total x y : x = y ∨ ltb x y = true ∨ ltb y x = true
}.

(** A strict weak order: what a sort needs of [<]. *)
Record StrictWeak {A} (ltb : A → A → bool) : Prop := {
  sw_irrefl x : ltb x x = false;
  sw_trans x y z : ltb x y = true → ltb y z = true → ltb x z = true;
  sw_negtrans x y z : ltb x y = false → ltb y z = false → ltb x z = false
}.

(** [a] does not come after [b]. *)
Definition not_after {A} (ltb : A → A → bool) (a b : A) : Prop := ltb b a = false.

(** ** Group identifiers *)

(** The first node of [nodes] with label [l]: the group identifier that
    [are_new_labels_effectively_the_same] records for [l]. *)
Fixpoint first_with (labels : gmap Z Z) (l : Z) (nodes : list Z) : option Z :=
  match nodes with
  | [] => None
  | n :: rest => if decide (labels !! n = Some l) then Some n else first_with labels l rest
  end.

(** Two keys that a sort does not tell apart: neither is below the other. *)
Definition key_equiv {A} (ltb : A → A → bool) (a b : A) : Prop :=
  ltb a b = false ∧ ltb b a = false.

(** Strictly ascending. *)
Definition ascending {A} (ltb : A → A → bool) (l : list A) : Prop :=
  StronglySorted (λ a b, ltb a b = true) l.

(** The list is sorted by the keys of its entries. *)
Definition sorted_by_key {K} (ltb : K → K → bool) (ids : list (Z * K)) : Prop :=
  StronglySorted (λ x y, not_after ltb x.2 y.2) ids.

(** [!=] on the keys of the list is what the order says. *)
Definition ne_agrees {K} (key_ne : K → K → result bool) (ltb : K → K → bool)
    (keys : list K) : Prop :=
  ∀ a b, a ∈ keys → b ∈ keys → key_ne a b = Ok (ltb a b || ltb b a).

(** The group identifiers of all nodes agree. *)
Definition identifiers_agree (nodes : list Z) (old new : gmap Z Z) (ns : list Z) : Prop :=
  ∀ n lo ln, n ∈ ns → old !! n = Some lo → new !! n = Some ln →
    first_with old lo nodes = first_with new ln nodes.

(** ** The state of a refinement loop *)

(** The dict has exactly the nodes as keys. *)
Definition dom_is (nodes : list Z) (d : gmap Z Z) : Prop :=
  ∀ n, is_Some (d !! n) ↔ n ∈ nodes.

(** The value of a node in a label dict that has it as a key. *)
Definition label_of (d : gmap Z Z) (n : Z) : Z := default 0 (d !! n).

(** Every node has its neighbours recorded, all of them nodes. *)
Definition neighbors_closed (nodes : list Z) (mapping_to_neighbors : gmap Z (list Z)) : Prop :=
  ∀ n, n ∈ nodes →
    ∃ ns, mapping_to_neighbors !! n = Some ns ∧ ∀ m, m ∈ ns → m ∈ nodes.

(** The key that [get_new_ids_in_order] computes for a node of a plain
    instance. *)
Definition plain_key_of (mapping_to_neighbors : gmap Z (list Z)) (internal_labels : gmap Z Z)
    (node : Z) : plain_key :=
  (label_of internal_labels node,
   sort_Z (label_of internal_labels <$> default [] (mapping_to_neighbors !! node))).

(** The labels of the neighbours of a node, as [get_new_ids_in_order] lists
    them before sorting. *)
Definition neighbour_labels (G : Graph) (labels : gmap Z Z) (n : Z) : list Z :=
  label_of labels <$> default [] (adj_lookup G n).

(** [new] splits the groups of [old] and merges none. *)
Definition refines (nodes : list Z) (old new : gmap Z Z) : Prop :=
  ∀ n m, n ∈ nodes → m ∈ nodes → new !! n = new !! m → old !! n = old !! m.

(** Every neighbour is a node of the graph. *)
Definition graph_closed (G : Graph) : Prop :=
  ∀ u v, has_edge G u v = true → v ∈ nodes_of G.

(** What [full_comparison] relies on in a plain instance: one label
    definition for each internal label that occurs in [label_pairings]. *)
Definition plain_valid (p : Plain) : Prop :=
  length (p_label_definitions p) = size (list_to_set (p_label_pairings p).*1 : gset Z).

(** ** The order of plain instances and of nodewise keys *)

(** [a < b] on two-component tuples. *)
Definition prod_ltb {A B} `{EqDecision A} (ltbA : A → A → bool) (ltbB : B → B → bool)
    (a b : A * B) : bool :=
  if decide (a.1 = b.1) then ltbB a.2 b.2 else ltbA a.1 b.1.

(** [a < b] on lists of label definitions. *)
Definition defs_ltb : list plain_key → list plain_key → bool := lex_ltb plain_key_ltb.

(** What [full_comparison] looks at in a plain instance. *)
Definition plain_view (p : Plain) : list (Z * Z) * list plain_key :=
  (p_label_pairings p, p_label_definitions p).

(** [p < q] for plain instances whose comparison does not raise. *)
Definition plain_ltb (p q : Plain) : bool :=
  prod_ltb pairs_ltb defs_ltb (plain_view p) (plain_view q).

(** The pure counterpart of [nodewise_key_lt]. *)
Definition nodewise_key_ltb (a b : nodewise_key) : bool :=
  prod_ltb int_ltb plain_ltb a b.

(** ** The order of canonical forms *)

(** [a < b] for the canonical forms of two top-level instances: by
    [ordered_labels], then by [matrix]. *)
Definition cf_ltb (a b : CanonicalForm) : bool :=
  prod_ltb list_ltb matrix_ltb (ordered_labels a, matrix a) (ordered_labels b, matrix b).

(** A canonical form as [set_canonical_form] leaves it has one matrix row
    for each label. *)
Definition cf_wf (cf : CanonicalForm) : Prop :=
  length (matrix cf) = length (ordered_labels cf).

(** ** The order of instances *)

(** The instances that [full_comparison] can compare: plain ones with their
    label definitions in place and top-level ones with their canonical form
    (a servant has no [ordered_labels]). *)
Definition comparable (i : Instance) : Prop :=
  match i with
  | PlainInstance p => plain_valid p
  | ServantInstance _ _ => False
  | MasterInstance _ cf => cf_wf cf
  end.

(** [x < y] for comparable instances: a plain instance is below every
    top-level one. *)
Definition instance_ltb (x y : Instance) : bool :=
  match x, y with
  | PlainInstance p, PlainInstance q => plain_ltb p q
  | PlainInstance _, _ => true
  | MasterInstance _ a, MasterInstance _ b => cf_ltb a b
  | _, _ => false
  end.

(** ** The state of a nodewise refinement loop *)

(** Every node has an overlay, a dict with exactly the nodes as keys. *)
Definition overlays_ok (nodes : list Z) (nodewise_overlays : gmap Z (gmap Z Z)) : Prop :=
  ∀ n, n ∈ nodes → ∃ ov, nodewise_overlays !! n = Some ov ∧ dom_is nodes ov.

(** The plain instance that [get_new_ids_in_order] builds from an overlay. *)
Definition nodewise_sub (fuel : nat) (G : Graph) (nodes : list Z) (H : Z)
    (internal_labels overlay : gmap Z Z) : result Plain :=
  new_labels ← dict_comprehension
                  (λ n, o ← getitem overlay n;
                        l ← getitem internal_labels n;
                        Ok (overlay_key H o l)) nodes;
  plain_instance fuel G new_labels.

(** The key that [get_new_ids_in_order] computes for a node of a nodewise
    instance. *)
Definition nodewise_key_of (fuel : nat) (G : Graph) (nodes : list Z) (H : Z)
    (internal_labels : gmap Z Z) (nodewise_overlays : gmap Z (gmap Z Z)) (node : Z)
  : nodewise_key :=
  (label_of internal_labels node,
   match nodewise_sub fuel G nodes H internal_labels
           (default ∅ (nodewise_overlays !! node)) with
   | Ok p => p
   | _ => some_plain
   end).

(** What holds of a nodewise instance built for the graph [G] with the
    labels [L]. *)
Definition nodewise_ready (G : Graph) (L : gmap Z Z) (self : Nodewise) : Prop :=
  nw_initial_nodes self = nodes_of G ∧
  nw_initial_G self = G ∧
  nw_nodes self = nodes_of (nw_G self) ∧
  NoDup (nw_nodes self) ∧
  graph_closed (nw_G self) ∧
  nw_G self ≠ [] ∧
  dom_is (nw_nodes self) (nw_internal_labels self) ∧
  dom_is (nw_nodes self) (nw_external_labels self) ∧
  overlays_ok (nw_nodes self) (nw_nodewise_overlays self) ∧
  (∀ n, n ∈ nodes_of G → n ∈ nw_nodes self ∧ nw_external_labels self !! n = L !! n) ∧
  (length (nw_nodes self) ≤ length (nodes_of G) + length (edges_of G))%nat.

(** ** Triangles *)

(** The two endpoints have a common neighbour: what the loop over
    [G.neighbors(edge[0])] in [fancy_expand_graph] looks for. *)
Definition in_triangle (G : Graph) (u v : Z) : bool :=
  bool_decide (Exists (λ w, has_edge G v w = true) (default [] (adj_lookup G u))).

(** The number of edges in the list with a common neighbour of their
    endpoints. *)
Definition triangle_count (G : Graph) (es : list (Z * Z)) : nat :=
  length (filter (λ e, in_triangle G e.1 e.2 = true) es).

(** ** Matching two node orders *)

(** The index of the first occurrence of [n] in [l] ([len(l)] if there is
    none). *)
Fixpoint position (l : list Z) (n : Z) : nat :=
  match l with
  | [] => O
  | m :: l' => if decide (m = n) then O else S (position l' n)
  end.

(** The node of the second order in the place that [n] has in the first. *)
Definition match_orders (o1 o2 : list Z) (n : Z) : Z := default n (o2 !! position o1 n).

(** * Properties *)

(** ** Results *)

Lemma bind_Ok {A B} (m : result A) (f : A → result B) (b : B) :
  m ≫= f = Ok b ↔ ∃ a, m = Ok a ∧ f a = Ok b.
Proof.
  destruct m as [a|e|]; simpl; split; try (intros [a' [? ?]]; discriminate); try discriminate.
  - intros Hf. by exists a.
  - intros [a' [[= <-] Hf]]. exact Hf.
Qed.

Lemma is_Ok_Ok {A} (a : A) : is_Ok (Ok a).
Proof. by exists a. Qed.

Lemma getitem_Ok {V} (d : gmap Z V) k v : getitem d k = Ok v ↔ d !! k = Some v.
Proof. unfold getitem. destruct (d !! k); split; congruence. Qed.

Lemma getitem_Some {V} (d : gmap Z V) k v : d !! k = Some v → getitem d k = Ok v.
Proof. apply getitem_Ok. Qed.

(** Running a loop body that cannot fail. *)
Lemma mapR_Ok {A B} (f : A → result B) (g : A → B) (l : list A) :
  (∀ x, x ∈ l → f x = Ok (g x)) → mapR f l = Ok (g <$> l).
Proof.
  induction l as [|x l IH]; intros Hf; [done|]. simpl.
  rewrite (Hf x) by left. simpl. rewrite IH; [done|].
  intros y Hy. apply Hf. by right.
Qed.

Lemma mapR_Ok_inv {A B} (f : A → result B) (l : list A) (r : list B) :
  mapR f l = Ok r → Forall2 (λ x y, f x = Ok y) l r.
Proof.
  revert r. induction l as [|x l IH]; simpl; intros r H.
  - injection H as <-. constructor.
  - apply bind_Ok in H as [y [Hy H]]. apply bind_Ok in H as [ys [Hys H]].
    injection H as <-. constructor; auto.
Qed.

(** ** max *)

Lemma foldl_max_ge (l : list Z) (x : Z) : x ≤ foldl Z.max x l.
Proof. revert x. induction l as [|y l IH]; simpl; intros x; [lia|]. specialize (IH (x `max` y)). lia. Qed.

Lemma foldl_max_upper (l : list Z) (x y : Z) : y ∈ l → y ≤ foldl Z.max x l.
Proof.
  revert x. induction l as [|z l IH]; simpl; intros x Hy; [by apply elem_of_nil in Hy|].
  apply elem_of_cons in Hy as [->|Hy]; [|by apply IH].
  pose proof (foldl_max_ge l (x `max` z)). lia.
Qed.

Lemma foldl_max_elem (l : list Z) (x : Z) : foldl Z.max x l = x ∨ foldl Z.max x l ∈ l.
Proof.
  revert x. induction l as [|z l IH]; simpl; intros x; [by left|].
  destruct (IH (x `max` z)) as [H|H].
  - rewrite H. destruct (Z.max_spec x z) as [[_ ->]|[_ ->]]; [right; left|by left].
  - right. by right.
Qed.

Lemma py_max_spec (l : list Z) (m : Z) :
  py_max l = Ok m → m ∈ l ∧ ∀ x, x ∈ l → x ≤ m.
Proof.
  destruct l as [|y l]; simpl; [discriminate|]. intros [= <-]. split.
  - destruct (foldl_max_elem l y) as [->|H]; [left|by right].
  - intros x [->|Hx]%elem_of_cons; [apply foldl_max_ge|by apply foldl_max_upper].
Qed.

Lemma py_max_Ok (l : list Z) : l ≠ [] → ∃ m, py_max l = Ok m.
Proof. destruct l; [done|]. intros _. by eexists. Qed.

Lemma elem_of_dict_values (d : gmap Z Z) (v : Z) :
  v ∈ dict_values d ↔ ∃ k, d !! k = Some v.
Proof.
  unfold dict_values. rewrite list_elem_of_fmap. split.
  - intros [[k v'] [-> H]]. exists k. by apply elem_of_map_to_list.
  - intros [k H]. exists (k, v). split; [done|]. by apply elem_of_map_to_list.
Qed.

Lemma dict_values_nonempty (d : gmap Z Z) k v : d !! k = Some v → dict_values d ≠ [].
Proof.
  intros H Hnil. assert (v ∈ dict_values d) as Hv by (apply elem_of_dict_values; eauto).
  rewrite Hnil in Hv. by apply elem_of_nil in Hv.
Qed.

(** ** Orders *)

Section orders.
Context {A : Type} `{EqDecision A}.

Lemma StrictTotal_weak (ltb : A → A → bool) : StrictTotal ltb → StrictWeak ltb.
Proof.
  intros [Hi Ht Htot]. split; [done|done|].
  intros x y z Hxy Hyz. destruct (ltb x z) eqn:Hxz; [|done].
  destruct (Htot x y) as [->|[H|H]]; [congruence|congruence|].
  rewrite (Ht y x z H Hxz) in Hyz. done.
Qed.

Lemma StrictWeak_asym (ltb : A → A → bool) x y :
  StrictWeak ltb → ltb x y = true → ltb y x = false.
Proof.
  intros [Hi Ht _] Hxy. destruct (ltb y x) eqn:Hyx; [|done].
  by rewrite <- (Hi x), (Ht x y x Hxy Hyx).
Qed.

Lemma lex_ltb_irrefl (ltb : A → A → bool) (l : list A) : lex_ltb ltb l l = false.
Proof. induction l as [|x l IH]; simpl; [done|]. by rewrite decide_True. Qed.

Lemma lex_ltb_StrictTotal (ltb : A → A → bool) :
  StrictTotal ltb → StrictTotal (lex_ltb ltb).
Proof.
  intros [Hi Ht Htot]. split.
  - apply lex_ltb_irrefl.
  - intros x. induction x as [|a x IH]; intros [|b y] [|c z]; simpl; try done.
    destruct (decide (a = b)) as [->|Hab]; destruct (decide (b = c)) as [->|Hbc].
    + apply IH.
    + done.
    + rewrite decide_False by done. done.
    + intros H1 H2. destruct (decide (a = c)) as [->|Hac].
      * pose proof (Ht c b c H1 H2) as Hcc. rewrite Hi in Hcc. done.
      * by apply (Ht a b c).
  - intros x. induction x as [|a x IH]; intros [|b y]; simpl; auto.
    destruct (decide (a = b)) as [->|Hab].
    + rewrite decide_True by done. destruct (IH y) as [->|[H|H]]; auto.
    + rewrite decide_False by done. destruct (Htot a b) as [?|[H|H]]; auto.
Qed.

Lemma StrictWeak_proj {B} (f : B → A) (ltb : A → A → bool) :
  StrictWeak ltb → StrictWeak (λ a b, ltb (f a) (f b)).
Proof. intros [Hi Ht Hn]. split; eauto. Qed.
End orders.

Lemma int_ltb_StrictTotal : StrictTotal int_ltb.
Proof.
  unfold int_ltb. split.
  - intros x. apply bool_decide_eq_false. lia.
  - intros x y z H1%bool_decide_eq_true H2%bool_decide_eq_true. apply bool_decide_eq_true. lia.
  - intros x y. rewrite !bool_decide_eq_true. lia.
Qed.

Lemma list_ltb_StrictTotal : StrictTotal list_ltb.
Proof. apply lex_ltb_StrictTotal, int_ltb_StrictTotal. Qed.

Lemma pair_ltb_StrictTotal : StrictTotal pair_ltb.
Proof.
  unfold pair_ltb, int_ltb. split.
  - intros [a b]. simpl. rewrite decide_True by done. apply bool_decide_eq_false. lia.
  - intros [a b] [c d] [e f]. simpl. repeat case_decide; subst;
      rewrite !bool_decide_eq_true; lia.
  - intros [a b] [c d]. simpl.
    destruct (decide (a = c)) as [->|Hac].
    + rewrite decide_True by done. rewrite !bool_decide_eq_true.
      destruct (decide (b = d)) as [->|?]; [by left|right; lia].
    + rewrite decide_False by done. rewrite !bool_decide_eq_true. right. lia.
Qed.
Lemma pairs_ltb_StrictTotal : StrictTotal pairs_ltb.
Proof. apply lex_ltb_StrictTotal, pair_ltb_StrictTotal. Qed.

Lemma plain_key_ltb_StrictTotal : StrictTotal plain_key_ltb.
Proof.
  destruct list_ltb_StrictTotal as [Li Lt Ltot].
  unfold plain_key_ltb, int_ltb. split.
  - intros [a b]. simpl. rewrite decide_True by done. apply Li.
  - intros [a b] [c d] [e f]. simpl. repeat case_decide; subst;
      rewrite ?bool_decide_eq_true; try lia; try done. apply Lt.
  - intros [a b] [c d]. simpl.
    destruct (decide (a = c)) as [->|Hac].
    + rewrite decide_True by done. destruct (Ltot b d) as [->|[?|?]]; auto.
    + rewrite decide_False by done. rewrite !bool_decide_eq_true. right. lia.
Qed.

(** ** Sorting *)

Section sort_facts.
Context {A : Type} (lt : A → A → result bool) (ltb : A → A → bool).
Context (Hsw : StrictWeak ltb).

Lemma sort_insert_spec (x : A) (s : list A) :
  (∀ y, y ∈ s → lt y x = Ok (ltb y x)) →
  StronglySorted (not_after ltb) s →
  ∃ r, sort_insert lt x s = Ok r ∧ r ≡ₚ x :: s ∧ StronglySorted (not_after ltb) r.
Proof.
  induction s as [|y s IH]; intros Hlt Hs; simpl.
  - exists [x]. repeat split; [done|]. repeat constructor.
  - rewrite (Hlt y) by left. simpl.
    apply StronglySorted_inv in Hs as [Hs Hy].
    destruct (ltb y x) eqn:Hyx.
    + destruct IH as [r [-> [Hp Hr]]]; [intros; apply Hlt; by right|done|]. simpl.
      exists (y :: r). split; [done|]. split.
      * rewrite Hp. apply Permutation_swap.
      * constructor; [done|]. rewrite Hp. constructor; [|done].
        unfold not_after. by apply StrictWeak_asym.
    + exists (x :: y :: s). split; [done|]. split; [done|].
      constructor; [by constructor|]. constructor; [done|].
      eapply Forall_impl; [exact Hy|]. unfold not_after. intros z Hz.
      destruct Hsw as [_ _ Hn]. by apply (Hn z y x).
Qed.

Lemma py_sort_spec (l : list A) :
  (∀ x y, x ∈ l → y ∈ l → lt x y = Ok (ltb x y)) →
  ∃ s, py_sort lt l = Ok s ∧ s ≡ₚ l ∧ StronglySorted (not_after ltb) s.
Proof.
  induction l as [|x l IH]; intros Hlt; simpl.
  - exists []. repeat split; [done|constructor].
  - destruct IH as [s [-> [Hp Hs]]]; [intros; apply Hlt; by right|]. simpl.
    destruct (sort_insert_spec x s) as [r [-> [Hp' Hr]]]; [|done|].
    + intros y Hy. apply Hlt; [|left]. right. by rewrite <- Hp.
    + exists r. split; [done|]. split; [|done]. by rewrite Hp', Hp.
Qed.
End sort_facts.

Lemma StronglySorted_weaken {A} (R S : A → A → Prop) (l : list A) :
  (∀ a b, R a b → S a b) → StronglySorted R l → StronglySorted S l.
Proof.
  intros HRS. induction 1 as [|a l Hl IH Ha]; constructor; [done|].
  eapply Forall_impl; [exact Ha|]. intros b. apply HRS.
Qed.

Lemma sort_Z_spec (l : list Z) :
  sort_Z l ≡ₚ l ∧ StronglySorted Z.le (sort_Z l).
Proof.
  unfold sort_Z.
  destruct (py_sort_spec (λ a b, Ok (int_ltb a b)) int_ltb
              (StrictTotal_weak _ int_ltb_StrictTotal) l) as [s [-> [Hp Hs]]]; [done|].
  split; [done|]. eapply StronglySorted_weaken; [|exact Hs].
  unfold not_after, int_ltb. intros a b H%bool_decide_eq_false. lia.
Qed.

(** ** networkx.Graph *)

Lemma elem_of_nodes_of (G : Graph) (n : Z) : n ∈ nodes_of G ↔ is_Some (adj_lookup G n).
Proof.
  unfold nodes_of. induction G as [|[m ns] G IH]; simpl.
  - split; [by intros ?%elem_of_nil|by intros [? ?]].
  - rewrite elem_of_cons, IH. case_decide; subst; split; eauto. intros [?|?]; [congruence|done].
Qed.

Lemma has_node_true (G : Graph) (n : Z) : has_node G n = true ↔ n ∈ nodes_of G.
Proof. unfold has_node. apply bool_decide_eq_true. Qed.

Lemma has_edge_true (G : Graph) (u v : Z) :
  has_edge G u v = true ↔ ∃ ns, adj_lookup G u = Some ns ∧ v ∈ ns.
Proof.
  unfold has_edge. destruct (adj_lookup G u) as [ns|].
  - rewrite bool_decide_eq_true. split; [eauto|]. by intros [? [[= <-] ?]].
  - split; [done|]. by intros [? [? ?]].
Qed.

Lemma has_edge_node (G : Graph) (u v : Z) : has_edge G u v = true → u ∈ nodes_of G.
Proof. intros [ns [H _]]%has_edge_true. apply elem_of_nodes_of. eauto. Qed.

Lemma adj_lookup_elem (G : Graph) (n : Z) (ns : list Z) :
  adj_lookup G n = Some ns → (n, ns) ∈ G.
Proof.
  induction G as [|[m ms] G IH]; simpl; [done|].
  case_decide; subst; [intros [= ->]; left|intros; right; auto].
Qed.

Lemma elem_adj_lookup (G : Graph) (n : Z) (ns : list Z) :
  NoDup (nodes_of G) → (n, ns) ∈ G → adj_lookup G n = Some ns.
Proof.
  unfold nodes_of. induction G as [|[m ms] G IH]; simpl; [by intros _ ?%elem_of_nil|].
  intros [Hm Hnd]%NoDup_cons [[= -> ->]|Hin]%elem_of_cons.
  - by rewrite decide_True.
  - rewrite decide_False; [by apply IH|]. intros ->. apply Hm.
    apply list_elem_of_fmap. by exists (n, ns).
Qed.

Lemma adj_lookup_app (G G' : Graph) (n : Z) :
  adj_lookup (G ++ G') n =
    match adj_lookup G n with Some ns => Some ns | None => adj_lookup G' n end.
Proof. induction G as [|[m ms] G IH]; simpl; [done|]. by case_decide. Qed.

Lemma nodes_of_add_node (G : Graph) (n : Z) :
  nodes_of (add_node G n) = if has_node G n then nodes_of G else nodes_of G ++ [n].
Proof. unfold add_node, nodes_of. destruct (has_node G n); [done|]. by rewrite fmap_app. Qed.

Lemma elem_of_nodes_add_node (G : Graph) (n x : Z) :
  x ∈ nodes_of (add_node G n) ↔ x ∈ nodes_of G ∨ x = n.
Proof.
  rewrite nodes_of_add_node. destruct (has_node G n) eqn:Hn.
  - apply has_node_true in Hn. split; [auto|]. by intros [?| ->].
  - rewrite elem_of_app, list_elem_of_singleton. done.
Qed.

Lemma NoDup_nodes_add_node (G : Graph) (n : Z) :
  NoDup (nodes_of G) → NoDup (nodes_of (add_node G n)).
Proof.
  intros Hnd. rewrite nodes_of_add_node. destruct (has_node G n) eqn:Hn; [done|].
  apply NoDup_app. split; [done|]. split; [|apply NoDup_singleton].
  intros x Hx ->%list_elem_of_singleton. apply has_node_true in Hx. congruence.
Qed.

Lemma has_edge_add_node (G : Graph) (n x y : Z) :
  has_edge (add_node G n) x y = has_edge G x y.
Proof.
  unfold add_node. destruct (has_node G n) eqn:Hn; [done|].
  unfold has_edge. rewrite adj_lookup_app. destruct (adj_lookup G x); [done|]. simpl.
  case_decide; [|done]. apply bool_decide_eq_false. by intros ?%elem_of_nil.
Qed.

Lemma nodes_of_adj_add (G : Graph) (u v : Z) : nodes_of (adj_add G u v) = nodes_of G.
Proof.
  unfold nodes_of. induction G as [|[m ms] G IH]; csimpl; [done|].
  case_decide; csimpl; [done|]. by rewrite IH.
Qed.

Lemma adj_lookup_adj_add (G : Graph) (u v x : Z) :
  adj_lookup (adj_add G u v) x =
    if decide (x = u)
    then (λ ns, if bool_decide (v ∈ ns) then ns else ns ++ [v]) <$> adj_lookup G u
    else adj_lookup G x.
Proof.
  induction G as [|[m ms] G IH]; simpl.
  - by case_decide.
  - destruct (decide (m = u)) as [-> |Hmu]; simpl.
    + destruct (decide (u = x)) as [-> |Hux].
      * by rewrite decide_True.
      * rewrite decide_False by done. done.
    + destruct (decide (m = x)) as [-> |Hmx].
      * by rewrite decide_False.
      * exact IH.
Qed.

Lemma has_edge_adj_add (G : Graph) (u v x y : Z) :
  has_edge (adj_add G u v) x y = true ↔
    has_edge G x y = true ∨ (x = u ∧ y = v ∧ u ∈ nodes_of G).
Proof.
  rewrite !has_edge_true, adj_lookup_adj_add, elem_of_nodes_of.
  destruct (decide (x = u)) as [-> |Hxu].
  - destruct (adj_lookup G u) as [ns|]; simpl.
    + split.
      * intros [ns' [[= <-] Hy]]. case_bool_decide as Hv.
        -- left. eauto.
        -- apply elem_of_app in Hy as [Hy|Hy%list_elem_of_singleton]; [left; eauto|].
           right. eauto.
      * intros [[ns' [[= <-] Hy]]|[_ [-> _]]]; eexists; (split; [done|]).
        -- case_bool_decide; [done|]. apply elem_of_app. by left.
        -- case_bool_decide; [done|]. apply elem_of_app. right. by apply list_elem_of_singleton.
    + split; [by intros [? [? ?]]|]. intros [[? [? ?]]|[_ [_ [? ?]]]]; done.
  - split; [by left|]. intros [?|[? _]]; done.
Qed.

Lemma has_edge_add_edge (G : Graph) (u v x y : Z) :
  has_edge (add_edge G u v) x y = true ↔
    has_edge G x y = true ∨ (x = u ∧ y = v) ∨ (x = v ∧ y = u).
Proof.
  unfold add_edge. rewrite !has_edge_adj_add, !has_edge_add_node.
  rewrite nodes_of_adj_add, !elem_of_nodes_add_node. intuition auto.
Qed.

Lemma elem_of_nodes_add_edge (G : Graph) (u v n : Z) :
  n ∈ nodes_of (add_edge G u v) ↔ n ∈ nodes_of G ∨ n = u ∨ n = v.
Proof.
  unfold add_edge. rewrite !nodes_of_adj_add, !elem_of_nodes_add_node. intuition auto.
Qed.

Lemma NoDup_nodes_add_edge (G : Graph) (u v : Z) :
  NoDup (nodes_of G) → NoDup (nodes_of (add_edge G u v)).
Proof.
  intros H. unfold add_edge. rewrite !nodes_of_adj_add. by do 2 apply NoDup_nodes_add_node.
Qed.

(** ** GraphExpander *)

Lemma expand_edge_spec (el : Z) (nxt : Z) (g : Graph) (ls : gmap Z Z) (edge : Z * Z) :
  ∃ g' ls', expand_edge el (nxt, g, ls) edge = (nxt + 1, g', ls') ∧
    ls' = <[nxt + 1 := el]> ls ∧
    (∀ n, n ∈ nodes_of g' ↔ n ∈ nodes_of g ∨ n = nxt + 1 ∨ n = edge.1 ∨ n = edge.2) ∧
    (NoDup (nodes_of g) → NoDup (nodes_of g')) ∧
    (∀ x y, has_edge g' x y = true ↔
       has_edge g x y = true ∨
       ((x = edge.1 ∨ x = edge.2) ∧ y = nxt + 1) ∨ (x = nxt + 1 ∧ (y = edge.1 ∨ y = edge.2))).
Proof.
  unfold expand_edge. eexists _, _. split; [done|]. split; [done|]. split; [|split].
  - intros n. rewrite !elem_of_nodes_add_edge, elem_of_nodes_add_node. intuition auto.
  - intros H. by do 2 apply NoDup_nodes_add_edge; apply NoDup_nodes_add_node.
  - intros x y. rewrite !has_edge_add_edge, has_edge_add_node. intuition auto.
Qed.

Lemma expand_edges_spec (el : Z) (es : list (Z * Z)) (nxt : Z) (g : Graph) (ls : gmap Z Z) :
  ∃ g' ls', foldl (expand_edge el) (nxt, g, ls) es = (nxt + Z.of_nat (length es), g', ls') ∧
    (∀ n, ls' !! n =
       if decide (nxt < n ≤ nxt + Z.of_nat (length es)) then Some el else ls !! n) ∧
    (∀ n, n ∈ nodes_of g' ↔
       n ∈ nodes_of g ∨ nxt < n ≤ nxt + Z.of_nat (length es) ∨
       ∃ u v, (u, v) ∈ es ∧ (n = u ∨ n = v)) ∧
    (NoDup (nodes_of g) → NoDup (nodes_of g')) ∧
    (∀ x y, has_edge g' x y = true ↔
       has_edge g x y = true ∨
       ∃ i u v, es !! i = Some (u, v) ∧
         (((x = u ∨ x = v) ∧ y = nxt + 1 + Z.of_nat i) ∨
          (x = nxt + 1 + Z.of_nat i ∧ (y = u ∨ y = v)))).
Proof.
  revert nxt g ls. induction es as [|e es IH]; intros nxt g ls.
  - exists g, ls. simpl. split; [f_equal; f_equal; lia|]. split; [|split; [|split]].
    + intros n. rewrite decide_False by lia. done.
    + intros n. split; [auto|]. intros [?|[?|[u [v [?%elem_of_nil _]]]]]; [done|lia|done].
    + done.
    + intros x y. split; [auto|]. intros [?|[i [u [v [? _]]]]]; done.
  - destruct (expand_edge_spec el nxt g ls e) as [g1 [ls1 [He [-> [Hn1 [Hd1 Hh1]]]]]].
    destruct (IH (nxt + 1) g1 (<[nxt + 1 := el]> ls)) as [g' [ls' [Hf [Hl [Hn [Hd Hh]]]]]].
    exists g', ls'. cbn [foldl]. rewrite He, Hf. split; [f_equal; f_equal; simpl length; lia|].
    split; [|split; [|split]].
    + intros n. rewrite Hl. simpl length.
      destruct (decide (n = nxt + 1)) as [-> |Hne].
      * rewrite lookup_insert_eq. repeat case_decide; try done; lia.
      * rewrite lookup_insert_ne by done. repeat case_decide; try done; lia.
    + intros n. rewrite Hn, Hn1. simpl length. destruct e as [u0 v0]. simpl. split.
      * intros [[?|[?|[?|?]]]|[?|[u [v [? ?]]]]]; subst; auto.
        -- right. left. lia.
        -- right. right. exists u0, v0. split; [left|auto].
        -- right. right. exists u0, v0. split; [left|auto].
        -- right. left. lia.
        -- right. right. exists u, v. split; [by right|done].
      * intros [?|[?|[u [v [[[= -> ->]|?]%elem_of_cons ?]]]]].
        -- auto.
        -- destruct (decide (n = nxt + 1)); [auto|]. right. left. lia.
        -- left. intuition auto.
        -- right. right. eauto.
    + auto.
    + intros x y. rewrite Hh, Hh1. destruct e as [u0 v0]. simpl. split.
      * intros [[?|[[? ?]|[? ?]]]|[i [u [v [Hi Hc]]]]].
        -- auto.
        -- right. exists O, u0, v0. split; [done|]. left. split; [done|]. lia.
        -- right. exists O, u0, v0. split; [done|]. right. split; [lia|done].
        -- right. exists (S i), u, v. split; [done|].
           replace (nxt + 1 + Z.of_nat (S i)) with (nxt + 1 + 1 + Z.of_nat i) by lia. done.
      * intros [?|[[|i] [u [v [Hi Hc]]]]].
        -- auto.
        -- injection Hi as -> ->. left. right.
           replace (nxt + 1 + Z.of_nat 0) with (nxt + 1) in Hc by lia. done.
        -- right. exists i, u, v. split; [done|].
           replace (nxt + 1 + Z.of_nat (S i)) with (nxt + 1 + 1 + Z.of_nat i) in Hc by lia. done.
Qed.

Lemma expand_nodes_spec (L : gmap Z Z) (nl : list Z) (g : Graph) (ls : gmap Z Z) :
  (∀ n, n ∈ nl → is_Some (L !! n)) →
  ∃ g' ls',
    foldR (λ '(g, ls) node, l ← getitem L node; Ok (add_node g node, <[node := l]> ls))
      (g, ls) nl = Ok (g', ls') ∧
    (∀ n, ls' !! n = if decide (n ∈ nl) then L !! n else ls !! n) ∧
    (∀ n, n ∈ nodes_of g' ↔ n ∈ nodes_of g ∨ n ∈ nl) ∧
    (NoDup (nodes_of g) → NoDup (nodes_of g')) ∧
    (∀ x y, has_edge g' x y = has_edge g x y).
Proof.
  revert g ls. induction nl as [|a nl IH]; intros g ls HL.
  - exists g, ls. simpl. split; [done|]. split; [|split; [|split]]; try done.
    intros n. split; [auto|]. by intros [?|?%elem_of_nil].
  - destruct (HL a) as [l Hl]; [left|]. simpl. rewrite (getitem_Some _ _ _ Hl). simpl.
    destruct (IH (add_node g a) (<[a := l]> ls)) as [g' [ls' [-> [Hls [Hn [Hd Hh]]]]]].
    { intros n Hn. apply HL. by right. }
    exists g', ls'. split; [done|]. split; [|split; [|split]].
    + intros n. rewrite Hls. destruct (decide (n ∈ nl)) as [Hin|Hin].
      * rewrite decide_True; [done|]. by right.
      * destruct (decide (n = a)) as [-> |Hna].
        -- rewrite lookup_insert_eq, decide_True; [done|left].
        -- rewrite lookup_insert_ne by done. rewrite decide_False; [done|].
           by intros [?|?]%elem_of_cons.
    + intros n. rewrite Hn, elem_of_nodes_add_node, elem_of_cons. intuition auto.
    + intros H. by apply Hd, NoDup_nodes_add_node.
    + intros x y. by rewrite Hh, has_edge_add_node.
Qed.

Lemma StronglySorted_last_max (l : list Z) (x : Z) :
  StronglySorted Z.le l → last l = Some x → ∀ y, y ∈ l → y ≤ x.
Proof.
  induction 1 as [|a l Hl IH Ha]; [done|]. rewrite last_cons.
  destruct (last l) as [z|] eqn:Hz.
  - intros [= ->] y [-> |Hy]%elem_of_cons; [|by apply IH].
    rewrite Forall_forall in Ha. apply Ha. apply last_Some in Hz as [l' ->].
    apply elem_of_app. right. by apply list_elem_of_singleton.
  - intros [= ->] y [-> |Hy]%elem_of_cons; [done|].
    apply last_None in Hz. subst. by apply elem_of_nil in Hy.
Qed.

Lemma list_last_item_spec (l : list Z) :
  l ≠ [] → ∃ x, list_last_item (sort_Z l) = Ok x ∧ x ∈ l ∧ ∀ y, y ∈ l → y ≤ x.
Proof.
  intros Hl. destruct (sort_Z_spec l) as [Hp Hs]. unfold list_last_item.
  destruct (last (sort_Z l)) as [x|] eqn:Hx.
  - exists x. split; [done|]. split.
    + rewrite <- Hp. apply last_Some in Hx as [l' ->]. apply elem_of_app. right.
      by apply list_elem_of_singleton.
    + intros y Hy. apply (StronglySorted_last_max _ _ Hs Hx). by rewrite Hp.
  - apply last_None in Hx. rewrite Hx in Hp. by apply Permutation_nil_l in Hp.
Qed.

Lemma edges_from_app (seen : list Z) (G1 G2 : Graph) :
  edges_from seen (G1 ++ G2) =
    edges_from seen G1 ++ edges_from (reverse (nodes_of G1) ++ seen) G2.
Proof.
  revert seen. induction G1 as [|[n ns] G1 IH]; intros seen; [done|].
  cbn [app edges_from]. rewrite IH, <- app_assoc. do 3 f_equal.
  unfold nodes_of. rewrite fmap_cons, reverse_cons, <- app_assoc. done.
Qed.

Lemma edges_from_elem (seen : list Z) (G : Graph) (u v : Z) :
  (u, v) ∈ edges_from seen G → ∃ ns, (u, ns) ∈ G ∧ v ∈ ns.
Proof.
  revert seen. induction G as [|[n ns] G IH]; intros seen; simpl.
  - by intros ?%elem_of_nil.
  - intros [H|H]%elem_of_app.
    + apply list_elem_of_fmap in H as [w [[= -> ->] Hw]].
      apply list_elem_of_filter in Hw as [_ Hw]. exists ns. split; [left|done].
    + destruct (IH _ H) as [ms [? ?]]. exists ms. split; [by right|done].
Qed.

Lemma graph_wf_elim (G : Graph) :
  graph_wf G →
  NoDup (nodes_of G) ∧
  ∀ n ns, (n, ns) ∈ G → NoDup ns ∧ ∀ v, v ∈ ns → has_edge G v n = true.
Proof.
  intros [Hnd Hf]. split; [done|]. intros n ns Hin.
  rewrite Forall_forall in Hf. destruct (Hf _ Hin) as [? Hs]. split; [done|].
  by rewrite Forall_forall in Hs.
Qed.

Lemma labels_total_elim (G : Graph) (labels : gmap Z Z) :
  labels_total G labels ↔ ∀ n, n ∈ nodes_of G → is_Some (labels !! n).
Proof. unfold labels_total. by rewrite Forall_forall. Qed.

Lemma edges_of_wf (G : Graph) (u v : Z) :
  graph_wf G → (u, v) ∈ edges_of G →
  has_edge G u v = true ∧ has_edge G v u = true ∧ u ∈ nodes_of G ∧ v ∈ nodes_of G.
Proof.
  intros [Hnd Hwf]%graph_wf_elim [ns [Hu Hv]]%edges_from_elem.
  destruct (Hwf u ns Hu) as [_ Hs]. specialize (Hs v Hv).
  assert (has_edge G u v = true) as Huv.
  { apply has_edge_true. exists ns. split; [|done]. by apply elem_adj_lookup. }
  repeat split; try done; by eapply has_edge_node.
Qed.

Lemma edges_of_complete (G : Graph) (u v : Z) :
  graph_wf G → has_edge G u v = true → (u, v) ∈ edges_of G ∨ (v, u) ∈ edges_of G.
Proof.
  intros [Hnd Hwf]%graph_wf_elim Huv. pose proof Huv as [ns [Hns Hv]]%has_edge_true.
  apply adj_lookup_elem in Hns as Hin.
  destruct (Hwf u ns Hin) as [_ Hs]. specialize (Hs v Hv).
  apply list_elem_of_split in Hin as [G1 [G2 ->]].
  destruct (decide (v ∈ nodes_of G1)) as [Hv1|Hv1].
  - right. apply has_edge_true in Hs as [ms [Hms Hu]].
    apply adj_lookup_elem in Hms.
    assert ((v, ms) ∈ G1) as HinG1.
    { apply elem_of_app in Hms as [?|Hms]; [done|].
      exfalso. unfold nodes_of in Hnd. rewrite fmap_app in Hnd.
      apply NoDup_app in Hnd as [_ [Hd _]]. apply (Hd v Hv1).
      apply list_elem_of_fmap. by exists (v, ms). }
    apply list_elem_of_split in HinG1 as [G3 [G4 ->]].
    unfold edges_of. rewrite <- !app_assoc, edges_from_app. apply elem_of_app. right.
    cbn [app edges_from]. apply elem_of_app. left.
    apply list_elem_of_fmap. exists u. split; [done|].
    apply list_elem_of_filter. split; [|done].
    rewrite app_nil_r, elem_of_reverse. intros Hu3.
    unfold nodes_of in Hnd. rewrite !fmap_app in Hnd.
    apply NoDup_app in Hnd as [_ [Hd _]]. apply (Hd u).
    + apply elem_of_app. by left.
    + left.
  - left. unfold edges_of. rewrite edges_from_app. apply elem_of_app. right.
    cbn [edges_from]. apply elem_of_app. left.
    apply list_elem_of_fmap. exists v. split; [done|].
    apply list_elem_of_filter. split; [|done].
    by rewrite app_nil_r, elem_of_reverse.
Qed.

Lemma nodes_of_nonempty (G : Graph) : G ≠ [] → nodes_of G ≠ [].
Proof. by destruct G. Qed.

(** What [expand_graph] builds, for a well-formed, non-empty graph all of
    whose nodes have a label. *)
Lemma expand_graph_Ok (G : Graph) (L : gmap Z Z) :
  graph_wf G → G ≠ [] → labels_total G L →
  ∃ G' L' mx ml,
    expand_graph G L = Ok (G', L') ∧
    py_max (dict_values L) = Ok ml ∧
    mx ∈ nodes_of G ∧ (∀ n, n ∈ nodes_of G → n ≤ mx) ∧
    (∀ n, L' !! n =
       if decide (mx < n ≤ mx + Z.of_nat (length (edges_of G))) then Some (ml + 1)
       else if decide (n ∈ nodes_of G) then L !! n else None) ∧
    (∀ n, n ∈ nodes_of G' ↔
       n ∈ nodes_of G ∨ mx < n ≤ mx + Z.of_nat (length (edges_of G))) ∧
    NoDup (nodes_of G') ∧
    (∀ x y, has_edge G' x y = true ↔
       ∃ i u v, edges_of G !! i = Some (u, v) ∧
         (((x = u ∨ x = v) ∧ y = mx + 1 + Z.of_nat i) ∨
          (x = mx + 1 + Z.of_nat i ∧ (y = u ∨ y = v)))).
Proof.
  intros Hwf Hne HL. rewrite labels_total_elim in HL. unfold expand_graph.
  destruct G as [|[n0 ns0] G0] eqn:HG; [done|]. rewrite <- HG in *.
  assert (n0 ∈ nodes_of G) as Hn0 by (rewrite HG; left).
  destruct (HL n0 Hn0) as [l0 Hl0].
  destruct (py_max_Ok (dict_values L)) as [ml Hml]; [by eapply dict_values_nonempty|].
  rewrite Hml. simpl.
  destruct (list_last_item_spec (nodes_of G)) as [mx [-> [Hmx Hmax]]];
    [by apply nodes_of_nonempty|]. simpl.
  destruct (sort_Z_spec (nodes_of G)) as [Hperm _].
  destruct (expand_nodes_spec L (sort_Z (nodes_of G)) empty_graph ∅)
    as [g0 [ls0 [-> [Hls0 [Hn0' [Hd0 Hh0]]]]]].
  { intros n Hn. apply HL. by rewrite <- Hperm. }
  simpl.
  destruct (expand_edges_spec (ml + 1) (edges_of G) mx g0 ls0)
    as [g' [ls' [-> [Hls [Hn [Hd Hh]]]]]].
  exists g', ls', mx, ml. split; [done|]. split; [done|]. split; [done|]. split; [done|].
  split; [|split; [|split]].
  - intros n. rewrite Hls. case_decide; [done|]. rewrite Hls0.
    destruct (decide (n ∈ nodes_of G)) as [Hin|Hin].
    + rewrite decide_True; [done|]. by rewrite Hperm.
    + rewrite decide_False; [done|]. by rewrite Hperm.
  - intros n. rewrite Hn, Hn0', Hperm. split.
    + intros [[?%elem_of_nil|?]|[?|[u [v [Huv Hc]]]]]; [done|auto|auto|].
      left. apply (edges_of_wf _ _ _ Hwf) in Huv as [_ [_ [? ?]]]. by destruct Hc as [-> | ->].
    + intros [?|?]; auto.
  - apply Hd, Hd0. constructor.
  - intros x y. rewrite Hh, Hh0. split; [|auto].
    intros [H|H]; [|done]. unfold has_edge in H. simpl in H. done.
Qed.

(** C7: for a non-empty graph whose nodes all have a label, [expand_graph]
    keeps every node with its label, gives every edge [(u, v)] a fresh node
    with the label one above the maximum label and adjacent to exactly [u]
    and [v], leaves no two original nodes adjacent, and numbers the fresh
    nodes strictly above the maximum original node. *)
Theorem expand_graph_replaces_edges (G : Graph) (L : gmap Z Z) :
  graph_wf G → G ≠ [] → labels_total G L →
  ∃ G' L' mx ml,
    expand_graph G L = Ok (G', L') ∧
    (ml ∈ dict_values L ∧ ∀ l, l ∈ dict_values L → l ≤ ml) ∧
    (mx ∈ nodes_of G ∧ ∀ n, n ∈ nodes_of G → n ≤ mx) ∧
    (∀ n, n ∈ nodes_of G → n ∈ nodes_of G' ∧ (L' !! n = L !! n)) ∧
    (∀ u v, has_edge G u v = true →
       ∃ e, e ∈ nodes_of G' ∧ (e ∉ nodes_of G) ∧ L' !! e = Some (ml + 1) ∧
            ∀ y, has_edge G' e y = true ↔ y = u ∨ y = v) ∧
    (∀ u v, u ∈ nodes_of G → v ∈ nodes_of G → has_edge G' u v = false) ∧
    (∀ n, n ∈ nodes_of G' → n ∉ nodes_of G → mx < n).
Proof.
  intros Hwf Hne HL.
  destruct (expand_graph_Ok G L Hwf Hne HL)
    as [G' [L' [mx [ml [He [Hml [Hmx [Hmax [HL' [Hn [_ Hh]]]]]]]]]]].
  exists G', L', mx, ml. split; [done|]. split; [by apply py_max_spec|]. split; [done|].
  assert (∀ i u v, edges_of G !! i = Some (u, v) → u ≤ mx ∧ v ≤ mx) as Hends.
  { intros i u v Hi. apply list_elem_of_lookup_2 in Hi.
    apply (edges_of_wf _ _ _ Hwf) in Hi as [_ [_ [? ?]]]. auto. }
  split; [|split; [|split]].
  - intros n Hin. split; [apply Hn; by left|]. rewrite HL'.
    rewrite decide_False; [by rewrite decide_True|]. specialize (Hmax n Hin). lia.
  - intros u v Huv.
    assert (∃ i, edges_of G !! i = Some (u, v) ∨ edges_of G !! i = Some (v, u)) as [i Hi].
    { destruct (edges_of_complete G u v Hwf Huv) as [H|H];
        apply list_elem_of_lookup_1 in H as [i Hi]; eauto. }
    assert (i < length (edges_of G))%nat as Hlt.
    { destruct Hi as [Hi|Hi]; by apply lookup_lt_Some in Hi. }
    exists (mx + 1 + Z.of_nat i). split; [apply Hn; right; lia|]. split; [|split].
    + intros Hin. specialize (Hmax _ Hin). lia.
    + rewrite HL'. rewrite decide_True; [done|lia].
    + intros y. rewrite Hh. split.
      * intros [j [u' [v' [Hj [[Hc _]|[Hc Hy]]]]]].
        -- destruct (Hends j u' v' Hj). lia.
        -- assert (j = i) as -> by lia. destruct Hi as [Hi|Hi]; rewrite Hi in Hj;
             injection Hj as <- <-; tauto.
      * intros Hy. destruct Hi as [Hi|Hi].
        -- exists i, u, v. split; [done|]. right. done.
        -- exists i, v, u. split; [done|]. right. tauto.
  - intros u v Hu Hv. destruct (has_edge G' u v) eqn:Huv; [|done].
    apply Hh in Huv as [i [u' [v' [Hi [[_ Hc]|[Hc _]]]]]].
    + specialize (Hmax _ Hv). lia.
    + specialize (Hmax _ Hu). lia.
  - intros n Hin Hnin. apply Hn in Hin as [?|?]; [done|lia].
Qed.

Lemma expand_graph_replaces_edges_witness :
  ∃ G' L' mx ml,
    expand_graph path3 (default_labels path3) = Ok (G', L') ∧
    (ml ∈ dict_values (default_labels path3) ∧
     ∀ l, l ∈ dict_values (default_labels path3) → l ≤ ml) ∧
    (mx ∈ nodes_of path3 ∧ ∀ n, n ∈ nodes_of path3 → n ≤ mx) ∧
    (∀ n, n ∈ nodes_of path3 → n ∈ nodes_of G' ∧ (L' !! n = default_labels path3 !! n)) ∧
    (∀ u v, has_edge path3 u v = true →
       ∃ e, e ∈ nodes_of G' ∧ (e ∉ nodes_of path3) ∧ L' !! e = Some (ml + 1) ∧
            ∀ y, has_edge G' e y = true ↔ y = u ∨ y = v) ∧
    (∀ u v, u ∈ nodes_of path3 → v ∈ nodes_of path3 → has_edge G' u v = false) ∧
    (∀ n, n ∈ nodes_of G' → n ∉ nodes_of path3 → mx < n).
Proof.
  apply (expand_graph_replaces_edges path3 (default_labels path3)).
  - apply (bool_decide_unpack (graph_wf path3)). vm_compute. exact I.
  - discriminate.
  - apply (bool_decide_unpack (labels_total path3 (default_labels path3))).
    vm_compute. exact I.
Defined.

(** ** The bound on the internal labels *)

Lemma overlay_key_inj (H o1 l1 o2 l2 : Z) :
  0 ≤ l1 < H → 0 ≤ l2 < H → overlay_key H o1 l1 = overlay_key H o2 l2 → o1 = o2 ∧ l1 = l2.
Proof. unfold overlay_key. intros H1 H2 Heq. assert (o1 = o2) by nia. subst. lia. Qed.

(** C3, as the code has it: the bound [H] is strictly greater than every
    label and at least the node count (not strictly greater), and with it
    [overlay * H + label] has no collision for labels in [0, H). *)
Theorem higher_than_any_internal_label_bound (nodes : list Z) (internal_labels : gmap Z Z) :
  internal_labels ≠ ∅ →
  ∃ H, higher_than_any_internal_label nodes internal_labels = Ok H ∧
    Z.of_nat (length nodes) ≤ H ∧
    (∀ n l, internal_labels !! n = Some l → l < H) ∧
    (∀ o1 l1 o2 l2, 0 ≤ l1 < H → 0 ≤ l2 < H →
       overlay_key H o1 l1 = overlay_key H o2 l2 → o1 = o2 ∧ l1 = l2).
Proof.
  intros Hne. apply map_choose in Hne as [k [v Hkv]].
  unfold higher_than_any_internal_label.
  destruct (py_max_Ok (dict_values internal_labels)) as [m Hm];
    [by eapply dict_values_nonempty|].
  rewrite Hm. simpl. eexists. split; [done|]. split; [lia|]. split.
  - intros n l Hl. apply py_max_spec in Hm as [_ Hm].
    specialize (Hm l). rewrite elem_of_dict_values in Hm.
    assert (l ≤ m) by eauto. lia.
  - intros o1 l1 o2 l2. apply overlay_key_inj.
Qed.

Lemma higher_than_any_internal_label_bound_witness :
  ∃ H, higher_than_any_internal_label [0; 1; 2] all_ten = Ok H ∧
    Z.of_nat (length [0; 1; 2]) ≤ H ∧
    (∀ n l, all_ten !! n = Some l → l < H) ∧
    (∀ o1 l1 o2 l2, 0 ≤ l1 < H → 0 ≤ l2 < H →
       overlay_key H o1 l1 = overlay_key H o2 l2 → o1 = o2 ∧ l1 = l2).
Proof.
  apply (higher_than_any_internal_label_bound [0; 1; 2] all_ten).
  intros Hempty. assert (all_ten !! 0 = (∅ : gmap Z Z) !! 0) as Habs by (by rewrite Hempty).
  vm_compute in Habs. discriminate.
Defined.

(** C3 as stated fails: on the path 0 - 1 - 2 with all labels 0 the engine
    computes [H = 5], the number of nodes of the expanded graph, which is not
    strictly greater than the node count. *)
Lemma higher_than_any_internal_label_not_above_node_count :
  ∃ self L,
    nodewise_init 5 path3 (default_labels path3) = Ok (self, L) ∧
    nw_higher_than_any_internal_label self = 5 ∧
    Z.of_nat (length (nw_nodes self)) = 5 ∧
    ¬ (Z.of_nat (length (nw_nodes self)) < nw_higher_than_any_internal_label self).
Proof.
  eexists _, _. split; [vm_compute; reflexivity|]. simpl. repeat split; lia.
Qed.

(** ** Comparing a nodewise and a plain instance *)

(** C4, as the code has it: comparing a plain instance with a nodewise one
    prints a message and returns -1, the other way round it prints the
    message and returns 1; neither aborts. *)
Theorem full_comparison_mixed (p : Plain) (other : Instance) :
  nodewise other = true →
  full_comparison (PlainInstance p) other = Ok ([never_occur], -1) ∧
  full_comparison other (PlainInstance p) = Ok ([never_occur], 1).
Proof. intros Hn. unfold full_comparison. simpl. rewrite Hn. done. Qed.

Lemma full_comparison_mixed_witness :
  full_comparison (PlainInstance some_plain)
    (MasterInstance some_nodewise some_canonical_form) = Ok ([never_occur], -1) ∧
  full_comparison (MasterInstance some_nodewise some_canonical_form)
    (PlainInstance some_plain) = Ok ([never_occur], 1).
Proof. apply (full_comparison_mixed some_plain). reflexivity. Defined.

(** C4 as stated fails: the comparison of a plain instance with a top-level
    one returns the verdict -1, and [==] answers [False], instead of
    aborting. *)
Lemma full_comparison_mixed_returns :
  ∃ p m cf,
    plain_instance 1 [(0, [])] (default_labels [(0, [])]) = Ok p ∧
    master_instance 1 [(0, [])] None = Ok (m, cf) ∧
    full_comparison (PlainInstance p) (MasterInstance m cf) = Ok ([never_occur], -1) ∧
    instance_eq (PlainInstance p) (MasterInstance m cf) = Ok false.
Proof.
  eexists _, _, _. split; [vm_compute; reflexivity|]. split; [vm_compute; reflexivity|].
  split; reflexivity.
Qed.

(** ** The empty graph and graphs without edges *)

Lemma edges_of_nil_has_edge (G : Graph) :
  NoDup (nodes_of G) → (∀ x y, has_edge G x y = false) → edges_of G = [].
Proof.
  intros Hnd Hno. destruct (edges_of G) as [|[u v] es] eqn:He; [done|].
  assert ((u, v) ∈ edges_of G) as Hin by (rewrite He; left).
  apply edges_from_elem in Hin as [ns [Hu Hv]].
  assert (has_edge G u v = true) as Hc.
  { apply has_edge_true. exists ns. split; [by apply elem_adj_lookup|done]. }
  by rewrite Hno in Hc.
Qed.

(** C2, as the code has it: for the empty graph the construction raises an
    error (the [max] of an empty sequence with the default labels) and no
    canonical form is returned; [expand_graph] does not fail on a non-empty
    graph without edges and returns its nodes with their labels and no
    edge. *)
Theorem empty_graph_raises_and_zero_edges_expand :
  (∀ fuel, canonicalize fuel empty_graph None = Raise ValueError) ∧
  (∀ fuel L, ∃ e, canonicalize fuel empty_graph (Some L) = Raise e) ∧
  (∀ G L, graph_wf G → G ≠ [] → labels_total G L → edges_of G = [] →
     ∃ G' L', expand_graph G L = Ok (G', L') ∧
       nodes_of G' ≡ₚ nodes_of G ∧ edges_of G' = [] ∧
       ∀ n, n ∈ nodes_of G → L' !! n = L !! n).
Proof.
  split; [done|]. split.
  - intros fuel L. unfold canonicalize, master_instance, nodewise_init, nodewise_setup,
      expand_graph. simpl.
    destruct (py_max (dict_values L)) as [m|e|] eqn:Hm; simpl; [|eauto|].
    + exists IndexError. reflexivity.
    + unfold py_max in Hm. destruct (dict_values L); discriminate.
  - intros G L Hwf Hne HL He.
    destruct (expand_graph_Ok G L Hwf Hne HL)
      as [G' [L' [mx [ml [Hex [Hml [Hmx [Hmax [HL' [Hn [Hnd Hh]]]]]]]]]]].
    rewrite He in *. simpl in *.
    exists G', L'. split; [done|]. split; [|split].
    + apply NoDup_Permutation; [done|by apply graph_wf_elim|].
      intros n. rewrite Hn. split; [intros [?|?]; [done|lia]|auto].
    + apply edges_of_nil_has_edge; [done|]. intros x y.
      destruct (has_edge G' x y) eqn:Hxy; [|done].
      apply Hh in Hxy as [i [u [v [Hi _]]]]. done.
    + intros n Hin. rewrite HL'. rewrite decide_False by lia. by rewrite decide_True.
Qed.

Lemma empty_graph_raises_and_zero_edges_expand_witness :
  ∃ G' L', expand_graph three_isolated all_ten = Ok (G', L') ∧
    nodes_of G' ≡ₚ nodes_of three_isolated ∧ edges_of G' = [] ∧
    ∀ n, n ∈ nodes_of three_isolated → L' !! n = all_ten !! n.
Proof.
  apply (proj2 (proj2 empty_graph_raises_and_zero_edges_expand) three_isolated all_ten).
  - apply (bool_decide_unpack (graph_wf three_isolated)). vm_compute. exact I.
  - discriminate.
  - apply (bool_decide_unpack (labels_total three_isolated all_ten)). vm_compute. exact I.
  - reflexivity.
Defined.

(** C2 as stated fails: canonicalizing the empty graph raises [ValueError]. *)
Lemma canonicalize_empty_graph_raises :
  canonicalize 1 empty_graph None = Raise ValueError.
Proof. reflexivity. Qed.

(** ** Individualization *)

(** What [__init__] stores as the overlay of [node]: the external labels,
    and for [node] itself one more than the maximum of the head start. *)
Lemma initial_overlay_spec (G : Graph) (nodes : list Z) (basic external : gmap Z Z)
    (node : Z) (overlay : gmap Z Z) :
  initial_overlay G nodes basic external node = Ok overlay →
  ∃ max_value,
    head_start_max_value G nodes basic node = Ok max_value ∧
    overlay !! node = Some (max_value + 1) ∧
    ∃ ext, dict_comprehension (getitem external) nodes = Ok ext ∧
      ∀ n, n ≠ node → overlay !! n = ext !! n.
Proof.
  unfold initial_overlay. intros [mv [Hmv H]]%bind_Ok.
  apply bind_Ok in H as [ext [Hext [= <-]]].
  exists mv. split; [done|]. split; [apply lookup_insert_eq|].
  exists ext. split; [done|]. intros n Hn. by rewrite lookup_insert_ne.
Qed.

(** C8 fails on the edge 0 - 1 with the isolated node 2 and every label 10:
    the maximum of the discarded head start of node 0 is 9, so the overlay of
    node 0 maps node 0 to 10, the value it maps nodes 1 and 2 to, and below
    the 11 of the edge node 3.  Node 0 is not individualized. *)
Theorem initial_overlay_not_individualized :
  ∃ self eG L basic overlay,
    nodewise_setup 4 edge01_and_2 all_ten = Ok (self, L) ∧
    expand_graph edge01_and_2 all_ten = Ok (eG, L) ∧
    plain_instance 4 eG L = Ok basic ∧
    head_start_max_value eG (nodes_of eG) (p_internal_labels basic) 0 = Ok 9 ∧
    initial_overlay eG (nodes_of eG) (p_internal_labels basic) (nw_external_labels self) 0
      = Ok overlay ∧
    nw_nodewise_overlays self !! 0 = Some overlay ∧
    overlay !! 0 = Some 10 ∧ overlay !! 1 = Some 10 ∧ overlay !! 2 = Some 10 ∧
    overlay !! 3 = Some 11.
Proof.
  eexists _, _, _, _, _. split; [vm_compute; reflexivity|].
  split; [vm_compute; reflexivity|].
  split; [vm_compute; reflexivity|].
  split; [vm_compute; reflexivity|].
  split; [vm_compute; reflexivity|].
  repeat split; vm_compute; reflexivity.
Qed.

(** ** Isomorphism invariance *)

(** [edge12_and_0] is [edge01_and_2] under the permutation [rotate3], which
    preserves the labels [all_ten]. *)
Lemma edge12_and_0_is_rotated :
  same_graph edge12_and_0 (rename_graph rotate3 edge01_and_2) ∧
  rename_labels rotate3 (nodes_of edge01_and_2) all_ten = all_ten ∧
  (∀ n, n ∈ nodes_of edge01_and_2 → all_ten !! rotate3 n = all_ten !! n).
Proof.
  split; [split|split].
  - apply (bool_decide_unpack _). vm_compute. exact I.
  - intros u v. unfold has_edge.
    destruct (decide (u = 0)) as [-> |?]; [|destruct (decide (u = 1)) as [-> |?];
      [|destruct (decide (u = 2)) as [-> |?]]].
    + reflexivity.
    + simpl. apply bool_decide_ext. rewrite !list_elem_of_singleton. done.
    + simpl. apply bool_decide_ext. rewrite !list_elem_of_singleton. done.
    + simpl. rewrite !decide_False by done. done.
  - apply map_eq. intros k. 
    destruct (decide (k = 0)) as [-> |?]; [done|].
    destruct (decide (k = 1)) as [-> |?]; [done|].
    destruct (decide (k = 2)) as [-> |?]; [done|].
    unfold rename_labels, all_ten. simpl.
    rewrite !lookup_insert_ne by done. done.
  - intros n Hn. apply list_elem_of_In in Hn. simpl in Hn.
    destruct Hn as [<- |[<- |[<- |[]]]]; reflexivity.
Qed.

(** C1 fails on the edge 0 - 1 with the isolated node 2, every label 10,
    and the same graph under the label-preserving permutation
    0 -> 1 -> 2 -> 0 (the edge 1 - 2 with the isolated node 0): both get a
    canonical form, with the same [ordered_labels] and different matrices,
    and [==] on the two top-level instances answers [False]. *)
Theorem canonicalize_not_invariant :
  same_graph edge12_and_0 (rename_graph rotate3 edge01_and_2) ∧
  (∀ n, n ∈ nodes_of edge01_and_2 → all_ten !! rotate3 n = all_ten !! n) ∧
  ∃ m cf m' cf',
    master_instance 4 edge01_and_2 (Some all_ten) = Ok (m, cf) ∧
    master_instance 4 edge12_and_0 (Some all_ten) = Ok (m', cf') ∧
    canonicalize 4 edge01_and_2 (Some all_ten) = Ok cf ∧
    canonicalize 4 edge12_and_0 (Some all_ten) = Ok cf' ∧
    ordered_labels cf = ordered_labels cf' ∧
    final_node_order cf = [0; 2; 1] ∧
    final_node_order cf' = [0; 1; 2] ∧
    matrix cf = [[0; 1]; [0]; []] ∧
    matrix cf' = [[0; 0]; [1]; []] ∧
    matrix cf ≠ matrix cf' ∧
    instance_eq (MasterInstance m cf) (MasterInstance m' cf') = Ok false.
Proof.
  split; [apply edge12_and_0_is_rotated|]. split; [apply edge12_and_0_is_rotated|].
  eexists _, _, _, _. split; [vm_compute; reflexivity|]. split; [vm_compute; reflexivity|].
  split; [vm_compute; reflexivity|]. split; [vm_compute; reflexivity|].
  simpl. split_and!; try done.
Qed.

(** ** The fixpoint test *)

Lemma first_with_app (labels : gmap Z Z) (l : Z) (pre rest : list Z) :
  first_with labels l (pre ++ rest) =
    match first_with labels l pre with
    | Some r => Some r
    | None => first_with labels l rest
    end.
Proof. induction pre as [|n pre IH]; simpl; [done|]. by case_decide. Qed.

Lemma first_with_Some (labels : gmap Z Z) (l : Z) (nodes : list Z) (r : Z) :
  first_with labels l nodes = Some r → r ∈ nodes ∧ labels !! r = Some l.
Proof.
  induction nodes as [|n nodes IH]; simpl; [done|]. case_decide.
  - intros [= <-]. split; [left|done].
  - intros [? ?]%IH. split; [by right|done].
Qed.

Lemma first_with_None (labels : gmap Z Z) (l : Z) (nodes : list Z) :
  first_with labels l nodes = None ↔ ∀ n, n ∈ nodes → labels !! n ≠ Some l.
Proof.
  induction nodes as [|n nodes IH]; simpl.
  - split; [by intros _ ? ?%elem_of_nil|done].
  - case_decide as Hn.
    + split; [done|]. intros H. exfalso. apply (H n); [left|done].
    + rewrite IH. split.
      * intros H m [-> |?]%elem_of_cons; auto.
      * intros H m ?. apply H. by right.
Qed.

Lemma first_with_is_Some (labels : gmap Z Z) (l : Z) (nodes : list Z) (n : Z) :
  n ∈ nodes → labels !! n = Some l → is_Some (first_with labels l nodes).
Proof.
  intros Hn Hl. destruct (first_with labels l nodes) eqn:Hf; [done|].
  rewrite first_with_None in Hf. by destruct (Hf n Hn).
Qed.

Lemma first_with_ext (old new : gmap Z Z) (lo ln : Z) (nodes : list Z) :
  (∀ r, r ∈ nodes → old !! r = Some lo ↔ new !! r = Some ln) →
  first_with old lo nodes = first_with new ln nodes.
Proof.
  induction nodes as [|n nodes IH]; intros H; simpl; [done|].
  destruct (H n) as [H1 H2]; [left|].
  repeat case_decide; try done; [by destruct H3; auto|by destruct H0; auto|].
  apply IH. intros r Hr. apply H. by right.
Qed.

Lemma setdefault_first_with (labels : gmap Z Z) (d : gmap Z Z) (pre : list Z)
    (node l : Z) :
  labels !! node = Some l →
  (∀ k, d !! k = first_with labels k pre) →
  ∀ k, setdefault d l node !! k = first_with labels k (pre ++ [node]).
Proof.
  intros Hl Hd k. rewrite first_with_app. unfold setdefault. simpl.
  destruct (d !! l) as [r|] eqn:Hdl.
  - rewrite Hd. destruct (first_with labels k pre) eqn:Hk; [done|].
    case_decide; [|done]. assert (k = l) as -> by congruence.
    rewrite Hd in Hdl. congruence.
  - destruct (decide (k = l)) as [-> |Hkl].
    + rewrite lookup_insert_eq. rewrite <- Hd, Hdl. by rewrite decide_True.
    + rewrite lookup_insert_ne by done. rewrite Hd.
      destruct (first_with labels k pre); [done|]. rewrite decide_False; [done|congruence].
Qed.

Lemma same_groups_loop_spec (old new : gmap Z Z) (pre rest : list Z) (og ng : gmap Z Z) :
  (∀ n, n ∈ rest → is_Some (old !! n)) →
  (∀ n, n ∈ rest → is_Some (new !! n)) →
  (∀ l, og !! l = first_with old l pre) →
  (∀ l, ng !! l = first_with new l pre) →
  ∃ b, same_groups_loop old new rest og ng = Ok b ∧
    (b = true ↔ identifiers_agree (pre ++ rest) old new rest).
Proof.
  revert pre og ng. induction rest as [|node rest IH]; intros pre og ng Ho Hn Hog Hng.
  - exists true. split; [done|]. split; [|done]. by intros _ n lo ln ?%elem_of_nil.
  - destruct (Ho node) as [lo Hlo]; [left|]. destruct (Hn node) as [ln Hln]; [left|].
    simpl. rewrite (getitem_Some _ _ _ Hlo), (getitem_Some _ _ _ Hln). simpl.
    pose proof (setdefault_first_with old og pre node lo Hlo Hog) as Hog'.
    pose proof (setdefault_first_with new ng pre node ln Hln Hng) as Hng'.
    destruct (first_with_is_Some old lo (pre ++ [node]) node) as [ro Hro];
      [apply elem_of_app; right; by apply list_elem_of_singleton|done|].
    destruct (first_with_is_Some new ln (pre ++ [node]) node) as [rn Hrn];
      [apply elem_of_app; right; by apply list_elem_of_singleton|done|].
    rewrite (getitem_Some (setdefault og lo node) lo ro) by (by rewrite Hog'). simpl.
    rewrite (getitem_Some (setdefault ng ln node) ln rn) by (by rewrite Hng'). simpl.
    assert (∀ l r, first_with old l (pre ++ [node]) = Some r →
                   first_with old l (pre ++ node :: rest) = Some r) as Hexto.
    { intros l r H. rewrite (cons_middle node), app_assoc, first_with_app. by rewrite H. }
    assert (∀ l r, first_with new l (pre ++ [node]) = Some r →
                   first_with new l (pre ++ node :: rest) = Some r) as Hextn.
    { intros l r H. rewrite (cons_middle node), app_assoc, first_with_app. by rewrite H. }
    case_decide as Hne.
    + exists false. split; [done|]. split; [done|]. intros Hag. exfalso.
      specialize (Hag node lo ln). rewrite (Hexto _ _ Hro), (Hextn _ _ Hrn) in Hag.
      apply Hne. assert (Some ro = Some rn) as [= ->]; [apply Hag; [left|done|done]|done].
    + assert (ro = rn) as <- by (by destruct (decide (ro = rn)); [|destruct Hne]).
      destruct (IH (pre ++ [node]) (setdefault og lo node) (setdefault ng ln node))
        as [b [Hb Hiff]]; try done.
      { intros n ?. apply Ho. by right. }
      { intros n ?. apply Hn. by right. }
      exists b. split; [done|]. rewrite Hiff. rewrite <- app_assoc. simpl.
      split.
      * intros Hag n lo' ln' [-> |Hin]%elem_of_cons Hlo' Hln'.
        -- assert (lo' = lo) as -> by congruence. assert (ln' = ln) as -> by congruence.
           by rewrite (Hexto _ _ Hro), (Hextn _ _ Hrn).
        -- by apply (Hag n lo' ln').
      * intros Hag n lo' ln' Hin. apply (Hag n lo' ln'). by right.
Qed.

Lemma identifiers_agree_same_partition (nodes : list Z) (old new : gmap Z Z) :
  (∀ n, n ∈ nodes → is_Some (old !! n)) →
  (∀ n, n ∈ nodes → is_Some (new !! n)) →
  identifiers_agree nodes old new nodes ↔ same_partition nodes old new.
Proof.
  intros Ho Hn. split.
  - intros Hag.
    assert (∀ n m lo ln, n ∈ nodes → m ∈ nodes → old !! n = Some lo → new !! n = Some ln →
              (old !! m = Some lo ↔ new !! m = Some ln)) as Hkey.
    { intros n m lo ln Hin Him Hlo Hln.
      destruct (Hn m Him) as [ln' Hln']. destruct (Ho m Him) as [lo' Hlo'].
      pose proof (Hag n lo ln Hin Hlo Hln) as Hn1.
      pose proof (Hag m lo' ln' Him Hlo' Hln') as Hm1.
      destruct (first_with_is_Some old lo nodes n Hin Hlo) as [r Hr].
      destruct (first_with_is_Some new ln' nodes m Him Hln') as [r' Hr'].
      split; intros Hm.
      - assert (lo' = lo) as -> by congruence. rewrite Hr in Hn1, Hm1.
        symmetry in Hn1. apply first_with_Some in Hn1 as [_ Hn1].
        symmetry in Hm1. apply first_with_Some in Hm1 as [_ Hm1]. congruence.
      - assert (ln' = ln) as -> by congruence. rewrite Hr' in Hm1. rewrite <- Hn1 in Hr'.
        apply first_with_Some in Hr' as [_ Hr']. apply first_with_Some in Hm1 as [_ Hm1].
        congruence. }
    intros n m Hin Him. destruct (Ho n Hin) as [lo Hlo]. destruct (Hn n Hin) as [ln Hln].
    rewrite Hlo, Hln. specialize (Hkey n m lo ln Hin Him Hlo Hln).
    split; intros H; symmetry; apply Hkey; done.
  - intros Hsp n lo ln Hin Hlo Hln. apply first_with_ext. intros r Hr.
    specialize (Hsp n r Hin Hr). rewrite Hlo, Hln in Hsp.
    split; intros H; symmetry; apply Hsp; done.
Qed.

(** What the fixpoint test returns. *)
Lemma fixpoint_test_facts (nodes : list Z)
    (internal_labels new_labels : gmap Z Z) :
  (∀ n, n ∈ nodes → is_Some (internal_labels !! n)) →
  (∀ n, n ∈ nodes → is_Some (new_labels !! n)) →
  ∃ b, are_new_labels_effectively_the_same nodes internal_labels new_labels = Ok b ∧
    (b = true ↔ same_partition nodes internal_labels new_labels).
Proof.
  intros Ho Hn. unfold are_new_labels_effectively_the_same.
  destruct (same_groups_loop_spec internal_labels new_labels [] nodes ∅ ∅ Ho Hn)
    as [b [Hb Hiff]]; [done|done|].
  exists b. split; [done|]. rewrite Hiff. simpl.
  by apply identifiers_agree_same_partition.
Qed.

(** C5: the fixpoint test answers [True] exactly when the old and the new
    labels induce the same partition of the nodes, whatever the label values
    are. *)
Theorem are_new_labels_effectively_the_same_spec (nodes : list Z)
    (internal_labels new_labels : gmap Z Z) :
  (∀ n, n ∈ nodes → is_Some (internal_labels !! n)) →
  (∀ n, n ∈ nodes → is_Some (new_labels !! n)) →
  ∃ b, are_new_labels_effectively_the_same nodes internal_labels new_labels = Ok b ∧
    (b = true ↔ same_partition nodes internal_labels new_labels).
Proof.
  intros Ho Hn. unfold are_new_labels_effectively_the_same.
  destruct (same_groups_loop_spec internal_labels new_labels [] nodes ∅ ∅ Ho Hn)
    as [b [Hb Hiff]]; [done|done|].
  exists b. split; [done|]. rewrite Hiff. simpl.
  by apply identifiers_agree_same_partition.
Qed.

Lemma are_new_labels_effectively_the_same_spec_witness :
  ∃ b, are_new_labels_effectively_the_same [0; 1; 2] all_ten all_ten = Ok b ∧
    (b = true ↔ same_partition [0; 1; 2] all_ten all_ten).
Proof.
  apply (are_new_labels_effectively_the_same_spec [0; 1; 2] all_ten all_ten);
    apply (proj1 (Forall_forall (λ n, is_Some (all_ten !! n)) [0; 1; 2]));
    apply (bool_decide_unpack _); vm_compute; exact I.
Defined.

(** ** Keys under a strict weak order *)

Section key_order.
Context {A : Type} (ltb : A → A → bool) (Hsw : StrictWeak ltb).

Lemma key_equiv_refl a : key_equiv ltb a a.
Proof. destruct Hsw as [Hi _ _]. by split. Qed.

Lemma key_equiv_sym a b : key_equiv ltb a b → key_equiv ltb b a.
Proof. by intros [? ?]. Qed.

Lemma key_equiv_trans a b c : key_equiv ltb a b → key_equiv ltb b c → key_equiv ltb a c.
Proof. destruct Hsw as [_ _ Hn]. intros [? ?] [? ?]. split; eauto. Qed.

Lemma ltb_equiv_r a b c : ltb a b = true → key_equiv ltb b c → ltb a c = true.
Proof.
  destruct Hsw as [_ _ Hn]. intros Hab [Hbc Hcb].
  destruct (ltb a c) eqn:Hac; [done|]. by rewrite (Hn a c b Hac Hcb) in Hab.
Qed.

Lemma ltb_equiv_l a b c : key_equiv ltb a b → ltb b c = true → ltb a c = true.
Proof.
  destruct Hsw as [_ _ Hn]. intros [Hab Hba] Hbc.
  destruct (ltb a c) eqn:Hac; [done|]. by rewrite (Hn b a c Hba Hac) in Hbc.
Qed.

Lemma not_after_cases a b : not_after ltb a b → ltb a b = true ∨ key_equiv ltb a b.
Proof. unfold not_after, key_equiv. destruct (ltb a b); auto. Qed.

(** In a strictly ascending list, equivalent entries are the same entry. *)
Lemma ascending_lookup_lt (l : list A) (i j : nat) (a b : A) :
  ascending ltb l → l !! i = Some a → l !! j = Some b → (i < j)%nat → ltb a b = true.
Proof.
  intros Hs. revert i j. induction Hs as [|x l Hl IH Hx]; intros i j Hi Hj Hij; [done|].
  destruct j as [|j]; [lia|]. destruct i as [|i]; simpl in *.
  - injection Hi as ->. rewrite Forall_forall in Hx. apply Hx.
    by eapply list_elem_of_lookup_2.
  - apply (IH i j); [done|done|lia].
Qed.

Lemma ascending_lookup_equiv (l : list A) (i j : nat) (a b : A) :
  ascending ltb l → l !! i = Some a → l !! j = Some b → key_equiv ltb a b → i = j.
Proof.
  intros Hs Hi Hj [Hab Hba].
  destruct (decide (i < j)%nat) as [Hlt|?];
    [by rewrite (ascending_lookup_lt l i j a b) in Hab|].
  destruct (decide (j < i)%nat) as [Hlt|?];
    [by rewrite (ascending_lookup_lt l j i b a) in Hba|]. lia.
Qed.

Lemma ascending_snoc (l : list A) (d a : A) :
  ascending ltb l → last l = Some d → ltb d a = true → ascending ltb (l ++ [a]).
Proof.
  destruct Hsw as [_ Ht _]. intros Hs. revert d.
  induction Hs as [|x l Hl IH Hx]; intros d Hd Hda; [done|].
  simpl. rewrite last_cons in Hd. destruct (last l) as [d'|] eqn:Hl'.
  - injection Hd as ->. constructor; [by eapply IH|].
    apply Forall_app. split; [done|]. constructor; [|done].
    rewrite Forall_forall in Hx. apply (Ht x d a); [|done]. apply Hx.
    apply last_Some in Hl' as [l' ->]. apply elem_of_app. right.
    by apply list_elem_of_singleton.
  - injection Hd as ->. apply last_None in Hl'. subst. simpl.
    repeat constructor. done.
Qed.
End key_order.

(** ** Assigning the new labels *)

Section assign_facts.
Context {K : Type} (key_ne : K → K → result bool) (ltb : K → K → bool).
Context (Hsw : StrictWeak ltb).

Lemma assign_loop_spec (rest : list (Z * K)) (prev : option K) (next : Z)
    (defs : list K) (new : gmap Z Z) :
  sorted_by_key ltb rest →
  NoDup rest.*1 →
  ne_agrees key_ne ltb (option_list prev ++ rest.*2) →
  ascending ltb defs →
  next = Z.of_nat (length defs) - 1 →
  match prev with
  | None => defs = []
  | Some p => (∃ d, last defs = Some d ∧ key_equiv ltb d p) ∧
              Forall (λ x, not_after ltb p x.2) rest
  end →
  ∃ new' ds,
    assign_loop key_ne rest prev next defs new = Ok (new', defs ++ ds) ∧
    ascending ltb (defs ++ ds) ∧
    (length ds ≤ length rest)%nat ∧
    (∀ n, n ∉ rest.*1 → new' !! n = new !! n) ∧
    (∀ n k, (n, k) ∈ rest →
       ∃ l d, new' !! n = Some (Z.of_nat l) ∧ (defs ++ ds) !! l = Some d ∧
              key_equiv ltb d k) ∧
    (∀ l, (length defs ≤ l < length (defs ++ ds))%nat →
       ∃ n, n ∈ rest.*1 ∧ new' !! n = Some (Z.of_nat l)) ∧
    (∀ d, d ∈ ds → d ∈ rest.*2).
Proof.
  revert prev next defs new.
  induction rest as [|[n k] rest IH]; intros prev next defs new Hs Hnd Hne Hasc Hnext Hprev.
  - exists new, []. rewrite app_nil_r. simpl. split_and!; try done.
    all: first [by intros m km ?%elem_of_nil | intros l ?; lia | by intros d ?%elem_of_nil].
  - apply StronglySorted_inv in Hs as [Hs Hk].
    rewrite fmap_cons in Hnd. apply NoDup_cons in Hnd as [Hn Hnd].
    assert (∃ changed : bool,
      match prev with None => Ok true | Some p => key_ne p k end = Ok changed ∧
      (changed = true → match prev with
                        | None => True
                        | Some p => ltb p k = true
                        end) ∧
      (changed = false → ∃ p, prev = Some p ∧ key_equiv ltb p k)) as [changed [Hch [Hct Hcf]]].
    { destruct prev as [p|]; [|exists true; by repeat split].
      destruct Hprev as [_ Hp]. apply Forall_cons in Hp as [Hpk _]. unfold not_after in Hpk.
      simpl in Hpk. exists (ltb p k). rewrite (Hne p k); [|left|right; left].
      rewrite Hpk, orb_false_r. split; [done|]. split; [done|].
      intros Hf. exists p. by repeat split. }
    cbn [assign_loop fst snd]. rewrite Hch. cbn [mbind result_bind fst snd].
    destruct changed.
    + (* a new label *)
      specialize (Hct eq_refl).
      destruct (IH (Some k) (next + 1) (defs ++ [k]) (<[n := next + 1]> new))
        as [new' [ds [Hres [Hasc' [Hlen [Hout [Hin [Hsurj Hds]]]]]]]].
      * done.
      * done.
      * intros a b Ha Hb. apply Hne; apply elem_of_app; right; done.
      * destruct prev as [p|].
        -- destruct Hprev as [[d [Hd Hdp]] _]. eapply ascending_snoc; try done.
           by eapply ltb_equiv_l.
        -- subst defs. repeat constructor.
      * rewrite length_app. simpl. lia.
      * split; [|done]. exists k. split; [by rewrite last_snoc|by apply key_equiv_refl].
      * exists new', (k :: ds). rewrite <- app_assoc in Hres, Hasc', Hsurj, Hin. simpl in *.
        split; [done|]. split; [done|]. split; [lia|]. split; [|split; [|split]].
        -- intros m Hm. rewrite not_elem_of_cons in Hm. destruct Hm as [Hmn Hm].
           rewrite (Hout m Hm). by rewrite lookup_insert_ne.
        -- intros m km [[= -> ->]|Hm]%elem_of_cons; [|by apply Hin].
           exists (length defs), k. rewrite (Hout n Hn), lookup_insert_eq.
           split; [f_equal; lia|]. split; [by apply list_lookup_middle|].
           by apply key_equiv_refl.
        -- intros l Hl. destruct (decide (l = length defs)) as [-> |Hne'].
           ++ exists n. split; [left|]. rewrite (Hout n Hn), lookup_insert_eq. f_equal. lia.
           ++ destruct (Hsurj l) as [m [Hm Hml]].
              { rewrite !length_app in Hl. rewrite !length_app. simpl in *. lia. }
              exists m. split; [by right|done].
        -- intros d [-> |Hd]%elem_of_cons; [left|right; by apply Hds].
    + (* the label of the previous node *)
      destruct (Hcf eq_refl) as [p [-> Hpk]].
      destruct Hprev as [[d [Hd Hdp]] _].
      destruct (IH (Some k) next defs (<[n := next]> new))
        as [new' [ds [Hres [Hasc' [Hlen [Hout [Hin [Hsurj Hds]]]]]]]].
      * done.
      * done.
      * intros a b Ha Hb. apply Hne; apply elem_of_app; right; done.
      * done.
      * done.
      * split; [|done]. exists d. split; [done|]. by eapply key_equiv_trans.
      * exists new', ds. simpl.
        split; [done|]. split; [done|]. split; [lia|]. split; [|split; [|split]].
        -- intros m Hm. rewrite not_elem_of_cons in Hm. destruct Hm as [Hmn Hm].
           rewrite (Hout m Hm). by rewrite lookup_insert_ne.
        -- intros m km [[= -> ->]|Hm]%elem_of_cons; [|by apply Hin].
           rewrite last_lookup in Hd.
           assert (length defs ≠ 0)%nat as Hlen0.
           { intros H0. destruct defs; [done|]. simpl in H0. lia. }
           exists (pred (length defs)), d. rewrite (Hout n Hn), lookup_insert_eq.
           split; [f_equal; lia|]. split; [|by eapply key_equiv_trans].
           rewrite lookup_app_l; [done|lia].
        -- intros l Hl. destruct (Hsurj l Hl) as [m [Hm Hml]].
           exists m. split; [by right|done].
        -- intros d' Hd'. right. by apply Hds.
Qed.
End assign_facts.

Lemma key_equiv_eq {A} (ltb : A → A → bool) (a b : A) :
  StrictTotal ltb → key_equiv ltb a b ↔ a = b.
Proof.
  intros [Hi _ Htot]. unfold key_equiv. split.
  - intros [Hab Hba]. destruct (Htot a b) as [?|[?|?]]; [done|congruence|congruence].
  - intros ->. by rewrite Hi.
Qed.

Lemma plain_key_ne_agrees (keys : list plain_key) :
  ne_agrees plain_key_ne plain_key_ltb keys.
Proof.
  intros a b _ _. unfold plain_key_ne. f_equal.
  destruct plain_key_ltb_StrictTotal as [Hi Ht Htot].
  destruct (decide (a = b)) as [-> |Hab].
  - rewrite Hi. apply bool_decide_eq_false. tauto.
  - rewrite (bool_decide_eq_true_2 _ Hab). symmetry.
    destruct (Htot a b) as [?|[-> | ->]]; [done|done|apply orb_true_r].
Qed.

(** What [assign_new_labels_for_sorted_ids] returns for ids sorted by key. *)
Lemma assign_new_labels_facts {K} (key_ne : K → K → result bool)
    (ltb : K → K → bool) (sorted_ids : list (Z * K)) :
  StrictWeak ltb →
  NoDup sorted_ids.*1 →
  sorted_by_key ltb sorted_ids →
  ne_agrees key_ne ltb sorted_ids.*2 →
  ∃ new_labels label_definitions,
    assign_new_labels_for_sorted_ids key_ne sorted_ids = Ok (new_labels, label_definitions) ∧
    (length label_definitions ≤ length sorted_ids)%nat ∧
    (∀ n, is_Some (new_labels !! n) ↔ n ∈ sorted_ids.*1) ∧
    (∀ n key, (n, key) ∈ sorted_ids →
       ∃ l d, new_labels !! n = Some (Z.of_nat l) ∧ label_definitions !! l = Some d ∧
              key_equiv ltb d key) ∧
    (∀ l, (l < length label_definitions)%nat →
       ∃ n, n ∈ sorted_ids.*1 ∧ new_labels !! n = Some (Z.of_nat l)) ∧
    (∀ n m kn km ln lm,
       (n, kn) ∈ sorted_ids → (m, km) ∈ sorted_ids →
       new_labels !! n = Some ln → new_labels !! m = Some lm →
       (ln = lm ↔ key_equiv ltb kn km) ∧ (ln < lm ↔ ltb kn km = true)) ∧
    ascending ltb label_definitions ∧
    (∀ d, d ∈ label_definitions → d ∈ sorted_ids.*2).
Proof.
  intros Hsw Hnd Hs Hne. unfold assign_new_labels_for_sorted_ids.
  destruct (assign_loop_spec key_ne ltb Hsw sorted_ids None (-1) [] ∅)
    as [new [ds [Hres [Hasc [Hlen [Hout [Hin [Hsurj Hds]]]]]]]]; try done.
  { constructor. }
  simpl in *. exists new, ds. split; [done|]. split; [done|].
  assert (∀ n, is_Some (new !! n) ↔ n ∈ sorted_ids.*1) as Hdom.
  { intros n. split.
    - intros Hsome. destruct (decide (n ∈ sorted_ids.*1)) as [|Hnin]; [done|].
      rewrite (Hout n Hnin), lookup_empty in Hsome. by destruct Hsome.
    - intros [[n' k] [-> Hnk]]%list_elem_of_fmap. simpl.
      destruct (Hin n' k Hnk) as [l [d [-> _]]]. done. }
  split; [done|]. split; [done|]. split; [intros l Hl; apply Hsurj; lia|].
  split; [|split; [done|done]].
  intros n m kn km ln lm Hn Hm Hln Hlm.
  destruct (Hin n kn Hn) as [i [di [Hi [Hdi Hei]]]].
  destruct (Hin m km Hm) as [j [dj [Hj [Hdj Hej]]]].
  rewrite Hln in Hi. rewrite Hlm in Hj. injection Hi as ->. injection Hj as ->.
  split; split.
  - intros Heq. assert (i = j) as -> by lia. rewrite Hdi in Hdj. injection Hdj as <-.
    eapply key_equiv_trans; [done| |done]. by apply key_equiv_sym.
  - intros Hkk. f_equal. apply (ascending_lookup_equiv ltb ds i j di dj); try done.
    eapply key_equiv_trans; [done|exact Hei|].
    eapply key_equiv_trans; [done|exact Hkk|]. by apply key_equiv_sym.
  - intros Hlt. assert (i < j)%nat as Hij by lia.
    pose proof (ascending_lookup_lt ltb ds i j di dj Hasc Hdi Hdj Hij) as Hd.
    eapply ltb_equiv_l; [done|apply key_equiv_sym; exact Hei|].
    eapply ltb_equiv_r; [done|exact Hd|done].
  - intros Hkk.
    assert (ltb di dj = true) as Hd.
    { eapply ltb_equiv_l; [done|exact Hei|].
      eapply ltb_equiv_r; [done|exact Hkk|]. by apply key_equiv_sym. }
    destruct (decide (i < j)%nat) as [|Hge]; [lia|]. exfalso.
    destruct (decide (i = j)) as [-> |Hneq].
    + rewrite Hdi in Hdj. injection Hdj as <-. destruct Hsw as [Hirr _ _].
      by rewrite Hirr in Hd.
    + assert (j < i)%nat as Hji by lia.
      pose proof (ascending_lookup_lt ltb ds j i dj di Hasc Hdj Hdi Hji) as Hd'.
      by rewrite (StrictWeak_asym ltb _ _ Hsw Hd') in Hd.
Qed.

(** C10: for ids sorted by their keys, the labels that
    [assign_new_labels_for_sorted_ids] gives are the numbers 0..k-1, all of
    them used, where k is the length of [label_definitions] and at most the
    number of ids; two nodes get the same label exactly when their keys are
    equal (and a smaller label exactly when the key is smaller);
    [label_definitions] lists the distinct keys in ascending order, the key
    of a node with label l at index l. *)
Theorem assign_new_labels_for_sorted_ids_spec {K} (key_ne : K → K → result bool)
    (ltb : K → K → bool) (sorted_ids : list (Z * K)) :
  StrictWeak ltb →
  NoDup sorted_ids.*1 →
  sorted_by_key ltb sorted_ids →
  ne_agrees key_ne ltb sorted_ids.*2 →
  ∃ new_labels label_definitions,
    assign_new_labels_for_sorted_ids key_ne sorted_ids = Ok (new_labels, label_definitions) ∧
    (length label_definitions ≤ length sorted_ids)%nat ∧
    (∀ n, is_Some (new_labels !! n) ↔ n ∈ sorted_ids.*1) ∧
    (∀ n key, (n, key) ∈ sorted_ids →
       ∃ l d, new_labels !! n = Some (Z.of_nat l) ∧ label_definitions !! l = Some d ∧
              key_equiv ltb d key) ∧
    (∀ l, (l < length label_definitions)%nat →
       ∃ n, n ∈ sorted_ids.*1 ∧ new_labels !! n = Some (Z.of_nat l)) ∧
    (∀ n m kn km ln lm,
       (n, kn) ∈ sorted_ids → (m, km) ∈ sorted_ids →
       new_labels !! n = Some ln → new_labels !! m = Some lm →
       (ln = lm ↔ key_equiv ltb kn km) ∧ (ln < lm ↔ ltb kn km = true)) ∧
    ascending ltb label_definitions ∧
    (∀ d, d ∈ label_definitions → d ∈ sorted_ids.*2).
Proof. apply assign_new_labels_facts. Qed.

Lemma assign_new_labels_for_sorted_ids_spec_witness :
  ∃ new_labels label_definitions,
    assign_new_labels_for_sorted_ids plain_key_ne example_sorted_ids
      = Ok (new_labels, label_definitions) ∧
    (length label_definitions ≤ length example_sorted_ids)%nat ∧
    (∀ n, is_Some (new_labels !! n) ↔ n ∈ example_sorted_ids.*1) ∧
    (∀ n key, (n, key) ∈ example_sorted_ids →
       ∃ l d, new_labels !! n = Some (Z.of_nat l) ∧ label_definitions !! l = Some d ∧
              key_equiv plain_key_ltb d key) ∧
    (∀ l, (l < length label_definitions)%nat →
       ∃ n, n ∈ example_sorted_ids.*1 ∧ new_labels !! n = Some (Z.of_nat l)) ∧
    (∀ n m kn km ln lm,
       (n, kn) ∈ example_sorted_ids → (m, km) ∈ example_sorted_ids →
       new_labels !! n = Some ln → new_labels !! m = Some lm →
       (ln = lm ↔ key_equiv plain_key_ltb kn km) ∧
       (ln < lm ↔ plain_key_ltb kn km = true)) ∧
    ascending plain_key_ltb label_definitions ∧
    (∀ d, d ∈ label_definitions → d ∈ example_sorted_ids.*2).
Proof.
  apply (assign_new_labels_for_sorted_ids_spec plain_key_ne plain_key_ltb example_sorted_ids).
  - apply StrictTotal_weak, plain_key_ltb_StrictTotal.
  - apply (bool_decide_unpack _). vm_compute. exact I.
  - repeat constructor.
  - apply plain_key_ne_agrees.
Defined.

(** ** Counting labels *)

Lemma img_size_refine (X : gset Z) (f g : Z → Z) :
  (∀ n m, n ∈ X → m ∈ X → f n = f m → g n = g m) →
  (size (set_map g X : gset Z) ≤ size (set_map f X : gset Z))%nat.
Proof.
  induction X as [|x X Hx IH] using set_ind_L; intros Href.
  - by rewrite !set_map_empty.
  - rewrite !set_map_union_L, !set_map_singleton_L.
    assert (size (set_map g X : gset Z) ≤ size (set_map f X : gset Z))%nat as IH'.
    { apply IH. intros n m Hn Hm. apply Href; set_solver. }
    destruct (decide (f x ∈ (set_map f X : gset Z))) as [Hin|Hnin].
    + apply elem_of_map in Hin as [m [Hfm Hm]].
      assert (g x = g m) as Hg by (apply Href; set_solver).
      assert (g x ∈ (set_map g X : gset Z)) as Hgin.
      { apply elem_of_map. eauto. }
      replace ({[g x]} ∪ set_map g X : gset Z) with (set_map g X : gset Z) by set_solver.
      replace ({[f x]} ∪ set_map f X : gset Z) with (set_map f X : gset Z);
        [done|]. assert (f x ∈ (set_map f X : gset Z)) by (apply elem_of_map; eauto).
      set_solver.
    + rewrite (size_union {[f x]}) by set_solver. rewrite size_singleton.
      etrans; [apply (subseteq_size _ ({[g x]} ∪ set_map g X)); done|].
      rewrite size_union_alt, size_singleton.
      pose proof (subseteq_size (set_map g X ∖ {[g x]} : gset Z) (set_map g X)) as Hs.
      assert (size (set_map g X ∖ {[g x]} : gset Z) ≤ size (set_map g X : gset Z))%nat
        by (apply Hs; set_solver).
      lia.
Qed.

Lemma img_size_refine_strict (X : gset Z) (f g : Z → Z) (n m : Z) :
  (∀ n m, n ∈ X → m ∈ X → f n = f m → g n = g m) →
  n ∈ X → m ∈ X → g n = g m → f n ≠ f m →
  (size (set_map g X : gset Z) < size (set_map f X : gset Z))%nat.
Proof.
  intros Href Hn Hm Hg Hf.
  set (X' := filter (λ x, f x ≠ f n) X).
  assert ((set_map g X : gset Z) = set_map g X') as ->.
  { apply set_eq. intros y. rewrite !elem_of_map. split.
    - intros [x [-> Hx]]. destruct (decide (f x = f n)) as [Hfx|Hfx].
      + exists m. split; [|apply elem_of_filter; split; [congruence|done]].
        rewrite <- Hg. by apply Href.
      + exists x. split; [done|]. by apply elem_of_filter.
    - intros [x [-> [_ Hx]%elem_of_filter]]. eauto. }
  assert ((set_map f X' : gset Z) = set_map f X ∖ {[f n]}) as Heq.
  { apply set_eq. intros y. rewrite elem_of_difference, !elem_of_map, elem_of_singleton. split.
    - intros [x [-> [Hfx Hx]%elem_of_filter]]. split; [eauto|done].
    - intros [[x [-> Hx]] Hne]. exists x. split; [done|]. by apply elem_of_filter. }
  pose proof (img_size_refine X' f g) as Hle.
  assert (size (set_map g X' : gset Z) ≤ size (set_map f X' : gset Z))%nat as Hle'.
  { apply Hle. intros a b [_ Ha]%elem_of_filter [_ Hb]%elem_of_filter. by apply Href. }
  rewrite Heq in Hle'. rewrite size_difference in Hle'.
  - rewrite size_singleton in Hle'.
    assert (0 < size (set_map f X : gset Z))%nat; [|lia].
    assert (f n ∈ (set_map f X : gset Z)) as Hin by (apply elem_of_map; eauto).
    destruct (decide (size (set_map f X : gset Z) = 0%nat)) as [H0|]; [|lia].
    apply size_empty_iff in H0. set_solver.
  - apply singleton_subseteq_l, elem_of_map. eauto.
Qed.

Lemma dom_is_dom (nodes : list Z) (d : gmap Z Z) :
  dom_is nodes d → dom d = list_to_set nodes.
Proof.
  intros Hd. apply set_eq. intros n. rewrite elem_of_dom, elem_of_list_to_set. apply Hd.
Qed.

Lemma label_of_Some (d : gmap Z Z) (n l : Z) : d !! n = Some l → label_of d n = l.
Proof. unfold label_of. by intros ->. Qed.

Lemma dom_is_lookup (nodes : list Z) (d : gmap Z Z) (n : Z) :
  dom_is nodes d → n ∈ nodes → d !! n = Some (label_of d n).
Proof. intros Hd Hn. apply Hd in Hn as [l Hl]. by rewrite (label_of_Some _ _ _ Hl). Qed.

Lemma distinct_labels_set_map (nodes : list Z) (d : gmap Z Z) :
  dom_is nodes d →
  distinct_labels d = size (set_map (label_of d) (list_to_set nodes : gset Z) : gset Z).
Proof.
  intros Hd. unfold distinct_labels. f_equal. apply set_eq. intros l.
  rewrite elem_of_map_img, elem_of_map. split.
  - intros [n Hn]. exists n. split; [by rewrite (label_of_Some _ _ _ Hn)|].
    apply elem_of_list_to_set, Hd. eauto.
  - intros [n [-> Hn%elem_of_list_to_set]]. exists n. by apply (dom_is_lookup nodes).
Qed.

Lemma distinct_labels_le (nodes : list Z) (d : gmap Z Z) :
  NoDup nodes → dom_is nodes d → (distinct_labels d ≤ length nodes)%nat.
Proof.
  intros Hnd Hd. rewrite (distinct_labels_set_map nodes d Hd).
  rewrite <- (size_list_to_set (C:=gset Z) nodes Hnd).
  etrans; [apply (img_size_refine _ id); intros n m _ _ Hid; unfold id in Hid; by subst|].
  apply Nat.eq_le_incl. f_equal. apply set_eq. intros x. rewrite elem_of_map. naive_solver.
Qed.

Lemma distinct_labels_refine (nodes : list Z) (old new : gmap Z Z) :
  dom_is nodes old → dom_is nodes new → refines nodes old new →
  (distinct_labels old ≤ distinct_labels new)%nat.
Proof.
  intros Ho Hn Href.
  rewrite (distinct_labels_set_map nodes old Ho), (distinct_labels_set_map nodes new Hn).
  apply img_size_refine. intros n m Hin%elem_of_list_to_set Him%elem_of_list_to_set Heq.
  specialize (Href n m Hin Him).
  rewrite (dom_is_lookup nodes new n), (dom_is_lookup nodes new m) in Href by done.
  rewrite (dom_is_lookup nodes old n), (dom_is_lookup nodes old m) in Href by done.
  assert (Some (label_of old n) = Some (label_of old m)) as [= ?]; [|done].
  apply Href. by rewrite Heq.
Qed.

Lemma distinct_labels_refine_strict (nodes : list Z) (old new : gmap Z Z) :
  dom_is nodes old → dom_is nodes new → refines nodes old new →
  ¬ same_partition nodes old new →
  (distinct_labels old < distinct_labels new)%nat.
Proof.
  intros Ho Hn Href Hns.
  assert (∃ n m, n ∈ nodes ∧ m ∈ nodes ∧ old !! n = old !! m ∧ new !! n ≠ new !! m)
    as [n [m [Hin [Him [Heq Hne]]]]].
  { destruct (decide (Exists (λ n, Exists (λ m, old !! n = old !! m ∧ new !! n ≠ new !! m)
                                      nodes) nodes)) as [Hex|Hno].
    - apply Exists_exists in Hex as [n [Hin Hex]].
      apply Exists_exists in Hex as [m [Him [? ?]]]. eauto 10.
    - exfalso. apply Hns. intros n m Hin Him. split; [|by apply Href].
      intros Heq. destruct (decide (new !! n = new !! m)) as [|Hne]; [done|].
      destruct Hno. apply Exists_exists. exists n. split; [done|].
      apply Exists_exists. exists m. done. }
  rewrite (distinct_labels_set_map nodes old Ho), (distinct_labels_set_map nodes new Hn).
  rewrite (dom_is_lookup nodes new n), (dom_is_lookup nodes new m) in Hne by done.
  rewrite (dom_is_lookup nodes old n), (dom_is_lookup nodes old m) in Heq by done.
  apply (img_size_refine_strict _ _ _ n m).
  - intros a b Ha%elem_of_list_to_set Hb%elem_of_list_to_set Hab.
    specialize (Href a b Ha Hb).
    rewrite (dom_is_lookup nodes new a), (dom_is_lookup nodes new b) in Href by done.
    rewrite (dom_is_lookup nodes old a), (dom_is_lookup nodes old b) in Href by done.
    assert (Some (label_of old a) = Some (label_of old b)) as [= ?]; [|done].
    apply Href. by rewrite Hab.
  - by apply elem_of_list_to_set.
  - by apply elem_of_list_to_set.
  - congruence.
  - congruence.
Qed.

Lemma distinct_labels_same (nodes : list Z) (old new : gmap Z Z) :
  dom_is nodes old → dom_is nodes new → same_partition nodes old new →
  distinct_labels old = distinct_labels new.
Proof.
  intros Ho Hn Hsp. apply Nat.le_antisymm.
  - apply (distinct_labels_refine nodes); [done|done|]. intros n m ? ?. by apply Hsp.
  - apply (distinct_labels_refine nodes); [done|done|]. intros n m ? ?. by apply Hsp.
Qed.

(** ** Building the dicts *)

Lemma dict_fold_spec (f : Z → result Z) (g : Z → Z) (nodes : list Z) (d0 : gmap Z Z) :
  (∀ n, n ∈ nodes → f n = Ok (g n)) →
  ∃ d, foldR (λ d n, v ← f n; Ok (<[n := v]> d)) d0 nodes = Ok d ∧
    ∀ n, d !! n = if decide (n ∈ nodes) then Some (g n) else d0 !! n.
Proof.
  revert d0. induction nodes as [|a nodes IH]; intros d0 Hf.
  - exists d0. split; [done|]. intros n. rewrite decide_False; [done|]. by intros ?%elem_of_nil.
  - simpl. rewrite (Hf a) by left. simpl.
    destruct (IH (<[a := g a]> d0)) as [d [-> Hd]]; [intros; apply Hf; by right|].
    exists d. split; [done|]. intros n. rewrite Hd.
    destruct (decide (n ∈ nodes)) as [Hin|Hin].
    + rewrite decide_True; [done|by right].
    + destruct (decide (n = a)) as [-> |Hna].
      * rewrite lookup_insert_eq, decide_True; [done|left].
      * rewrite lookup_insert_ne by done. rewrite decide_False; [done|].
        by intros [?|?]%elem_of_cons.
Qed.

Lemma dict_comprehension_spec (f : Z → result Z) (g : Z → Z) (nodes : list Z) :
  (∀ n, n ∈ nodes → f n = Ok (g n)) →
  ∃ d, dict_comprehension f nodes = Ok d ∧
    (∀ n, d !! n = if decide (n ∈ nodes) then Some (g n) else None) ∧
    dom_is nodes d.
Proof.
  intros Hf. destruct (dict_fold_spec f g nodes ∅ Hf) as [d [Hd Hl]].
  exists d. split; [done|]. split.
  - intros n. rewrite Hl. by rewrite lookup_empty.
  - intros n. rewrite Hl, lookup_empty. case_decide; split; try done.
    all: by intros [? ?].
Qed.

Lemma dict_comprehension_getitem (labels : gmap Z Z) (nodes : list Z) :
  (∀ n, n ∈ nodes → is_Some (labels !! n)) →
  ∃ d, dict_comprehension (getitem labels) nodes = Ok d ∧
    dom_is nodes d ∧ ∀ n, n ∈ nodes → d !! n = labels !! n.
Proof.
  intros Hl.
  destruct (dict_comprehension_spec (getitem labels) (label_of labels) nodes)
    as [d [Hd [Hlk Hdom]]].
  { intros n Hn. destruct (Hl n Hn) as [l Hln]. apply getitem_Ok.
    by rewrite (label_of_Some _ _ _ Hln). }
  exists d. split; [done|]. split; [done|]. intros n Hn. rewrite Hlk, decide_True by done.
  destruct (Hl n Hn) as [l Hln]. by rewrite (label_of_Some _ _ _ Hln).
Qed.

Lemma mapping_fold_spec (G : Graph) (nodes : list Z) (d0 : gmap Z (list Z)) :
  (∀ n, n ∈ nodes → n ∈ nodes_of G) →
  ∃ d, foldR (λ d n, ns ← neighbors G n; Ok (<[n := ns]> d)) d0 nodes = Ok d ∧
    ∀ n, d !! n = if decide (n ∈ nodes) then adj_lookup G n else d0 !! n.
Proof.
  revert d0. induction nodes as [|a nodes IH]; intros d0 Hf.
  - exists d0. split; [done|]. intros n. rewrite decide_False; [done|]. by intros ?%elem_of_nil.
  - simpl. destruct (proj1 (elem_of_nodes_of G a)) as [ns Hns]; [apply Hf; left|].
    assert (neighbors G a = Ok ns) as -> by (unfold neighbors; by rewrite Hns). simpl.
    destruct (IH (<[a := ns]> d0)) as [d [-> Hd]]; [intros; apply Hf; by right|].
    exists d. split; [done|]. intros n. rewrite Hd.
    destruct (decide (n ∈ nodes)) as [Hin|Hin].
    + rewrite decide_True; [done|by right].
    + destruct (decide (n = a)) as [-> |Hna].
      * rewrite lookup_insert_eq, decide_True; [done|left].
      * rewrite lookup_insert_ne by done. rewrite decide_False; [done|].
        by intros [?|?]%elem_of_cons.
Qed.

Lemma mapping_to_neighbors_of_spec (G : Graph) :
  graph_closed G →
  ∃ d, mapping_to_neighbors_of G (nodes_of G) = Ok d ∧ neighbors_closed (nodes_of G) d.
Proof.
  intros Hc. destruct (mapping_fold_spec G (nodes_of G) ∅) as [d [Hd Hl]]; [done|].
  exists d. split; [done|]. intros n Hn. rewrite Hl, decide_True by done.
  destruct (proj1 (elem_of_nodes_of G n) Hn) as [ns Hns]. exists ns. split; [done|].
  intros m Hm. apply (Hc n m). apply has_edge_true. eauto.
Qed.

Lemma graph_wf_closed (G : Graph) : graph_wf G → graph_closed G.
Proof.
  intros [Hnd Hwf]%graph_wf_elim u v [ns [Hu Hv]]%has_edge_true.
  apply adj_lookup_elem in Hu. destruct (Hwf u ns Hu) as [_ Hs].
  eapply has_edge_node. by apply Hs.
Qed.

(** ** A round of a plain instance *)

Lemma plain_get_new_ids_in_order_spec (nodes : list Z) (nbrs : gmap Z (list Z))
    (internal : gmap Z Z) :
  neighbors_closed nodes nbrs → dom_is nodes internal →
  ∃ ids, plain_get_new_ids_in_order nodes nbrs internal = Ok ids ∧
    ids ≡ₚ (λ n, (n, plain_key_of nbrs internal n)) <$> nodes ∧
    sorted_by_key plain_key_ltb ids.
Proof.
  intros Hc Hd. unfold plain_get_new_ids_in_order.
  rewrite (mapR_Ok _ (λ n, (n, plain_key_of nbrs internal n))).
  - simpl.
    destruct (py_sort_spec (λ x y : Z * plain_key, Ok (plain_key_ltb x.2 y.2))
                (λ x y, plain_key_ltb x.2 y.2)
                (StrictWeak_proj snd _ (StrictTotal_weak _ plain_key_ltb_StrictTotal))
                ((λ n, (n, plain_key_of nbrs internal n)) <$> nodes))
      as [s [-> [Hp Hs]]]; [done|].
    exists s. done.
  - intros node Hnode. destruct (Hc node Hnode) as [ns [Hns Hcl]].
    rewrite (getitem_Some _ _ _ Hns). simpl.
    rewrite (mapR_Ok _ (label_of internal)).
    + simpl. rewrite (getitem_Some _ _ _ (dom_is_lookup nodes internal node Hd Hnode)).
      simpl. unfold plain_key_of. by rewrite Hns.
    + intros m Hm. apply getitem_Some, (dom_is_lookup nodes); auto.
Qed.

(** ** A refinement round, for any kind of key *)

Lemma distinct_labels_range (new : gmap Z Z) (k : nat) :
  (∀ n l, new !! n = Some l → ∃ i, l = Z.of_nat i ∧ (i < k)%nat) →
  (∀ i, (i < k)%nat → ∃ n, new !! n = Some (Z.of_nat i)) →
  distinct_labels new = k.
Proof.
  intros Hin Hsurj. unfold distinct_labels.
  assert ((map_img new : gset Z) = list_to_set (Z.of_nat <$> seq 0 k)) as ->.
  { apply set_eq. intros l. rewrite elem_of_map_img, elem_of_list_to_set, list_elem_of_fmap.
    split.
    - intros [n Hn]. destruct (Hin n l Hn) as [i [-> Hi]]. exists i. split; [done|].
      apply elem_of_seq. lia.
    - intros [i [-> Hi%elem_of_seq]]. apply Hsurj. lia. }
  rewrite size_list_to_set; [by rewrite length_fmap, length_seq|].
  apply NoDup_fmap; [apply Nat2Z.inj'|apply NoDup_seq].
Qed.

Section round_facts.
Context {K : Type} (key_ne : K → K → result bool) (ltb : K → K → bool).
Context (Hsw : StrictWeak ltb).

Lemma ids_of_nodes (nodes : list Z) (key : Z → K) (ids : list (Z * K)) :
  ids ≡ₚ (λ n, (n, key n)) <$> nodes →
  ids.*1 ≡ₚ nodes ∧ ∀ n k, (n, k) ∈ ids ↔ n ∈ nodes ∧ k = key n.
Proof.
  intros Hp. split.
  - rewrite Hp, <- list_fmap_compose. simpl. by rewrite list_fmap_id.
  - intros n k. rewrite Hp, list_elem_of_fmap. split.
    + intros [m [[= -> ->] Hm]]. done.
    + intros [Hn ->]. eauto.
Qed.

Lemma refinement_round (nodes : list Z) (key : Z → K) (internal : gmap Z Z)
    (ids : list (Z * K)) :
  NoDup nodes → dom_is nodes internal →
  ids ≡ₚ (λ n, (n, key n)) <$> nodes →
  sorted_by_key ltb ids →
  ne_agrees key_ne ltb ids.*2 →
  (∀ n m, n ∈ nodes → m ∈ nodes → key_equiv ltb (key n) (key m) →
     internal !! n = internal !! m) →
  ∃ new defs b,
    assign_new_labels_for_sorted_ids key_ne ids = Ok (new, defs) ∧
    are_new_labels_effectively_the_same nodes internal new = Ok b ∧
    dom_is nodes new ∧
    refines nodes internal new ∧
    (∀ n m, n ∈ nodes → m ∈ nodes →
       (new !! n = new !! m ↔ key_equiv ltb (key n) (key m))) ∧
    (∀ n, n ∈ nodes →
       ∃ l d, new !! n = Some (Z.of_nat l) ∧ defs !! l = Some d ∧ key_equiv ltb d (key n)) ∧
    ascending ltb defs ∧
    distinct_labels new = length defs ∧
    (b = true ↔ same_partition nodes internal new) ∧
    (b = true → distinct_labels internal = distinct_labels new) ∧
    (b = false → (distinct_labels internal < distinct_labels new)%nat).
Proof.
  intros Hnd Hdom Hp Hs Hne Hkey.
  destruct (ids_of_nodes nodes key ids Hp) as [Hp1 Hel].
  destruct (assign_new_labels_facts key_ne ltb ids Hsw)
    as [new [defs [Hassign [Hlen [Hd [Hin [Hsurj [Hcmp [Hasc Hdefs]]]]]]]]]; try done.
  { by rewrite Hp1. }
  assert (dom_is nodes new) as Hdnew.
  { intros n. rewrite Hd. by rewrite Hp1. }
  assert (∀ n, n ∈ nodes →
            ∃ l d, new !! n = Some (Z.of_nat l) ∧ defs !! l = Some d ∧
                   key_equiv ltb d (key n)) as Hlab.
  { intros n Hn. apply Hin, Hel. done. }
  assert (∀ n m, n ∈ nodes → m ∈ nodes →
            (new !! n = new !! m ↔ key_equiv ltb (key n) (key m))) as Hsame.
  { intros n m Hn Hm.
    destruct (Hlab n Hn) as [i [di [Hi _]]]. destruct (Hlab m Hm) as [j [dj [Hj _]]].
    destruct (Hcmp n m (key n) (key m) _ _ (proj2 (Hel _ _) (conj Hn eq_refl))
                (proj2 (Hel _ _) (conj Hm eq_refl)) Hi Hj) as [Heq _].
    rewrite Hi, Hj. rewrite <- Heq. split; [by intros [= ?]|by intros ->]. }
  assert (refines nodes internal new) as Href.
  { intros n m Hn Hm Hnm. apply Hkey; [done|done|]. by apply Hsame. }
  destruct (fixpoint_test_facts nodes internal new) as [b [Hb Hiff]].
  { intros n Hn. by apply Hdom. }
  { intros n Hn. by apply Hdnew. }
  exists new, defs, b. split_and!; try done.
  - apply distinct_labels_range.
    + intros n l Hl. assert (n ∈ nodes) as Hn by (apply Hdnew; eauto).
      destruct (Hlab n Hn) as [i [d [Hi [Hdi _]]]]. exists i. split; [congruence|].
      by apply lookup_lt_Some in Hdi.
    + intros i Hi. destruct (Hsurj i Hi) as [n [_ Hn]]. eauto.
  - intros ->. apply (distinct_labels_same nodes); [done|done|]. by apply Hiff.
  - intros ->. apply (distinct_labels_refine_strict nodes); try done.
    intros Hsp. apply Hiff in Hsp. done.
Qed.
End round_facts.

Lemma plain_round (nodes : list Z) (nbrs : gmap Z (list Z)) (internal : gmap Z Z) :
  NoDup nodes → neighbors_closed nodes nbrs → dom_is nodes internal →
  ∃ ids new defs b,
    plain_get_new_ids_in_order nodes nbrs internal = Ok ids ∧
    assign_new_labels_for_sorted_ids plain_key_ne ids = Ok (new, defs) ∧
    are_new_labels_effectively_the_same nodes internal new = Ok b ∧
    dom_is nodes new ∧
    refines nodes internal new ∧
    distinct_labels new = length defs ∧
    (b = true ↔ same_partition nodes internal new) ∧
    (b = true → distinct_labels internal = distinct_labels new) ∧
    (b = false → (distinct_labels internal < distinct_labels new)%nat).
Proof.
  intros Hnd Hc Hd.
  destruct (plain_get_new_ids_in_order_spec nodes nbrs internal Hc Hd) as [ids [Hids [Hp Hs]]].
  destruct (refinement_round plain_key_ne plain_key_ltb
              (StrictTotal_weak _ plain_key_ltb_StrictTotal)
              nodes (plain_key_of nbrs internal) internal ids)
    as [new [defs [b [Ha [Hb [Hdn [Href [_ [_ [_ [Hdist [Hiff [Ht Hf]]]]]]]]]]]]]; try done.
  - apply plain_key_ne_agrees.
  - intros n m Hn Hm Heq. apply key_equiv_eq in Heq; [|apply plain_key_ltb_StrictTotal].
    rewrite (dom_is_lookup nodes internal n), (dom_is_lookup nodes internal m) by done.
    unfold plain_key_of in Heq. by injection Heq as -> _.
  - exists ids, new, defs, b. done.
Qed.

Lemma plain_loop_terminates (nodes : list Z) (nbrs : gmap Z (list Z)) :
  NoDup nodes → neighbors_closed nodes nbrs →
  ∀ fuel internal counter,
    dom_is nodes internal →
    (length nodes - distinct_labels internal < fuel)%nat →
    ∃ internal' defs counter',
      plain_loop fuel nodes nbrs internal counter = Ok (internal', defs, counter') ∧
      dom_is nodes internal' ∧
      length defs = distinct_labels internal' ∧
      (counter' + distinct_labels internal ≤ counter + distinct_labels internal')%nat.
Proof.
  intros Hnd Hc fuel. induction fuel as [|fuel IH]; intros internal counter Hd Hfuel; [lia|].
  destruct (plain_round nodes nbrs internal Hnd Hc Hd)
    as [ids [new [defs [b [Hids [Ha [Hb [Hdn [Href [Hdist [Hiff [Ht Hf]]]]]]]]]]]].
  simpl. rewrite Hids. simpl. rewrite Ha. simpl. rewrite Hb. simpl.
  destruct b.
  - exists internal, defs, counter. split; [done|]. split; [done|].
    split; [|lia]. rewrite <- Hdist. symmetry. by apply Ht.
  - specialize (Hf eq_refl).
    pose proof (distinct_labels_le nodes new Hnd Hdn) as Hle.
    destruct (IH new (S counter) Hdn) as [i' [d' [c' [Hres [Hd' [Hlen Hc']]]]]]; [lia|].
    exists i', d', c'. split; [done|]. split; [done|]. split; [done|]. lia.
Qed.

Lemma distinct_labels_pos (nodes : list Z) (d : gmap Z Z) :
  nodes ≠ [] → dom_is nodes d → (0 < distinct_labels d)%nat.
Proof.
  intros Hne Hd. destruct nodes as [|n nodes]; [done|].
  destruct (proj2 (Hd n)) as [l Hl]; [left|].
  unfold distinct_labels.
  destruct (decide (size (map_img d : gset Z) = 0%nat)) as [H0|]; [|lia].
  apply size_empty_iff in H0.
  assert (l ∈ (map_img d : gset Z)) as Hin by (apply elem_of_map_img; eauto).
  set_solver.
Qed.

Lemma higher_than_any_internal_label_Ok (nodes : list Z) (d : gmap Z Z) :
  nodes ≠ [] → dom_is nodes d → ∃ H, higher_than_any_internal_label nodes d = Ok H.
Proof.
  intros Hne Hd. destruct nodes as [|n nodes]; [done|].
  destruct (proj2 (Hd n)) as [l Hl]; [left|].
  unfold higher_than_any_internal_label.
  destruct (py_max_Ok (dict_values d)) as [m ->]; [by eapply dict_values_nonempty|].
  simpl. eauto.
Qed.

Lemma label_pairings_of_spec (nodes : list Z) (internal external : gmap Z Z) :
  dom_is nodes internal → (∀ n, n ∈ nodes → is_Some (external !! n)) →
  ∃ ps, label_pairings_of nodes internal external = Ok ps ∧
    ps ≡ₚ (λ n, (label_of internal n, label_of external n)) <$> nodes.
Proof.
  intros Hd He. unfold label_pairings_of.
  rewrite (mapR_Ok _ (λ n, (label_of internal n, label_of external n))).
  - simpl.
    destruct (py_sort_spec (λ x y : Z * Z, Ok (pair_ltb x y)) pair_ltb
                (StrictTotal_weak _ pair_ltb_StrictTotal)
                ((λ n, (label_of internal n, label_of external n)) <$> nodes))
      as [s [-> [Hp _]]]; [done|].
    exists s. done.
  - intros n Hn. rewrite (getitem_Some _ _ _ (dom_is_lookup nodes internal n Hd Hn)). simpl.
    destruct (He n Hn) as [e Hen]. rewrite (getitem_Some _ _ _ Hen). simpl.
    by rewrite (label_of_Some _ _ _ Hen).
Qed.

(** A plain instance is built, within as many rounds as the graph has nodes. *)
Lemma plain_instance_Ok (fuel : nat) (G : Graph) (L : gmap Z Z) :
  NoDup (nodes_of G) → graph_closed G → G ≠ [] →
  (∀ n, n ∈ nodes_of G → is_Some (L !! n)) →
  (length (nodes_of G) ≤ fuel)%nat →
  ∃ p, plain_instance fuel G L = Ok p ∧
    p_nodes p = nodes_of G ∧
    dom_is (nodes_of G) (p_internal_labels p) ∧
    plain_valid p ∧
    (S (p_counter p) ≤ length (nodes_of G))%nat.
Proof.
  intros Hnd Hc Hne HL Hfuel. unfold plain_instance.
  destruct (mapping_to_neighbors_of_spec G Hc) as [nbrs [-> Hnb]]. simpl.
  destruct (dict_comprehension_getitem L (nodes_of G) HL) as [int0 [-> [Hd0 Hl0]]]. simpl.
  pose proof (nodes_of_nonempty G Hne) as Hne'.
  destruct (higher_than_any_internal_label_Ok (nodes_of G) int0 Hne' Hd0) as [H ->]. simpl.
  pose proof (distinct_labels_pos (nodes_of G) int0 Hne' Hd0) as Hpos.
  assert (0 < length (nodes_of G))%nat as Hlen0.
  { destruct (nodes_of G); [done|simpl; lia]. }
  destruct (plain_loop_terminates (nodes_of G) nbrs Hnd Hnb fuel int0 0%nat Hd0)
    as [int [defs [c [-> [Hd [Hlen Hcnt]]]]]]; [lia|]. simpl.
  destruct (label_pairings_of_spec (nodes_of G) int L Hd HL) as [ps [-> Hps]]. simpl.
  eexists. split; [done|]. simpl. split; [done|]. split; [done|]. split.
  - unfold plain_valid. simpl. rewrite Hlen.
    rewrite (distinct_labels_set_map (nodes_of G) int Hd). f_equal.
    apply set_eq. intros l. rewrite elem_of_list_to_set, elem_of_map.
    rewrite Hps, <- list_fmap_compose, list_elem_of_fmap. simpl. split.
    + intros [n [-> Hn]]. rewrite elem_of_list_to_set in Hn. eauto.
    + intros [n [-> Hn]]. exists n. split; [done|]. by apply elem_of_list_to_set.
  - pose proof (distinct_labels_le (nodes_of G) int Hnd Hd). lia.
Qed.

(** ** Comparing plain instances *)

Lemma prod_ltb_StrictTotal {A B} `{EqDecision A} (ltbA : A → A → bool)
    (ltbB : B → B → bool) :
  StrictTotal ltbA → StrictTotal ltbB → StrictTotal (prod_ltb ltbA ltbB).
Proof.
  intros [Ai At Atot] [Bi Bt Btot]. unfold prod_ltb. split.
  - intros [a b]. simpl. by rewrite decide_True.
  - intros [a b] [c d] [e f]. simpl. repeat case_decide; subst; try done; intros Hl1 Hl2.
    + by eapply Bt.
    + pose proof (At _ _ _ Hl1 Hl2) as Hx. by rewrite Ai in Hx.
    + by eapply At.
  - intros [a b] [c d]. simpl. repeat case_decide; subst; try done.
    + destruct (Btot b d) as [-> |[?|?]]; auto.
    + destruct (Atot a c) as [?|[?|?]]; auto.
Qed.

Lemma prod_ltb_StrictWeak {A B} `{EqDecision A} (ltbA : A → A → bool)
    (ltbB : B → B → bool) :
  StrictTotal ltbA → StrictWeak ltbB → StrictWeak (prod_ltb ltbA ltbB).
Proof.
  intros [Ai At Atot] [Bi Bt Bn]. unfold prod_ltb. split.
  - intros [a b]. simpl. by rewrite decide_True.
  - intros [a b] [c d] [e f]. simpl. repeat case_decide; subst; try done; intros Hl1 Hl2.
    + by eapply Bt.
    + pose proof (At _ _ _ Hl1 Hl2) as Hx. by rewrite Ai in Hx.
    + by eapply At.
  - intros [a b] [c d] [e f]. simpl.
    destruct (StrictTotal_weak ltbA (Build_StrictTotal _ _ Ai At Atot)) as [_ _ An].
    repeat case_decide; subst; try done; intros Hl1 Hl2.
    + by eapply Bn.
    + destruct (Atot e c) as [?|[?|?]]; congruence.
    + by eapply An.
Qed.

Lemma defs_ltb_StrictTotal : StrictTotal defs_ltb.
Proof. apply lex_ltb_StrictTotal, plain_key_ltb_StrictTotal. Qed.

Lemma plain_ltb_StrictWeak : StrictWeak plain_ltb.
Proof.
  unfold plain_ltb. apply (StrictWeak_proj plain_view).
  apply StrictTotal_weak, prod_ltb_StrictTotal;
    [apply pairs_ltb_StrictTotal|apply defs_ltb_StrictTotal].
Qed.

Lemma nodewise_key_ltb_StrictWeak : StrictWeak nodewise_key_ltb.
Proof.
  unfold nodewise_key_ltb.
  apply prod_ltb_StrictWeak; [apply int_ltb_StrictTotal|apply plain_ltb_StrictWeak].
Qed.

(** [compare_definitions] on lists of the same length is the lexicographic
    comparison. *)
Lemma compare_definitions_spec (self other pre : list plain_key) :
  length self = length other →
  compare_definitions self (pre ++ other) (length pre) =
    Ok (if defs_ltb self other then -1 else if defs_ltb other self then 1 else 0).
Proof.
  revert other pre. induction self as [|s self IH]; intros [|o other] pre Hlen;
    try done.
  simpl. unfold list_getitem. rewrite list_lookup_middle by done. simpl.
  destruct plain_key_ltb_StrictTotal as [Ki Kt Ktot].
  destruct list_ltb_StrictTotal as [Li Lt Ltot].
  destruct int_ltb_StrictTotal as [Ii It Itot].
  unfold defs_ltb. simpl.
  destruct (decide (s = o)) as [-> |Hso].
  - rewrite decide_True by done. rewrite Ii, Li.
    replace (S (length pre)) with (length (pre ++ [o])) by (rewrite length_app; simpl; lia).
    rewrite (cons_middle o pre other), app_assoc. apply IH. simpl in Hlen. lia.
  - rewrite (decide_False (P := o = s)) by done.
    unfold plain_key_ltb. destruct s as [s1 s2], o as [o1 o2]. simpl.
    destruct (decide (s1 = o1)) as [-> |H1].
    + rewrite decide_True by done. rewrite Ii.
      destruct (Ltot s2 o2) as [-> |[Hlt|Hlt]]; [done| |].
      * by rewrite Hlt.
      * rewrite Hlt. destruct (list_ltb s2 o2) eqn:Hlt'; [|done].
        pose proof (Lt _ _ _ Hlt Hlt') as Hoo. by rewrite Li in Hoo.
    + rewrite (decide_False (P := o1 = s1)) by done.
      destruct (Itot s1 o1) as [?|[Hlt|Hlt]]; [done| |].
      * by rewrite Hlt.
      * rewrite Hlt. destruct (int_ltb s1 o1) eqn:Hlt'; [|done].
        pose proof (It _ _ _ Hlt Hlt') as Hoo. by rewrite Ii in Hoo.
Qed.

(** For instances that satisfy [plain_valid] the comparison does not raise
    and is the order [plain_ltb]. *)
Lemma plain_full_comparison_spec (p q : Plain) :
  plain_valid p → plain_valid q →
  plain_full_comparison p q =
    Ok (if plain_ltb p q then -1 else if plain_ltb q p then 1 else 0).
Proof.
  intros Hp Hq. unfold plain_full_comparison, plain_ltb, prod_ltb, plain_view. cbn [fst snd].
  destruct pairs_ltb_StrictTotal as [Pi Pt Ptot].
  destruct (decide (p_label_pairings p = p_label_pairings q)) as [Heq|Hne].
  - rewrite decide_True by done. rewrite Heq, Pi.
    apply (compare_definitions_spec _ _ []).
    unfold plain_valid in Hp, Hq. etrans; [exact Hp|]. rewrite Heq. symmetry. exact Hq.
  - rewrite (decide_False (P := p_label_pairings q = p_label_pairings p)) by done.
    destruct (Ptot (p_label_pairings p) (p_label_pairings q)) as [?|[Hlt|Hlt]]; [done| |].
    + by rewrite Hlt.
    + rewrite Hlt. destruct (pairs_ltb (p_label_pairings p) (p_label_pairings q)) eqn:Hlt';
        [|done].
      pose proof (Pt _ _ _ Hlt Hlt') as Hoo. by rewrite Pi in Hoo.
Qed.

Lemma nodewise_key_lt_spec (a b : nodewise_key) :
  plain_valid a.2 → plain_valid b.2 →
  nodewise_key_lt a b = Ok (nodewise_key_ltb a b).
Proof.
  intros Ha Hb. unfold nodewise_key_lt, nodewise_key_ltb, prod_ltb.
  case_decide; [|done]. rewrite (plain_full_comparison_spec _ _ Ha Hb). simpl.
  destruct (plain_ltb a.2 b.2) eqn:Hab; simpl; [done|].
  destruct (plain_ltb b.2 a.2); simpl; done.
Qed.

Lemma nodewise_key_ne_spec (a b : nodewise_key) :
  plain_valid a.2 → plain_valid b.2 →
  nodewise_key_ne a b = Ok (nodewise_key_ltb a b || nodewise_key_ltb b a).
Proof.
  intros Ha Hb. unfold nodewise_key_ne, nodewise_key_ltb, prod_ltb.
  destruct (decide (a.1 = b.1)) as [Heq|Hne].
  - rewrite (decide_True (P := b.1 = a.1)) by done.
    rewrite (plain_full_comparison_spec _ _ Ha Hb). simpl.
    destruct (plain_ltb a.2 b.2) eqn:Hab; simpl; [done|].
    destruct (plain_ltb b.2 a.2); simpl; done.
  - rewrite (decide_False (P := b.1 = a.1)) by done. f_equal. symmetry.
    destruct int_ltb_StrictTotal as [_ _ Itot].
    destruct (Itot a.1 b.1) as [?|[-> | ->]]; [done|done|apply orb_true_r].
Qed.

Lemma nodewise_key_equiv_fst (a b : nodewise_key) :
  key_equiv nodewise_key_ltb a b → a.1 = b.1.
Proof.
  unfold key_equiv, nodewise_key_ltb, prod_ltb. intros [H1 H2].
  destruct (decide (a.1 = b.1)) as [|Hne]; [done|].
  rewrite (decide_False (P := b.1 = a.1)) in H2 by done.
  destruct int_ltb_StrictTotal as [_ _ Itot].
  destruct (Itot a.1 b.1) as [?|[?|?]]; congruence.
Qed.

(** ** A round of a nodewise instance *)

Section nodewise_round.
Context (fuel : nat) (G : Graph) (H : Z).
Context (Hnd : NoDup (nodes_of G)) (Hcl : graph_closed G) (Hne : G ≠ []).
Context (Hfuel : (length (nodes_of G) ≤ fuel)%nat).

Lemma nodewise_sub_Ok (internal overlay : gmap Z Z) :
  dom_is (nodes_of G) internal → dom_is (nodes_of G) overlay →
  ∃ p, nodewise_sub fuel G (nodes_of G) H internal overlay = Ok p ∧
    plain_valid p ∧ dom_is (nodes_of G) (p_internal_labels p) ∧
    (S (p_counter p) ≤ length (nodes_of G))%nat.
Proof.
  intros Hi Ho. unfold nodewise_sub.
  destruct (dict_comprehension_spec
              (λ n, o ← getitem overlay n; l ← getitem internal n; Ok (overlay_key H o l))
              (λ n, overlay_key H (label_of overlay n) (label_of internal n))
              (nodes_of G)) as [nl [-> [_ Hdnl]]].
  { intros n Hn.
    rewrite (getitem_Some _ _ _ (dom_is_lookup _ overlay n Ho Hn)). simpl.
    rewrite (getitem_Some _ _ _ (dom_is_lookup _ internal n Hi Hn)). done. }
  simpl.
  destruct (plain_instance_Ok fuel G nl Hnd Hcl Hne) as [p [Hp [_ [Hd [Hv Hc]]]]];
    [intros n Hn; by apply Hdnl|done|].
  exists p. done.
Qed.

Lemma nodewise_id_of_spec (internal : gmap Z Z) (ovs : gmap Z (gmap Z Z))
    (ids : list (Z * nodewise_key)) (node : Z) :
  dom_is (nodes_of G) internal → overlays_ok (nodes_of G) ovs → node ∈ nodes_of G →
  ∃ sub,
    nodewise_key_of fuel G (nodes_of G) H internal ovs node = (label_of internal node, sub) ∧
    nodewise_id_of fuel G (nodes_of G) H internal (ovs, ids) node =
      Ok (<[node := p_internal_labels sub]> ovs, ids ++ [(node, (label_of internal node, sub))]) ∧
    plain_valid sub ∧ dom_is (nodes_of G) (p_internal_labels sub).
Proof.
  intros Hi Ho Hn. destruct (Ho node Hn) as [ov [Hov Hdov]].
  destruct (nodewise_sub_Ok internal ov Hi Hdov) as [sub [Hsub [Hv [Hd _]]]].
  exists sub. split; [|split; [|done]].
  - unfold nodewise_key_of. rewrite Hov. simpl. by rewrite Hsub.
  - unfold nodewise_id_of. rewrite (getitem_Some _ _ _ Hov). simpl.
    unfold nodewise_sub in Hsub.
    destruct (dict_comprehension _ (nodes_of G)) as [nl| |]; try done. simpl in *.
    rewrite (getitem_Some _ _ _ (dom_is_lookup _ internal node Hi Hn)). simpl.
    rewrite Hsub. done.
Qed.

Lemma nodewise_ids_fold (internal : gmap Z Z) (todo : list Z) :
  dom_is (nodes_of G) internal → NoDup todo → (∀ n, n ∈ todo → n ∈ nodes_of G) →
  ∀ ovs ids, overlays_ok (nodes_of G) ovs →
    ∃ ovs',
      foldR (nodewise_id_of fuel G (nodes_of G) H internal) (ovs, ids) todo =
        Ok (ovs', ids ++ ((λ n, (n, nodewise_key_of fuel G (nodes_of G) H internal ovs n))
                            <$> todo)) ∧
      overlays_ok (nodes_of G) ovs' ∧
      (∀ n, n ∈ todo →
         plain_valid (nodewise_key_of fuel G (nodes_of G) H internal ovs n).2).
Proof.
  intros Hi. induction todo as [|a todo IH]; intros Htd Hsub ovs ids Ho.
  - exists ovs. simpl. rewrite app_nil_r. split; [done|]. split; [done|].
    by intros n ?%elem_of_nil.
  - apply NoDup_cons in Htd as [Ha Htd].
    destruct (nodewise_id_of_spec internal ovs ids a Hi Ho) as [sub [Hk [Hid [Hv Hd]]]];
      [apply Hsub; left|].
    cbn [foldR]. rewrite Hid. cbn [mbind result_bind].
    destruct (IH Htd) with (ovs := <[a := p_internal_labels sub]> ovs)
                           (ids := ids ++ [(a, (label_of internal a, sub))])
      as [ovs' [Hf [Ho' Hval]]].
    { intros n Hn. apply Hsub. by right. }
    { intros n Hn. destruct (decide (n = a)) as [-> |Hna].
      - exists (p_internal_labels sub). by rewrite lookup_insert_eq.
      - rewrite lookup_insert_ne by done. by apply Ho. }
    assert (∀ n, n ∈ todo →
              nodewise_key_of fuel G (nodes_of G) H internal
                (<[a := p_internal_labels sub]> ovs) n =
              nodewise_key_of fuel G (nodes_of G) H internal ovs n) as Hsame.
    { intros n Hn. unfold nodewise_key_of. rewrite lookup_insert_ne; [done|].
      intros ->. done. }
    exists ovs'. split; [|split; [done|]].
    + rewrite Hf. f_equal. f_equal. rewrite <- app_assoc. f_equal.
      rewrite fmap_cons, Hk. simpl. f_equal.
      apply list_fmap_ext. intros i n Hin. f_equal. apply Hsame.
      by eapply list_elem_of_lookup_2.
    + intros n [-> |Hn]%elem_of_cons.
      * by rewrite Hk.
      * rewrite <- Hsame by done. by apply Hval.
Qed.

Lemma nodewise_get_new_ids_in_order_spec (internal : gmap Z Z) (ovs : gmap Z (gmap Z Z)) :
  dom_is (nodes_of G) internal → overlays_ok (nodes_of G) ovs →
  ∃ ovs' ids,
    nodewise_get_new_ids_in_order fuel G (nodes_of G) H internal ovs = Ok (ovs', ids) ∧
    overlays_ok (nodes_of G) ovs' ∧
    ids ≡ₚ (λ n, (n, nodewise_key_of fuel G (nodes_of G) H internal ovs n)) <$> nodes_of G ∧
    sorted_by_key nodewise_key_ltb ids ∧
    (∀ x, x ∈ ids → plain_valid x.2.2).
Proof.
  intros Hi Ho. unfold nodewise_get_new_ids_in_order.
  destruct (nodewise_ids_fold internal (nodes_of G) Hi Hnd) with (ovs := ovs) (ids := @nil (Z * nodewise_key))
    as [ovs' [-> [Ho' Hval]]]; [done|done|].
  cbn [mbind result_bind app].
  set (l := (λ n, (n, nodewise_key_of fuel G (nodes_of G) H internal ovs n)) <$> nodes_of G).
  assert (∀ x, x ∈ l → plain_valid x.2.2) as Hvl.
  { intros x [n [-> Hn]]%list_elem_of_fmap. simpl. by apply Hval. }
  destruct (py_sort_spec (λ x y : Z * nodewise_key, nodewise_key_lt x.2 y.2)
              (λ x y, nodewise_key_ltb x.2 y.2)
              (StrictWeak_proj snd _ nodewise_key_ltb_StrictWeak) l)
    as [s [-> [Hp Hs]]].
  { intros x y Hx Hy. apply nodewise_key_lt_spec; by apply Hvl. }
  cbn [mbind result_bind]. exists ovs', s. split; [done|]. split; [done|].
  split; [done|]. split; [done|]. intros x Hx. apply Hvl. by rewrite <- Hp.
Qed.

Lemma nodewise_round (internal : gmap Z Z) (ovs : gmap Z (gmap Z Z)) :
  dom_is (nodes_of G) internal → overlays_ok (nodes_of G) ovs →
  ∃ ovs' ids new defs b,
    nodewise_get_new_ids_in_order fuel G (nodes_of G) H internal ovs = Ok (ovs', ids) ∧
    assign_new_labels_for_sorted_ids nodewise_key_ne ids = Ok (new, defs) ∧
    are_new_labels_effectively_the_same (nodes_of G) internal new = Ok b ∧
    overlays_ok (nodes_of G) ovs' ∧
    dom_is (nodes_of G) new ∧
    refines (nodes_of G) internal new ∧
    distinct_labels new = length defs ∧
    (b = true ↔ same_partition (nodes_of G) internal new) ∧
    (b = true → distinct_labels internal = distinct_labels new) ∧
    (b = false → (distinct_labels internal < distinct_labels new)%nat).
Proof.
  intros Hi Ho.
  destruct (nodewise_get_new_ids_in_order_spec internal ovs Hi Ho)
    as [ovs' [ids [Hids [Ho' [Hp [Hs Hval]]]]]].
  destruct (refinement_round nodewise_key_ne nodewise_key_ltb nodewise_key_ltb_StrictWeak
              (nodes_of G) (nodewise_key_of fuel G (nodes_of G) H internal ovs) internal ids)
    as [new [defs [b [Ha [Hb [Hdn [Href [_ [_ [_ [Hdist [Hiff [Ht Hf]]]]]]]]]]]]]; try done.
  - intros x y [x' [-> Hx]]%list_elem_of_fmap [y' [-> Hy]]%list_elem_of_fmap.
    apply nodewise_key_ne_spec; by apply Hval.
  - intros n m Hn Hm Heq%nodewise_key_equiv_fst. simpl in Heq.
    rewrite (dom_is_lookup _ internal n), (dom_is_lookup _ internal m) by done.
    by rewrite Heq.
  - exists ovs', ids, new, defs, b. done.
Qed.

Lemma nodewise_loop_terminates :
  ∀ rounds internal ovs counter,
    dom_is (nodes_of G) internal → overlays_ok (nodes_of G) ovs →
    (length (nodes_of G) - distinct_labels internal < rounds)%nat →
    ∃ internal' defs ovs' counter',
      nodewise_loop fuel rounds G (nodes_of G) H internal ovs counter =
        Ok (internal', defs, ovs', counter') ∧
      dom_is (nodes_of G) internal' ∧ overlays_ok (nodes_of G) ovs' ∧
      length defs = distinct_labels internal' ∧
      (counter' + distinct_labels internal ≤ counter + distinct_labels internal')%nat.
Proof.
  intros rounds. induction rounds as [|rounds IH]; intros internal ovs counter Hi Ho Hr; [lia|].
  destruct (nodewise_round internal ovs Hi Ho)
    as [ovs' [ids [new [defs [b [Hids [Ha [Hb [Ho' [Hdn [Href [Hdist [Hiff [Ht Hf]]]]]]]]]]]]]].
  cbn [nodewise_loop]. rewrite Hids. cbn [mbind result_bind]. rewrite Ha.
  cbn [mbind result_bind]. rewrite Hb. cbn [mbind result_bind].
  destruct b.
  - exists internal, defs, ovs', counter. split; [done|]. split; [done|]. split; [done|].
    split; [|lia]. rewrite <- Hdist. symmetry. by apply Ht.
  - specialize (Hf eq_refl).
    pose proof (distinct_labels_le (nodes_of G) new Hnd Hdn) as Hle.
    destruct (IH new ovs' (S counter) Hdn Ho') as [i' [d' [o' [c' [Hres [Hd' [Hov' [Hlen Hc']]]]]]]];
      [lia|].
    exists i', d', o', c'. split; [done|]. split; [done|]. split; [done|]. split; [done|]. lia.
Qed.
End nodewise_round.

(** ** Setting up a nodewise instance *)

(** The expanded graph is fit for the refinement. *)
Lemma expand_graph_ready (G : Graph) (L : gmap Z Z) :
  graph_wf G → G ≠ [] → labels_total G L →
  ∃ G' L',
    expand_graph G L = Ok (G', L') ∧
    NoDup (nodes_of G') ∧ graph_closed G' ∧ G' ≠ [] ∧
    (∀ n, n ∈ nodes_of G' → is_Some (L' !! n)) ∧
    (∀ n, n ∈ nodes_of G → n ∈ nodes_of G' ∧ L' !! n = L !! n) ∧
    (length (nodes_of G') ≤ length (nodes_of G) + length (edges_of G))%nat.
Proof.
  intros Hwf Hne HL.
  destruct (expand_graph_Ok G L Hwf Hne HL)
    as [G' [L' [mx [ml [He [Hml [Hmx [Hmax [HL' [Hn [Hnd Hh]]]]]]]]]]].
  rewrite labels_total_elim in HL.
  exists G', L'. split; [done|]. split; [done|]. split; [|split; [|split; [|split]]].
  - intros x y Hxy. apply Hh in Hxy as [i [u [v [Hi Hc]]]]. apply Hn.
    pose proof (lookup_lt_Some _ _ _ Hi) as Hlt.
    apply list_elem_of_lookup_2 in Hi.
    apply (edges_of_wf _ _ _ Hwf) in Hi as [_ [_ [Hu Hv]]].
    destruct Hc as [[_ ->]|[_ [-> | ->]]]; [right; lia|by left|by left].
  - intros ->. pose proof (proj2 (Hn mx) (or_introl Hmx)) as Hin. by apply elem_of_nil in Hin.
  - intros n Hin. rewrite HL'. case_decide; [done|].
    apply Hn in Hin as [Hin|?]; [|lia]. rewrite decide_True by done. by apply HL.
  - intros n Hin. split; [apply Hn; by left|]. rewrite HL'.
    rewrite decide_False; [by rewrite decide_True|]. specialize (Hmax n Hin). lia.
  - set (fresh := (λ i : nat, mx + 1 + Z.of_nat i) <$> seq 0 (length (edges_of G))).
    assert (length fresh = length (edges_of G)) as Hfl.
    { unfold fresh. by rewrite length_fmap, length_seq. }
    rewrite <- Hfl. rewrite <- length_app.
    apply submseteq_length, NoDup_submseteq; [done|].
    intros n [Hin|Hin]%Hn; apply elem_of_app; [by left|right].
    apply list_elem_of_fmap. exists (Z.to_nat (n - mx - 1)). split; [lia|].
    apply elem_of_seq. lia.
Qed.

Lemma bfs_visit_mono (G : Graph) (level : Z) (acc : gmap Z Z * list Z) (v k : Z) :
  is_Some (acc.1 !! k) → is_Some ((bfs_visit G level acc v).1 !! k).
Proof.
  unfold bfs_visit. generalize (default [] (adj_lookup G v)). intros ws. revert acc.
  induction ws as [|w ws IH]; intros [seen nxt] Hk; [done|].
  simpl. apply IH. destruct (seen !! w) eqn:Hw; [done|]. simpl.
  destruct (decide (k = w)) as [-> |?]; [by rewrite lookup_insert_eq|].
  by rewrite lookup_insert_ne.
Qed.

Lemma bfs_fold_mono (G : Graph) (level : Z) (vs : list Z) (acc : gmap Z Z * list Z) (k : Z) :
  is_Some (acc.1 !! k) → is_Some ((foldl (bfs_visit G level) acc vs).1 !! k).
Proof.
  revert acc. induction vs as [|v vs IH]; intros acc Hk; [done|].
  simpl. apply IH. by apply bfs_visit_mono.
Qed.

Lemma bfs_levels_mono (fuel : nat) (G : Graph) (seen : gmap Z Z) (thislevel : list Z)
    (level k : Z) :
  is_Some (seen !! k) → is_Some (bfs_levels fuel G seen thislevel level !! k).
Proof.
  revert seen thislevel level. induction fuel as [|fuel IH]; intros seen tl level Hk; [done|].
  simpl. destruct tl as [|t tl]; [done|].
  destruct (foldl (bfs_visit G (level + 1)) (seen, []) (t :: tl)) as [seen' nxt] eqn:Hf.
  apply IH. pose proof (bfs_fold_mono G (level + 1) (t :: tl) (seen, []) k Hk) as Hm.
  by rewrite Hf in Hm.
Qed.

Lemma fill_path_labels_spec (max_dist : Z) (nodes : list Z) (pl : gmap Z Z) :
  let pl' := foldl (λ pl n, match pl !! n with
                            | Some _ => pl
                            | None => <[n := max_dist]> pl
                            end) pl nodes in
  (∀ k, is_Some (pl !! k) → is_Some (pl' !! k)) ∧ (∀ n, n ∈ nodes → is_Some (pl' !! n)).
Proof.
  revert pl. induction nodes as [|a nodes IH]; intros pl; simpl.
  - split; [done|]. by intros n ?%elem_of_nil.
  - set (pl1 := match pl !! a with Some _ => pl | None => <[a := max_dist]> pl end).
    destruct (IH pl1) as [Hmono Hin].
    assert (∀ k, is_Some (pl !! k) → is_Some (pl1 !! k)) as H1.
    { intros k Hk. unfold pl1. destruct (pl !! a); [done|].
      destruct (decide (k = a)) as [-> |?]; [by rewrite lookup_insert_eq|].
      by rewrite lookup_insert_ne. }
    assert (is_Some (pl1 !! a)) as Ha.
    { unfold pl1. destruct (pl !! a) eqn:Hpa; [by rewrite Hpa|by rewrite lookup_insert_eq]. }
    split; [auto|]. intros n [-> |Hn]%elem_of_cons; auto.
Qed.

Lemma py_max_values_Ok (d : gmap Z Z) (k : Z) : is_Some (d !! k) → ∃ m, py_max (dict_values d) = Ok m.
Proof. intros [v Hv]. apply py_max_Ok. by eapply dict_values_nonempty. Qed.

Lemma head_start_max_value_Ok (G : Graph) (basic : gmap Z Z) (node : Z) :
  dom_is (nodes_of G) basic → node ∈ nodes_of G →
  ∃ mv, head_start_max_value G (nodes_of G) basic node = Ok mv.
Proof.
  intros Hb Hn. unfold head_start_max_value, single_source_shortest_path_length.
  rewrite (proj2 (has_node_true G node) Hn). simpl.
  set (pl := bfs_levels (length G) G {[node := 0]} [node] 0).
  assert (is_Some (pl !! node)) as Hsrc.
  { apply bfs_levels_mono. by rewrite lookup_singleton_eq. }
  destruct (py_max_values_Ok pl node Hsrc) as [m ->]. simpl.
  destruct (fill_path_labels_spec (m + 1) (nodes_of G) pl) as [_ Hfill].
  set (pl' := foldl _ pl (nodes_of G)) in *.
  destruct (dict_comprehension_spec
              (λ n, d ← getitem pl' n; b ← getitem basic n;
                    Ok (d + b * Z.of_nat (length (nodes_of G))))
              (λ n, label_of pl' n + label_of basic n * Z.of_nat (length (nodes_of G)))
              (nodes_of G)) as [ov [-> [_ Hdov]]].
  { intros n Hin. destruct (Hfill n Hin) as [d Hd]. rewrite (getitem_Some _ _ _ Hd). simpl.
    rewrite (getitem_Some _ _ _ (dom_is_lookup _ basic n Hb Hin)). simpl.
    by rewrite (label_of_Some _ _ _ Hd). }
  simpl. apply (py_max_values_Ok ov node). by apply Hdov.
Qed.

Lemma initial_overlay_Ok (G : Graph) (basic external : gmap Z Z) (node : Z) :
  dom_is (nodes_of G) basic → dom_is (nodes_of G) external → node ∈ nodes_of G →
  ∃ ov, initial_overlay G (nodes_of G) basic external node = Ok ov ∧
    dom_is (nodes_of G) ov.
Proof.
  intros Hb He Hn. unfold initial_overlay.
  destruct (head_start_max_value_Ok G basic node Hb Hn) as [mv ->]. simpl.
  destruct (dict_comprehension_getitem external (nodes_of G)) as [ov [-> [Hd _]]];
    [intros n Hin; by apply He|]. simpl.
  eexists. split; [done|]. intros n.
  destruct (decide (n = node)) as [-> |Hne].
  - rewrite lookup_insert_eq. split; [done|eauto].
  - rewrite lookup_insert_ne by done. apply Hd.
Qed.

Lemma initial_overlays_fold (G : Graph) (basic external : gmap Z Z) (todo : list Z)
    (ovs : gmap Z (gmap Z Z)) :
  dom_is (nodes_of G) basic → dom_is (nodes_of G) external →
  (∀ n, n ∈ todo → n ∈ nodes_of G) →
  ∃ ovs',
    foldR (λ ovs node,
             ov ← initial_overlay G (nodes_of G) basic external node;
             Ok (<[node := ov]> ovs)) ovs todo = Ok ovs' ∧
    (∀ n, n ∈ todo → ∃ ov, ovs' !! n = Some ov ∧ dom_is (nodes_of G) ov) ∧
    (∀ n ov, ovs !! n = Some ov → dom_is (nodes_of G) ov →
       ∃ ov', ovs' !! n = Some ov' ∧ dom_is (nodes_of G) ov').
Proof.
  intros Hb He. revert ovs. induction todo as [|a todo IH]; intros ovs Hsub.
  - exists ovs. split; [done|]. split; [by intros n ?%elem_of_nil|]. eauto.
  - destruct (initial_overlay_Ok G basic external a Hb He) as [ov [Hov Hd]]; [apply Hsub; left|].
    cbn [foldR]. rewrite Hov. cbn [mbind result_bind].
    destruct (IH (<[a := ov]> ovs)) as [ovs' [-> [Hin Hold]]]; [intros; apply Hsub; by right|].
    exists ovs'. split; [done|]. split.
    + intros n [-> |Hn]%elem_of_cons; [|by apply Hin].
      apply (Hold a ov); [by rewrite lookup_insert_eq|done].
    + intros n ov0 Hn Hd0. destruct (decide (n = a)) as [-> |Hna].
      * apply (Hold a ov); [by rewrite lookup_insert_eq|done].
      * apply (Hold n ov0); [by rewrite lookup_insert_ne|done].
Qed.

Lemma initial_overlays_Ok (G : Graph) (basic external : gmap Z Z) :
  dom_is (nodes_of G) basic → dom_is (nodes_of G) external →
  ∃ ovs, initial_overlays G (nodes_of G) basic external = Ok ovs ∧
    overlays_ok (nodes_of G) ovs.
Proof.
  intros Hb He. unfold initial_overlays.
  destruct (initial_overlays_fold G basic external (nodes_of G) ∅ Hb He) as [ovs [-> [Hin _]]];
    [done|].
  exists ovs. done.
Qed.

Lemma nodewise_setup_Ok (fuel : nat) (G : Graph) (L : gmap Z Z) :
  graph_wf G → G ≠ [] → labels_total G L →
  (length (nodes_of G) + length (edges_of G) ≤ fuel)%nat →
  ∃ self L',
    nodewise_setup fuel G L = Ok (self, L') ∧
    nodewise_ready G L self ∧
    (∀ n, n ∈ nw_nodes self → is_Some (L' !! n)) ∧
    nw_counter self = 0%nat.
Proof.
  intros Hwf Hne HL Hfuel. unfold nodewise_setup.
  destruct (expand_graph_ready G L Hwf Hne HL)
    as [G' [L' [-> [Hnd [Hcl [Hne' [HL' [Hkeep Hlen]]]]]]]].
  cbn [mbind result_bind].
  destruct (mapping_to_neighbors_of_spec G' Hcl) as [nbrs [-> Hnb]]. cbn [mbind result_bind].
  destruct (dict_comprehension_getitem L' (nodes_of G') HL') as [int0 [Hint0 [Hd0 Hl0]]].
  rewrite Hint0. cbn [mbind result_bind].
  destruct (higher_than_any_internal_label_Ok (nodes_of G') int0) as [H ->];
    [by apply nodes_of_nonempty|done|]. cbn [mbind result_bind].
  destruct (plain_instance_Ok fuel G' L' Hnd Hcl Hne' HL') as [basic [-> [_ [Hdb _]]]]; [lia|].
  cbn [mbind result_bind].
  destruct (initial_overlays_Ok G' (p_internal_labels basic) int0 Hdb Hd0) as [ovs [-> Hovs]].
  cbn [mbind result_bind].
  eexists _, _. split; [done|]. split; [|done].
  unfold nodewise_ready. cbn. split_and!; try done.
  intros n Hn. destruct (Hkeep n Hn) as [Hin Heq]. split; [done|].
  by rewrite Hl0.
Qed.

Lemma nodewise_init_Ok (fuel : nat) (G : Graph) (L : gmap Z Z) :
  graph_wf G → G ≠ [] → labels_total G L →
  (length (nodes_of G) + length (edges_of G) ≤ fuel)%nat →
  ∃ self L',
    nodewise_init fuel G L = Ok (self, L') ∧
    nodewise_ready G L self ∧
    (∀ n, n ∈ nw_nodes self → is_Some (L' !! n)) ∧
    length (nw_label_definitions self) = distinct_labels (nw_internal_labels self) ∧
    (S (nw_counter self) ≤ length (nw_nodes self))%nat.
Proof.
  intros Hwf Hne HL Hfuel. unfold nodewise_init.
  destruct (nodewise_setup_Ok fuel G L Hwf Hne HL Hfuel) as [self [L' [-> [Hr [HL' Hc0]]]]].
  cbn [mbind result_bind].
  destruct Hr as (Hin & HG & Hnodes & Hnd & Hcl & Hne' & Hdi & Hde & Hov & Hkeep & Hlen).
  rewrite Hnodes in *.
  pose proof (nodes_of_nonempty _ Hne') as Hnn.
  pose proof (distinct_labels_pos _ _ Hnn Hdi) as Hpos.
  assert (0 < length (nodes_of (nw_G self)))%nat as Hlen0.
  { destruct (nodes_of (nw_G self)); [done|simpl; lia]. }
  destruct (nodewise_loop_terminates fuel (nw_G self)
              (nw_higher_than_any_internal_label self) Hnd Hcl Hne') with
      (rounds := fuel) (internal := nw_internal_labels self)
      (ovs := nw_nodewise_overlays self) (counter := 0%nat)
    as [int [defs [ovs [c [-> [Hdi' [Hov' [Hdl Hcnt]]]]]]]]; [lia|done|done|lia|].
  cbn [mbind result_bind].
  eexists _, _. split; [done|]. unfold nodewise_ready. cbn.
  split_and!; try done.
  pose proof (distinct_labels_le _ _ Hnd Hdi'). lia.
Qed.

Lemma servant_instance_Ok (fuel : nat) (G : Graph) (L : gmap Z Z) :
  graph_wf G → G ≠ [] → labels_total G L →
  (length (nodes_of G) + length (edges_of G) ≤ fuel)%nat →
  ∃ self pairings,
    servant_instance fuel G L = Ok (self, pairings) ∧
    nodewise_ready G L self ∧
    (S (nw_counter self) ≤ length (nw_nodes self))%nat.
Proof.
  intros Hwf Hne HL Hfuel. unfold servant_instance.
  destruct (nodewise_init_Ok fuel G L Hwf Hne HL Hfuel) as [self [L' [-> [Hr [HL' [_ Hc]]]]]].
  cbn [mbind result_bind].
  destruct Hr as (Hin & HG & Hnodes & Hnd & Hcl & Hne' & Hdi & Hde & Hov & Hkeep & Hlen).
  destruct (label_pairings_of_spec (nw_nodes self) (nw_internal_labels self) L' Hdi HL')
    as [ps [-> _]].
  cbn [mbind result_bind]. eexists _, _. split; [done|]. split; [|done].
  unfold nodewise_ready. done.
Qed.

(** ** The canonical order *)

Lemma further_sort_relabel_fst (l : list (Z * (Z * Z))) (next : Z) (prev : Z * Z) :
  (further_sort_relabel l next prev).*1 = l.*1.
Proof.
  revert next prev. induction l as [|x l IH]; intros next prev; [done|].
  simpl. case_decide; simpl; by rewrite IH.
Qed.

Lemma further_sort_spec (l : list (Z * Z)) (labels : gmap Z Z) :
  l ≠ [] → (∀ x, x ∈ l → is_Some (labels !! x.1)) →
  ∃ l', further_sort l labels = Ok l' ∧ l'.*1 ≡ₚ l.*1.
Proof.
  intros Hne Hl. unfold further_sort.
  rewrite (mapR_Ok _ (λ x, (x.1, (x.2, label_of labels x.1)))).
  - cbn [mbind result_bind].
    destruct (py_sort_spec (λ x y : Z * (Z * Z), Ok (pair_ltb x.2 y.2))
                (λ x y, pair_ltb x.2 y.2)
                (StrictWeak_proj snd _ (StrictTotal_weak _ pair_ltb_StrictTotal))
                ((λ x, (x.1, (x.2, label_of labels x.1))) <$> l)) as [s [-> [Hp _]]]; [done|].
    cbn [mbind result_bind].
    assert (s.*1 ≡ₚ l.*1) as Hfst.
    { rewrite Hp, <- list_fmap_compose. done. }
    destruct s as [|x s].
    + destruct l; [done|]. apply Permutation_nil_l in Hfst. done.
    + eexists. split; [done|]. rewrite <- Hfst. csimpl. by rewrite further_sort_relabel_fst.
  - intros x Hx. destruct (Hl x Hx) as [v Hv]. rewrite (getitem_Some _ _ _ Hv). simpl.
    by rewrite (label_of_Some _ _ _ Hv).
Qed.

Lemma skip_ties_Ok (fuel : nat) (ordering : list (Z * Z)) (key : Z) (next_idx : nat) :
  (length ordering - next_idx < fuel)%nat →
  ∃ i, skip_ties fuel ordering key next_idx = Ok i ∧ (next_idx ≤ i)%nat.
Proof.
  revert next_idx. induction fuel as [|fuel IH]; intros next Hf; [lia|].
  simpl. destruct (ordering !! next) as [x|] eqn:Hx; [|eauto].
  case_decide; [|eauto]. apply lookup_lt_Some in Hx.
  destruct (IH (S next)) as [i [-> Hi]]; [lia|]. exists i. split; [done|lia].
Qed.

Lemma select_untied_Ok (fuel : nat) (ordering : list (Z * Z)) (selected_index : nat) :
  (length ordering - selected_index < fuel)%nat →
  ∃ i, select_untied fuel ordering selected_index = Ok i.
Proof.
  revert selected_index. induction fuel as [|fuel IH]; intros sel Hf; [lia|].
  simpl. destruct (ordering !! sel) as [x|] eqn:Hx; [|eauto].
  destruct (ordering !! S sel) as [y|] eqn:Hy; [|eauto].
  case_decide; [|eauto]. apply lookup_lt_Some in Hy.
  destruct (skip_ties_Ok fuel ordering x.2 (S sel)) as [i [-> Hi]]; [lia|].
  cbn [mbind result_bind]. apply IH. lia.
Qed.

Lemma tie_break_labels_is_Some (final : list Z) (ordering : list (Z * Z)) (n : Z) :
  n ∈ final ∨ n ∈ ordering.*1 → is_Some (tie_break_labels final ordering !! n).
Proof.
  unfold tie_break_labels.
  assert (∀ (l : list (nat * Z)) (d : gmap Z Z),
            is_Some (d !! n) ∨ n ∈ l.*2 →
            is_Some (foldl (λ d jn, <[jn.2 := Z.of_nat jn.1]> d) d l !! n)) as Hplaced.
  { intros l. induction l as [|[j m] l IH]; intros d Hd.
    - destruct Hd as [?|?%elem_of_nil]; done.
    - simpl. apply IH. destruct (decide (n = m)) as [-> |Hnm].
      + left. by rewrite lookup_insert_eq.
      + rewrite lookup_insert_ne by done. destruct Hd as [?|[?|?]%elem_of_cons]; auto. done. }
  assert (∀ (l : list (Z * Z)) (d : gmap Z Z),
            is_Some (d !! n) ∨ n ∈ l.*1 →
            is_Some (foldl (λ d x, <[x.1 := x.2 + Z.of_nat (length final)]> d) d l !! n))
    as Hrest.
  { intros l. induction l as [|[m k] l IH]; intros d Hd.
    - destruct Hd as [?|?%elem_of_nil]; done.
    - simpl. apply IH. destruct (decide (n = m)) as [-> |Hnm].
      + left. by rewrite lookup_insert_eq.
      + rewrite lookup_insert_ne by done. destruct Hd as [?|[?|?]%elem_of_cons]; auto. done. }
  intros [Hf|Ho].
  - apply Hplaced. right. apply list_elem_of_fmap.
    apply list_elem_of_lookup_1 in Hf as [j Hj]. exists (j, n). split; [done|].
    apply list_elem_of_lookup. exists j. by rewrite list_lookup_imap, Hj.
  - apply Hplaced. left. apply Hrest. by right.
Qed.

Section canonical_order.
Context (fuel : nat) (G : Graph) (ovs : gmap Z (gmap Z Z)) (xnodes : list Z).
Context (Hwf : graph_wf G) (Hne : G ≠ []).
Context (Hfuel : (length (nodes_of G) + length (edges_of G) ≤ fuel)%nat).
Context (Hovs : overlays_ok xnodes ovs) (Hsub : ∀ n, n ∈ nodes_of G → n ∈ xnodes).

Lemma tie_break_Ok (final : list Z) (ordering : list (Z * Z)) (selected_index : nat) :
  ordering ≠ [] → final ++ ordering.*1 ≡ₚ nodes_of G →
  ∃ ordering' selected_index',
    tie_break fuel G final ordering selected_index = Ok (ordering', selected_index') ∧
    ordering'.*1 ≡ₚ ordering.*1 ∧ (selected_index' < length ordering')%nat.
Proof.
  intros Hone Hperm. unfold tie_break.
  destruct (bool_decide (length ordering ≤ selected_index)%nat
            || tied_with_next ordering selected_index) eqn:Hb.
  - destruct (servant_instance_Ok fuel G (tie_break_labels final ordering) Hwf Hne)
      as [self [ps [-> [Hr _]]]]; [|done|].
    { apply labels_total_elim. intros n Hn. apply tie_break_labels_is_Some.
      rewrite <- Hperm in Hn. by apply elem_of_app in Hn. }
    cbn [mbind result_bind fst].
    destruct Hr as (_ & _ & _ & _ & _ & _ & Hdi & _ & _ & Hkeep & _).
    destruct (further_sort_spec ordering (nw_internal_labels self) Hone) as [o' [-> Hp]].
    { intros x Hx. apply Hdi. apply Hkeep. rewrite <- Hperm. apply elem_of_app. right.
      apply list_elem_of_fmap. eauto. }
    cbn [mbind result_bind]. exists o', 0%nat. split; [done|]. split; [done|].
    apply Permutation_length in Hp. rewrite !length_fmap in Hp.
    destruct ordering; [done|]. simpl in Hp. lia.
  - apply orb_false_iff in Hb as [Hb _]. apply bool_decide_eq_false in Hb.
    exists ordering, selected_index. split; [done|]. split; [done|lia].
Qed.

Lemma canonical_order_loop_Ok (count : nat) :
  ∀ final ordering,
    count = length ordering → final ≠ [] → final ++ ordering.*1 ≡ₚ nodes_of G →
    ∃ order, canonical_order_loop fuel G ovs count final ordering = Ok order ∧
      order ≡ₚ nodes_of G.
Proof.
  induction count as [|count IH]; intros final ordering Hcount Hfne Hperm.
  - destruct ordering; [|done]. exists final. split; [done|].
    by rewrite <- Hperm, app_nil_r.
  - cbn [canonical_order_loop].
    assert (ordering ≠ []) as Hone by (by destruct ordering).
    (* final_node_order[-1] *)
    destruct (proj2 (last_is_Some final) Hfne) as [ln Hln].
    unfold list_last_item. rewrite Hln. cbn [mbind result_bind].
    assert (ln ∈ nodes_of G) as Hlnode.
    { rewrite <- Hperm. apply elem_of_app. left. by apply last_Some_elem_of. }
    destruct (Hovs ln (Hsub ln Hlnode)) as [ov [Hov Hdov]].
    rewrite (getitem_Some _ _ _ Hov). cbn [mbind result_bind].
    destruct (further_sort_spec ordering ov Hone) as [o1 [-> Hp1]].
    { intros x Hx. apply Hdov, Hsub. rewrite <- Hperm. apply elem_of_app. right.
      apply list_elem_of_fmap. eauto. }
    cbn [mbind result_bind].
    assert (length o1 = length ordering) as Hlen1.
    { apply Permutation_length in Hp1. by rewrite !length_fmap in Hp1. }
    assert (length final + length ordering = length (nodes_of G))%nat as Hlens.
    { apply Permutation_length in Hperm. by rewrite length_app, length_fmap in Hperm. }
    assert (0 < length final)%nat as Hfl by (destruct final; [done|simpl; lia]).
    destruct (select_untied_Ok fuel o1 0) as [sel ->]; [lia|].
    cbn [mbind result_bind].
    destruct (tie_break_Ok final o1 sel) as [o2 [s2 [-> [Hp2 Hs2]]]].
    { destruct o1; [|done]. simpl in Hlen1. lia. }
    { by rewrite Hp1. }
    cbn [mbind result_bind].
    destruct (lookup_lt_is_Some_2 o2 s2 Hs2) as [chosen Hch].
    unfold list_getitem. rewrite Hch. cbn [mbind result_bind].
    assert (length o2 = S count) as Hlen2.
    { apply Permutation_length in Hp2. rewrite !length_fmap in Hp2. lia. }
    assert (final ++ o2.*1 ≡ₚ nodes_of G) as Hperm2 by (by rewrite Hp2, Hp1).
    case_bool_decide as Hgt.
    + apply IH.
      * rewrite length_delete by eauto. lia.
      * by destruct final.
      * rewrite <- Hperm2, <- app_assoc. apply Permutation_app_head.
        rewrite (delete_Permutation o2 s2 chosen Hch) at 2. done.
    + assert (count = 0%nat) as -> by lia. cbn [canonical_order_loop].
      eexists. split; [done|]. rewrite <- Hperm2.
      destruct o2 as [|x [|y o2]]; simpl in Hlen2; try lia.
      destruct s2; [|simpl in Hs2; lia]. simpl in Hch. injection Hch as ->. done.
Qed.
End canonical_order.

Lemma set_canonical_form_Ok (fuel : nat) (G : Graph) (L : gmap Z Z) (self : Nodewise) :
  graph_wf G → G ≠ [] → labels_total G L →
  (length (nodes_of G) + length (edges_of G) ≤ fuel)%nat →
  nodewise_ready G L self →
  ∃ cf, set_canonical_form fuel self = Ok cf ∧
    final_node_order cf ≡ₚ nodes_of G ∧
    ordered_labels cf = label_of L <$> final_node_order cf ∧
    matrix cf = matrix_rows G (final_node_order cf).
Proof.
  intros Hwf Hne HL Hfuel Hr. rewrite labels_total_elim in HL.
  destruct Hr as (Hin & HG & Hnodes & Hnd & Hcl & Hne' & Hdi & Hde & Hov & Hkeep & Hlen).
  unfold set_canonical_form. rewrite Hin, HG.
  pose proof (nodes_of_nonempty G Hne) as Hnn.
  destruct (further_sort_spec ((λ n, (n, 0)) <$> nodes_of G) (nw_internal_labels self))
    as [l0 [-> Hp0]].
  { by destruct (nodes_of G). }
  { intros x [n [-> Hn]]%list_elem_of_fmap. simpl. apply Hdi. by apply Hkeep. }
  cbn [mbind result_bind].
  rewrite <- list_fmap_compose in Hp0. simpl in Hp0. rewrite list_fmap_id in Hp0.
  assert (length l0 = length (nodes_of G)) as Hl0.
  { apply Permutation_length in Hp0. by rewrite length_fmap in Hp0. }
  destruct l0 as [|first l0]; [destruct (nodes_of G); done|].
  cbn [list_getitem lookup list_lookup mbind result_bind drop]. rewrite drop_0.
  destruct (canonical_order_loop_Ok fuel G (nw_nodewise_overlays self) (nw_nodes self)
              Hwf Hne Hfuel Hov (λ n Hn, proj1 (Hkeep n Hn))
              (length (nodes_of G) - 1) [first.1] l0) as [order [-> Hperm]].
  { simpl in Hl0. lia. }
  { done. }
  { done. }
  cbn [mbind result_bind].
  rewrite (mapR_Ok _ (label_of L)).
  - cbn [mbind result_bind]. eexists. split; [done|]. done.
  - intros n Hn. rewrite Hperm in Hn. destruct (Hkeep n Hn) as [_ Heq].
    destruct (HL n Hn) as [l Hl]. apply getitem_Ok. rewrite Heq, Hl.
    by rewrite (label_of_Some _ _ _ Hl).
Qed.

Lemma labels_total_default (G : Graph) : labels_total G (default_labels G).
Proof.
  apply labels_total_elim. unfold default_labels.
  assert (∀ (l : list Z) (d : gmap Z Z) n,
            is_Some (d !! n) ∨ n ∈ l → is_Some (foldl (λ d n, <[n := 0]> d) d l !! n)) as Hf.
  { intros l. induction l as [|a l IH]; intros d n Hn.
    - destruct Hn as [?|?%elem_of_nil]; done.
    - simpl. apply IH. destruct (decide (n = a)) as [-> |Hna].
      + left. by rewrite lookup_insert_eq.
      + rewrite lookup_insert_ne by done. destruct Hn as [?|[?|?]%elem_of_cons]; auto. done. }
  intros n Hn. apply Hf. by right.
Qed.

Lemma master_instance_Ok (fuel : nat) (G : Graph) (L : gmap Z Z) :
  graph_wf G → G ≠ [] → labels_total G L →
  (length (nodes_of G) + length (edges_of G) ≤ fuel)%nat →
  ∃ self cf, master_instance fuel G (Some L) = Ok (self, cf) ∧
    nodewise_ready G L self ∧
    (S (nw_counter self) ≤ length (nw_nodes self))%nat ∧
    final_node_order cf ≡ₚ nodes_of G ∧
    ordered_labels cf = label_of L <$> final_node_order cf ∧
    matrix cf = matrix_rows G (final_node_order cf).
Proof.
  intros Hwf Hne HL Hfuel. unfold master_instance. cbn [default from_option id].
  destruct (nodewise_init_Ok fuel G L Hwf Hne HL Hfuel) as [self [L' [-> [Hr [_ [_ Hc]]]]]].
  cbn [mbind result_bind].
  destruct (set_canonical_form_Ok fuel G L self Hwf Hne HL Hfuel Hr) as [cf [-> Hcf]].
  cbn [mbind result_bind]. exists self, cf. done.
Qed.

(** C9: the canonical form is built, its node order is a permutation of the
    nodes of the input graph and its [ordered_labels] are the external
    labels of the nodes in that order, so they are the external labels of
    the input's nodes as a multiset. *)
Theorem ordered_labels_are_the_external_labels (fuel : nat) (G : Graph) (L : gmap Z Z) :
  graph_wf G → G ≠ [] → labels_total G L →
  (length (nodes_of G) + length (edges_of G) ≤ fuel)%nat →
  ∃ cf, canonicalize fuel G (Some L) = Ok cf ∧
    final_node_order cf ≡ₚ nodes_of G ∧
    ordered_labels cf = label_of L <$> final_node_order cf ∧
    ordered_labels cf ≡ₚ label_of L <$> nodes_of G.
Proof.
  intros Hwf Hne HL Hfuel. unfold canonicalize.
  destruct (master_instance_Ok fuel G L Hwf Hne HL Hfuel)
    as [self [cf [-> [_ [_ [Hp [Hl _]]]]]]].
  cbn [mbind result_bind snd]. exists cf. split; [done|]. split; [done|]. split; [done|].
  by rewrite Hl, Hp.
Qed.

Lemma ordered_labels_are_the_external_labels_witness :
  ∃ cf, canonicalize 5 path3 (Some (default_labels path3)) = Ok cf ∧
    final_node_order cf ≡ₚ nodes_of path3 ∧
    ordered_labels cf = label_of (default_labels path3) <$> final_node_order cf ∧
    ordered_labels cf ≡ₚ label_of (default_labels path3) <$> nodes_of path3.
Proof.
  apply (ordered_labels_are_the_external_labels 5 path3 (default_labels path3)).
  - apply (bool_decide_unpack (graph_wf path3)). vm_compute. exact I.
  - discriminate.
  - apply (bool_decide_unpack (labels_total path3 (default_labels path3))).
    vm_compute. exact I.
  - vm_compute. lia.
Defined.

(** ** Termination of the refinement loops *)

(** C6: the refinement loops terminate.  With fuel for as many rounds as the
    expanded graph has nodes, the plain instance and the top-level instance
    of a graph are built, each within as many rounds as the instance has
    nodes ([counter] rounds fail the fixpoint test, one passes it); and in
    every round of either kind the number of distinct labels is at most the
    node count, strictly increases when the fixpoint test fails, and stays
    the same when it passes. *)
Theorem refinement_loops_terminate (fuel : nat) (G : Graph) (L : gmap Z Z) :
  graph_wf G → G ≠ [] → labels_total G L →
  (length (nodes_of G) + length (edges_of G) ≤ fuel)%nat →
  (∃ p, plain_instance fuel G L = Ok p ∧
        (S (p_counter p) ≤ length (p_nodes p))%nat) ∧
  (∃ self cf, master_instance fuel G (Some L) = Ok (self, cf) ∧
        (S (nw_counter self) ≤ length (nw_nodes self))%nat) ∧
  (∃ nbrs, mapping_to_neighbors_of G (nodes_of G) = Ok nbrs ∧
     ∀ internal, dom_is (nodes_of G) internal →
       ∃ ids new defs b,
         plain_get_new_ids_in_order (nodes_of G) nbrs internal = Ok ids ∧
         assign_new_labels_for_sorted_ids plain_key_ne ids = Ok (new, defs) ∧
         are_new_labels_effectively_the_same (nodes_of G) internal new = Ok b ∧
         (distinct_labels new ≤ length (nodes_of G))%nat ∧
         (b = false → (distinct_labels internal < distinct_labels new)%nat) ∧
         (b = true → distinct_labels internal = distinct_labels new)) ∧
  (∃ self L', nodewise_setup fuel G L = Ok (self, L') ∧
     ∀ internal ovs,
       dom_is (nw_nodes self) internal → overlays_ok (nw_nodes self) ovs →
       ∃ ovs' ids new defs b,
         nodewise_get_new_ids_in_order fuel (nw_G self) (nw_nodes self)
           (nw_higher_than_any_internal_label self) internal ovs = Ok (ovs', ids) ∧
         assign_new_labels_for_sorted_ids nodewise_key_ne ids = Ok (new, defs) ∧
         are_new_labels_effectively_the_same (nw_nodes self) internal new = Ok b ∧
         (distinct_labels new ≤ length (nw_nodes self))%nat ∧
         (b = false → (distinct_labels internal < distinct_labels new)%nat) ∧
         (b = true → distinct_labels internal = distinct_labels new)).
Proof.
  intros Hwf Hne HL Hfuel.
  pose proof (proj1 (graph_wf_elim G Hwf)) as Hnd.
  pose proof (graph_wf_closed G Hwf) as Hcl.
  split; [|split; [|split]].
  - destruct (plain_instance_Ok fuel G L Hnd Hcl Hne) as [p [Hp [Hn [_ [_ Hc]]]]].
    + by apply labels_total_elim.
    + lia.
    + exists p. split; [done|]. by rewrite Hn.
  - destruct (master_instance_Ok fuel G L Hwf Hne HL Hfuel) as [self [cf [Hm [_ [Hc _]]]]].
    exists self, cf. done.
  - destruct (mapping_to_neighbors_of_spec G Hcl) as [nbrs [Hnb Hnc]].
    exists nbrs. split; [done|]. intros internal Hd.
    destruct (plain_round (nodes_of G) nbrs internal Hnd Hnc Hd)
      as [ids [new [defs [b [Hids [Ha [Hb [Hdn [_ [_ [_ [Ht Hf]]]]]]]]]]]].
    exists ids, new, defs, b. split_and!; try done.
    by apply distinct_labels_le.
  - destruct (nodewise_setup_Ok fuel G L Hwf Hne HL Hfuel) as [self [L' [Hs [Hr _]]]].
    exists self, L'. split; [done|]. intros internal ovs Hd Ho.
    destruct Hr as (_ & _ & Hnodes & Hnd' & Hcl' & Hne' & _ & _ & _ & _ & Hlen).
    rewrite Hnodes in *.
    destruct (nodewise_round fuel (nw_G self) (nw_higher_than_any_internal_label self)
                Hnd' Hcl' Hne') with (internal := internal) (ovs := ovs)
      as [ovs' [ids [new [defs [b [Hids [Ha [Hb [_ [Hdn [_ [_ [_ [Ht Hf]]]]]]]]]]]]]];
      [lia|done|done|].
    exists ovs', ids, new, defs, b. split_and!; try done.
    by apply distinct_labels_le.
Qed.

Lemma refinement_loops_terminate_witness :
  (∃ p, plain_instance 5 path3 (default_labels path3) = Ok p ∧
        (S (p_counter p) ≤ length (p_nodes p))%nat) ∧
  (∃ self cf, master_instance 5 path3 (Some (default_labels path3)) = Ok (self, cf) ∧
        (S (nw_counter self) ≤ length (nw_nodes self))%nat) ∧
  (∃ nbrs, mapping_to_neighbors_of path3 (nodes_of path3) = Ok nbrs ∧
     ∀ internal, dom_is (nodes_of path3) internal →
       ∃ ids new defs b,
         plain_get_new_ids_in_order (nodes_of path3) nbrs internal = Ok ids ∧
         assign_new_labels_for_sorted_ids plain_key_ne ids = Ok (new, defs) ∧
         are_new_labels_effectively_the_same (nodes_of path3) internal new = Ok b ∧
         (distinct_labels new ≤ length (nodes_of path3))%nat ∧
         (b = false → (distinct_labels internal < distinct_labels new)%nat) ∧
         (b = true → distinct_labels internal = distinct_labels new)) ∧
  (∃ self L', nodewise_setup 5 path3 (default_labels path3) = Ok (self, L') ∧
     ∀ internal ovs,
       dom_is (nw_nodes self) internal → overlays_ok (nw_nodes self) ovs →
       ∃ ovs' ids new defs b,
         nodewise_get_new_ids_in_order 5 (nw_G self) (nw_nodes self)
           (nw_higher_than_any_internal_label self) internal ovs = Ok (ovs', ids) ∧
         assign_new_labels_for_sorted_ids nodewise_key_ne ids = Ok (new, defs) ∧
         are_new_labels_effectively_the_same (nw_nodes self) internal new = Ok b ∧
         (distinct_labels new ≤ length (nw_nodes self))%nat ∧
         (b = false → (distinct_labels internal < distinct_labels new)%nat) ∧
         (b = true → distinct_labels internal = distinct_labels new)).
Proof.
  apply (refinement_loops_terminate 5 path3 (default_labels path3)).
  - apply (bool_decide_unpack (graph_wf path3)). vm_compute. exact I.
  - discriminate.
  - apply (bool_decide_unpack (labels_total path3 (default_labels path3))).
    vm_compute. exact I.
  - vm_compute. lia.
Defined.

(** * Further properties of the code *)

(** ** [expand_graph]: what it raises *)

Lemma dict_values_empty : dict_values ∅ = [].
Proof. unfold dict_values. by rewrite map_to_list_empty. Qed.

Lemma dict_values_nil (d : gmap Z Z) : dict_values d = [] → d = ∅.
Proof.
  unfold dict_values. intros H. apply fmap_nil_inv in H. by apply map_to_list_empty_iff.
Qed.

Lemma expand_nodes_missing (L : gmap Z Z) (nl : list Z) (g : Graph) (ls : gmap Z Z) :
  (∃ n, n ∈ nl ∧ L !! n = None) →
  foldR (λ '(g, ls) node, l ← getitem L node; Ok (add_node g node, <[node := l]> ls))
    (g, ls) nl = Raise KeyError.
Proof.
  revert g ls. induction nl as [|a nl IH]; intros g ls [n [Hn HL]].
  - by apply elem_of_nil in Hn.
  - simpl. destruct (L !! a) as [l|] eqn:Ha.
    + rewrite (getitem_Some _ _ _ Ha). simpl. apply IH. exists n. split; [|done].
      apply elem_of_cons in Hn as [-> |Hn]; [congruence|done].
    + unfold getitem. by rewrite Ha.
Qed.

Lemma labels_not_total (G : Graph) (L : gmap Z Z) :
  ¬ labels_total G L → ∃ n, n ∈ nodes_of G ∧ L !! n = None.
Proof.
  unfold labels_total. intros H. apply not_Forall_Exists in H; [|apply _].
  apply Exists_exists in H as [n [Hn Hs]]. exists n. split; [done|].
  simpl in Hs. by apply eq_None_not_Some.
Qed.

(** [expand_graph] looks at the labels first, then at the nodes, then at the
    label of every node: without any label it raises [ValueError] (whatever
    the graph), with labels and no node [IndexError], and with a node that
    has no label [KeyError]. *)
Theorem expand_graph_raises (G : Graph) (L : gmap Z Z) :
  (L = ∅ → expand_graph G L = Raise ValueError) ∧
  (L ≠ ∅ → G = [] → expand_graph G L = Raise IndexError) ∧
  (L ≠ ∅ → G ≠ [] → ¬ labels_total G L → expand_graph G L = Raise KeyError).
Proof.
  split; [|split].
  - intros ->. unfold expand_graph. by rewrite dict_values_empty.
  - intros HL ->. unfold expand_graph.
    destruct (py_max_Ok (dict_values L)) as [m ->]; [by intros ?%dict_values_nil|]. done.
  - intros HL HG Hnt. unfold expand_graph.
    destruct (py_max_Ok (dict_values L)) as [m ->]; [by intros ?%dict_values_nil|]. simpl.
    destruct (list_last_item_spec (nodes_of G)) as [mx [-> _]]; [by apply nodes_of_nonempty|].
    simpl. rewrite expand_nodes_missing; [done|].
    destruct (labels_not_total G L Hnt) as [n [Hn Hnone]]. exists n. split; [|done].
    by rewrite (proj1 (sort_Z_spec (nodes_of G))).
Qed.

Lemma expand_graph_raises_witness :
  expand_graph path3 ∅ = Raise ValueError ∧
  expand_graph empty_graph {[0 := 7]} = Raise IndexError ∧
  expand_graph path3 {[0 := 7]} = Raise KeyError.
Proof.
  split; [|split].
  - by apply (expand_graph_raises path3 ∅).
  - apply (expand_graph_raises empty_graph {[0 := 7]}); [|done].
    intros H. apply (f_equal (lookup 0)) in H. by vm_compute in H.
  - apply (expand_graph_raises path3 {[0 := 7]}); [|done|].
    + intros H. apply (f_equal (lookup 0)) in H. by vm_compute in H.
    + apply (bool_decide_eq_false_1 (labels_total path3 {[0 := 7]})). by vm_compute.
Defined.
(** ** [expand_graph]: the graph it builds *)











(** The original graph can be read off the expanded one: every new node has
    the label one above the maximum label and exactly the two endpoints of
    one edge of [G] as neighbours, no two new nodes are adjacent, and two
    nodes of [G] are adjacent in [G] exactly when a new node has the two of
    them as its neighbours. *)
Theorem expand_graph_edges_read_back (G : Graph) (L : gmap Z Z) :
  graph_wf G → G ≠ [] → labels_total G L →
  ∃ G' L' ml,
    expand_graph G L = Ok (G', L') ∧
    py_max (dict_values L) = Ok ml ∧
    (∀ e, e ∈ nodes_of G' → (e ∉ nodes_of G) →
       L' !! e = Some (ml + 1) ∧
       ∃ u v, (u, v) ∈ edges_of G ∧ ∀ y, has_edge G' e y = true ↔ y = u ∨ y = v) ∧
    (∀ e e', (e ∉ nodes_of G) → (e' ∉ nodes_of G) → has_edge G' e e' = false) ∧
    (∀ u v, has_edge G u v = true ↔
       ∃ e, e ∈ nodes_of G' ∧ (e ∉ nodes_of G) ∧ ∀ y, has_edge G' e y = true ↔ y = u ∨ y = v).
Proof.
  intros Hwf Hne HL.
  destruct (expand_graph_Ok G L Hwf Hne HL)
    as [G' [L' [mx [ml [He [Hml [Hmx [Hmax [HL' [Hn [Hnd Hh]]]]]]]]]]].
  exists G', L', ml. split; [done|]. split; [done|].
  assert (∀ i u v, edges_of G !! i = Some (u, v) →
            u ∈ nodes_of G ∧ v ∈ nodes_of G ∧ has_edge G u v = true ∧
            has_edge G v u = true) as Hends.
  { intros i u v Hi. apply list_elem_of_lookup_2 in Hi.
    apply (edges_of_wf _ _ _ Hwf) in Hi. tauto. }
  assert (∀ e, e ∈ nodes_of G' → (e ∉ nodes_of G) →
            ∃ i u v, edges_of G !! i = Some (u, v) ∧ e = mx + 1 + Z.of_nat i ∧
              ∀ y, has_edge G' e y = true ↔ y = u ∨ y = v) as Hnew.
  { intros e Hin Hnin. apply Hn in Hin as [?|Hr]; [done|].
    destruct (lookup_lt_is_Some_2 (edges_of G) (Z.to_nat (e - mx - 1))) as [[u v] Hi]; [lia|].
    exists (Z.to_nat (e - mx - 1)), u, v. split; [done|]. split; [lia|].
    intros y. rewrite Hh. split.
    - intros [j [u' [v' [Hj [[Hc _]|[Hc Hy]]]]]].
      + destruct (Hends j u' v' Hj) as [Hu' [Hv' _]].
        pose proof (Hmax _ Hu'). pose proof (Hmax _ Hv'). lia.
      + assert (j = Z.to_nat (e - mx - 1)) as -> by lia. rewrite Hi in Hj.
        by injection Hj as <- <-.
    - intros Hy. exists (Z.to_nat (e - mx - 1)), u, v. split; [done|]. right.
      split; [lia|done]. }
  split; [|split].
  - intros e Hin Hnin. split.
    + rewrite HL'. apply Hn in Hin as [?|?]; [done|]. by rewrite decide_True.
    + destruct (Hnew e Hin Hnin) as [i [u [v [Hi [_ Hy]]]]]. exists u, v.
      split; [by eapply list_elem_of_lookup_2|done].
  - intros e e' Hnin Hnin'. destruct (has_edge G' e e') eqn:Hee; [|done].
    apply Hh in Hee as [i [u [v [Hi Hc]]]]. destruct (Hends i u v Hi) as [Hu [Hv _]].
    destruct Hc as [[[-> | ->] _]|[_ [-> | ->]]]; done.
  - intros u v. split.
    + intros Huv.
      assert (∃ i, edges_of G !! i = Some (u, v) ∨ edges_of G !! i = Some (v, u)) as [i Hi].
      { destruct (edges_of_complete G u v Hwf Huv) as [H|H];
          apply list_elem_of_lookup_1 in H as [i Hi]; eauto. }
      assert (i < length (edges_of G))%nat as Hlt.
      { destruct Hi as [Hi|Hi]; by apply lookup_lt_Some in Hi. }
      assert (mx + 1 + Z.of_nat i ∈ nodes_of G') as Hin by (apply Hn; right; lia).
      assert (mx + 1 + Z.of_nat i ∉ nodes_of G) as Hnin.
      { intros Hin'. specialize (Hmax _ Hin'). lia. }
      exists (mx + 1 + Z.of_nat i). split; [done|]. split; [done|].
      destruct (Hnew _ Hin Hnin) as [j [u' [v' [Hj [Heq Hy]]]]].
      assert (j = i) as -> by lia. intros y. rewrite Hy.
      destruct Hi as [Hi|Hi]; rewrite Hi in Hj; injection Hj as <- <-; tauto.
    + intros [e [Hin [Hnin Hy]]].
      destruct (Hnew e Hin Hnin) as [i [u' [v' [Hi [_ Hy']]]]].
      destruct (Hends i u' v' Hi) as [_ [_ [Huv Hvu]]].
      assert (u = u' ∨ u = v') as Hu by (apply Hy'; apply Hy; auto).
      assert (v = u' ∨ v = v') as Hv by (apply Hy'; apply Hy; auto).
      assert (u' = u ∨ u' = v) as Hu' by (apply Hy; apply Hy'; auto).
      assert (v' = u ∨ v' = v) as Hv' by (apply Hy; apply Hy'; auto).
      destruct Hu as [-> | ->], Hv as [-> | ->]; try done.
      * destruct Hv' as [-> | ->]; done.
      * destruct Hu' as [-> | ->]; done.
Qed.

Lemma expand_graph_edges_read_back_witness :
  ∃ G' L' ml,
    expand_graph path3 (default_labels path3) = Ok (G', L') ∧
    py_max (dict_values (default_labels path3)) = Ok ml ∧
    (∀ e, e ∈ nodes_of G' → (e ∉ nodes_of path3) →
       L' !! e = Some (ml + 1) ∧
       ∃ u v, (u, v) ∈ edges_of path3 ∧ ∀ y, has_edge G' e y = true ↔ y = u ∨ y = v) ∧
    (∀ e e', (e ∉ nodes_of path3) → (e' ∉ nodes_of path3) → has_edge G' e e' = false) ∧
    (∀ u v, has_edge path3 u v = true ↔
       ∃ e, e ∈ nodes_of G' ∧ (e ∉ nodes_of path3) ∧
            ∀ y, has_edge G' e y = true ↔ y = u ∨ y = v).
Proof.
  apply (expand_graph_edges_read_back path3 (default_labels path3)).
  - apply (bool_decide_unpack (graph_wf path3)). vm_compute. exact I.
  - discriminate.
  - apply (bool_decide_unpack (labels_total path3 (default_labels path3))).
    vm_compute. exact I.
Defined.
(** ** [fancy_expand_graph] *)

Lemma in_triangle_true (G : Graph) (u v : Z) :
  in_triangle G u v = true ↔ ∃ w, has_edge G u w = true ∧ has_edge G v w = true.
Proof.
  unfold in_triangle. rewrite bool_decide_eq_true, Exists_exists. split.
  - intros [w [Hw Hv]]. exists w. split; [|done]. apply has_edge_true.
    destruct (adj_lookup G u) as [ns|]; [by exists ns|by apply elem_of_nil in Hw].
  - intros [w [[ns [Hns Hw]]%has_edge_true Hv]]. exists w. by rewrite Hns.
Qed.

Lemma in_triangle_sym (G : Graph) (u v : Z) : in_triangle G u v = in_triangle G v u.
Proof.
  apply eq_true_iff_eq. rewrite !in_triangle_true. split; intros [w [? ?]]; eauto.
Qed.

Lemma triangle_loop_spec (G : Graph) (v : Z) (ns1 ns : list Z) :
  adj_lookup G v = Some ns1 →
  triangle_loop G v ns = Ok (bool_decide (Exists (λ w, has_edge G v w = true) ns)).
Proof.
  intros Hv. induction ns as [|n1 ns IH]; cbn [triangle_loop].
  - rewrite bool_decide_eq_false_2; [done|]. by intros ?%Exists_nil.
  - unfold neighbors. rewrite Hv. cbn [mbind result_bind].
    assert (has_edge G v n1 = bool_decide (n1 ∈ ns1)) as Hn1 by (unfold has_edge; by rewrite Hv).
    case_bool_decide as Hin.
    + rewrite bool_decide_eq_true_2; [done|]. by left.
    + rewrite IH. f_equal. apply bool_decide_ext. rewrite Exists_cons, Hn1.
      split; [auto|]. by intros [H|H].
Qed.

(** One turn of the loop over the edges. *)
Lemma fancy_expand_edge_spec (G : Graph) (el : Z) (nxt : Z) (g : Graph) (ls : gmap Z Z)
    (a_t a_n : bool) (edge : Z * Z) :
  edge.1 ∈ nodes_of G → edge.2 ∈ nodes_of G →
  fancy_expand_edge G el (nxt, g, ls, a_t, a_n) edge =
    Ok (if in_triangle G edge.1 edge.2
        then (nxt + 1, add_edge (add_edge (add_node g (nxt + 1)) edge.1 (nxt + 1))
                         edge.2 (nxt + 1),
              <[nxt + 1 := el]> ls, true, a_n)
        else (nxt, add_edge g edge.1 edge.2, ls, a_t, true)).
Proof.
  intros [ns Hu]%elem_of_nodes_of [ns1 Hv]%elem_of_nodes_of.
  unfold fancy_expand_edge, neighbors. rewrite Hu. simpl.
  rewrite (triangle_loop_spec G edge.2 ns1 ns Hv).
  unfold in_triangle. rewrite Hu. simpl. by case_bool_decide.
Qed.

Lemma triangle_count_cons (G : Graph) (e : Z * Z) (es : list (Z * Z)) :
  triangle_count G (e :: es) =
    ((if in_triangle G e.1 e.2 then 1 else 0) + triangle_count G es)%nat.
Proof.
  unfold triangle_count. rewrite filter_cons.
  destruct (in_triangle G e.1 e.2); by case_decide.
Qed.

Lemma triangle_count_take_lt (G : Graph) (es : list (Z * Z)) (i j : nat) (u v : Z) :
  (i < j)%nat → es !! i = Some (u, v) → in_triangle G u v = true →
  (triangle_count G (take i es) < triangle_count G (take j es))%nat.
Proof.
  revert i j. induction es as [|e es IH]; intros i j Hij Hi Ht; [done|].
  destruct j as [|j]; [lia|]. destruct i as [|i].
  - injection Hi as ->. rewrite firstn_cons, triangle_count_cons. simpl. rewrite Ht.
    unfold triangle_count. simpl. lia.
  - rewrite !firstn_cons, !triangle_count_cons.
    assert (triangle_count G (take i es) < triangle_count G (take j es))%nat
      by (apply IH; [lia|done|done]). lia.
Qed.

Lemma triangle_count_take_le (G : Graph) (es : list (Z * Z)) (i : nat) :
  (triangle_count G (take i es) ≤ triangle_count G es)%nat.
Proof.
  revert i. induction es as [|e es IH]; intros [|i]; simpl; try (unfold triangle_count; simpl; lia).
  rewrite !triangle_count_cons. specialize (IH i). lia.
Qed.

Lemma triangle_count_take_lt_all (G : Graph) (es : list (Z * Z)) (i : nat) (u v : Z) :
  es !! i = Some (u, v) → in_triangle G u v = true →
  (triangle_count G (take i es) < triangle_count G es)%nat.
Proof.
  intros Hi Ht. rewrite <- (firstn_all es) at 2.
  apply lookup_lt_Some in Hi as Hlt.
  destruct (decide (S i = length es)) as [Heq|Hne].
  - rewrite <- Heq. by eapply triangle_count_take_lt; [lia|..].
  - pose proof (triangle_count_take_lt G es i (length es) u v).
    apply H; [lia|done|done].
Qed.

(** The node that stands for the [i]th edge, when that edge has a common
    neighbour of its endpoints, and what the loop has built after all edges. *)
Lemma fancy_expand_edges_spec (G : Graph) (el : Z) (es : list (Z * Z)) :
  (∀ u v, (u, v) ∈ es → u ∈ nodes_of G ∧ v ∈ nodes_of G) →
  ∀ (nxt : Z) (g : Graph) (ls : gmap Z Z) (a_t a_n : bool),
  ∃ g' ls' a_t' a_n',
    foldR (fancy_expand_edge G el) (nxt, g, ls, a_t, a_n) es =
      Ok (nxt + Z.of_nat (triangle_count G es), g', ls', a_t', a_n') ∧
    (∀ n, ls' !! n =
       if decide (nxt < n ≤ nxt + Z.of_nat (triangle_count G es)) then Some el
       else ls !! n) ∧
    (∀ n, n ∈ nodes_of g' ↔
       n ∈ nodes_of g ∨ nxt < n ≤ nxt + Z.of_nat (triangle_count G es) ∨
       ∃ u v, (u, v) ∈ es ∧ (n = u ∨ n = v)) ∧
    (NoDup (nodes_of g) → NoDup (nodes_of g')) ∧
    (∀ x y, has_edge g' x y = true ↔
       has_edge g x y = true ∨
       ∃ i u v, es !! i = Some (u, v) ∧
         if in_triangle G u v
         then ((x = u ∨ x = v) ∧ y = nxt + 1 + Z.of_nat (triangle_count G (take i es))) ∨
              (x = nxt + 1 + Z.of_nat (triangle_count G (take i es)) ∧ (y = u ∨ y = v))
         else (x = u ∧ y = v) ∨ (x = v ∧ y = u)) ∧
    (a_t' = true ↔ a_t = true ∨ ∃ u v, (u, v) ∈ es ∧ in_triangle G u v = true) ∧
    (a_n' = true ↔ a_n = true ∨ ∃ u v, (u, v) ∈ es ∧ in_triangle G u v = false).
Proof.
  induction es as [|e es IH]; intros Hends nxt g ls a_t a_n.
  - exists g, ls, a_t, a_n. unfold triangle_count. simpl.
    split; [do 5 f_equal; lia|]. split; [|split; [|split; [|split; [|split]]]].
    + intros n. rewrite decide_False by lia. done.
    + intros n. split; [auto|]. intros [?|[?|[u [v [?%elem_of_nil _]]]]]; [done|lia|done].
    + done.
    + intros x y. split; [auto|]. intros [?|[i [u [v [? _]]]]]; done.
    + split; [auto|]. intros [?|[u [v [?%elem_of_nil _]]]]; done.
    + split; [auto|]. intros [?|[u [v [?%elem_of_nil _]]]]; done.
  - destruct e as [u0 v0]. destruct (Hends u0 v0) as [Hu0 Hv0]; [left|].
    cbn [foldR]. rewrite (fancy_expand_edge_spec G el nxt g ls a_t a_n (u0, v0)) by done.
    cbn [fst snd mbind result_bind]. rewrite triangle_count_cons. cbn [fst snd].
    destruct (in_triangle G u0 v0) eqn:Ht.
    + destruct (IH (λ u v H, Hends u v (list_elem_of_further _ _ _ H)) (nxt + 1)
                  (add_edge (add_edge (add_node g (nxt + 1)) u0 (nxt + 1)) v0 (nxt + 1))
                  (<[nxt + 1 := el]> ls) true a_n)
        as [g' [ls' [a_t' [a_n' [Hf [Hl [Hn [Hd [Hh [Hat Han]]]]]]]]]].
      exists g', ls', a_t', a_n'. rewrite Hf.
      split; [do 5 f_equal; lia|]. split; [|split; [|split; [|split; [|split]]]].
      * intros n. rewrite Hl. destruct (decide (n = nxt + 1)) as [-> |Hne].
        -- rewrite lookup_insert_eq. repeat case_decide; try done; lia.
        -- rewrite lookup_insert_ne by done. repeat case_decide; try done; lia.
      * intros n. rewrite Hn, !elem_of_nodes_add_edge, elem_of_nodes_add_node. split.
        -- intros [[[[?|?]|[?|?]]|[?|?]]|[?|[u [v [? ?]]]]].
           ++ by left.
           ++ right. left. lia.
           ++ right. right. exists u0, v0. split; [left|auto].
           ++ right. left. lia.
           ++ right. right. exists u0, v0. split; [left|auto].
           ++ right. left. lia.
           ++ right. left. lia.
           ++ right. right. exists u, v. split; [by right|done].
        -- intros [?|[?|[u [v [[[= -> ->]|?]%elem_of_cons ?]]]]].
           ++ auto.
           ++ destruct (decide (n = nxt + 1)); [auto|]. right. left. lia.
           ++ left. intuition auto.
           ++ right. right. eauto.
      * intros H. by apply Hd; do 2 apply NoDup_nodes_add_edge; apply NoDup_nodes_add_node.
      * intros x y. rewrite Hh, !has_edge_add_edge, has_edge_add_node. split.
        -- intros [[[?|[[? ?]|[? ?]]]|[[? ?]|[? ?]]]|[i [u [v [Hi Hc]]]]].
           ++ by left.
           ++ right. exists O, u0, v0. split; [done|]. rewrite Ht. left.
              unfold triangle_count. simpl. split; [auto|lia].
           ++ right. exists O, u0, v0. split; [done|]. rewrite Ht. right.
              unfold triangle_count. simpl. split; [lia|auto].
           ++ right. exists O, u0, v0. split; [done|]. rewrite Ht. left.
              unfold triangle_count. simpl. split; [auto|lia].
           ++ right. exists O, u0, v0. split; [done|]. rewrite Ht. right.
              unfold triangle_count. simpl. split; [lia|auto].
           ++ right. exists (S i), u, v. split; [done|].
              rewrite firstn_cons, triangle_count_cons. cbn [fst snd]. rewrite Ht.
              destruct (in_triangle G u v); [|done].
              replace (nxt + 1 + Z.of_nat (1 + triangle_count G (take i es)))
                with (nxt + 1 + 1 + Z.of_nat (triangle_count G (take i es))) by lia. done.
        -- intros [?|[[|i] [u [v [Hi Hc]]]]].
           ++ auto.
           ++ injection Hi as -> ->. rewrite Ht in Hc. unfold triangle_count in Hc.
              simpl in Hc. replace (nxt + 1 + Z.of_nat 0) with (nxt + 1) in Hc by lia.
              left. tauto.
           ++ right. exists i, u, v. split; [done|].
              rewrite firstn_cons, triangle_count_cons in Hc. cbn [fst snd] in Hc.
              rewrite Ht in Hc. destruct (in_triangle G u v); [|done].
              replace (nxt + 1 + Z.of_nat (1 + triangle_count G (take i es)))
                with (nxt + 1 + 1 + Z.of_nat (triangle_count G (take i es))) in Hc by lia.
              done.
      * rewrite Hat. split; [intros _|auto]. right. exists u0, v0. split; [left|done].
      * rewrite Han. split.
        -- intros [?|[u [v [? ?]]]]; [auto|]. right. exists u, v. split; [by right|done].
        -- intros [?|[u [v [[[= -> ->]|?]%elem_of_cons ?]]]]; [auto|congruence|eauto].
    + destruct (IH (λ u v H, Hends u v (list_elem_of_further _ _ _ H)) nxt
                  (add_edge g u0 v0) ls a_t true)
        as [g' [ls' [a_t' [a_n' [Hf [Hl [Hn [Hd [Hh [Hat Han]]]]]]]]]].
      exists g', ls', a_t', a_n'. rewrite Hf.
      split; [do 5 f_equal; lia|]. split; [|split; [|split; [|split; [|split]]]].
      * intros n. rewrite Hl. repeat case_decide; try done; lia.
      * intros n. rewrite Hn, !elem_of_nodes_add_edge. split.
        -- intros [[?|[?|?]]|[?|[u [v [? ?]]]]].
           ++ by left.
           ++ right. right. exists u0, v0. split; [left|auto].
           ++ right. right. exists u0, v0. split; [left|auto].
           ++ right. left. lia.
           ++ right. right. exists u, v. split; [by right|done].
        -- intros [?|[?|[u [v [[[= -> ->]|?]%elem_of_cons ?]]]]].
           ++ auto.
           ++ right. left. lia.
           ++ left. intuition auto.
           ++ right. right. eauto.
      * intros H. by apply Hd, NoDup_nodes_add_edge.
      * intros x y. rewrite Hh, !has_edge_add_edge. split.
        -- intros [[?|[[? ?]|[? ?]]]|[i [u [v [Hi Hc]]]]].
           ++ by left.
           ++ right. exists O, u0, v0. split; [done|]. rewrite Ht. auto.
           ++ right. exists O, u0, v0. split; [done|]. rewrite Ht. auto.
           ++ right. exists (S i), u, v. split; [done|].
              rewrite firstn_cons, triangle_count_cons. cbn [fst snd]. rewrite Ht. done.
        -- intros [?|[[|i] [u [v [Hi Hc]]]]].
           ++ auto.
           ++ injection Hi as -> ->. rewrite Ht in Hc. left. intuition auto.
           ++ right. exists i, u, v. split; [done|].
              rewrite firstn_cons, triangle_count_cons in Hc. cbn [fst snd] in Hc.
              by rewrite Ht in Hc.
      * rewrite Hat. split.
        -- intros [?|[u [v [? ?]]]]; [auto|]. right. exists u, v. split; [by right|done].
        -- intros [?|[u [v [[[= -> ->]|?]%elem_of_cons ?]]]]; [auto|congruence|eauto].
      * rewrite Han. split; [intros _|auto]. right. exists u0, v0. split; [left|done].
Qed.
(** What [fancy_expand_graph] builds, for a well-formed, non-empty graph all
    of whose nodes have a label. *)
Lemma fancy_expand_graph_Ok (nodewise : bool) (G : Graph) (L : gmap Z Z) :
  graph_wf G → G ≠ [] → labels_total G L →
  ∃ G' L' mx ml a_t a_n,
    fancy_expand_graph nodewise G L =
      Ok (if nodewise
          then [Text (if a_n : bool
                      then (if a_t : bool then "Both kinds!" else "All non-triangles")
                      else "All triangles")]
          else [], (G', L')) ∧
    py_max (dict_values L) = Ok ml ∧
    mx ∈ nodes_of G ∧ (∀ n, n ∈ nodes_of G → n ≤ mx) ∧
    (a_t = true ↔ ∃ u v, (u, v) ∈ edges_of G ∧ in_triangle G u v = true) ∧
    (a_n = true ↔ ∃ u v, (u, v) ∈ edges_of G ∧ in_triangle G u v = false) ∧
    (∀ n, L' !! n =
       if decide (mx < n ≤ mx + Z.of_nat (triangle_count G (edges_of G)))
       then Some (ml + 1)
       else if decide (n ∈ nodes_of G) then L !! n else None) ∧
    (∀ n, n ∈ nodes_of G' ↔
       n ∈ nodes_of G ∨ mx < n ≤ mx + Z.of_nat (triangle_count G (edges_of G))) ∧
    NoDup (nodes_of G') ∧
    (∀ x y, has_edge G' x y = true ↔
       ∃ i u v, edges_of G !! i = Some (u, v) ∧
         if in_triangle G u v
         then ((x = u ∨ x = v) ∧
               y = mx + 1 + Z.of_nat (triangle_count G (take i (edges_of G)))) ∨
              (x = mx + 1 + Z.of_nat (triangle_count G (take i (edges_of G))) ∧
               (y = u ∨ y = v))
         else (x = u ∧ y = v) ∨ (x = v ∧ y = u)).
Proof.
  intros Hwf Hne HL. rewrite labels_total_elim in HL. unfold fancy_expand_graph.
  destruct G as [|[n0 ns0] G0] eqn:HG; [done|]. rewrite <- HG in *.
  assert (n0 ∈ nodes_of G) as Hn0 by (rewrite HG; left).
  destruct (HL n0 Hn0) as [l0 Hl0].
  destruct (py_max_Ok (dict_values L)) as [ml Hml]; [by eapply dict_values_nonempty|].
  rewrite Hml. simpl.
  destruct (list_last_item_spec (nodes_of G)) as [mx [-> [Hmx Hmax]]];
    [by apply nodes_of_nonempty|]. simpl.
  destruct (sort_Z_spec (nodes_of G)) as [Hperm _].
  destruct (expand_nodes_spec L (sort_Z (nodes_of G)) empty_graph ∅)
    as [g0 [ls0 [-> [Hls0 [Hn0' [Hd0 Hh0]]]]]].
  { intros n Hn. apply HL. by rewrite <- Hperm. }
  simpl.
  destruct (fancy_expand_edges_spec G (ml + 1) (edges_of G)) with
    (nxt := mx) (g := g0) (ls := ls0) (a_t := false) (a_n := false)
    as [g' [ls' [a_t [a_n [-> [Hls [Hn [Hd [Hh [Hat Han]]]]]]]]]].
  { intros u v Huv. apply (edges_of_wf _ _ _ Hwf) in Huv. tauto. }
  simpl. exists g', ls', mx, ml, a_t, a_n.
  split; [done|]. split; [done|]. split; [done|]. split; [done|].
  split; [|split; [|split; [|split; [|split]]]].
  - rewrite Hat. split; [by intros [?|?]|auto].
  - rewrite Han. split; [by intros [?|?]|auto].
  - intros n. rewrite Hls. case_decide; [done|]. rewrite Hls0.
    destruct (decide (n ∈ nodes_of G)) as [Hin|Hin].
    + rewrite decide_True; [done|]. by rewrite Hperm.
    + rewrite decide_False; [done|]. by rewrite Hperm.
  - intros n. rewrite Hn, Hn0', Hperm. split.
    + intros [[?%elem_of_nil|?]|[?|[u [v [Huv Hc]]]]]; [done|auto|auto|].
      left. apply (edges_of_wf _ _ _ Hwf) in Huv as [_ [_ [? ?]]]. by destruct Hc as [-> | ->].
    + intros [?|?]; auto.
  - apply Hd, Hd0. constructor.
  - intros x y. rewrite Hh, Hh0. split; [|auto].
    intros [H|H]; [|done]. unfold has_edge in H. simpl in H. done.
Qed.

(** [fancy_expand_graph] keeps every node with its label, keeps an edge whose
    endpoints have no common neighbour as it is, and gives every other edge
    [(u, v)] a fresh node with the label one above the maximum label and
    adjacent to exactly [u] and [v]; the number of fresh nodes is the number
    of such edges. *)
Theorem fancy_expand_graph_replaces_triangle_edges (nodewise : bool) (G : Graph)
    (L : gmap Z Z) :
  graph_wf G → G ≠ [] → labels_total G L →
  ∃ out G' L' ml,
    fancy_expand_graph nodewise G L = Ok (out, (G', L')) ∧
    py_max (dict_values L) = Ok ml ∧
    (∀ n, n ∈ nodes_of G → n ∈ nodes_of G' ∧ L' !! n = L !! n) ∧
    (∀ u v, u ∈ nodes_of G → v ∈ nodes_of G →
       (has_edge G' u v = true ↔ has_edge G u v = true ∧ in_triangle G u v = false)) ∧
    (∀ u v, has_edge G u v = true → in_triangle G u v = true →
       ∃ e, e ∈ nodes_of G' ∧ (e ∉ nodes_of G) ∧ L' !! e = Some (ml + 1) ∧
            ∀ y, has_edge G' e y = true ↔ y = u ∨ y = v) ∧
    length (nodes_of G') = (length (nodes_of G) + triangle_count G (edges_of G))%nat.
Proof.
  intros Hwf Hne HL.
  destruct (fancy_expand_graph_Ok nodewise G L Hwf Hne HL)
    as [G' [L' [mx [ml [a_t [a_n [He [Hml [Hmx [Hmax [_ [_ [HL' [Hn [Hnd Hh]]]]]]]]]]]]]]].
  eexists _, G', L', ml. split; [exact He|]. split; [done|].
  assert (∀ i u v, edges_of G !! i = Some (u, v) →
            u ∈ nodes_of G ∧ v ∈ nodes_of G ∧ has_edge G u v = true ∧
            has_edge G v u = true) as Hends.
  { intros i u v Hi. apply list_elem_of_lookup_2 in Hi.
    apply (edges_of_wf _ _ _ Hwf) in Hi. tauto. }
  split; [|split; [|split]].
  - intros n Hin. split; [apply Hn; by left|]. rewrite HL'.
    rewrite decide_False; [by rewrite decide_True|]. specialize (Hmax n Hin). lia.
  - intros u v Hu Hv. rewrite Hh. split.
    + intros [i [a [b [Hi Hc]]]]. destruct (Hends i a b Hi) as [Ha [Hb [Hab Hba]]].
      destruct (in_triangle G a b) eqn:Ht.
      * pose proof (Hmax _ Hu). pose proof (Hmax _ Hv). lia.
      * destruct Hc as [[-> ->]|[-> ->]]; [done|]. by rewrite in_triangle_sym.
    + intros [Huv Ht].
      destruct (edges_of_complete G u v Hwf Huv) as [H|H];
        apply list_elem_of_lookup_1 in H as [i Hi].
      * exists i, u, v. split; [done|]. rewrite Ht. auto.
      * exists i, v, u. split; [done|]. rewrite in_triangle_sym, Ht. auto.
  - intros u v Huv Ht.
    assert (∃ i a b, edges_of G !! i = Some (a, b) ∧ in_triangle G a b = true ∧
              ((a = u ∧ b = v) ∨ (a = v ∧ b = u))) as [i [a [b [Hi [Hab Hc]]]]].
    { destruct (edges_of_complete G u v Hwf Huv) as [H|H];
        apply list_elem_of_lookup_1 in H as [i Hi].
      - exists i, u, v. auto.
      - exists i, v, u. rewrite in_triangle_sym. auto. }
    pose proof (triangle_count_take_lt_all G (edges_of G) i a b Hi Hab) as Hlt.
    exists (mx + 1 + Z.of_nat (triangle_count G (take i (edges_of G)))).
    split; [apply Hn; right; lia|]. split; [|split].
    + intros Hin. specialize (Hmax _ Hin). lia.
    + rewrite HL'. rewrite decide_True; [done|lia].
    + intros y. rewrite Hh. split.
      * intros [j [a' [b' [Hj Hcj]]]]. destruct (Hends j a' b' Hj) as [Ha' [Hb' _]].
        pose proof (Hmax _ Ha'). pose proof (Hmax _ Hb').
        destruct (in_triangle G a' b') eqn:Ht'; [|lia].
        destruct Hcj as [[Hcj _]|[Hcj Hy]]; [lia|].
        assert (j = i) as ->.
        { destruct (decide (j = i)) as [|Hne']; [done|]. exfalso.
          destruct (decide (j < i)%nat).
          - assert (j < i)%nat as Hji by lia.
            pose proof (triangle_count_take_lt G (edges_of G) j i a' b' Hji Hj Ht'). lia.
          - assert (i < j)%nat as Hij by lia.
            pose proof (triangle_count_take_lt G (edges_of G) i j a b Hij Hi Hab). lia. }
        rewrite Hi in Hj. injection Hj as <- <-.
        destruct Hc as [[-> ->]|[-> ->]]; tauto.
      * intros Hy. exists i, a, b. split; [done|]. rewrite Hab. right. split; [done|].
        destruct Hc as [[-> ->]|[-> ->]]; tauto.
  - assert (nodes_of G' ≡ₚ
              nodes_of G ++ seqZ (mx + 1) (Z.of_nat (triangle_count G (edges_of G)))) as Hp.
    { apply NoDup_Permutation; [done| |].
      - apply NoDup_app. split; [by destruct Hwf|]. split; [|apply NoDup_seqZ].
        intros x Hx Hs%elem_of_seqZ. specialize (Hmax _ Hx). lia.
      - intros x. rewrite Hn, elem_of_app, elem_of_seqZ. split; intros [?|?]; auto; right; lia. }
    rewrite Hp, length_app, length_seqZ. lia.
Qed.

Lemma fancy_expand_graph_replaces_triangle_edges_witness :
  ∃ out G' L' ml,
    fancy_expand_graph true path3 (default_labels path3) = Ok (out, (G', L')) ∧
    py_max (dict_values (default_labels path3)) = Ok ml ∧
    (∀ n, n ∈ nodes_of path3 → n ∈ nodes_of G' ∧ L' !! n = default_labels path3 !! n) ∧
    (∀ u v, u ∈ nodes_of path3 → v ∈ nodes_of path3 →
       (has_edge G' u v = true ↔
        has_edge path3 u v = true ∧ in_triangle path3 u v = false)) ∧
    (∀ u v, has_edge path3 u v = true → in_triangle path3 u v = true →
       ∃ e, e ∈ nodes_of G' ∧ (e ∉ nodes_of path3) ∧ L' !! e = Some (ml + 1) ∧
            ∀ y, has_edge G' e y = true ↔ y = u ∨ y = v) ∧
    length (nodes_of G') =
      (length (nodes_of path3) + triangle_count path3 (edges_of path3))%nat.
Proof.
  apply (fancy_expand_graph_replaces_triangle_edges true path3 (default_labels path3)).
  - apply (bool_decide_unpack (graph_wf path3)). vm_compute. exact I.
  - discriminate.
  - apply (bool_decide_unpack (labels_total path3 (default_labels path3))).
    vm_compute. exact I.
Defined.
Lemma triangle_count_none (G : Graph) (es : list (Z * Z)) :
  Forall (λ e, in_triangle G e.1 e.2 = false) es → triangle_count G es = O.
Proof.
  induction 1 as [|e es He Hes IH]; [done|]. rewrite triangle_count_cons, He. done.
Qed.

(** On a graph without an edge whose endpoints have a common neighbour,
    [fancy_expand_graph] returns the graph itself (the nodes in ascending
    order) with the labels of its nodes, and says so, unless there is no edge
    at all: then it prints that all edges are in triangles. *)
Theorem fancy_expand_graph_triangle_free (nodewise : bool) (G : Graph) (L : gmap Z Z) :
  graph_wf G → G ≠ [] → labels_total G L →
  Forall (λ e, in_triangle G e.1 e.2 = false) (edges_of G) →
  ∃ G' L',
    fancy_expand_graph nodewise G L =
      Ok (if nodewise
          then [Text (if decide (edges_of G = []) then "All triangles"
                      else "All non-triangles")]
          else [], (G', L')) ∧
    same_graph G G' ∧
    (∀ n, L' !! n = if decide (n ∈ nodes_of G) then L !! n else None).
Proof.
  intros Hwf Hne HL Hfree.
  destruct (fancy_expand_graph_Ok nodewise G L Hwf Hne HL)
    as [G' [L' [mx [ml [a_t [a_n [He [Hml [Hmx [Hmax [Hat [Han [HL' [Hn [Hnd Hh]]]]]]]]]]]]]]].
  rewrite (triangle_count_none _ _ Hfree) in HL', Hn.
  rewrite Forall_forall in Hfree.
  assert (a_t = false) as ->.
  { destruct a_t; [|done]. destruct (proj1 Hat eq_refl) as [u [v [Huv Ht]]].
    specialize (Hfree _ Huv). simpl in Hfree. congruence. }
  assert (a_n = if decide (edges_of G = []) then false else true) as ->.
  { case_decide as Hes.
    - destruct a_n; [|done]. destruct (proj1 Han eq_refl) as [u [v [Huv _]]].
      rewrite Hes in Huv. by apply elem_of_nil in Huv.
    - apply Han. destruct (edges_of G) as [|[u v] es] eqn:Hes'; [done|].
      exists u, v. split; [left|]. apply (Hfree (u, v)). left. }
  exists G', L'. split; [|split; [split|]].
  - rewrite He. by case_decide.
  - apply NoDup_Permutation; [by destruct Hwf|done|].
    intros n. rewrite Hn. split; [auto|]. intros [?|?]; [done|lia].
  - intros u v. apply eq_true_iff_eq. rewrite Hh. split.
    + intros Huv. destruct (edges_of_complete G u v Hwf Huv) as [H|H];
        pose proof (Hfree _ H) as Ht; apply list_elem_of_lookup_1 in H as [i Hi];
        simpl in Ht.
      * exists i, u, v. split; [done|]. rewrite Ht. auto.
      * exists i, v, u. split; [done|]. rewrite Ht. auto.
    + intros [i [a [b [Hi Hc]]]]. apply list_elem_of_lookup_2 in Hi.
      pose proof (Hfree _ Hi) as Ht. simpl in Ht. rewrite Ht in Hc.
      apply (edges_of_wf _ _ _ Hwf) in Hi as [Hab [Hba _]].
      by destruct Hc as [[-> ->]|[-> ->]].
  - intros n. rewrite HL'. rewrite decide_False by lia. done.
Qed.

Lemma fancy_expand_graph_triangle_free_witness :
  ∃ G' L',
    fancy_expand_graph true path3 (default_labels path3) =
      Ok ([Text (if decide (edges_of path3 = []) then "All triangles"
                 else "All non-triangles")], (G', L')) ∧
    same_graph path3 G' ∧
    (∀ n, L' !! n = if decide (n ∈ nodes_of path3) then default_labels path3 !! n else None).
Proof.
  apply (fancy_expand_graph_triangle_free true path3 (default_labels path3)).
  - apply (bool_decide_unpack (graph_wf path3)). vm_compute. exact I.
  - discriminate.
  - apply (bool_decide_unpack (labels_total path3 (default_labels path3))).
    vm_compute. exact I.
  - apply (bool_decide_unpack
             (Forall (λ e, in_triangle path3 e.1 e.2 = false) (edges_of path3))).
    vm_compute. exact I.
Defined.

Lemma fancy_fold_all_triangles (G : Graph) (el : Z) (es : list (Z * Z)) :
  (∀ u v, (u, v) ∈ es → u ∈ nodes_of G ∧ v ∈ nodes_of G) →
  Forall (λ e, in_triangle G e.1 e.2 = true) es →
  ∀ (nxt : Z) (g : Graph) (ls : gmap Z Z) (a_t a_n : bool),
  ∃ a_t', foldR (fancy_expand_edge G el) (nxt, g, ls, a_t, a_n) es =
            Ok (foldl (expand_edge el) (nxt, g, ls) es, a_t', a_n).
Proof.
  intros Hends Ht. induction Ht as [|e es He Hes IH]; intros nxt g ls a_t a_n.
  - by exists a_t.
  - destruct (Hends e.1 e.2) as [Hu Hv]; [destruct e; left|].
    cbn [foldR foldl]. rewrite (fancy_expand_edge_spec G el nxt g ls a_t a_n e) by done.
    rewrite He. cbn [mbind result_bind].
    destruct (IH (λ u v H, Hends u v (list_elem_of_further _ _ _ H)) (nxt + 1)
                (add_edge (add_edge (add_node g (nxt + 1)) e.1 (nxt + 1)) e.2 (nxt + 1))
                (<[nxt + 1 := el]> ls) true a_n) as [a_t' Hf].
    exists a_t'. rewrite Hf. done.
Qed.

(** On a graph all of whose edges join nodes with a common neighbour (and on
    a graph without edges), [fancy_expand_graph] does what [expand_graph]
    does, errors included, and prints that all edges are in triangles. *)
Theorem fancy_expand_graph_all_triangles (nodewise : bool) (G : Graph) (L : gmap Z Z) :
  graph_wf G →
  Forall (λ e, in_triangle G e.1 e.2 = true) (edges_of G) →
  fancy_expand_graph nodewise G L =
    r ← expand_graph G L;
    Ok (if nodewise then [Text "All triangles"] else [], r).
Proof.
  intros Hwf Ht. unfold fancy_expand_graph, expand_graph.
  destruct (py_max (dict_values L)) as [m| |]; [|done|done]. cbn [mbind result_bind].
  destruct (list_last_item (sort_Z (nodes_of G))) as [nxt| |]; [|done|done].
  cbn [mbind result_bind].
  destruct (foldR _ (empty_graph, ∅) (sort_Z (nodes_of G))) as [[g0 ls0]| |]; [|done|done].
  cbn [mbind result_bind].
  destruct (fancy_fold_all_triangles G (m + 1) (edges_of G)) with
    (nxt := nxt) (g := g0) (ls := ls0) (a_t := false) (a_n := false) as [a_t ->]; [|done|].
  { intros u v Huv. apply (edges_of_wf _ _ _ Hwf) in Huv. tauto. }
  cbn [mbind result_bind].
  destruct (foldl (expand_edge (m + 1)) (nxt, g0, ls0) (edges_of G)) as [[n' g'] l'].
  done.
Qed.

Lemma fancy_expand_graph_all_triangles_witness :
  fancy_expand_graph true triangle3 (default_labels triangle3) =
    r ← expand_graph triangle3 (default_labels triangle3);
    Ok ([Text "All triangles"], r).
Proof.
  apply (fancy_expand_graph_all_triangles true triangle3 (default_labels triangle3)).
  - apply (bool_decide_unpack (graph_wf triangle3)). vm_compute. exact I.
  - apply (bool_decide_unpack
             (Forall (λ e, in_triangle triangle3 e.1 e.2 = true) (edges_of triangle3))).
    vm_compute. exact I.
Defined.
(** ** [further_sort] *)

Lemma not_after_total {A} (ltb : A → A → bool) (a b : A) :
  StrictTotal ltb → not_after ltb a b ↔ a = b ∨ ltb a b = true.
Proof.
  intros [Hirr Htr Htot]. unfold not_after. split.
  - intros Hba. destruct (Htot a b) as [?|[?|?]]; [auto|auto|congruence].
  - intros [-> |Hab]; [apply Hirr|].
    destruct (ltb b a) eqn:Hba; [|done]. pose proof (Htr a b a Hab Hba) as Haa.
    by rewrite Hirr in Haa.
Qed.

Lemma not_after_ne_trans {A} (ltb : A → A → bool) (a b c : A) :
  StrictTotal ltb → not_after ltb a b → a ≠ b → not_after ltb b c → a ≠ c.
Proof.
  intros Hst Hab Hne Hbc ->.
  apply (not_after_total _ _ _ Hst) in Hab as [?|Hab]; [done|].
  apply (not_after_total _ _ _ Hst) in Hbc as [<- |Hbc].
  - destruct Hst as [Hirr _ _]. by rewrite Hirr in Hab.
  - destruct Hst as [Hirr Htr _]. pose proof (Htr c b c Hab Hbc) as Hcc.
    by rewrite Hirr in Hcc.
Qed.

(** The ranks that the relabelling loop gives to a sorted list: they start
    at [next] or one above, go up by steps of one, and two entries get the
    same rank exactly when their keys are equal. *)
Lemma further_sort_relabel_spec (rest : list (Z * (Z * Z))) :
  ∀ (next : Z) (prev : Z * Z),
  StronglySorted (not_after pair_ltb) (prev :: rest.*2) →
  (∀ i a r, rest !! i = Some a → further_sort_relabel rest next prev !! i = Some r →
     next ≤ r.2 ∧ (r.2 = next ↔ a.2 = prev)) ∧
  (∀ i j a b ra rb, (i ≤ j)%nat →
     rest !! i = Some a → rest !! j = Some b →
     further_sort_relabel rest next prev !! i = Some ra →
     further_sort_relabel rest next prev !! j = Some rb →
     ra.2 ≤ rb.2 ∧ (ra.2 = rb.2 ↔ a.2 = b.2)) ∧
  (∀ r, further_sort_relabel rest next prev !! O = Some r → r.2 = next ∨ r.2 = next + 1) ∧
  (∀ i ra rb, further_sort_relabel rest next prev !! i = Some ra →
     further_sort_relabel rest next prev !! S i = Some rb →
     rb.2 = ra.2 ∨ rb.2 = ra.2 + 1).
Proof.
  pose proof pair_ltb_StrictTotal as Hst.
  induction rest as [|x rest IH]; intros next prev Hs.
  - split; [|split; [|split]]; intros; simplify_eq/=.
  - csimpl in Hs. apply StronglySorted_inv in Hs as [Hs Hprev].
    apply Forall_cons in Hprev as [Hpx Hprev].
    pose proof Hs as Hs'. apply StronglySorted_inv in Hs' as [Hrest Hx].
    assert (StronglySorted (not_after pair_ltb) (prev :: rest.*2)) as Hs2
      by (by constructor).
    cbn [further_sort_relabel]. case_decide as Hne.
    + destruct (IH (next + 1) x.2 Hs) as [I1 [I2 [I3 I4]]].
      assert (∀ b, b ∈ rest → b.2 ≠ prev) as Hlater.
      { intros b Hb Heq. rewrite Forall_forall in Hx.
        assert (not_after pair_ltb x.2 b.2) as Hxb
          by (apply Hx; apply list_elem_of_fmap; by exists b).
        apply (not_after_ne_trans pair_ltb prev x.2 b.2 Hst Hpx); [congruence|done|congruence]. }
      split; [|split; [|split]].
      * intros [|i] a r Ha Hr; simplify_eq/=.
        -- split; [lia|]. split; [lia|done].
        -- destruct (I1 i a r Ha Hr) as [Hle _]. split; [lia|]. split; [lia|].
           intros Heq. exfalso. apply (Hlater a); [by eapply list_elem_of_lookup_2|done].
      * intros [|i] [|j] a b ra rb Hij Ha Hb Hra Hrb; simplify_eq/=; try lia.
        -- done.
        -- destruct (I1 j b rb Hb Hrb) as [Hle Heq]. split; [done|].
           split; [intros H; symmetry; apply Heq; lia|intros H; symmetry; by apply Heq].
        -- apply (I2 i j a b ra rb); [lia|done..].
      * intros r Hr. simplify_eq/=. by right.
      * intros [|i] ra rb Hra Hrb; simplify_eq/=.
        -- destruct (I3 rb Hrb) as [-> | ->]; auto.
        -- by apply (I4 i).
    + destruct (IH next prev Hs2) as [I1 [I2 [I3 I4]]].
      split; [|split; [|split]].
      * intros [|i] a r Ha Hr; simplify_eq/=.
        -- split; [lia|]. done.
        -- by apply (I1 i).
      * intros [|i] [|j] a b ra rb Hij Ha Hb Hra Hrb; simplify_eq/=; try lia.
        -- done.
        -- destruct (I1 j b rb Hb Hrb) as [Hle Heq]. split; [done|].
           split; [intros H; symmetry; apply Heq; lia|intros H; symmetry; by apply Heq].
        -- apply (I2 i j a b ra rb); [lia|done..].
      * intros r Hr. simplify_eq/=. by left.
      * intros [|i] ra rb Hra Hrb; simplify_eq/=.
        -- destruct (I3 rb Hrb) as [-> | ->]; auto.
        -- by apply (I4 i).
Qed.
Lemma StronglySorted_lookup_lt {A} (R : A → A → Prop) (l : list A) (i j : nat) (a b : A) :
  StronglySorted R l → (i < j)%nat → l !! i = Some a → l !! j = Some b → R a b.
Proof.
  intros Hs. revert i j. induction Hs as [|x l Hl IH Hx]; intros i j Hij Hi Hj; [done|].
  destruct j as [|j]; [lia|]. destruct i as [|i]; simplify_eq/=.
  - rewrite Forall_forall in Hx. apply Hx. by eapply list_elem_of_lookup_2.
  - apply (IH i j); [lia|done..].
Qed.

Lemma StronglySorted_from_lookup {A} (R : A → A → Prop) (l : list A) :
  (∀ i j a b, (i < j)%nat → l !! i = Some a → l !! j = Some b → R a b) →
  StronglySorted R l.
Proof.
  induction l as [|x l IH]; intros H; constructor.
  - apply IH. intros i j a b Hij Hi Hj. apply (H (S i) (S j)); [lia|done..].
  - apply Forall_forall. intros y [j Hj]%list_elem_of_lookup_1.
    apply (H O (S j)); [lia|done..].
Qed.

(** What [further_sort] returns: [s] is the list with every entry next to
    its key [(rank, new label)], sorted by the keys. *)
Lemma further_sort_facts (l : list (Z * Z)) (labels : gmap Z Z) :
  l ≠ [] → (∀ x, x ∈ l → is_Some (labels !! x.1)) →
  ∃ s l',
    further_sort l labels = Ok l' ∧
    s ≡ₚ (λ x, (x.1, (x.2, label_of labels x.1))) <$> l ∧
    StronglySorted (not_after pair_ltb) s.*2 ∧
    l'.*1 = s.*1 ∧
    (∃ n rest, l' = (n, 0) :: rest) ∧
    (∀ i ra rb, l' !! i = Some ra → l' !! S i = Some rb → rb.2 = ra.2 ∨ rb.2 = ra.2 + 1) ∧
    (∀ i j a b ra rb, (i ≤ j)%nat →
       s !! i = Some a → s !! j = Some b → l' !! i = Some ra → l' !! j = Some rb →
       ra.2 ≤ rb.2 ∧ (ra.2 = rb.2 ↔ a.2 = b.2)).
Proof.
  intros Hne Hl. unfold further_sort.
  rewrite (mapR_Ok _ (λ x, (x.1, (x.2, label_of labels x.1)))).
  2:{ intros x Hx. destruct (Hl x Hx) as [v Hv]. rewrite (getitem_Some _ _ _ Hv). simpl.
      by rewrite (label_of_Some _ _ _ Hv). }
  cbn [mbind result_bind].
  destruct (py_sort_spec (λ x y : Z * (Z * Z), Ok (pair_ltb x.2 y.2))
              (λ x y, pair_ltb x.2 y.2)
              (StrictWeak_proj snd _ (StrictTotal_weak _ pair_ltb_StrictTotal))
              ((λ x, (x.1, (x.2, label_of labels x.1))) <$> l)) as [s [-> [Hp Hs]]]; [done|].
  cbn [mbind result_bind].
  assert (StronglySorted (not_after pair_ltb) s.*2) as Hs2.
  { eapply (StronglySorted_fmap snd); [|exact Hs]. done. }
  destruct s as [|x s].
  { apply Permutation_nil_l in Hp. by destruct l. }
  exists (x :: s). eexists. split; [done|]. split; [done|]. split; [done|].
  csimpl in Hs2.
  destruct (further_sort_relabel_spec s 0 x.2 Hs2) as [I1 [I2 [I3 I4]]].
  split; [|split; [|split]].
  - csimpl. by rewrite further_sort_relabel_fst.
  - eauto.
  - intros [|i] ra rb Hra Hrb; simplify_eq/=.
    + destruct (I3 rb Hrb) as [-> | ->]; auto.
    + by apply (I4 i).
  - intros [|i] [|j] a b ra rb Hij Ha Hb Hra Hrb; simplify_eq/=; try lia.
    + done.
    + destruct (I1 j b rb Hb Hrb) as [Hle Heq]. split; [done|].
      split; [intros H; symmetry; apply Heq; lia|intros H; symmetry; by apply Heq].
    + apply (I2 i j a b ra rb); [lia|done..].
Qed.

Lemma pair_ltb_true (a b : Z * Z) :
  pair_ltb a b = true ↔ a.1 < b.1 ∨ (a.1 = b.1 ∧ a.2 < b.2).
Proof.
  unfold pair_ltb, int_ltb. case_decide; rewrite bool_decide_eq_true; lia.
Qed.

(** [further_sort] refines a ranking by new labels: the list comes back
    sorted by its new ranks; the ranks start at 0 and go up by steps of one;
    the entry of one node gets a lower rank than that of another exactly when
    it had a lower rank before, or the same rank and a lower new label, and
    the same rank exactly when it had the same rank and has the same new
    label. *)
Theorem further_sort_refines_ranking (l : list (Z * Z)) (labels : gmap Z Z) :
  l ≠ [] → NoDup l.*1 → (∀ x, x ∈ l → is_Some (labels !! x.1)) →
  ∃ l',
    further_sort l labels = Ok l' ∧
    l'.*1 ≡ₚ l.*1 ∧
    StronglySorted (λ a b, a.2 ≤ b.2) l' ∧
    (∃ n rest, l' = (n, 0) :: rest) ∧
    (∀ i ra rb, l' !! i = Some ra → l' !! S i = Some rb → rb.2 = ra.2 ∨ rb.2 = ra.2 + 1) ∧
    (∀ n m rn rm rn' rm',
       (n, rn) ∈ l → (m, rm) ∈ l → (n, rn') ∈ l' → (m, rm') ∈ l' →
       (rn' < rm' ↔ rn < rm ∨ (rn = rm ∧ label_of labels n < label_of labels m)) ∧
       (rn' = rm' ↔ rn = rm ∧ label_of labels n = label_of labels m)).
Proof.
  intros Hne Hnd Hl.
  destruct (further_sort_facts l labels Hne Hl) as [s [l' [He [Hp [Hs [Hfst [Hhd [Hstep Hrank]]]]]]]].
  exists l'. split; [done|].
  assert (s.*1 ≡ₚ l.*1) as Hfst' by (rewrite Hp, <- list_fmap_compose; done).
  split; [by rewrite Hfst|].
  assert (length l' = length s) as Hlen by (by rewrite <- (length_fmap fst), Hfst, length_fmap).
  (* the key of the entry of a node *)
  assert (∀ i n r, l' !! i = Some (n, r) →
            ∃ ro, (n, ro) ∈ l ∧ s !! i = Some (n, (ro, label_of labels n))) as Hkey.
  { intros i n r Hi.
    destruct (lookup_lt_is_Some_2 s i) as [[n' k] Hsi];
      [rewrite <- Hlen; by eapply lookup_lt_Some|].
    assert (n' = n) as ->.
    { assert (l'.*1 !! i = Some n) as H1 by (by rewrite list_lookup_fmap, Hi).
      rewrite Hfst, list_lookup_fmap, Hsi in H1. by injection H1. }
    assert ((n, k) ∈ s) as Hin by (by eapply list_elem_of_lookup_2).
    rewrite Hp in Hin. apply list_elem_of_fmap in Hin as [[n0 ro] [[= -> ->] Hin]].
    exists ro. done. }
  assert (∀ n r r', (n, r) ∈ l → (n, r') ∈ l → r = r') as Hfun.
  { intros n r r' H1 H2.
    apply list_elem_of_lookup_1 in H1 as [i Hi]. apply list_elem_of_lookup_1 in H2 as [j Hj].
    assert (i = j) as ->.
    { apply (NoDup_lookup l.*1 i j n Hnd); by rewrite list_lookup_fmap, ?Hi, ?Hj. }
    congruence. }
  assert (∀ i j n m rn rm rn' rm', (i ≤ j)%nat →
            (n, rn) ∈ l → (m, rm) ∈ l → l' !! i = Some (n, rn') → l' !! j = Some (m, rm') →
            rn' ≤ rm' ∧
            (rn' = rm' ↔ rn = rm ∧ label_of labels n = label_of labels m) ∧
            (rn' < rm' → rn < rm ∨ (rn = rm ∧ label_of labels n < label_of labels m))) as Hord.
  { intros i j n m rn rm rn' rm' Hij Hn Hm Hi Hj.
    destruct (Hkey i n rn' Hi) as [ro [Hro Hsi]]. rewrite (Hfun n ro rn Hro Hn) in Hsi.
    destruct (Hkey j m rm' Hj) as [ro' [Hro' Hsj]]. rewrite (Hfun m ro' rm Hro' Hm) in Hsj.
    destruct (Hrank i j _ _ _ _ Hij Hsi Hsj Hi Hj) as [Hle Heq]. simpl in Hle, Heq.
    split; [done|]. split.
    - rewrite Heq. split; [by intros [= -> ->]|by intros [-> ->]].
    - intros Hlt.
      assert (not_after pair_ltb (rn, label_of labels n) (rm, label_of labels m)) as Hna.
      { destruct (decide (i = j)) as [-> |Hne'].
        - rewrite Hsi in Hsj. injection Hsj as -> ->. apply pair_ltb_StrictTotal.
        - assert (s.*2 !! i = Some (rn, label_of labels n)) as H1
            by (by rewrite list_lookup_fmap, Hsi).
          assert (s.*2 !! j = Some (rm, label_of labels m)) as H2
            by (by rewrite list_lookup_fmap, Hsj).
          apply (StronglySorted_lookup_lt _ _ i j _ _ Hs); [lia|done|done]. }
      apply (not_after_total _ _ _ pair_ltb_StrictTotal) in Hna as [Hkeq|Hna].
      + assert (rn' = rm') by (by apply Heq). lia.
      + by apply pair_ltb_true in Hna. }
  split; [|split; [done|split; [done|]]].
  - apply StronglySorted_from_lookup. intros i j [n rn'] [m rm'] Hij Hi Hj. simpl.
    destruct (Hkey i n rn' Hi) as [ro [Hro _]]. destruct (Hkey j m rm' Hj) as [ro' [Hro' _]].
    apply (Hord i j n m ro ro' rn' rm'); [lia|done..].
  - intros n m rn rm rn' rm' Hn Hm [i Hi]%list_elem_of_lookup_1 [j Hj]%list_elem_of_lookup_1.
    destruct (decide (i ≤ j)%nat) as [Hij|Hij].
    + destruct (Hord i j n m rn rm rn' rm' Hij Hn Hm Hi Hj) as [Hle [Heq Hlt]].
      split; [|done]. split; [done|]. intros Hc.
      destruct (decide (rn' = rm')) as [Hsame|?]; [|lia].
      apply Heq in Hsame. lia.
    + assert (j ≤ i)%nat as Hji by lia.
      destruct (Hord j i m n rm rn rm' rn' Hji Hm Hn Hj Hi) as [Hle [Heq Hlt]].
      split.
      * split.
        -- intros Hc. lia.
        -- intros Hc. destruct (decide (rm' = rn')) as [Hsame|?].
           ++ apply Heq in Hsame. lia.
           ++ assert (rm' < rn') as Hlt' by lia. apply Hlt in Hlt'. lia.
      * split.
        -- intros Hc. symmetry in Hc. apply Heq in Hc. intuition congruence.
        -- intros Hc. symmetry. apply Heq. intuition congruence.
Qed.
Lemma further_sort_refines_ranking_witness :
  ∃ l',
    further_sort example_ordering example_new_labels = Ok l' ∧
    l'.*1 ≡ₚ example_ordering.*1 ∧
    StronglySorted (λ a b, a.2 ≤ b.2) l' ∧
    (∃ n rest, l' = (n, 0) :: rest) ∧
    (∀ i ra rb, l' !! i = Some ra → l' !! S i = Some rb → rb.2 = ra.2 ∨ rb.2 = ra.2 + 1) ∧
    (∀ n m rn rm rn' rm',
       (n, rn) ∈ example_ordering → (m, rm) ∈ example_ordering →
       (n, rn') ∈ l' → (m, rm') ∈ l' →
       (rn' < rm' ↔
        rn < rm ∨ (rn = rm ∧ label_of example_new_labels n < label_of example_new_labels m)) ∧
       (rn' = rm' ↔
        rn = rm ∧ label_of example_new_labels n = label_of example_new_labels m)).
Proof.
  apply (further_sort_refines_ranking example_ordering example_new_labels).
  - discriminate.
  - apply (bool_decide_unpack (NoDup example_ordering.*1)). vm_compute. exact I.
  - apply Forall_forall.
    apply (bool_decide_unpack
             (Forall (λ x, is_Some (example_new_labels !! x.1)) example_ordering)).
    vm_compute. exact I.
Defined.

Lemma mapR_raises {A B} (f : A → result B) (l : list A) (e : exn) :
  (∀ x, x ∈ l → is_Ok (f x) ∨ f x = Raise e) →
  (∃ x, x ∈ l ∧ f x = Raise e) →
  mapR f l = Raise e.
Proof.
  induction l as [|a l IH]; intros Hall [x [Hx Hf]].
  - by apply elem_of_nil in Hx.
  - simpl. destruct (Hall a) as [[b Hb]|Ha]; [left| |by rewrite Ha].
    rewrite Hb. cbn [mbind result_bind].
    rewrite IH; [done| |].
    + intros y Hy. apply Hall. by right.
    + apply elem_of_cons in Hx as [-> |Hx]; [congruence|eauto].
Qed.

(** [further_sort] raises [IndexError] on the empty list (it reads
    [initial_list[0]]) and [KeyError] when a node of the list has no new
    label. *)
Theorem further_sort_raises (l : list (Z * Z)) (labels : gmap Z Z) :
  (l = [] → further_sort l labels = Raise IndexError) ∧
  ((∃ x, x ∈ l ∧ labels !! x.1 = None) → further_sort l labels = Raise KeyError).
Proof.
  split.
  - by intros ->.
  - intros [x [Hx Hnone]]. unfold further_sort.
    rewrite (mapR_raises _ l KeyError); [done| |].
    + intros y _. unfold getitem. destruct (labels !! y.1); [left; by eexists|by right].
    + exists x. split; [done|]. unfold getitem. by rewrite Hnone.
Qed.

Lemma further_sort_raises_witness :
  further_sort [] example_new_labels = Raise IndexError ∧
  further_sort [(0, 0); (5, 0)] example_new_labels = Raise KeyError.
Proof.
  split.
  - by apply (further_sort_raises [] example_new_labels).
  - apply (further_sort_raises [(0, 0); (5, 0)] example_new_labels).
    exists (5, 0). split; [by right; left|]. by vm_compute.
Defined.
(** ** The search for an untied node in [set_canonical_form] *)

Lemma skip_ties_spec (fuel : nat) (ordering : list (Z * Z)) (key : Z) (next_idx : nat) :
  (length ordering - next_idx < fuel)%nat →
  ∃ i, skip_ties fuel ordering key next_idx = Ok i ∧
    (next_idx ≤ i)%nat ∧ (i ≤ max next_idx (length ordering))%nat ∧
    (∀ j x, (next_idx ≤ j < i)%nat → ordering !! j = Some x → x.2 = key) ∧
    (∀ x, ordering !! i = Some x → x.2 ≠ key).
Proof.
  revert next_idx. induction fuel as [|fuel IH]; intros next Hf; [lia|].
  simpl. destruct (ordering !! next) as [x|] eqn:Hx.
  - apply lookup_lt_Some in Hx as Hlt. case_decide as Hk.
    + destruct (IH (S next)) as [i [-> [Hi [Hmax [Hties Hend]]]]]; [lia|].
      exists i. split; [done|]. split; [lia|]. split; [lia|]. split; [|done].
      intros j y Hj Hy. destruct (decide (j = next)) as [-> |Hne]; [congruence|].
      apply (Hties j); [lia|done].
    + exists next. split; [done|]. split; [lia|]. split; [lia|]. split; [intros; lia|].
      intros y Hy. congruence.
  - exists next. split; [done|]. split; [lia|]. split; [lia|]. split; [intros; lia|].
    intros y Hy. congruence.
Qed.

Lemma select_untied_spec (fuel : nat) (ordering : list (Z * Z)) (selected_index : nat) :
  (length ordering - selected_index < fuel)%nat →
  (selected_index ≤ length ordering)%nat →
  (∀ x y, ordering !! pred selected_index = Some x → ordering !! selected_index = Some y →
     selected_index = O ∨ x.2 ≠ y.2) →
  ∃ i, select_untied fuel ordering selected_index = Ok i ∧
    (selected_index ≤ i ≤ length ordering)%nat ∧
    tied_with_next ordering i = false ∧
    (∀ x y, ordering !! pred i = Some x → ordering !! i = Some y → i = O ∨ x.2 ≠ y.2) ∧
    (∀ j x, (selected_index ≤ j < i)%nat → ordering !! j = Some x →
       ∃ j' y, j' ≠ j ∧ ordering !! j' = Some y ∧ y.2 = x.2).
Proof.
  revert selected_index. induction fuel as [|fuel IH]; intros sel Hf Hsel Hprev; [lia|].
  simpl. unfold tied_with_next.
  destruct (ordering !! sel) as [x|] eqn:Hx.
  2:{ exists sel. rewrite Hx. split; [done|]. split; [lia|]. split; [done|].
      split; [done|]. intros; lia. }
  destruct (ordering !! S sel) as [y|] eqn:Hy.
  2:{ exists sel. rewrite Hx, Hy. split; [done|]. split; [lia|]. split; [done|].
      split; [done|]. intros; lia. }
  apply lookup_lt_Some in Hy as Hlt.
  case_decide as Hxy.
  - destruct (skip_ties_spec fuel ordering x.2 (S sel)) as [n [-> [Hn [Hmax [Hties Hend]]]]];
      [lia|]. cbn [mbind result_bind].
    destruct (IH n) as [i [-> [Hi [Htied [Hbound Hshared]]]]]; [lia|lia| |].
    { intros a b Ha Hb. right. destruct n as [|n]; [lia|]. simpl in Ha.
      destruct (decide (n = sel)) as [-> |Hne].
      - rewrite Hx in Ha. injection Ha as <-. intros Heq. by apply (Hend b).
      - rewrite (Hties n a) by (done || lia). intros Heq. by apply (Hend b). }
    exists i. split; [done|]. split; [lia|]. split; [done|]. split; [done|].
    intros j a Hj Ha. destruct (decide (j < n)%nat) as [Hjn|Hjn]; [|apply (Hshared j); [lia|done]].
    destruct (decide (j = sel)) as [-> |Hne].
    + exists (S sel), y. split; [lia|]. split; [done|]. congruence.
    + exists sel, x. split; [done|]. split; [done|]. symmetry. apply (Hties j); [lia|done].
  - exists sel. rewrite Hx, Hy. split; [done|]. split; [lia|].
    split; [by apply bool_decide_eq_false|]. split; [done|]. intros; lia.
Qed.

(** The loop that looks for an untied node, on a list sorted by its ranks:
    it stops at the first entry whose rank no other entry has, or at the
    length of the list when every rank is shared; in both cases the entry it
    stops at is not tied with the next one, so that the test after the loop
    asks for a servant exactly when the loop ran off the list. *)
Theorem select_untied_first_unique (fuel : nat) (ordering : list (Z * Z)) :
  StronglySorted (λ a b, a.2 ≤ b.2) ordering →
  (length ordering < fuel)%nat →
  ∃ i, select_untied fuel ordering 0 = Ok i ∧
    (i ≤ length ordering)%nat ∧
    tied_with_next ordering i = false ∧
    (∀ j x, (j < i)%nat → ordering !! j = Some x →
       ∃ j' y, j' ≠ j ∧ ordering !! j' = Some y ∧ y.2 = x.2) ∧
    (∀ x j y, ordering !! i = Some x → ordering !! j = Some y → y.2 = x.2 → j = i).
Proof.
  intros Hs Hf.
  destruct (select_untied_spec fuel ordering 0) as [i [Hi [Hle [Htied [Hprev Hshared]]]]];
    [lia|lia|auto|].
  exists i. split; [done|]. split; [lia|]. split; [done|]. split.
  - intros j x Hj Hx. apply (Hshared j); [lia|done].
  - intros x j y Hx Hy Heq.
    destruct (decide (j = i)) as [|Hne]; [done|]. exfalso.
    destruct (decide (j < i)%nat) as [Hlt|Hge].
    + destruct i as [|i]; [lia|].
      destruct (lookup_lt_is_Some_2 ordering i) as [p Hp]; [apply lookup_lt_Some in Hx; lia|].
      destruct (Hprev p x Hp Hx) as [?|Hpx]; [done|].
      assert (y.2 ≤ p.2) as H1.
      { destruct (decide (j = i)) as [-> |?]; [rewrite Hp in Hy; injection Hy as ->; lia|].
        apply (StronglySorted_lookup_lt _ _ j i y p Hs); [lia|done..]. }
      assert (p.2 ≤ x.2) as H2
        by (apply (StronglySorted_lookup_lt _ _ i (S i) p x Hs); [lia|done..]).
      lia.
    + unfold tied_with_next in Htied. rewrite Hx in Htied.
      destruct (ordering !! S i) as [q|] eqn:Hq.
      * apply bool_decide_eq_false in Htied.
        assert (x.2 ≤ q.2) as H1
          by (apply (StronglySorted_lookup_lt _ _ i (S i) x q Hs); [lia|done..]).
        assert (q.2 ≤ y.2) as H2.
        { destruct (decide (j = S i)) as [-> |?]; [rewrite Hq in Hy; injection Hy as ->; lia|].
          apply (StronglySorted_lookup_lt _ _ (S i) j q y Hs); [lia|done..]. }
        lia.
      * apply lookup_ge_None in Hq. apply lookup_lt_Some in Hy. lia.
Qed.

Lemma select_untied_first_unique_witness :
  ∃ i, select_untied 4 example_ordering 0 = Ok i ∧
    (i ≤ length example_ordering)%nat ∧
    tied_with_next example_ordering i = false ∧
    (∀ j x, (j < i)%nat → example_ordering !! j = Some x →
       ∃ j' y, j' ≠ j ∧ example_ordering !! j' = Some y ∧ y.2 = x.2) ∧
    (∀ x j y, example_ordering !! i = Some x →
       example_ordering !! j = Some y → y.2 = x.2 → j = i).
Proof.
  apply (select_untied_first_unique 4 example_ordering).
  - unfold example_ordering. repeat constructor; simpl; lia.
  - simpl. lia.
Defined.
(** ** The matrix of the canonical form *)

Lemma has_edge_sym (G : Graph) (u v : Z) : graph_wf G → has_edge G u v = has_edge G v u.
Proof.
  intros [Hnd Hwf]%graph_wf_elim.
  assert (∀ a b, has_edge G a b = true → has_edge G b a = true) as Hs.
  { intros a b [ns [Hns Hb]]%has_edge_true. apply adj_lookup_elem in Hns.
    by apply (Hwf a ns Hns). }
  apply eq_true_iff_eq. split; apply Hs.
Qed.

Lemma length_matrix_rows (G : Graph) (order : list Z) :
  length (matrix_rows G order) = length order.
Proof. induction order as [|n order IH]; simpl; [done|]. by rewrite IH. Qed.

Lemma matrix_rows_lookup (G : Graph) (order : list Z) (i : nat) (row : list Z) :
  matrix_rows G order !! i = Some row →
  ∃ a, order !! i = Some a ∧
    row = (λ m, if has_edge G a m then 1 else 0) <$> drop (S i) order.
Proof.
  revert i. induction order as [|n order IH]; intros [|i] Hi; simplify_eq/=.
  - exists n. by rewrite drop_0.
  - by apply IH.
Qed.

Lemma matrix_rows_entry (G : Graph) (order : list Z) (i j : nat) (a b : Z) :
  (i < j)%nat → order !! i = Some a → order !! j = Some b →
  ∃ row, matrix_rows G order !! i = Some row ∧
    row !! (j - i - 1)%nat = Some (if has_edge G a b then 1 else 0).
Proof.
  intros Hij Ha Hb.
  destruct (lookup_lt_is_Some_2 (matrix_rows G order) i) as [row Hrow].
  { rewrite length_matrix_rows. by eapply lookup_lt_Some. }
  exists row. split; [done|].
  apply matrix_rows_lookup in Hrow as [a' [Ha' ->]]. rewrite Ha in Ha'. injection Ha' as <-.
  rewrite list_lookup_fmap, lookup_drop.
  replace (S i + (j - i - 1))%nat with j by lia. by rewrite Hb.
Qed.

(** The matrix of the canonical form is the part of the adjacency matrix
    above the diagonal, with the nodes in the final order: one row for each
    node, row [i] with one entry, 0 or 1, for each later node [j], which is 1
    exactly when the [i]th and the [j]th node are adjacent. *)
Theorem matrix_is_upper_triangle (fuel : nat) (G : Graph) (L : gmap Z Z) :
  graph_wf G → G ≠ [] → labels_total G L →
  (length (nodes_of G) + length (edges_of G) ≤ fuel)%nat →
  ∃ cf, canonicalize fuel G (Some L) = Ok cf ∧
    length (final_node_order cf) = length (nodes_of G) ∧
    length (matrix cf) = length (nodes_of G) ∧
    (∀ i row, matrix cf !! i = Some row →
       length row = (length (nodes_of G) - i - 1)%nat ∧
       Forall (λ x, x = 0 ∨ x = 1) row) ∧
    (∀ i j a b, (i < j)%nat →
       final_node_order cf !! i = Some a → final_node_order cf !! j = Some b →
       ∃ row, matrix cf !! i = Some row ∧
         row !! (j - i - 1)%nat = Some (if has_edge G a b then 1 else 0)).
Proof.
  intros Hwf Hne HL Hfuel.
  destruct (master_instance_Ok fuel G L Hwf Hne HL Hfuel)
    as [self [cf [He [_ [_ [Hperm [_ Hm]]]]]]].
  exists cf. unfold canonicalize. rewrite He. split; [done|].
  assert (length (final_node_order cf) = length (nodes_of G)) as Hlen
    by (by rewrite Hperm).
  split; [done|]. rewrite Hm. split; [by rewrite length_matrix_rows|]. split.
  - intros i row Hrow. apply matrix_rows_lookup in Hrow as [a [Ha ->]].
    rewrite length_fmap, length_drop, Hlen. split; [lia|].
    apply Forall_fmap, Forall_forall. intros m _. simpl. destruct (has_edge G a m); auto.
  - intros i j a b. apply matrix_rows_entry.
Qed.

Lemma matrix_is_upper_triangle_witness :
  ∃ cf, canonicalize 5 path3 (Some (default_labels path3)) = Ok cf ∧
    length (final_node_order cf) = length (nodes_of path3) ∧
    length (matrix cf) = length (nodes_of path3) ∧
    (∀ i row, matrix cf !! i = Some row →
       length row = (length (nodes_of path3) - i - 1)%nat ∧
       Forall (λ x, x = 0 ∨ x = 1) row) ∧
    (∀ i j a b, (i < j)%nat →
       final_node_order cf !! i = Some a → final_node_order cf !! j = Some b →
       ∃ row, matrix cf !! i = Some row ∧
         row !! (j - i - 1)%nat = Some (if has_edge path3 a b then 1 else 0)).
Proof.
  apply (matrix_is_upper_triangle 5 path3 (default_labels path3)).
  - apply (bool_decide_unpack (graph_wf path3)). vm_compute. exact I.
  - discriminate.
  - apply (bool_decide_unpack (labels_total path3 (default_labels path3))).
    vm_compute. exact I.
  - vm_compute. lia.
Defined.
(** ** Equal canonical forms *)

Lemma matrix_ltb_StrictTotal : StrictTotal matrix_ltb.
Proof. apply lex_ltb_StrictTotal, list_ltb_StrictTotal. Qed.

Lemma instance_eq_master (ma mb : Nodewise) (a b : CanonicalForm) :
  instance_eq (MasterInstance ma a) (MasterInstance mb b) = Ok true →
  ordered_labels a = ordered_labels b ∧ matrix a = matrix b.
Proof.
  unfold instance_eq, full_comparison. simpl.
  destruct (list_ltb (ordered_labels a) (ordered_labels b)) eqn:H1; [done|].
  destruct (list_ltb (ordered_labels b) (ordered_labels a)) eqn:H2; [done|].
  destruct (matrix_ltb (matrix a) (matrix b)) eqn:H3.
  { destruct (print_differing_rows _ _ _); done. }
  destruct (matrix_ltb (matrix b) (matrix a)) eqn:H4.
  { destruct (print_differing_rows _ _ _); done. }
  intros _. split.
  - destruct (st_total _ list_ltb_StrictTotal (ordered_labels a) (ordered_labels b))
      as [?|[?|?]]; [done|congruence..].
  - destruct (st_total _ matrix_ltb_StrictTotal (matrix a) (matrix b))
      as [?|[?|?]]; [done|congruence..].
Qed.

Lemma position_lookup (l : list Z) (n : Z) : n ∈ l → l !! position l n = Some n.
Proof.
  induction l as [|m l IH]; [by intros ?%elem_of_nil|]. simpl.
  case_decide as Hm; [by subst|]. intros [?|?]%elem_of_cons; [congruence|]. by apply IH.
Qed.

Lemma position_NoDup (l : list Z) (i : nat) (n : Z) :
  NoDup l → l !! i = Some n → position l n = i.
Proof.
  intros Hnd Hi. apply (NoDup_lookup l _ _ n Hnd); [|done].
  apply position_lookup. by eapply list_elem_of_lookup_2.
Qed.

Lemma match_orders_lookup (o1 o2 : list Z) (i : nat) (a b : Z) :
  NoDup o1 → o1 !! i = Some a → o2 !! i = Some b → match_orders o1 o2 a = b.
Proof.
  intros Hnd Ha Hb. unfold match_orders. by rewrite (position_NoDup o1 i a Hnd Ha), Hb.
Qed.

Lemma match_orders_fmap (o1 o2 : list Z) :
  NoDup o1 → length o1 = length o2 → match_orders o1 o2 <$> o1 = o2.
Proof.
  intros Hnd Hlen. apply list_eq. intros i. rewrite list_lookup_fmap.
  destruct (o1 !! i) as [a|] eqn:Ha; simpl.
  - destruct (lookup_lt_is_Some_2 o2 i) as [b Hb];
      [rewrite <- Hlen; by eapply lookup_lt_Some|].
    by rewrite Hb, (match_orders_lookup o1 o2 i a b).
  - symmetry. apply lookup_ge_None. apply lookup_ge_None in Ha. lia.
Qed.

(** Equal canonical forms come from isomorphic graphs only: when [==] holds
    between the top-level instances of two graphs, the map that sends the
    [i]th node of the one final order to the [i]th node of the other is a
    bijection between the nodes that keeps the labels and, for two different
    nodes, adjacency. *)
Theorem equal_canonical_forms_isomorphic (fuel : nat) (G1 G2 : Graph) (L1 L2 : gmap Z Z)
    (m1 m2 : Nodewise) (cf1 cf2 : CanonicalForm) :
  graph_wf G1 → G1 ≠ [] → labels_total G1 L1 →
  graph_wf G2 → G2 ≠ [] → labels_total G2 L2 →
  (length (nodes_of G1) + length (edges_of G1) ≤ fuel)%nat →
  (length (nodes_of G2) + length (edges_of G2) ≤ fuel)%nat →
  master_instance fuel G1 (Some L1) = Ok (m1, cf1) →
  master_instance fuel G2 (Some L2) = Ok (m2, cf2) →
  instance_eq (MasterInstance m1 cf1) (MasterInstance m2 cf2) = Ok true →
  ∃ f : Z → Z,
    f <$> final_node_order cf1 = final_node_order cf2 ∧
    f <$> nodes_of G1 ≡ₚ nodes_of G2 ∧
    (∀ n, n ∈ nodes_of G1 → L2 !! f n = L1 !! n) ∧
    (∀ u v, u ∈ nodes_of G1 → v ∈ nodes_of G1 → u ≠ v →
       has_edge G2 (f u) (f v) = has_edge G1 u v).
Proof.
  intros Hwf1 Hne1 HL1 Hwf2 Hne2 HL2 Hf1 Hf2 He1 He2 Heq.
  destruct (master_instance_Ok fuel G1 L1 Hwf1 Hne1 HL1 Hf1)
    as [m1' [cf1' [He1' [_ [_ [Hp1 [Hl1 Hm1]]]]]]].
  rewrite He1 in He1'. injection He1' as <- <-.
  destruct (master_instance_Ok fuel G2 L2 Hwf2 Hne2 HL2 Hf2)
    as [m2' [cf2' [He2' [_ [_ [Hp2 [Hl2 Hm2]]]]]]].
  rewrite He2 in He2'. injection He2' as <- <-.
  apply instance_eq_master in Heq as [Hlabels Hmatrix].
  set (o1 := final_node_order cf1) in *. set (o2 := final_node_order cf2) in *.
  assert (NoDup o1) as Hnd1 by (rewrite Hp1; by destruct Hwf1).
  assert (length o1 = length o2) as Hlen.
  { rewrite <- (length_fmap (label_of L1) o1), <- (length_fmap (label_of L2) o2).
    by rewrite <- Hl1, <- Hl2, Hlabels. }
  assert (match_orders o1 o2 <$> o1 = o2) as Hfmap by (by apply match_orders_fmap).
  assert (∀ i a, o1 !! i = Some a → o2 !! i = Some (match_orders o1 o2 a)) as Hcorr.
  { intros i a Ha.
    destruct (lookup_lt_is_Some_2 o2 i) as [b Hb];
      [rewrite <- Hlen; by eapply lookup_lt_Some|].
    by rewrite Hb, (match_orders_lookup o1 o2 i a b). }
  assert (∀ n, n ∈ nodes_of G1 →
            ∃ i, o1 !! i = Some n ∧ o2 !! i = Some (match_orders o1 o2 n)) as Hpos.
  { intros n Hn. rewrite <- Hp1 in Hn. apply list_elem_of_lookup_1 in Hn as [i Hi].
    exists i. split; [done|]. by apply Hcorr. }
  exists (match_orders o1 o2). split; [done|]. split; [|split].
  - by rewrite <- Hp1, Hfmap.
  - intros n Hn. destruct (Hpos n Hn) as [i [H1 H2]].
    assert (label_of L1 n = label_of L2 (match_orders o1 o2 n)) as Hlab.
    { assert (ordered_labels cf1 !! i = Some (label_of L1 n)) as Ha
        by (by rewrite Hl1, list_lookup_fmap, H1).
      rewrite Hlabels, Hl2, list_lookup_fmap, H2 in Ha. by injection Ha. }
    rewrite labels_total_elim in HL1, HL2.
    destruct (HL1 n Hn) as [l1 Hl1']. rewrite Hl1'.
    destruct (HL2 (match_orders o1 o2 n)) as [l2 Hl2'].
    { rewrite <- Hp2. by eapply list_elem_of_lookup_2. }
    rewrite Hl2'. unfold label_of in Hlab. rewrite Hl1', Hl2' in Hlab. simpl in Hlab.
    by subst.
  - assert (∀ i j a b, (i < j)%nat → o1 !! i = Some a → o1 !! j = Some b →
              has_edge G2 (match_orders o1 o2 a) (match_orders o1 o2 b) = has_edge G1 a b)
      as Hup.
    { intros i j a b Hij Ha Hb.
      pose proof (Hcorr i a Ha) as Ha'. pose proof (Hcorr j b Hb) as Hb'.
      destruct (matrix_rows_entry G1 o1 i j a b Hij Ha Hb) as [r1 [Hr1 Hx1]].
      destruct (matrix_rows_entry G2 o2 i j _ _ Hij Ha' Hb') as [r2 [Hr2 Hx2]].
      rewrite <- Hm1, Hmatrix, Hm2, Hr2 in Hr1. injection Hr1 as ->.
      rewrite Hx1 in Hx2. injection Hx2 as Hx.
      destruct (has_edge G1 a b), (has_edge G2 _ _); done. }
    intros u v Hu Hv Huv.
    destruct (Hpos u Hu) as [i [Hi _]]. destruct (Hpos v Hv) as [j [Hj _]].
    destruct (decide (i < j)%nat) as [Hij|Hij]; [by apply (Hup i j)|].
    assert (j < i)%nat as Hji.
    { destruct (decide (i = j)) as [-> |?]; [congruence|lia]. }
    rewrite (has_edge_sym G2 _ _ Hwf2), (has_edge_sym G1 _ _ Hwf1). by apply (Hup j i).
Qed.

Lemma equal_canonical_forms_isomorphic_witness :
  ∃ m1 cf1 m2 cf2 (f : Z → Z),
    master_instance 5 path3 (Some (default_labels path3)) = Ok (m1, cf1) ∧
    master_instance 5 path3_from_centre (Some (default_labels path3_from_centre)) =
      Ok (m2, cf2) ∧
    f <$> final_node_order cf1 = final_node_order cf2 ∧
    f <$> nodes_of path3 ≡ₚ nodes_of path3_from_centre ∧
    (∀ n, n ∈ nodes_of path3 →
       default_labels path3_from_centre !! f n = default_labels path3 !! n) ∧
    (∀ u v, u ∈ nodes_of path3 → v ∈ nodes_of path3 → u ≠ v →
       has_edge path3_from_centre (f u) (f v) = has_edge path3 u v).
Proof.
  destruct (master_instance 5 path3 (Some (default_labels path3)))
    as [[m1 cf1]| |] eqn:E1; [|by vm_compute in E1..].
  destruct (master_instance 5 path3_from_centre (Some (default_labels path3_from_centre)))
    as [[m2 cf2]| |] eqn:E2; [|by vm_compute in E2..].
  exists m1, cf1, m2, cf2.
  destruct (equal_canonical_forms_isomorphic 5 path3 path3_from_centre
              (default_labels path3) (default_labels path3_from_centre) m1 m2 cf1 cf2)
    as [f Hf].
  - apply (bool_decide_unpack (graph_wf path3)). vm_compute. exact I.
  - discriminate.
  - apply (bool_decide_unpack (labels_total path3 (default_labels path3))).
    vm_compute. exact I.
  - apply (bool_decide_unpack (graph_wf path3_from_centre)). vm_compute. exact I.
  - discriminate.
  - apply (bool_decide_unpack
             (labels_total path3_from_centre (default_labels path3_from_centre))).
    vm_compute. exact I.
  - vm_compute. lia.
  - vm_compute. lia.
  - exact E1.
  - exact E2.
  - vm_compute in E1. vm_compute in E2. injection E1 as <- <-. injection E2 as <- <-.
    vm_compute. reflexivity.
  - exists f. split; [done|]. split; [done|]. exact Hf.
Defined.
(** ** [full_comparison] of two top-level instances *)

Lemma print_differing_rows_spec (self other : list (list Z)) (i : nat) :
  (i + length self ≤ length other)%nat →
  ∃ out, print_differing_rows self other i = Ok out ∧
    (∀ k, RowNumber k ∈ out ↔
       ∃ j r r', k = Z.of_nat (i + j) + 1 ∧ self !! j = Some r ∧
                 other !! (i + j)%nat = Some r' ∧ r ≠ r') ∧
    (∀ x, x ∈ out → (∃ k, x = RowNumber k) ∨ (∃ r, x = Row r) ∨ x = Text "---") ∧
    (out = [] ↔ ∀ j r r', self !! j = Some r → other !! (i + j)%nat = Some r' → r = r').
Proof.
  revert i. induction self as [|r self IH]; intros i Hlen.
  - exists []. split; [done|]. split; [|split].
    + intros k. split; [by intros ?%elem_of_nil|]. by intros [j [? [? [_ [? _]]]]].
    + by intros x ?%elem_of_nil.
    + split; [|done]. by intros _ j ? ? ?.
  - simpl in Hlen. cbn [print_differing_rows].
    destruct (lookup_lt_is_Some_2 other i) as [o Ho]; [lia|].
    unfold list_getitem at 1. rewrite Ho. cbn [mbind result_bind].
    destruct (IH (S i)) as [out [-> [Hnum [Hkind Hnil]]]]; [lia|]. cbn [mbind result_bind].
    eexists. split; [done|].
    assert (∀ k, (∃ j r0 r', k = Z.of_nat (i + j) + 1 ∧ (r :: self) !! j = Some r0 ∧
                   other !! (i + j)%nat = Some r' ∧ r0 ≠ r') ↔
                 (k = Z.of_nat i + 1 ∧ r ≠ o) ∨ RowNumber k ∈ out) as Hsplit.
    { intros k. rewrite Hnum. split.
      - intros [[|j] [r0 [r' [-> [Hr0 [Hr' Hne]]]]]].
        + left. simplify_eq/=. rewrite Nat.add_0_r in Hr'. rewrite Ho in Hr'.
          injection Hr' as <-. split; [f_equal; lia|done].
        + right. exists j, r0, r'. replace (S i + j)%nat with (i + S j)%nat by lia. done.
      - intros [[-> Hne]|[j [r0 [r' [-> [Hr0 [Hr' Hne]]]]]]].
        + exists O, r, o. rewrite Nat.add_0_r. done.
        + exists (S j), r0, r'. replace (i + S j)%nat with (S i + j)%nat by lia. done. }
    case_decide as Hne.
    + split; [|split].
      * intros k. rewrite Hsplit. rewrite elem_of_app. split.
        -- intros [Hk|Hk]; [|by right].
           left. repeat (apply elem_of_cons in Hk as [Hk|Hk]); try done.
           ++ injection Hk as ->. done.
           ++ by apply elem_of_nil in Hk.
        -- intros [[-> _]|Hk]; [left; left|by right].
      * intros x [Hx|Hx]%elem_of_app; [|by apply Hkind].
        repeat (apply elem_of_cons in Hx as [-> |Hx]); eauto. by apply elem_of_nil in Hx.
      * split; [done|]. intros Hall. exfalso. apply Hne.
        apply (Hall O r o); [done|]. by rewrite Nat.add_0_r.
    + subst o. split; [|split; [done|]].
      * intros k. rewrite Hsplit. split; [by right|]. by intros [[_ ?]|?].
      * rewrite Hnil. split.
        -- intros Hall [|j] r0 r' Hr0 Hr'.
           ++ simplify_eq/=. rewrite Nat.add_0_r, Ho in Hr'. by injection Hr'.
           ++ apply (Hall j); [done|]. by replace (S i + j)%nat with (i + S j)%nat by lia.
        -- intros Hall j r0 r' Hr0 Hr'. apply (Hall (S j)); [done|].
           by replace (i + S j)%nat with (S i + j)%nat by lia.
Qed.

Lemma cf_ltb_StrictTotal_on (a b : CanonicalForm) :
  cf_ltb a b = false → cf_ltb b a = false →
  ordered_labels a = ordered_labels b ∧ matrix a = matrix b.
Proof.
  unfold cf_ltb. intros H1 H2.
  destruct (st_total _ (prod_ltb_StrictTotal list_ltb matrix_ltb list_ltb_StrictTotal
                          matrix_ltb_StrictTotal)
              (ordered_labels a, matrix a) (ordered_labels b, matrix b))
    as [[= -> ->]|[?|?]]; [done|congruence..].
Qed.

(** What [full_comparison] returns and prints for two top-level instances,
    when [other.matrix] has a row for every row of [self.matrix] in case the
    labels are equal. *)
Lemma master_comparison_facts (ma mb : Nodewise) (a b : CanonicalForm) :
  (ordered_labels a = ordered_labels b → (length (matrix a) ≤ length (matrix b))%nat) →
  ∃ out,
    full_comparison (MasterInstance ma a) (MasterInstance mb b) =
      Ok (out, if cf_ltb a b then -1 else if cf_ltb b a then 1 else 0) ∧
    (∀ k, RowNumber k ∈ out ↔
       ordered_labels a = ordered_labels b ∧
       ∃ i r r', k = Z.of_nat i + 1 ∧ matrix a !! i = Some r ∧ matrix b !! i = Some r' ∧
                 r ≠ r') ∧
    (∀ x, x ∈ out → (∃ k, x = RowNumber k) ∨ (∃ r, x = Row r) ∨ x = Text "---") ∧
    (out = [] ↔
       ordered_labels a ≠ ordered_labels b ∨
       ∀ j r r', matrix a !! j = Some r → matrix b !! j = Some r' → r = r').
Proof.
  intros Hlen. unfold full_comparison, cf_ltb, prod_ltb. simpl.
  pose proof list_ltb_StrictTotal as [Hirr Htr Htot].
  pose proof matrix_ltb_StrictTotal as [Hirr' Htr' Htot'].
  destruct (decide (ordered_labels a = ordered_labels b)) as [Heq|Hne].
  - rewrite decide_True by done. rewrite Heq, Hirr.
    destruct (print_differing_rows_spec (matrix a) (matrix b) 0)
      as [out [Hout [Hnum [Hkind Hnil]]]]; [simpl; auto|].
    assert (∀ k, RowNumber k ∈ out ↔
              ordered_labels b = ordered_labels b ∧
              ∃ i r r', k = Z.of_nat i + 1 ∧ matrix a !! i = Some r ∧
                        matrix b !! i = Some r' ∧ r ≠ r') as Hnum'.
    { intros k. rewrite Hnum. simpl. split; [intros H; split; [done|exact H]|by intros [_ H]]. }
    assert (out = [] ↔
              ordered_labels b ≠ ordered_labels b ∨
              ∀ j r r', matrix a !! j = Some r → matrix b !! j = Some r' → r = r') as Hnil'.
    { rewrite Hnil. simpl. split; [by right|]. by intros [?|?]. }
    destruct (matrix_ltb (matrix a) (matrix b)) eqn:H3.
    { rewrite Hout. exists out. done. }
    destruct (matrix_ltb (matrix b) (matrix a)) eqn:H4.
    { rewrite Hout. exists out. done. }
    destruct (Htot' (matrix a) (matrix b)) as [Hm|[?|?]]; [|congruence..].
    exists []. split; [done|]. split; [|split; [by intros x ?%elem_of_nil|]].
    + intros k. split; [by intros ?%elem_of_nil|].
      intros [_ [i [r [r' [_ [Hr [Hr' Hrr]]]]]]]. exfalso.
      rewrite Hm, Hr' in Hr. congruence.
    + split; [|done]. intros _. right. intros j r r' Hr Hr'. rewrite Hm, Hr' in Hr.
      congruence.
  - rewrite decide_False by done.
    assert (∀ out : list output, out = [] →
              (∀ k, RowNumber k ∈ out ↔
                 ordered_labels a = ordered_labels b ∧
                 ∃ i r r', k = Z.of_nat i + 1 ∧ matrix a !! i = Some r ∧
                           matrix b !! i = Some r' ∧ r ≠ r') ∧
              (∀ x, x ∈ out → (∃ k, x = RowNumber k) ∨ (∃ r, x = Row r) ∨ x = Text "---") ∧
              (out = [] ↔
                 ordered_labels a ≠ ordered_labels b ∨
                 ∀ j r r', matrix a !! j = Some r → matrix b !! j = Some r' → r = r'))
      as Hempty.
    { intros out ->. split; [|split; [by intros x ?%elem_of_nil|]].
      - intros k. split; [by intros ?%elem_of_nil|]. by intros [? _].
      - split; [|done]. intros _. by left. }
    destruct (list_ltb (ordered_labels a) (ordered_labels b)) eqn:H1.
    { exists []. split; [done|]. by apply Hempty. }
    destruct (Htot (ordered_labels a) (ordered_labels b)) as [?|[?|H2]]; [done|congruence|].
    rewrite H2. exists []. split; [done|]. by apply Hempty.
Qed.
Lemma cf_wf_length (a b : CanonicalForm) :
  cf_wf a → cf_wf b → ordered_labels a = ordered_labels b →
  length (matrix a) = length (matrix b).
Proof. unfold cf_wf. intros -> -> ->. done. Qed.

Lemma cf_ltb_StrictTotal : StrictTotal (λ x y : list Z * list (list Z),
                                          prod_ltb list_ltb matrix_ltb x y).
Proof. apply prod_ltb_StrictTotal; [apply list_ltb_StrictTotal|apply matrix_ltb_StrictTotal]. Qed.

Lemma cf_ltb_asym (a b : CanonicalForm) : cf_ltb a b = true → cf_ltb b a = false.
Proof.
  unfold cf_ltb. intros H. destruct cf_ltb_StrictTotal as [Hirr Htr _].
  destruct (prod_ltb list_ltb matrix_ltb (ordered_labels b, matrix b) _) eqn:H'; [|done].
  pose proof (Htr _ _ _ H H') as Hc. by rewrite Hirr in Hc.
Qed.

Lemma cf_ltb_true (a b : CanonicalForm) :
  cf_ltb a b = true ↔
    list_ltb (ordered_labels a) (ordered_labels b) = true ∨
    (ordered_labels a = ordered_labels b ∧ matrix_ltb (matrix a) (matrix b) = true).
Proof.
  unfold cf_ltb, prod_ltb. simpl. case_decide as Heq.
  - rewrite Heq, (st_irrefl _ list_ltb_StrictTotal). split; [auto|]. by intros [?|[_ ?]].
  - split; [auto|]. by intros [?|[? _]].
Qed.

(** [full_comparison] of the canonical forms of two top-level instances does
    not raise; it returns -1, 0 or 1, and the opposite number when the two
    are exchanged; 0 exactly when [ordered_labels] and [matrix] are equal, -1
    exactly when the labels of the first are smaller or the labels are equal
    and its matrix is smaller. *)
Theorem full_comparison_canonical_forms (ma mb : Nodewise) (a b : CanonicalForm) :
  cf_wf a → cf_wf b →
  ∃ out out' c,
    full_comparison (MasterInstance ma a) (MasterInstance mb b) = Ok (out, c) ∧
    full_comparison (MasterInstance mb b) (MasterInstance ma a) = Ok (out', - c) ∧
    (c = -1 ∨ c = 0 ∨ c = 1) ∧
    (c = 0 ↔ ordered_labels a = ordered_labels b ∧ matrix a = matrix b) ∧
    (c = -1 ↔
       list_ltb (ordered_labels a) (ordered_labels b) = true ∨
       (ordered_labels a = ordered_labels b ∧ matrix_ltb (matrix a) (matrix b) = true)).
Proof.
  intros Ha Hb.
  destruct (master_comparison_facts ma mb a b) as [out [Hab _]].
  { intros Heq. by rewrite (cf_wf_length a b). }
  destruct (master_comparison_facts mb ma b a) as [out' [Hba _]].
  { intros Heq. by rewrite (cf_wf_length b a). }
  exists out, out'. eexists. split; [exact Hab|]. rewrite Hba.
  destruct (cf_ltb a b) eqn:H1.
  - rewrite (cf_ltb_asym a b H1). split; [done|]. split; [auto|]. split.
    + split; [done|]. intros [H2 H3]. unfold cf_ltb in H1. rewrite H2, H3 in H1.
      by rewrite (st_irrefl _ cf_ltb_StrictTotal) in H1.
    + split; [intros _; by apply cf_ltb_true|done].
  - destruct (cf_ltb b a) eqn:H2.
    + split; [done|]. split; [auto|]. split.
      * split; [done|]. intros [H3 H4]. unfold cf_ltb in H2. rewrite H3, H4 in H2.
        by rewrite (st_irrefl _ cf_ltb_StrictTotal) in H2.
      * split; [done|]. intros H3%cf_ltb_true. congruence.
    + split; [done|]. split; [auto|]. split.
      * split; [intros _; by apply cf_ltb_StrictTotal_on|done].
      * split; [done|]. intros H3%cf_ltb_true. congruence.
Qed.

Lemma full_comparison_canonical_forms_witness :
  ∃ out out' c,
    full_comparison (MasterInstance some_nodewise path3_form)
      (MasterInstance some_nodewise edge12_and_0_form) = Ok (out, c) ∧
    full_comparison (MasterInstance some_nodewise edge12_and_0_form)
      (MasterInstance some_nodewise path3_form) = Ok (out', - c) ∧
    (c = -1 ∨ c = 0 ∨ c = 1) ∧
    (c = 0 ↔ ordered_labels path3_form = ordered_labels edge12_and_0_form ∧
             matrix path3_form = matrix edge12_and_0_form) ∧
    (c = -1 ↔
       list_ltb (ordered_labels path3_form) (ordered_labels edge12_and_0_form) = true ∨
       (ordered_labels path3_form = ordered_labels edge12_and_0_form ∧
        matrix_ltb (matrix path3_form) (matrix edge12_and_0_form) = true)).
Proof.
  apply (full_comparison_canonical_forms some_nodewise some_nodewise
           path3_form edge12_and_0_form); reflexivity.
Defined.


(** ** The rich comparisons *)

Lemma plain_ltb_asym (p q : Plain) : plain_ltb p q = true → plain_ltb q p = false.
Proof. apply StrictWeak_asym, plain_ltb_StrictWeak. Qed.

Lemma instance_ltb_asym (x y : Instance) : instance_ltb x y = true → instance_ltb y x = false.
Proof.
  destruct x as [p|s lp|m a], y as [q|s' lp'|m' b]; simpl; try done.
  - apply plain_ltb_asym.
  - apply cf_ltb_asym.
Qed.

(** What [full_comparison] returns for two comparable instances. *)
Lemma comparison_facts (x y : Instance) :
  comparable x → comparable y →
  ∃ out, full_comparison x y =
           Ok (out, if instance_ltb x y then -1 else if instance_ltb y x then 1 else 0).
Proof.
  destruct x as [p|s lp|m a], y as [q|s' lp'|m' b]; simpl; try done; intros Hx Hy.
  - unfold full_comparison. simpl. rewrite (plain_full_comparison_spec p q Hx Hy).
    by eexists.
  - by eexists.
  - by eexists.
  - destruct (master_comparison_facts m m' a b) as [out [Hab _]].
    { intros Heq. by rewrite (cf_wf_length a b). }
    by exists out.
Qed.

(** [<], [==], [>], [<=] and [>=] on comparable instances never raise and
    agree with each other: exactly one of [x < y], [x == y] and [x > y]
    holds, [x <= y] is the negation of [x > y], [x >= y] that of [x < y], and
    [y > x] says what [x < y] says. *)
Theorem rich_comparisons_agree (x y : Instance) :
  comparable x → comparable y →
  ∃ lt eq gt : bool,
    instance_lt x y = Ok lt ∧ instance_eq x y = Ok eq ∧ instance_gt x y = Ok gt ∧
    instance_le x y = Ok (negb gt) ∧ instance_ge x y = Ok (negb lt) ∧
    instance_gt y x = Ok lt ∧ instance_eq y x = Ok eq ∧ instance_lt y x = Ok gt ∧
    ((lt = true ∧ eq = false ∧ gt = false) ∨
     (lt = false ∧ eq = true ∧ gt = false) ∨
     (lt = false ∧ eq = false ∧ gt = true)).
Proof.
  intros Hx Hy.
  destruct (comparison_facts x y Hx Hy) as [out Hxy].
  destruct (comparison_facts y x Hy Hx) as [out' Hyx].
  unfold instance_lt, instance_eq, instance_gt, instance_le, instance_ge.
  rewrite Hxy, Hyx. cbn [mbind result_bind snd].
  destruct (instance_ltb x y) eqn:H1.
  - rewrite (instance_ltb_asym x y H1).
    exists true, false, false. repeat split; try done. auto.
  - destruct (instance_ltb y x) eqn:H2.
    + exists false, false, true. repeat split; try done. auto.
    + exists false, true, false. repeat split; try done. auto.
Qed.

Lemma rich_comparisons_agree_witness :
  ∃ lt eq gt : bool,
    instance_lt (PlainInstance some_plain) (MasterInstance some_nodewise path3_form) = Ok lt ∧
    instance_eq (PlainInstance some_plain) (MasterInstance some_nodewise path3_form) = Ok eq ∧
    instance_gt (PlainInstance some_plain) (MasterInstance some_nodewise path3_form) = Ok gt ∧
    instance_le (PlainInstance some_plain) (MasterInstance some_nodewise path3_form) =
      Ok (negb gt) ∧
    instance_ge (PlainInstance some_plain) (MasterInstance some_nodewise path3_form) =
      Ok (negb lt) ∧
    instance_gt (MasterInstance some_nodewise path3_form) (PlainInstance some_plain) = Ok lt ∧
    instance_eq (MasterInstance some_nodewise path3_form) (PlainInstance some_plain) = Ok eq ∧
    instance_lt (MasterInstance some_nodewise path3_form) (PlainInstance some_plain) = Ok gt ∧
    ((lt = true ∧ eq = false ∧ gt = false) ∨
     (lt = false ∧ eq = true ∧ gt = false) ∨
     (lt = false ∧ eq = false ∧ gt = true)).
Proof.
  apply (rich_comparisons_agree (PlainInstance some_plain)
           (MasterInstance some_nodewise path3_form)).
  - vm_compute. reflexivity.
  - reflexivity.
Defined.

Lemma instance_lt_true (x y : Instance) :
  comparable x → comparable y →
  instance_lt x y = Ok true ↔ instance_ltb x y = true.
Proof.
  intros Hx Hy. destruct (comparison_facts x y Hx Hy) as [out Hxy].
  unfold instance_lt. rewrite Hxy. cbn [mbind result_bind snd].
  destruct (instance_ltb x y); [done|]. destruct (instance_ltb y x); done.
Qed.

Lemma instance_eq_true (x y : Instance) :
  comparable x → comparable y →
  instance_eq x y = Ok true ↔ instance_ltb x y = false ∧ instance_ltb y x = false.
Proof.
  intros Hx Hy. destruct (comparison_facts x y Hx Hy) as [out Hxy].
  unfold instance_eq. rewrite Hxy. cbn [mbind result_bind snd].
  destruct (instance_ltb x y); [split; [done|by intros [? _]]|].
  destruct (instance_ltb y x); [split; [done|by intros [_ ?]]|]. done.
Qed.

Lemma cf_ltb_StrictWeak : StrictWeak cf_ltb.
Proof.
  apply (StrictWeak_proj (λ cf, (ordered_labels cf, matrix cf))
           (λ x y, prod_ltb list_ltb matrix_ltb x y)).
  apply StrictTotal_weak, cf_ltb_StrictTotal.
Qed.

Lemma instance_ltb_trans (x y z : Instance) :
  instance_ltb x y = true → instance_ltb y z = true → instance_ltb x z = true.
Proof.
  pose proof plain_ltb_StrictWeak as [_ Pt _]. pose proof cf_ltb_StrictWeak as [_ Ct _].
  destruct x as [p|s lp|m a], y as [q|s' lp'|m' b], z as [r|s'' lp''|m'' c];
    simpl; try done; [apply Pt|apply Ct].
Qed.

Lemma instance_ltb_negtrans (x y z : Instance) :
  comparable y →
  instance_ltb x y = false → instance_ltb y z = false → instance_ltb x z = false.
Proof.
  pose proof plain_ltb_StrictWeak as [_ _ Pn]. pose proof cf_ltb_StrictWeak as [_ _ Cn].
  destruct x as [p|s lp|m a], y as [q|s' lp'|m' b], z as [r|s'' lp''|m'' c];
    simpl; try done; intros _; [apply Pn|apply Cn].
Qed.

(** The comparisons order the comparable instances as a sort needs it: [<]
    is transitive, [==] is transitive, and an instance that is [==] to one
    below (or above) another is itself below (or above) it. *)
Theorem rich_comparisons_transitive (x y z : Instance) :
  comparable x → comparable y → comparable z →
  (instance_lt x y = Ok true → instance_lt y z = Ok true → instance_lt x z = Ok true) ∧
  (instance_eq x y = Ok true → instance_eq y z = Ok true → instance_eq x z = Ok true) ∧
  (instance_eq x y = Ok true → instance_lt y z = Ok true → instance_lt x z = Ok true) ∧
  (instance_lt x y = Ok true → instance_eq y z = Ok true → instance_lt x z = Ok true).
Proof.
  intros Hx Hy Hz.
  rewrite !instance_lt_true, !instance_eq_true by done.
  split; [|split; [|split]].
  - apply instance_ltb_trans.
  - intros [H1 H2] [H3 H4].
    split; [by apply (instance_ltb_negtrans x y z)|by apply (instance_ltb_negtrans z y x)].
  - intros [H1 H2] H3. destruct (instance_ltb x z) eqn:H4; [done|].
    rewrite <- H3. symmetry. by apply (instance_ltb_negtrans y x z).
  - intros H1 [H2 H3]. destruct (instance_ltb x z) eqn:H4; [done|].
    rewrite <- H1. symmetry. by apply (instance_ltb_negtrans x z y).
Qed.

Lemma rich_comparisons_transitive_witness :
  (instance_lt (PlainInstance some_plain) (MasterInstance some_nodewise edge12_and_0_form) =
     Ok true →
   instance_lt (MasterInstance some_nodewise edge12_and_0_form)
     (MasterInstance some_nodewise path3_form) = Ok true →
   instance_lt (PlainInstance some_plain) (MasterInstance some_nodewise path3_form) =
     Ok true) ∧
  (instance_eq (PlainInstance some_plain) (MasterInstance some_nodewise edge12_and_0_form) =
     Ok true →
   instance_eq (MasterInstance some_nodewise edge12_and_0_form)
     (MasterInstance some_nodewise path3_form) = Ok true →
   instance_eq (PlainInstance some_plain) (MasterInstance some_nodewise path3_form) =
     Ok true) ∧
  (instance_eq (PlainInstance some_plain) (MasterInstance some_nodewise edge12_and_0_form) =
     Ok true →
   instance_lt (MasterInstance some_nodewise edge12_and_0_form)
     (MasterInstance some_nodewise path3_form) = Ok true →
   instance_lt (PlainInstance some_plain) (MasterInstance some_nodewise path3_form) =
     Ok true) ∧
  (instance_lt (PlainInstance some_plain) (MasterInstance some_nodewise edge12_and_0_form) =
     Ok true →
   instance_eq (MasterInstance some_nodewise edge12_and_0_form)
     (MasterInstance some_nodewise path3_form) = Ok true →
   instance_lt (PlainInstance some_plain) (MasterInstance some_nodewise path3_form) =
     Ok true).
Proof.
  apply (rich_comparisons_transitive (PlainInstance some_plain)
           (MasterInstance some_nodewise edge12_and_0_form)
           (MasterInstance some_nodewise path3_form)).
  - vm_compute. reflexivity.
  - reflexivity.
  - reflexivity.
Defined.
(** ** What a plain instance computes *)

Lemma ascending_NoDup {A} (ltb : A → A → bool) (l : list A) :
  StrictWeak ltb → ascending ltb l → NoDup l.
Proof.
  intros [Hirr _ _]. induction 1 as [|x l Hl IH Hx]; constructor; [|done].
  intros Hin. rewrite Forall_forall in Hx. specialize (Hx x Hin). by rewrite Hirr in Hx.
Qed.

Lemma ascending_unique {A} (ltb : A → A → bool) (l1 l2 : list A) :
  StrictWeak ltb → ascending ltb l1 → ascending ltb l2 →
  (∀ x, x ∈ l1 ↔ x ∈ l2) → l1 = l2.
Proof.
  intros Hsw H1 H2 Hel.
  apply (StronglySorted_unique_strong (λ a b, ltb a b = true)); [|done|done|].
  - intros x y _ _ Hxy Hyx. pose proof (StrictWeak_asym ltb x y Hsw Hxy). congruence.
  - apply NoDup_Permutation; [by eapply ascending_NoDup..|done].
Qed.

(** One round of a plain instance: the new label of a node is the index of
    its key among the keys of all nodes, in ascending order and without
    repetition. *)
Lemma plain_round_full (nodes : list Z) (nbrs : gmap Z (list Z)) (internal : gmap Z Z) :
  NoDup nodes → neighbors_closed nodes nbrs → dom_is nodes internal →
  ∃ ids new defs b,
    plain_get_new_ids_in_order nodes nbrs internal = Ok ids ∧
    assign_new_labels_for_sorted_ids plain_key_ne ids = Ok (new, defs) ∧
    are_new_labels_effectively_the_same nodes internal new = Ok b ∧
    dom_is nodes new ∧
    ascending plain_key_ltb defs ∧
    (∀ d, d ∈ defs ↔ ∃ n, n ∈ nodes ∧ d = plain_key_of nbrs internal n) ∧
    (∀ n, n ∈ nodes →
       ∃ l, new !! n = Some (Z.of_nat l) ∧ defs !! l = Some (plain_key_of nbrs internal n)) ∧
    (b = true ↔ same_partition nodes internal new) ∧
    (b = false → (distinct_labels internal < distinct_labels new)%nat).
Proof.
  intros Hnd Hc Hd.
  destruct (plain_round nodes nbrs internal Hnd Hc Hd)
    as [ids [new [defs [b [Hids [Ha [Hb [Hdn [_ [_ [Hiff [_ Hf]]]]]]]]]]]].
  exists ids, new, defs, b. split; [done|]. split; [done|]. split; [done|]. split; [done|].
  destruct (plain_get_new_ids_in_order_spec nodes nbrs internal Hc Hd)
    as [ids' [Hids' [Hp Hs]]].
  rewrite Hids in Hids'. injection Hids' as <-.
  destruct (ids_of_nodes nodes (plain_key_of nbrs internal) ids Hp) as [Hfst Hin].
  destruct (assign_new_labels_facts plain_key_ne plain_key_ltb ids
              (StrictTotal_weak _ plain_key_ltb_StrictTotal))
    as [new' [defs' [Ha' [_ [_ [Hkey [_ [_ [Hasc Hfrom]]]]]]]]].
  { by rewrite Hfst. }
  { done. }
  { apply plain_key_ne_agrees. }
  rewrite Ha in Ha'. injection Ha' as <- <-.
  assert (∀ n, n ∈ nodes →
            ∃ l, new !! n = Some (Z.of_nat l) ∧
                 defs !! l = Some (plain_key_of nbrs internal n)) as Hlab.
  { intros n Hn. destruct (Hkey n (plain_key_of nbrs internal n)) as [l [d [Hl [Hdl Heq]]]].
    { by apply Hin. }
    apply key_equiv_eq in Heq; [|apply plain_key_ltb_StrictTotal]. subst d. eauto. }
  split; [done|]. split; [|done].
  intros d. split.
  - intros Hdin. apply Hfrom in Hdin. apply list_elem_of_fmap in Hdin as [[n k] [-> Hnk]].
    apply Hin in Hnk as [Hn ->]. eauto.
  - intros [n [Hn ->]]. destruct (Hlab n Hn) as [l [_ Hl]]. by eapply list_elem_of_lookup_2.
Qed.

Lemma round_labels_compare (nodes : list Z) (key : Z → plain_key) (new : gmap Z Z)
    (defs : list plain_key) :
  ascending plain_key_ltb defs →
  (∀ n, n ∈ nodes → ∃ l, new !! n = Some (Z.of_nat l) ∧ defs !! l = Some (key n)) →
  ∀ n m, n ∈ nodes → m ∈ nodes →
    (new !! n = new !! m ↔ key n = key m) ∧
    (label_of new n < label_of new m ↔ plain_key_ltb (key n) (key m) = true).
Proof.
  intros Hasc Hlab n m Hn Hm.
  pose proof (StrictTotal_weak _ plain_key_ltb_StrictTotal) as Hsw.
  destruct (Hlab n Hn) as [l [Hl Hdl]]. destruct (Hlab m Hm) as [l' [Hl' Hdl']].
  rewrite Hl, Hl', (label_of_Some _ _ _ Hl), (label_of_Some _ _ _ Hl'). split.
  - split.
    + intros [= Heq]. apply Nat2Z.inj in Heq. subst l'. congruence.
    + intros Heq. rewrite Heq in Hdl.
      assert (l = l') as ->; [|done].
      apply (ascending_lookup_equiv plain_key_ltb defs l l' _ _ Hasc Hdl Hdl').
      by apply key_equiv_refl.
  - split.
    + intros Hlt. apply (ascending_lookup_lt plain_key_ltb defs l l'); [done..|lia].
    + intros Hlt. destruct (decide (l < l')%nat) as [?|Hge]; [lia|]. exfalso.
      destruct (decide (l = l')) as [-> |Hne].
      * rewrite Hdl in Hdl'. injection Hdl' as Heq. rewrite Heq in Hlt.
        by rewrite (st_irrefl _ plain_key_ltb_StrictTotal) in Hlt.
      * assert (plain_key_ltb (key m) (key n) = true) as Hgt
          by (apply (ascending_lookup_lt plain_key_ltb defs l' l); [done..|lia]).
        pose proof (StrictWeak_asym plain_key_ltb _ _ Hsw Hlt). congruence.
Qed.

Lemma plain_key_ltb_label (a b : plain_key) : a.1 < b.1 → plain_key_ltb a b = true.
Proof.
  intros Hlt. unfold plain_key_ltb. rewrite decide_False by lia.
  by apply bool_decide_eq_true.
Qed.

(** The labels a plain instance ends with, whatever labels it starts from. *)
Lemma plain_loop_result (nodes : list Z) (nbrs : gmap Z (list Z)) :
  NoDup nodes → neighbors_closed nodes nbrs →
  ∀ fuel internal counter,
    dom_is nodes internal →
    (length nodes - distinct_labels internal < fuel)%nat →
    ∃ internal' defs counter',
      plain_loop fuel nodes nbrs internal counter = Ok (internal', defs, counter') ∧
      dom_is nodes internal' ∧
      refines nodes internal internal' ∧
      (∀ n m, n ∈ nodes → m ∈ nodes →
         label_of internal n < label_of internal m →
         label_of internal' n < label_of internal' m) ∧
      (∀ n m, n ∈ nodes → m ∈ nodes →
         (internal' !! n = internal' !! m ↔
          plain_key_of nbrs internal' n = plain_key_of nbrs internal' m)) ∧
      ascending plain_key_ltb defs ∧
      (∀ d, d ∈ defs ↔ ∃ n, n ∈ nodes ∧ d = plain_key_of nbrs internal' n).
Proof.
  intros Hnd Hc fuel. induction fuel as [|fuel IH]; intros internal counter Hd Hfuel; [lia|].
  destruct (plain_round_full nodes nbrs internal Hnd Hc Hd)
    as [ids [new [defs [b [Hids [Ha [Hb [Hdn [Hasc [Hdefs [Hlab [Hiff Hf]]]]]]]]]]]].
  pose proof (round_labels_compare nodes (plain_key_of nbrs internal) new defs Hasc Hlab)
    as Hcmp.
  simpl. rewrite Hids. simpl. rewrite Ha. simpl. rewrite Hb. simpl.
  destruct b.
  - exists internal, defs, counter. split; [done|]. split; [done|].
    split; [by intros n m _ _|]. split; [by intros n m _ _|]. split; [|done].
    pose proof (proj1 Hiff eq_refl) as Hsame.
    intros n m Hn Hm. rewrite (Hsame n m Hn Hm). by apply Hcmp.
  - specialize (Hf eq_refl).
    pose proof (distinct_labels_le nodes new Hnd Hdn) as Hle.
    destruct (IH new (S counter) Hdn) as [i' [d' [c' [Hres [Hd' [Href [Hord [Hst Hds]]]]]]]];
      [lia|].
    exists i', d', c'. split; [done|]. split; [done|]. split; [|split; [|done]].
    + intros n m Hn Hm Heq. apply Href in Heq; [|done..].
      apply (Hcmp n m Hn Hm) in Heq.
      rewrite (dom_is_lookup nodes internal n), (dom_is_lookup nodes internal m) by done.
      unfold plain_key_of in Heq. by injection Heq as -> _.
    + intros n m Hn Hm Hlt. apply Hord; [done..|]. apply Hcmp; [done..|].
      by apply plain_key_ltb_label.
Qed.
Lemma mapping_to_neighbors_of_lookup (G : Graph) (d : gmap Z (list Z)) :
  mapping_to_neighbors_of G (nodes_of G) = Ok d →
  ∀ n, n ∈ nodes_of G → d !! n = adj_lookup G n.
Proof.
  intros Hd n Hn. destruct (mapping_fold_spec G (nodes_of G) ∅) as [d' [Hd' Hl]]; [done|].
  unfold mapping_to_neighbors_of in Hd. rewrite Hd in Hd'. injection Hd' as <-.
  rewrite Hl. by rewrite decide_True.
Qed.

Lemma label_pairings_of_sorted (nodes : list Z) (internal external : gmap Z Z) :
  dom_is nodes internal → (∀ n, n ∈ nodes → is_Some (external !! n)) →
  ∃ ps, label_pairings_of nodes internal external = Ok ps ∧
    ps ≡ₚ (λ n, (label_of internal n, label_of external n)) <$> nodes ∧
    StronglySorted (not_after pair_ltb) ps.
Proof.
  intros Hd He. unfold label_pairings_of.
  rewrite (mapR_Ok _ (λ n, (label_of internal n, label_of external n))).
  - cbn [mbind result_bind].
    destruct (py_sort_spec (λ x y : Z * Z, Ok (pair_ltb x y)) pair_ltb
                (StrictTotal_weak _ pair_ltb_StrictTotal)
                ((λ n, (label_of internal n, label_of external n)) <$> nodes))
      as [s [-> [Hp Hs]]]; [done|].
    by exists s.
  - intros n Hn. rewrite (getitem_Some _ _ _ (dom_is_lookup nodes internal n Hd Hn)).
    cbn [mbind result_bind]. destruct (He n Hn) as [e Hext].
    rewrite (getitem_Some _ _ _ Hext). cbn [mbind result_bind].
    by rewrite (label_of_Some _ _ _ Hext).
Qed.

(** What the constructor of a plain instance leaves in the instance. *)
Lemma plain_instance_facts (fuel : nat) (G : Graph) (L : gmap Z Z) :
  graph_wf G → G ≠ [] → labels_total G L → (length (nodes_of G) ≤ fuel)%nat →
  ∃ p,
    plain_instance fuel G L = Ok p ∧
    p_nodes p = nodes_of G ∧
    dom_is (nodes_of G) (p_internal_labels p) ∧
    plain_valid p ∧
    (∀ n m, n ∈ nodes_of G → m ∈ nodes_of G →
       p_internal_labels p !! n = p_internal_labels p !! m → L !! n = L !! m) ∧
    (∀ n m, n ∈ nodes_of G → m ∈ nodes_of G →
       label_of L n < label_of L m →
       label_of (p_internal_labels p) n < label_of (p_internal_labels p) m) ∧
    (∀ n m, n ∈ nodes_of G → m ∈ nodes_of G →
       (p_internal_labels p !! n = p_internal_labels p !! m ↔
        (label_of (p_internal_labels p) n, sort_Z (neighbour_labels G (p_internal_labels p) n))
        = (label_of (p_internal_labels p) m,
           sort_Z (neighbour_labels G (p_internal_labels p) m)))) ∧
    ascending plain_key_ltb (p_label_definitions p) ∧
    (∀ d, d ∈ p_label_definitions p ↔
       ∃ n, n ∈ nodes_of G ∧
         d = (label_of (p_internal_labels p) n,
              sort_Z (neighbour_labels G (p_internal_labels p) n))) ∧
    p_label_pairings p ≡ₚ
      (λ n, (label_of (p_internal_labels p) n, label_of L n)) <$> nodes_of G ∧
    StronglySorted (not_after pair_ltb) (p_label_pairings p).
Proof.
  intros Hwf Hne HL Hfuel. pose proof (graph_wf_closed G Hwf) as Hc.
  pose proof (proj1 Hwf) as Hnd. rewrite labels_total_elim in HL.
  destruct (plain_instance_Ok fuel G L Hnd Hc Hne HL Hfuel) as [p [Hp [Hnodes [Hdom [Hv _]]]]].
  exists p. split; [done|]. split; [done|]. split; [done|]. split; [done|].
  unfold plain_instance in Hp.
  apply bind_Ok in Hp as [nbrs [Hnbrs Hp]].
  apply bind_Ok in Hp as [int0 [Hint0 Hp]].
  apply bind_Ok in Hp as [ext [_ Hp]].
  apply bind_Ok in Hp as [H [_ Hp]].
  apply bind_Ok in Hp as [[[int defs] c] [Hloop Hp]].
  apply bind_Ok in Hp as [ps [Hps Hp]]. injection Hp as <-. simpl in *.
  destruct (dict_comprehension_getitem L (nodes_of G) HL) as [int0' [Hint0' [Hd0 Hl0]]].
  rewrite Hint0 in Hint0'. injection Hint0' as <-.
  destruct (mapping_to_neighbors_of_spec G Hc) as [nbrs' [Hnbrs' Hnb]].
  rewrite Hnbrs in Hnbrs'. injection Hnbrs' as <-.
  pose proof (mapping_to_neighbors_of_lookup G nbrs Hnbrs) as Hadj.
  assert (0 < length (nodes_of G))%nat as Hlen0.
  { destruct (nodes_of G) eqn:E; [by apply nodes_of_nonempty in Hne|simpl; lia]. }
  pose proof (distinct_labels_pos (nodes_of G) int0 (nodes_of_nonempty G Hne) Hd0) as Hpos.
  destruct (plain_loop_result (nodes_of G) nbrs Hnd Hnb fuel int0 0%nat Hd0)
    as [int' [defs' [c' [Hloop' [_ [Href [Hord [Hst [Hasc Hdefs]]]]]]]]]; [lia|].
  rewrite Hloop in Hloop'. injection Hloop' as <- <- <-.
  assert (∀ n, n ∈ nodes_of G →
            plain_key_of nbrs int n = (label_of int n, sort_Z (neighbour_labels G int n)))
    as Hkey.
  { intros n Hn. unfold plain_key_of, neighbour_labels. by rewrite (Hadj n Hn). }
  assert (∀ n, n ∈ nodes_of G → label_of int0 n = label_of L n) as Hlab0.
  { intros n Hn. unfold label_of. by rewrite (Hl0 n Hn). }
  split; [|split; [|split; [|split; [done|split]]]].
  - intros n m Hn Hm Heq. rewrite <- (Hl0 n Hn), <- (Hl0 m Hm). by apply Href.
  - intros n m Hn Hm Hlt. apply Hord; [done..|]. by rewrite (Hlab0 n Hn), (Hlab0 m Hm).
  - intros n m Hn Hm. rewrite (Hst n m Hn Hm). by rewrite (Hkey n Hn), (Hkey m Hm).
  - intros d. rewrite Hdefs. split; intros [n [Hn ->]]; exists n; (split; [done|]);
      by rewrite (Hkey n Hn).
  - destruct (label_pairings_of_sorted (nodes_of G) int L Hdom HL) as [ps' [Hps' [Hperm Hs]]].
    rewrite Hps in Hps'. injection Hps' as <-. done.
Qed.
(** The labels a plain instance ends with are stable: two nodes with the
    same label have neighbours with the same labels, label by label and
    counted with multiplicity.  [label_definitions] lists, in ascending order
    and once each, the pairs of the label of a node and the sorted labels of
    its neighbours. *)
Theorem plain_instance_labels_are_stable (fuel : nat) (G : Graph) (L : gmap Z Z) :
  graph_wf G → G ≠ [] → labels_total G L → (length (nodes_of G) ≤ fuel)%nat →
  ∃ p,
    plain_instance fuel G L = Ok p ∧
    (∀ n m, n ∈ nodes_of G → m ∈ nodes_of G →
       p_internal_labels p !! n = p_internal_labels p !! m →
       neighbour_labels G (p_internal_labels p) n ≡ₚ
       neighbour_labels G (p_internal_labels p) m) ∧
    ascending plain_key_ltb (p_label_definitions p) ∧
    (∀ d, d ∈ p_label_definitions p ↔
       ∃ n, n ∈ nodes_of G ∧
         d = (label_of (p_internal_labels p) n,
              sort_Z (neighbour_labels G (p_internal_labels p) n))).
Proof.
  intros Hwf Hne HL Hfuel.
  destruct (plain_instance_facts fuel G L Hwf Hne HL Hfuel)
    as [p [Hp [_ [_ [_ [_ [_ [Hst [Hasc [Hdefs _]]]]]]]]]].
  exists p. split; [done|]. split; [|done].
  intros n m Hn Hm Heq. apply (Hst n m Hn Hm) in Heq. injection Heq as _ Hs.
  rewrite <- (proj1 (sort_Z_spec (neighbour_labels G (p_internal_labels p) n))), Hs.
  apply sort_Z_spec.
Qed.

Lemma plain_instance_labels_are_stable_witness :
  ∃ p,
    plain_instance 3 path3 (default_labels path3) = Ok p ∧
    (∀ n m, n ∈ nodes_of path3 → m ∈ nodes_of path3 →
       p_internal_labels p !! n = p_internal_labels p !! m →
       neighbour_labels path3 (p_internal_labels p) n ≡ₚ
       neighbour_labels path3 (p_internal_labels p) m) ∧
    ascending plain_key_ltb (p_label_definitions p) ∧
    (∀ d, d ∈ p_label_definitions p ↔
       ∃ n, n ∈ nodes_of path3 ∧
         d = (label_of (p_internal_labels p) n,
              sort_Z (neighbour_labels path3 (p_internal_labels p) n))).
Proof.
  apply (plain_instance_labels_are_stable 3 path3 (default_labels path3)).
  - apply (bool_decide_unpack (graph_wf path3)). vm_compute. exact I.
  - discriminate.
  - apply (bool_decide_unpack (labels_total path3 (default_labels path3))).
    vm_compute. exact I.
  - vm_compute. lia.
Defined.

(** The labels a plain instance ends with refine the labels it was given and
    keep their order: nodes with the same internal label have the same
    external label, and a node with a lower external label has a lower
    internal label.  [label_pairings] is the sorted list of the pairs of the
    internal and the external label of every node. *)
Theorem plain_instance_refines_external_labels (fuel : nat) (G : Graph) (L : gmap Z Z) :
  graph_wf G → G ≠ [] → labels_total G L → (length (nodes_of G) ≤ fuel)%nat →
  ∃ p,
    plain_instance fuel G L = Ok p ∧
    (∀ n, n ∈ nodes_of G → is_Some (p_internal_labels p !! n)) ∧
    (∀ n m, n ∈ nodes_of G → m ∈ nodes_of G →
       p_internal_labels p !! n = p_internal_labels p !! m → L !! n = L !! m) ∧
    (∀ n m, n ∈ nodes_of G → m ∈ nodes_of G →
       label_of L n < label_of L m →
       label_of (p_internal_labels p) n < label_of (p_internal_labels p) m) ∧
    p_label_pairings p ≡ₚ
      (λ n, (label_of (p_internal_labels p) n, label_of L n)) <$> nodes_of G ∧
    StronglySorted (λ a b, pair_ltb b a = false) (p_label_pairings p).
Proof.
  intros Hwf Hne HL Hfuel.
  destruct (plain_instance_facts fuel G L Hwf Hne HL Hfuel)
    as [p [Hp [_ [Hdom [_ [Href [Hord [_ [_ [_ [Hperm Hs]]]]]]]]]]].
  exists p. split; [done|]. split; [intros n Hn; by apply Hdom|]. done.
Qed.

Lemma plain_instance_refines_external_labels_witness :
  ∃ p,
    plain_instance 3 path3 (default_labels path3) = Ok p ∧
    (∀ n, n ∈ nodes_of path3 → is_Some (p_internal_labels p !! n)) ∧
    (∀ n m, n ∈ nodes_of path3 → m ∈ nodes_of path3 →
       p_internal_labels p !! n = p_internal_labels p !! m →
       default_labels path3 !! n = default_labels path3 !! m) ∧
    (∀ n m, n ∈ nodes_of path3 → m ∈ nodes_of path3 →
       label_of (default_labels path3) n < label_of (default_labels path3) m →
       label_of (p_internal_labels p) n < label_of (p_internal_labels p) m) ∧
    p_label_pairings p ≡ₚ
      (λ n, (label_of (p_internal_labels p) n, label_of (default_labels path3) n))
        <$> nodes_of path3 ∧
    StronglySorted (λ a b, pair_ltb b a = false) (p_label_pairings p).
Proof.
  apply (plain_instance_refines_external_labels 3 path3 (default_labels path3)).
  - apply (bool_decide_unpack (graph_wf path3)). vm_compute. exact I.
  - discriminate.
  - apply (bool_decide_unpack (labels_total path3 (default_labels path3))).
    vm_compute. exact I.
  - vm_compute. lia.
Defined.

(** The instances that the constructors build can be compared: a plain
    instance has one label definition for each of its internal labels, and
    the canonical form of a top-level instance one matrix row for each
    label. *)
Theorem constructed_instances_are_comparable (fuel : nat) (G : Graph) (L : gmap Z Z) :
  graph_wf G → G ≠ [] → labels_total G L →
  (length (nodes_of G) + length (edges_of G) ≤ fuel)%nat →
  ∃ p m cf,
    plain_instance fuel G L = Ok p ∧
    master_instance fuel G (Some L) = Ok (m, cf) ∧
    comparable (PlainInstance p) ∧
    comparable (MasterInstance m cf) ∧
    length (p_label_definitions p) = distinct_labels (p_internal_labels p) ∧
    length (matrix cf) = length (nodes_of G) ∧
    length (ordered_labels cf) = length (nodes_of G).
Proof.
  intros Hwf Hne HL Hfuel.
  assert (length (nodes_of G) ≤ fuel)%nat as Hfuel' by lia.
  destruct (plain_instance_facts fuel G L Hwf Hne HL Hfuel')
    as [p [Hp [_ [Hdom [Hv [_ [_ [_ [_ [_ [Hperm _]]]]]]]]]]].
  destruct (master_instance_Ok fuel G L Hwf Hne HL Hfuel)
    as [m [cf [Hm [_ [_ [Hord [Hlab Hmat]]]]]]].
  exists p, m, cf. split; [done|]. split; [done|].
  assert (length (matrix cf) = length (nodes_of G)) as H1
    by (by rewrite Hmat, length_matrix_rows, Hord).
  assert (length (ordered_labels cf) = length (nodes_of G)) as H2
    by (by rewrite Hlab, length_fmap, Hord).
  split; [done|]. split; [simpl; unfold cf_wf; congruence|]. split; [|done].
  unfold plain_valid in Hv. rewrite Hv.
  rewrite (distinct_labels_set_map (nodes_of G) _ Hdom). f_equal.
  apply set_eq. intros l. rewrite elem_of_list_to_set, elem_of_map.
  rewrite Hperm, <- list_fmap_compose, list_elem_of_fmap. simpl. split.
  - intros [n [-> Hn]]. exists n. split; [done|]. by apply elem_of_list_to_set.
  - intros [n [-> Hn]]. rewrite elem_of_list_to_set in Hn. eauto.
Qed.

Lemma constructed_instances_are_comparable_witness :
  ∃ p m cf,
    plain_instance 5 path3 (default_labels path3) = Ok p ∧
    master_instance 5 path3 (Some (default_labels path3)) = Ok (m, cf) ∧
    comparable (PlainInstance p) ∧
    comparable (MasterInstance m cf) ∧
    length (p_label_definitions p) = distinct_labels (p_internal_labels p) ∧
    length (matrix cf) = length (nodes_of path3) ∧
    length (ordered_labels cf) = length (nodes_of path3).
Proof.
  apply (constructed_instances_are_comparable 5 path3 (default_labels path3)).
  - apply (bool_decide_unpack (graph_wf path3)). vm_compute. exact I.
  - discriminate.
  - apply (bool_decide_unpack (labels_total path3 (default_labels path3))).
    vm_compute. exact I.
  - vm_compute. lia.
Defined.
(** ** Plain instances of isomorphic graphs *)

Lemma sort_Z_Permutation (l1 l2 : list Z) : l1 ≡ₚ l2 → sort_Z l1 = sort_Z l2.
Proof.
  intros Hp. destruct (sort_Z_spec l1) as [H1 S1]. destruct (sort_Z_spec l2) as [H2 S2].
  apply (StronglySorted_unique_strong Z.le); [|done|done|by rewrite H1, H2].
  intros x y _ _ Hxy Hyx. lia.
Qed.

Lemma NoDup_fmap_inj_on {A B} (f : A → B) (l : list A) :
  NoDup l → (∀ x y, x ∈ l → y ∈ l → f x = f y → x = y) → NoDup (f <$> l).
Proof.
  induction 1 as [|a l Ha Hl IH]; intros Hinj; csimpl; constructor.
  - intros [b [Heq Hb]]%list_elem_of_fmap.
    apply Hinj in Heq; [by subst|left|by right].
  - apply IH. intros x y Hx Hy. apply Hinj; by right.
Qed.

Lemma NoDup_fmap_inj_elem {A B} (f : A → B) (l : list A) (x y : A) :
  NoDup (f <$> l) → x ∈ l → y ∈ l → f x = f y → x = y.
Proof.
  intros Hnd [i Hi]%list_elem_of_lookup_1 [j Hj]%list_elem_of_lookup_1 Heq.
  assert (i = j) as ->; [|congruence].
  apply (NoDup_lookup (f <$> l) i j (f x) Hnd); rewrite list_lookup_fmap.
  - by rewrite Hi.
  - by rewrite Hj, Heq.
Qed.

Section plain_iso.
Context (G G' : Graph) (π : Z → Z).
Context (Hwf : graph_wf G) (Hwf' : graph_wf G').
Context (Hbij : π <$> nodes_of G ≡ₚ nodes_of G').
Context (Hedge : ∀ u v, u ∈ nodes_of G → v ∈ nodes_of G →
                   has_edge G' (π u) (π v) = has_edge G u v).

Lemma iso_inj (n m : Z) : n ∈ nodes_of G → m ∈ nodes_of G → π n = π m → n = m.
Proof.
  apply NoDup_fmap_inj_elem. rewrite Hbij. by destruct Hwf'.
Qed.

Lemma iso_nodes (n' : Z) : n' ∈ nodes_of G' ↔ ∃ n, n ∈ nodes_of G ∧ n' = π n.
Proof.
  rewrite <- Hbij, list_elem_of_fmap. split; intros [n [? ?]]; eauto.
Qed.

Lemma iso_neighbours (n : Z) :
  n ∈ nodes_of G →
  default [] (adj_lookup G' (π n)) ≡ₚ π <$> default [] (adj_lookup G n).
Proof.
  intros Hn. destruct (graph_wf_elim G Hwf) as [Hnd Hadj].
  destruct (graph_wf_elim G' Hwf') as [Hnd' Hadj'].
  destruct (proj1 (elem_of_nodes_of G n) Hn) as [ns Hns].
  assert (π n ∈ nodes_of G') as Hn' by (apply iso_nodes; eauto).
  destruct (proj1 (elem_of_nodes_of G' (π n)) Hn') as [ns' Hns'].
  rewrite Hns, Hns'. simpl.
  assert (∀ m, m ∈ ns → m ∈ nodes_of G) as Hsub.
  { intros m Hm. apply (graph_wf_closed G Hwf n m). apply has_edge_true. eauto. }
  apply NoDup_Permutation.
  - apply (Hadj' (π n) ns'). by apply adj_lookup_elem.
  - apply NoDup_fmap_inj_on.
    + apply (Hadj n ns). by apply adj_lookup_elem.
    + intros x y Hx Hy. apply iso_inj; by apply Hsub.
  - intros x. rewrite list_elem_of_fmap. split.
    + intros Hx.
      assert (has_edge G' (π n) x = true) as He by (apply has_edge_true; eauto).
      pose proof (graph_wf_closed G' Hwf' _ _ He) as Hx'.
      apply iso_nodes in Hx' as [m [Hm ->]]. exists m. split; [done|].
      rewrite (Hedge n m Hn Hm) in He. apply has_edge_true in He as [ns0 [Hns0 Hin]].
      congruence.
    + intros [m [-> Hm]].
      assert (has_edge G' (π n) (π m) = true) as He.
      { rewrite (Hedge n m Hn (Hsub m Hm)). apply has_edge_true. eauto. }
      apply has_edge_true in He as [ns0 [Hns0 Hin]]. congruence.
Qed.

Lemma iso_plain_key (nbrs nbrs' : gmap Z (list Z)) (internal internal' : gmap Z Z) (n : Z) :
  (∀ m, m ∈ nodes_of G → nbrs !! m = adj_lookup G m) →
  (∀ m, m ∈ nodes_of G' → nbrs' !! m = adj_lookup G' m) →
  labels_along π (nodes_of G) internal internal' →
  n ∈ nodes_of G →
  plain_key_of nbrs' internal' (π n) = plain_key_of nbrs internal n.
Proof.
  intros Hnb Hnb' Hl Hn. unfold plain_key_of.
  assert (π n ∈ nodes_of G') as Hn' by (apply iso_nodes; eauto).
  assert (∀ m, m ∈ nodes_of G → label_of internal' (π m) = label_of internal m) as Hlab.
  { intros m Hm. unfold label_of. by rewrite (Hl m Hm). }
  rewrite (Hnb n Hn), (Hnb' (π n) Hn'), (Hlab n Hn). f_equal.
  apply sort_Z_Permutation. rewrite (iso_neighbours n Hn), <- list_fmap_compose.
  assert ((label_of internal' ∘ π) <$> default [] (adj_lookup G n) =
          label_of internal <$> default [] (adj_lookup G n)) as ->; [|done].
  apply list_fmap_ext. intros i m Hm%list_elem_of_lookup_2. simpl. apply Hlab.
  destruct (proj1 (elem_of_nodes_of G n) Hn) as [ns Hns]. rewrite Hns in Hm. simpl in Hm.
  apply (graph_wf_closed G Hwf n m). apply has_edge_true. eauto.
Qed.

Lemma iso_same_partition (old new old' new' : gmap Z Z) :
  labels_along π (nodes_of G) old old' →
  labels_along π (nodes_of G) new new' →
  same_partition (nodes_of G) old new ↔ same_partition (nodes_of G') old' new'.
Proof.
  intros Ho Hn. split.
  - intros Hs n' m' [n [Hin ->]]%iso_nodes [m [Him ->]]%iso_nodes.
    rewrite !(Ho _ Hin), !(Ho _ Him), !(Hn _ Hin), !(Hn _ Him). by apply Hs.
  - intros Hs n m Hin Him.
    rewrite <- !(Ho _ Hin), <- !(Ho _ Him), <- !(Hn _ Hin), <- !(Hn _ Him).
    apply Hs; apply iso_nodes; eauto.
Qed.

(** The loops of the two instances run in step. *)
Lemma plain_loop_iso (nbrs nbrs' : gmap Z (list Z)) :
  (∀ m, m ∈ nodes_of G → nbrs !! m = adj_lookup G m) →
  (∀ m, m ∈ nodes_of G' → nbrs' !! m = adj_lookup G' m) →
  neighbors_closed (nodes_of G) nbrs → neighbors_closed (nodes_of G') nbrs' →
  ∀ fuel internal internal' counter final defs c,
    dom_is (nodes_of G) internal → dom_is (nodes_of G') internal' →
    labels_along π (nodes_of G) internal internal' →
    plain_loop fuel (nodes_of G) nbrs internal counter = Ok (final, defs, c) →
    ∃ final',
      plain_loop fuel (nodes_of G') nbrs' internal' counter = Ok (final', defs, c) ∧
      dom_is (nodes_of G) final ∧ dom_is (nodes_of G') final' ∧
      labels_along π (nodes_of G) final final'.
Proof.
  intros Hnb Hnb' Hc Hc'. pose proof (proj1 Hwf) as Hnd. pose proof (proj1 Hwf') as Hnd'.
  pose proof (StrictTotal_weak _ plain_key_ltb_StrictTotal) as Hsw.
  induction fuel as [|fuel IH]; intros internal internal' counter final defs c Hd Hd' Hl Hrun;
    [done|].
  destruct (plain_round_full (nodes_of G) nbrs internal Hnd Hc Hd)
    as [ids [new [ds [b [Hids [Ha [Hb [Hdn [Hasc [Hdefs [Hlab [Hiff _]]]]]]]]]]]].
  destruct (plain_round_full (nodes_of G') nbrs' internal' Hnd' Hc' Hd')
    as [ids' [new' [ds' [b' [Hids' [Ha' [Hb' [Hdn' [Hasc' [Hdefs' [Hlab' [Hiff' _]]]]]]]]]]]].
  assert (ds' = ds) as ->.
  { apply (ascending_unique plain_key_ltb); [done..|].
    intros d. rewrite Hdefs, Hdefs'. split.
    - intros [n' [[n [Hn ->]]%iso_nodes ->]]. exists n. split; [done|].
      by apply iso_plain_key.
    - intros [n [Hn ->]]. exists (π n). split; [apply iso_nodes; eauto|].
      symmetry. by apply iso_plain_key. }
  assert (labels_along π (nodes_of G) new new') as Hnew.
  { intros n Hn. destruct (Hlab n Hn) as [l [Hl1 Hl2]].
    destruct (Hlab' (π n)) as [l' [Hl1' Hl2']]; [apply iso_nodes; eauto|].
    rewrite (iso_plain_key nbrs nbrs' internal internal' n Hnb Hnb' Hl Hn) in Hl2'.
    assert (l' = l) as ->; [|congruence].
    apply (ascending_lookup_equiv plain_key_ltb ds l' l _ _ Hasc Hl2' Hl2).
    by apply key_equiv_refl. }
  assert (b' = b) as ->.
  { apply eq_true_iff_eq. rewrite Hiff, Hiff'. symmetry. by apply iso_same_partition. }
  simpl in Hrun. rewrite Hids in Hrun. simpl in Hrun. rewrite Ha in Hrun. simpl in Hrun.
  rewrite Hb in Hrun. simpl in Hrun.
  simpl. rewrite Hids'. simpl. rewrite Ha'. simpl. rewrite Hb'. simpl.
  destruct b.
  - injection Hrun as <- <- <-. exists internal'. done.
  - by apply (IH new new' (S counter)).
Qed.
End plain_iso.

(** Isomorphic graphs with the same labels along the isomorphism give plain
    instances that cannot be told apart, whatever the order in which the
    nodes and edges were inserted: the internal labels correspond along the
    isomorphism, [label_pairings], [label_definitions] and the number of
    rounds are equal, and [==] holds between the instances. *)
Theorem plain_instances_of_isomorphic_graphs (fuel : nat) (G G' : Graph) (L L' : gmap Z Z)
    (π : Z → Z) :
  graph_wf G → graph_wf G' → G ≠ [] → labels_total G L →
  isomorphism π G G' → labels_along π (nodes_of G) L L' →
  (length (nodes_of G) ≤ fuel)%nat →
  ∃ p p',
    plain_instance fuel G L = Ok p ∧
    plain_instance fuel G' L' = Ok p' ∧
    labels_along π (nodes_of G) (p_internal_labels p) (p_internal_labels p') ∧
    p_label_pairings p' = p_label_pairings p ∧
    p_label_definitions p' = p_label_definitions p ∧
    p_counter p' = p_counter p ∧
    instance_eq (PlainInstance p) (PlainInstance p') = Ok true.
Proof.
  intros Hwf Hwf' Hne HL [Hbij Hedge] Hlab Hfuel.
  assert (G' ≠ []) as Hne'.
  { intros ->. apply nodes_of_nonempty in Hne. simpl in Hbij.
    apply Permutation_nil_r in Hbij. apply fmap_nil_inv in Hbij. done. }
  assert (labels_total G' L') as HL'.
  { apply labels_total_elim. intros n' [n [Hn ->]]%(iso_nodes G G' π Hbij).
    rewrite (Hlab n Hn). by apply (proj1 (labels_total_elim G L) HL). }
  assert (length (nodes_of G') ≤ fuel)%nat as Hfuel'.
  { by rewrite <- Hbij, length_fmap. }
  destruct (plain_instance_facts fuel G L Hwf Hne HL Hfuel)
    as [p [Hp [_ [Hdom [Hv [_ [_ [_ [_ [_ [Hperm Hs]]]]]]]]]]].
  destruct (plain_instance_facts fuel G' L' Hwf' Hne' HL' Hfuel')
    as [p' [Hp' [_ [Hdom' [Hv' [_ [_ [_ [_ [_ [Hperm' Hs']]]]]]]]]]].
  exists p, p'. split; [done|]. split; [done|].
  (* the two loops *)
  pose proof Hp as Hrun. unfold plain_instance in Hrun.
  apply bind_Ok in Hrun as [nbrs [Hnbrs Hrun]].
  apply bind_Ok in Hrun as [int0 [Hint0 Hrun]].
  apply bind_Ok in Hrun as [ext [_ Hrun]].
  apply bind_Ok in Hrun as [H [_ Hrun]].
  apply bind_Ok in Hrun as [[[int defs] c] [Hloop Hrun]].
  apply bind_Ok in Hrun as [ps [_ Hrun]]. injection Hrun as Hpeq.
  pose proof Hp' as Hrun'. unfold plain_instance in Hrun'.
  apply bind_Ok in Hrun' as [nbrs' [Hnbrs' Hrun']].
  apply bind_Ok in Hrun' as [int0' [Hint0' Hrun']].
  apply bind_Ok in Hrun' as [ext' [_ Hrun']].
  apply bind_Ok in Hrun' as [H' [_ Hrun']].
  apply bind_Ok in Hrun' as [[[int' defs'] c'] [Hloop' Hrun']].
  apply bind_Ok in Hrun' as [ps' [_ Hrun']]. injection Hrun' as Hpeq'.
  rewrite labels_total_elim in HL, HL'.
  destruct (dict_comprehension_getitem L (nodes_of G) HL) as [d [Hd [Hd0 Hl0]]].
  rewrite Hint0 in Hd. injection Hd as <-.
  destruct (dict_comprehension_getitem L' (nodes_of G') HL') as [d' [Hd' [Hd0' Hl0']]].
  rewrite Hint0' in Hd'. injection Hd' as <-.
  destruct (mapping_to_neighbors_of_spec G (graph_wf_closed G Hwf)) as [m [Hm Hc]].
  rewrite Hnbrs in Hm. injection Hm as <-.
  destruct (mapping_to_neighbors_of_spec G' (graph_wf_closed G' Hwf')) as [m' [Hm' Hc']].
  rewrite Hnbrs' in Hm'. injection Hm' as <-.
  destruct (plain_loop_iso G G' π Hwf Hwf' Hbij Hedge nbrs nbrs'
              (mapping_to_neighbors_of_lookup G nbrs Hnbrs)
              (mapping_to_neighbors_of_lookup G' nbrs' Hnbrs') Hc Hc'
              fuel int0 int0' 0%nat int defs c Hd0 Hd0')
    as [final' [Hloop'' [_ [_ Hfinal]]]]; [|done|].
  { intros n Hn. rewrite Hl0 by done. rewrite Hl0'; [by apply Hlab|].
    apply (iso_nodes G G' π Hbij). eauto. }
  rewrite Hloop' in Hloop''. injection Hloop'' as <- <- <-.
  subst p p'. simpl in *.
  assert (ps' = ps) as ->.
  { apply (StronglySorted_unique_strong (not_after pair_ltb)); [|done|done|].
    - intros x y _ _ Hxy Hyx.
      apply (not_after_total _ _ _ pair_ltb_StrictTotal) in Hxy as [?|Hxy]; [done|].
      unfold not_after in Hyx. congruence.
    - rewrite Hperm, Hperm', <- Hbij, <- list_fmap_compose.
      apply eq_subrelation; [apply _|]. apply list_fmap_ext.
      intros i n Hn%list_elem_of_lookup_2. simpl. unfold label_of.
      by rewrite (Hfinal n Hn), (Hlab n Hn). }
  split; [done|]. split; [done|]. split; [done|]. split; [done|].
  unfold instance_eq, full_comparison. simpl.
  rewrite (plain_full_comparison_spec _ _ Hv Hv'). simpl.
  unfold plain_ltb, plain_view. simpl.
  rewrite (st_irrefl _ (prod_ltb_StrictTotal pairs_ltb defs_ltb pairs_ltb_StrictTotal
                          defs_ltb_StrictTotal)).
  done.
Qed.

Lemma plain_instances_of_isomorphic_graphs_witness :
  ∃ p p',
    plain_instance 3 path3 (default_labels path3) = Ok p ∧
    plain_instance 3 path3_from_centre (default_labels path3_from_centre) = Ok p' ∧
    labels_along swap01 (nodes_of path3) (p_internal_labels p) (p_internal_labels p') ∧
    p_label_pairings p' = p_label_pairings p ∧
    p_label_definitions p' = p_label_definitions p ∧
    p_counter p' = p_counter p ∧
    instance_eq (PlainInstance p) (PlainInstance p') = Ok true.
Proof.
  apply (plain_instances_of_isomorphic_graphs 3 path3 path3_from_centre
           (default_labels path3) (default_labels path3_from_centre) swap01).
  - apply (bool_decide_unpack (graph_wf path3)). vm_compute. exact I.
  - apply (bool_decide_unpack (graph_wf path3_from_centre)). vm_compute. exact I.
  - discriminate.
  - apply (bool_decide_unpack (labels_total path3 (default_labels path3))).
    vm_compute. exact I.
  - split.
    + vm_compute. apply Permutation_swap.
    + intros u v Hu Hv. revert v Hv. apply Forall_forall. revert u Hu. apply Forall_forall.
      apply (bool_decide_unpack
               (Forall (λ u, Forall (λ v, has_edge path3_from_centre (swap01 u) (swap01 v)
                                           = has_edge path3 u v) (nodes_of path3))
                  (nodes_of path3))).
      vm_compute. exact I.
  - intros n Hn. revert n Hn. apply Forall_forall.
    apply (bool_decide_unpack
             (Forall (λ n, default_labels path3_from_centre !! swap01 n
                           = default_labels path3 !! n) (nodes_of path3))).
    vm_compute. exact I.
  - vm_compute. lia.
Defined.
(** ** Edge cases of plain instances *)





Lemma dict_comprehension_missing (labels : gmap Z Z) (nodes : list Z) :
  (∃ n, n ∈ nodes ∧ labels !! n = None) →
  dict_comprehension (getitem labels) nodes = Raise KeyError.
Proof.
  unfold dict_comprehension. generalize (∅ : gmap Z Z).
  induction nodes as [|a nodes IH]; intros d [n [Hn Hnone]].
  - by apply elem_of_nil in Hn.
  - simpl. destruct (labels !! a) as [l|] eqn:Ha.
    + rewrite (getitem_Some _ _ _ Ha). simpl. apply IH. exists n. split; [|done].
      apply elem_of_cons in Hn as [-> |Hn]; [congruence|done].
    + unfold getitem. by rewrite Ha.
Qed.

(** The constructor of a plain instance raises [ValueError] on a graph
    without nodes (the maximum of no labels) and [KeyError] when a node of
    the graph has no label. *)
Theorem plain_instance_raises (fuel : nat) (G : Graph) (L : gmap Z Z) :
  (G = [] → plain_instance fuel G L = Raise ValueError) ∧
  ((∃ n, n ∈ nodes_of G ∧ L !! n = None) → plain_instance fuel G L = Raise KeyError).
Proof.
  split.
  - intros ->. unfold plain_instance. change (nodes_of []) with (@nil Z).
    unfold mapping_to_neighbors_of, dict_comprehension. cbn [foldR mbind result_bind].
    unfold higher_than_any_internal_label. by rewrite dict_values_empty.
  - intros Hmiss. unfold plain_instance.
    destruct (mapping_fold_spec G (nodes_of G) ∅) as [d [Hd _]]; [done|].
    unfold mapping_to_neighbors_of. rewrite Hd. cbn [mbind result_bind].
    by rewrite dict_comprehension_missing.
Qed.

Lemma plain_instance_raises_witness :
  plain_instance 3 empty_graph (default_labels path3) = Raise ValueError ∧
  plain_instance 3 path3 {[0 := 7]} = Raise KeyError.
Proof.
  split.
  - by apply (plain_instance_raises 3 empty_graph (default_labels path3)).
  - apply (plain_instance_raises 3 path3 {[0 := 7]}).
    exists 1. split; [by right; left|]. by vm_compute.
Defined.
(** ** The first node of the final order *)

Section sort_head.
Context {A : Type} (lt : A → A → result bool) (ltb : A → A → bool).
Context (Hsw : StrictWeak ltb).

(** The sort is stable: its first element is the first of the least elements
    of the list. *)
Lemma py_sort_head (l s : list A) (x : A) :
  (∀ a b, a ∈ l → b ∈ l → lt a b = Ok (ltb a b)) →
  py_sort lt l = Ok s → s !! O = Some x →
  ∃ i, l !! i = Some x ∧
    (∀ y, y ∈ l → ltb y x = false) ∧
    (∀ j y, (j < i)%nat → l !! j = Some y → ltb x y = true).
Proof.
  revert s x. induction l as [|a l IH]; intros s x Hlt Hs Hx.
  - simpl in Hs. injection Hs as <-. done.
  - simpl in Hs. apply bind_Ok in Hs as [s' [Hs' Hins]].
    destruct (py_sort_spec lt ltb Hsw l) as [s0 [Hs0 [Hp _]]];
      [intros; apply Hlt; by right|].
    rewrite Hs' in Hs0. injection Hs0 as <-.
    destruct s' as [|y s''].
    + simpl in Hins. injection Hins as <-. injection Hx as <-.
      apply Permutation_nil_l in Hp. subst l. exists O. split; [done|]. split.
      * intros z ->%list_elem_of_singleton. apply Hsw.
      * intros; lia.
    + assert (y ∈ l) as Hy by (rewrite <- Hp; left).
      destruct (IH (y :: s'') y) as [i [Hi [Hmin Hbefore]]];
        [intros; apply Hlt; by right|done|done|].
      simpl in Hins. rewrite (Hlt y a) in Hins; [|by right|left].
      cbn [mbind result_bind] in Hins. destruct (ltb y a) eqn:Hya.
      * apply bind_Ok in Hins as [r [_ [= <-]]]. injection Hx as <-.
        exists (S i). split; [done|]. split.
        -- intros z [-> |Hz]%elem_of_cons; [by apply StrictWeak_asym|by apply Hmin].
        -- intros [|j] z Hj Hz; simplify_eq/=; [done|]. apply (Hbefore j); [lia|done].
      * injection Hins as <-. injection Hx as <-. exists O. split; [done|]. split.
        -- intros z [-> |Hz]%elem_of_cons; [apply Hsw|].
           destruct Hsw as [_ _ Hn]. apply (Hn z y a); [by apply Hmin|done].
        -- intros; lia.
Qed.
End sort_head.

Lemma further_sort_head (l l' : list (Z * Z)) (labels : gmap Z Z) :
  (∀ x, x ∈ l → is_Some (labels !! x.1)) →
  further_sort l labels = Ok l' →
  ∃ i x rest, l !! i = Some x ∧ l' = (x.1, 0) :: rest ∧
    (∀ y, y ∈ l →
       pair_ltb (y.2, label_of labels y.1) (x.2, label_of labels x.1) = false) ∧
    (∀ j y, (j < i)%nat → l !! j = Some y →
       pair_ltb (x.2, label_of labels x.1) (y.2, label_of labels y.1) = true).
Proof.
  intros Hl Hf. unfold further_sort in Hf.
  rewrite (mapR_Ok _ (λ x, (x.1, (x.2, label_of labels x.1)))) in Hf.
  2:{ intros x Hx. destruct (Hl x Hx) as [v Hv]. rewrite (getitem_Some _ _ _ Hv). simpl.
      by rewrite (label_of_Some _ _ _ Hv). }
  cbn [mbind result_bind] in Hf. apply bind_Ok in Hf as [s [Hs Hf]].
  destruct s as [|k s]; [done|]. injection Hf as <-.
  destruct (py_sort_head (λ x y : Z * (Z * Z), Ok (pair_ltb x.2 y.2))
              (λ x y, pair_ltb x.2 y.2)
              (StrictWeak_proj snd _ (StrictTotal_weak _ pair_ltb_StrictTotal))
              _ _ k ltac:(done) Hs eq_refl) as [i [Hi [Hmin Hbefore]]].
  rewrite list_lookup_fmap in Hi. destruct (l !! i) as [x|] eqn:Hx; [|done].
  injection Hi as <-. exists i, x. eexists. split; [done|]. split; [done|]. split.
  - intros y Hy. apply (Hmin (y.1, (y.2, label_of labels y.1))).
    apply list_elem_of_fmap. by exists y.
  - intros j y Hj Hy. apply (Hbefore j (y.1, (y.2, label_of labels y.1))); [done|].
    by rewrite list_lookup_fmap, Hy.
Qed.

Lemma canonical_order_loop_prefix (fuel : nat) (G : Graph) (ovs : gmap Z (gmap Z Z))
    (count : nat) :
  ∀ final ordering order,
    canonical_order_loop fuel G ovs count final ordering = Ok order →
    ∃ rest, order = final ++ rest.
Proof.
  induction count as [|count IH]; intros final ordering order Hrun.
  - injection Hrun as <-. exists []. by rewrite app_nil_r.
  - simpl in Hrun.
    apply bind_Ok in Hrun as [last_node [_ Hrun]].
    apply bind_Ok in Hrun as [overlay [_ Hrun]].
    apply bind_Ok in Hrun as [ordering1 [_ Hrun]].
    apply bind_Ok in Hrun as [sel [_ Hrun]].
    apply bind_Ok in Hrun as [[ordering2 sel2] [_ Hrun]].
    apply bind_Ok in Hrun as [chosen [_ Hrun]].
    apply IH in Hrun as [rest ->]. exists (chosen.1 :: rest). by rewrite <- app_assoc.
Qed.

(** The first node of the final order is taken without a test for ties: it
    is, among the nodes with the least internal label of the top-level
    instance, the one that was added to the graph first. *)
Theorem first_node_is_first_of_least_label (fuel : nat) (G : Graph) (L : gmap Z Z) :
  graph_wf G → G ≠ [] → labels_total G L →
  (length (nodes_of G) + length (edges_of G) ≤ fuel)%nat →
  ∃ m cf i n0,
    master_instance fuel G (Some L) = Ok (m, cf) ∧
    final_node_order cf !! O = Some n0 ∧
    nodes_of G !! i = Some n0 ∧
    (∀ n, n ∈ nodes_of G →
       label_of (nw_internal_labels m) n0 ≤ label_of (nw_internal_labels m) n) ∧
    (∀ j n, (j < i)%nat → nodes_of G !! j = Some n →
       label_of (nw_internal_labels m) n0 < label_of (nw_internal_labels m) n).
Proof.
  intros Hwf Hne HL Hfuel.
  destruct (master_instance_Ok fuel G L Hwf Hne HL Hfuel)
    as [m [cf [He [Hready _]]]].
  exists m, cf.
  destruct Hready as [Hinit [_ [_ [_ [_ [_ [Hdom [_ [_ [Hsub _]]]]]]]]]].
  pose proof He as Hrun. unfold master_instance in Hrun. simpl in Hrun.
  apply bind_Ok in Hrun as [[m' L'] [_ Hrun]].
  apply bind_Ok in Hrun as [cf' [Hcf [= -> ->]]].
  unfold set_canonical_form in Hcf.
  apply bind_Ok in Hcf as [ordering [Hsort Hcf]].
  apply bind_Ok in Hcf as [first [Hfirst Hcf]].
  apply bind_Ok in Hcf as [order [Hloop Hcf]].
  apply bind_Ok in Hcf as [labels [_ [= <-]]]. simpl.
  apply canonical_order_loop_prefix in Hloop as [rest ->].
  rewrite Hinit in Hsort.
  apply further_sort_head in Hsort as [i [x [tl [Hi [-> [Hmin Hbefore]]]]]].
  2:{ intros y [n [-> Hn]]%list_elem_of_fmap. simpl. apply Hdom. by apply Hsub. }
  injection Hfirst as <-. simpl.
  rewrite list_lookup_fmap in Hi. destruct (nodes_of G !! i) as [n0|] eqn:Hn0; [|done].
  injection Hi as <-. simpl in *. exists i, n0. split; [done|]. split; [done|].
  split; [done|]. split.
  - intros n Hn. specialize (Hmin (n, 0)). simpl in Hmin.
    assert (pair_ltb (0, label_of (nw_internal_labels m) n)
              (0, label_of (nw_internal_labels m) n0) = false) as Hf.
    { apply Hmin. apply list_elem_of_fmap. by exists n. }
    destruct (decide (label_of (nw_internal_labels m) n0 ≤ label_of (nw_internal_labels m) n))
      as [?|Hgt]; [done|].
    rewrite (proj2 (pair_ltb_true _ _)) in Hf; [done|]. simpl. lia.
  - intros j n Hj Hn.
    assert (pair_ltb (0, label_of (nw_internal_labels m) n0)
              (0, label_of (nw_internal_labels m) n) = true) as Ht.
    { apply (Hbefore j (n, 0)); [done|]. by rewrite list_lookup_fmap, Hn. }
    apply pair_ltb_true in Ht. simpl in Ht. lia.
Qed.

Lemma first_node_is_first_of_least_label_witness :
  ∃ m cf i n0,
    master_instance 4 edge01_and_2 (Some all_ten) = Ok (m, cf) ∧
    final_node_order cf !! O = Some n0 ∧
    nodes_of edge01_and_2 !! i = Some n0 ∧
    (∀ n, n ∈ nodes_of edge01_and_2 →
       label_of (nw_internal_labels m) n0 ≤ label_of (nw_internal_labels m) n) ∧
    (∀ j n, (j < i)%nat → nodes_of edge01_and_2 !! j = Some n →
       label_of (nw_internal_labels m) n0 < label_of (nw_internal_labels m) n).
Proof.
  apply (first_node_is_first_of_least_label 4 edge01_and_2 all_ten).
  - apply (bool_decide_unpack (graph_wf edge01_and_2)). vm_compute. exact I.
  - discriminate.
  - apply (bool_decide_unpack (labels_total edge01_and_2 all_ten)). vm_compute. exact I.
  - vm_compute. lia.
Defined.
(** ** The labels handed to the servant *)

Lemma foldl_insert_placed (l : list (nat * Z)) (d : gmap Z Z) (n : Z) :
  NoDup l.*2 →
  foldl (λ d jn, <[jn.2 := Z.of_nat jn.1]> d) d l !! n =
    match list_find (λ jn, jn.2 = n) l with
    | Some (_, jn) => Some (Z.of_nat jn.1)
    | None => d !! n
    end.
Proof.
  revert d. induction l as [|[j m] l IH]; intros d Hnd; [done|].
  csimpl in Hnd. apply NoDup_cons in Hnd as [Hm Hnd].
  cbn [foldl list_find]. rewrite IH by done. simpl. case_decide as Hmn.
  - subst m. destruct (list_find (λ jn, jn.2 = n) l) as [[i jn]|] eqn:Hfind; simpl.
    + apply list_find_Some in Hfind as [Hi [Hjn _]]. exfalso. apply Hm.
      apply list_elem_of_fmap. exists jn. split; [done|]. by eapply list_elem_of_lookup_2.
    + by rewrite lookup_insert_eq.
  - destruct (list_find (λ jn, jn.2 = n) l) as [[i jn]|]; simpl; [done|].
    by rewrite lookup_insert_ne.
Qed.

Lemma foldl_insert_ranks (l : list (Z * Z)) (k : Z) (d : gmap Z Z) (n : Z) :
  NoDup l.*1 →
  foldl (λ d x, <[x.1 := x.2 + k]> d) d l !! n =
    match list_find (λ x, x.1 = n) l with
    | Some (_, x) => Some (x.2 + k)
    | None => d !! n
    end.
Proof.
  revert d. induction l as [|[m r] l IH]; intros d Hnd; [done|].
  csimpl in Hnd. apply NoDup_cons in Hnd as [Hm Hnd].
  cbn [foldl list_find]. rewrite IH by done. simpl. case_decide as Hmn.
  - subst m. destruct (list_find (λ x, x.1 = n) l) as [[i x]|] eqn:Hfind; simpl.
    + apply list_find_Some in Hfind as [Hi [Hx _]]. exfalso. apply Hm.
      apply list_elem_of_fmap. exists x. split; [done|]. by eapply list_elem_of_lookup_2.
    + by rewrite lookup_insert_eq.
  - destruct (list_find (λ x, x.1 = n) l) as [[i x]|]; simpl; [done|].
    by rewrite lookup_insert_ne.
Qed.

(** The label map that the servant is built with individualizes the nodes
    placed so far: the [j]th node of [final_node_order] gets the label [j],
    every other node its rank plus the number of placed nodes, so that the
    placed nodes have labels of their own, below those of all the others. *)
Theorem tie_break_labels_individualize (final : list Z) (ordering : list (Z * Z)) :
  NoDup final → NoDup ordering.*1 →
  (∀ n, n ∈ final → n ∉ ordering.*1) →
  (∀ x, x ∈ ordering → 0 ≤ x.2) →
  (∀ j n, final !! j = Some n →
     tie_break_labels final ordering !! n = Some (Z.of_nat j)) ∧
  (∀ n r, (n, r) ∈ ordering →
     tie_break_labels final ordering !! n = Some (r + Z.of_nat (length final))) ∧
  (∀ n, is_Some (tie_break_labels final ordering !! n) ↔ n ∈ final ∨ n ∈ ordering.*1) ∧
  (∀ n m, n ∈ final → m ∈ final ∨ m ∈ ordering.*1 → n ≠ m →
     tie_break_labels final ordering !! n ≠ tie_break_labels final ordering !! m) ∧
  (∀ n m, n ∈ final → m ∈ ordering.*1 →
     label_of (tie_break_labels final ordering) n <
     label_of (tie_break_labels final ordering) m).
Proof.
  intros Hnd Hnd' Hdisj Hpos.
  assert (NoDup (imap (λ (j : nat) (n : Z), (j, n)) final).*2) as Hnd2.
  { replace ((imap (λ (j : nat) (n : Z), (j, n)) final).*2) with final; [done|].
    apply list_eq. intros i. rewrite list_lookup_fmap, list_lookup_imap.
    by destruct (final !! i). }
  assert (∀ j n, final !! j = Some n →
            tie_break_labels final ordering !! n = Some (Z.of_nat j)) as Hplaced.
  { intros j n Hj. unfold tie_break_labels. rewrite foldl_insert_placed by done.
    destruct (list_find _ _) as [[i [j' n']]|] eqn:Hfind.
    - apply list_find_Some in Hfind as [Hi [Hn' _]]. simpl in Hn'. subst n'.
      rewrite list_lookup_imap in Hi. destruct (final !! i) as [n0|] eqn:Hi'; [|done].
      injection Hi as <- <-. simpl. do 2 f_equal.
      by apply (NoDup_lookup final i j n0).
    - exfalso. apply list_find_None in Hfind. rewrite Forall_forall in Hfind.
      apply (Hfind (j, n)); [|done]. apply list_elem_of_lookup. exists j.
      by rewrite list_lookup_imap, Hj. }
  assert (∀ n, n ∉ final →
            tie_break_labels final ordering !! n =
              match list_find (λ x : Z * Z, x.1 = n) ordering with
              | Some (_, x) => Some (x.2 + Z.of_nat (length final))
              | None => None
              end) as Hother.
  { intros n Hn. unfold tie_break_labels. rewrite foldl_insert_placed by done.
    destruct (list_find (λ jn : nat * Z, jn.2 = n) _) as [[i [j' n']]|] eqn:Hfind.
    - apply list_find_Some in Hfind as [Hi [Hn' _]]. simpl in Hn'. subst n'.
      rewrite list_lookup_imap in Hi. destruct (final !! i) as [n0|] eqn:Hi'; [|done].
      injection Hi as <- <-. exfalso. apply Hn. by eapply list_elem_of_lookup_2.
    - by rewrite foldl_insert_ranks. }
  assert (∀ n r, (n, r) ∈ ordering →
            tie_break_labels final ordering !! n = Some (r + Z.of_nat (length final)))
    as Hrank.
  { intros n r Hin. rewrite Hother.
    - destruct (list_find _ _) as [[i x]|] eqn:Hfind.
      + apply list_find_Some in Hfind as [Hi [Hx _]].
        apply list_elem_of_lookup_1 in Hin as [i' Hi'].
        assert (i = i') as ->.
        { apply (NoDup_lookup ordering.*1 i i' n Hnd'); rewrite list_lookup_fmap.
          - by rewrite Hi, <- Hx.
          - by rewrite Hi'. }
        rewrite Hi in Hi'. by injection Hi' as ->.
      + exfalso. apply list_find_None in Hfind. rewrite Forall_forall in Hfind.
        by apply (Hfind (n, r)).
    - intros Hf. apply (Hdisj n Hf). apply list_elem_of_fmap. by exists (n, r). }
  split; [done|]. split; [done|]. split; [|split].
  - intros n. split.
    + intros Hs. destruct (decide (n ∈ final)) as [?|Hn]; [by left|]. right.
      rewrite (Hother n Hn) in Hs.
      destruct (list_find _ _) as [[i x]|] eqn:Hfind; [|by destruct Hs].
      apply list_find_Some in Hfind as [Hi [Hx _]]. apply list_elem_of_fmap.
      exists x. split; [done|]. by eapply list_elem_of_lookup_2.
    + intros [[j Hj]%list_elem_of_lookup_1|[[n' r] [-> Hin]]%list_elem_of_fmap].
      * rewrite (Hplaced j n Hj). eauto.
      * cbn [fst]. rewrite (Hrank n' r Hin). eauto.
  - intros n m [j Hj]%list_elem_of_lookup_1 Hm Hne. rewrite (Hplaced j n Hj).
    destruct Hm as [[j' Hj']%list_elem_of_lookup_1|[[m' r] [-> Hin]]%list_elem_of_fmap].
    + rewrite (Hplaced j' m Hj'). intros [= Heq]. apply Nat2Z.inj in Heq. subst j'.
      congruence.
    + cbn [fst]. rewrite (Hrank m' r Hin). intros [= Heq]. specialize (Hpos _ Hin). simpl in Hpos.
      apply lookup_lt_Some in Hj. lia.
  - intros n m [j Hj]%list_elem_of_lookup_1 [[m' r] [-> Hin]]%list_elem_of_fmap.
    cbn [fst].
    rewrite (label_of_Some _ _ _ (Hplaced j n Hj)), (label_of_Some _ _ _ (Hrank m' r Hin)).
    specialize (Hpos _ Hin). simpl in Hpos. apply lookup_lt_Some in Hj. lia.
Qed.

Lemma tie_break_labels_individualize_witness :
  (∀ j n, [5; 7] !! j = Some n →
     tie_break_labels [5; 7] example_ordering !! n = Some (Z.of_nat j)) ∧
  (∀ n r, (n, r) ∈ example_ordering →
     tie_break_labels [5; 7] example_ordering !! n = Some (r + Z.of_nat (length [5; 7]))) ∧
  (∀ n, is_Some (tie_break_labels [5; 7] example_ordering !! n) ↔
        n ∈ [5; 7] ∨ n ∈ example_ordering.*1) ∧
  (∀ n m, n ∈ [5; 7] → m ∈ [5; 7] ∨ m ∈ example_ordering.*1 → n ≠ m →
     tie_break_labels [5; 7] example_ordering !! n ≠
     tie_break_labels [5; 7] example_ordering !! m) ∧
  (∀ n m, n ∈ [5; 7] → m ∈ example_ordering.*1 →
     label_of (tie_break_labels [5; 7] example_ordering) n <
     label_of (tie_break_labels [5; 7] example_ordering) m).
Proof.
  apply (tie_break_labels_individualize [5; 7] example_ordering).
  - apply (bool_decide_unpack (NoDup [5; 7])). vm_compute. exact I.
  - apply (bool_decide_unpack (NoDup example_ordering.*1)). vm_compute. exact I.
  - apply Forall_forall.
    apply (bool_decide_unpack (Forall (λ n, n ∉ example_ordering.*1) [5; 7])).
    vm_compute. exact I.
  - apply Forall_forall.
    apply (bool_decide_unpack (Forall (λ x : Z * Z, 0 ≤ x.2) example_ordering)).
    vm_compute. exact I.
Defined.
(** ** The internal labels of a top-level instance *)

Section nodewise_refines.
Context (fuel : nat) (G : Graph) (H : Z).
Context (Hnd : NoDup (nodes_of G)) (Hcl : graph_closed G) (Hne : G ≠ []).
Context (Hfuel : (length (nodes_of G) ≤ fuel)%nat).

Lemma nodewise_loop_refines :
  ∀ rounds internal ovs counter internal' defs ovs' counter',
    dom_is (nodes_of G) internal → overlays_ok (nodes_of G) ovs →
    nodewise_loop fuel rounds G (nodes_of G) H internal ovs counter =
      Ok (internal', defs, ovs', counter') →
    dom_is (nodes_of G) internal' ∧ refines (nodes_of G) internal internal'.
Proof.
  intros rounds. induction rounds as [|rounds IH];
    intros internal ovs counter internal' defs ovs' counter' Hi Ho Hrun; [done|].
  destruct (nodewise_round fuel G H Hnd Hcl Hne Hfuel internal ovs Hi Ho)
    as [ovs1 [ids [new [ds [b [Hids [Ha [Hb [Ho' [Hdn [Href _]]]]]]]]]]].
  cbn [nodewise_loop] in Hrun. rewrite Hids in Hrun. cbn [mbind result_bind] in Hrun.
  rewrite Ha in Hrun. cbn [mbind result_bind] in Hrun. rewrite Hb in Hrun.
  cbn [mbind result_bind] in Hrun. destruct b.
  - injection Hrun as <- <- <- <-. split; [done|]. by intros n m _ _.
  - apply IH in Hrun as [Hd' Href']; [|done..]. split; [done|].
    intros n m Hn Hm Heq. apply Href; [done..|]. by apply Href'.
Qed.
End nodewise_refines.

(** The internal labels that a top-level instance ends with refine the
    labels of the expanded graph: two of its nodes with the same internal
    label have the same external label; so two nodes of the input graph with
    the same internal label have the same label, and no node of the input
    graph shares its internal label with a node that stands for an edge. *)
Theorem master_internal_labels_refine (fuel : nat) (G : Graph) (L : gmap Z Z) :
  graph_wf G → G ≠ [] → labels_total G L →
  (length (nodes_of G) + length (edges_of G) ≤ fuel)%nat →
  ∃ m cf,
    master_instance fuel G (Some L) = Ok (m, cf) ∧
    (∀ n n', n ∈ nw_nodes m → n' ∈ nw_nodes m →
       nw_internal_labels m !! n = nw_internal_labels m !! n' →
       nw_external_labels m !! n = nw_external_labels m !! n') ∧
    (∀ n n', n ∈ nodes_of G → n' ∈ nodes_of G →
       nw_internal_labels m !! n = nw_internal_labels m !! n' → L !! n = L !! n') ∧
    (∀ n e, n ∈ nodes_of G → e ∈ nw_nodes m → e ∉ nodes_of G →
       nw_internal_labels m !! n ≠ nw_internal_labels m !! e).
Proof.
  intros Hwf Hne HL Hfuel.
  destruct (master_instance_Ok fuel G L Hwf Hne HL Hfuel) as [m [cf [He _]]].
  exists m, cf. split; [done|].
  pose proof He as Hrun. unfold master_instance in Hrun. simpl in Hrun.
  apply bind_Ok in Hrun as [[m' L1] [Hinit Hrun]].
  apply bind_Ok in Hrun as [cf' [_ [= -> ->]]].
  unfold nodewise_init in Hinit.
  apply bind_Ok in Hinit as [[m0 L0] [Hsetup Hinit]].
  apply bind_Ok in Hinit as [[[[int defs] ovs] c] [Hloop [= <- <-]]].
  destruct (nodewise_setup_Ok fuel G L Hwf Hne HL Hfuel) as [m0' [L0' [Hs' [Hready _]]]].
  rewrite Hsetup in Hs'. injection Hs' as <- <-.
  destruct Hready as (Hin & HG & Hnodes & Hnd & Hcl & Hne' & Hdi & Hde & Hov & Hkeep & Hlen).
  (* the setup *)
  unfold nodewise_setup in Hsetup.
  apply bind_Ok in Hsetup as [[eG eL] [Hexp Hsetup]].
  apply bind_Ok in Hsetup as [nbrs [_ Hsetup]].
  apply bind_Ok in Hsetup as [int0 [Hint0 Hsetup]].
  apply bind_Ok in Hsetup as [ext0 [Hext0 Hsetup]].
  apply bind_Ok in Hsetup as [H0 [_ Hsetup]].
  apply bind_Ok in Hsetup as [basic [_ Hsetup]].
  apply bind_Ok in Hsetup as [ovs0 [_ [= <- <-]]].
  simpl in *. rewrite Hint0 in Hext0. injection Hext0 as <-.
  apply nodewise_loop_refines in Hloop as [Hd' Href]; [|done|done|done|lia|done|done].
  assert (∀ n n', n ∈ nodes_of eG → n' ∈ nodes_of eG →
            int !! n = int !! n' → int0 !! n = int0 !! n') as Hrefines.
  { intros n n' Hn Hn'. by apply Href. }
  destruct (expand_graph_Ok G L Hwf Hne HL)
    as [G' [L' [mx [ml [He' [Hml [Hmx [Hmax [HL' [HeG [_ _]]]]]]]]]]].
  rewrite Hexp in He'. injection He' as <- <-.
  assert (∀ n, n ∈ nodes_of eG → int0 !! n = eL !! n) as Hint0'.
  { intros n Hn.
    destruct (dict_comprehension_getitem eL (nodes_of eG)) as [d [Hd [_ Hl]]].
    - intros k Hk. rewrite HL'. apply HeG in Hk.
      case_decide; [done|]. destruct Hk as [Hk|?]; [|lia].
      rewrite decide_True by done. by apply (proj1 (labels_total_elim G L) HL).
    - rewrite Hint0 in Hd. injection Hd as <-. by apply Hl. }
  split; [|split].
  - intros n k Hn Hk Heq. by apply Hrefines.
  - intros n k Hn Hk Heq.
    destruct (Hkeep n Hn) as [Hin1 Hl1]. destruct (Hkeep k Hk) as [Hin2 Hl2].
    rewrite <- Hl1, <- Hl2. by apply Hrefines.
  - intros n e Hn Hein Hnot Heq.
    destruct (Hkeep n Hn) as [Hin1 Hl1].
    apply Hrefines in Heq; [|done..].
    rewrite (Hint0' n Hin1), (Hint0' e Hein), !HL' in Heq.
    apply HeG in Hein as [?|Hrange]; [done|].
    rewrite (decide_True (P := mx < e ≤ _)) in Heq by done.
    rewrite decide_False in Heq by (specialize (Hmax n Hn); lia).
    rewrite decide_True in Heq by done.
    apply py_max_spec in Hml as [_ Hle].
    assert (ml + 1 ≤ ml); [|lia]. apply Hle. apply elem_of_dict_values. eauto.
Qed.

Lemma master_internal_labels_refine_witness :
  ∃ m cf,
    master_instance 5 path3 (Some (default_labels path3)) = Ok (m, cf) ∧
    (∀ n n', n ∈ nw_nodes m → n' ∈ nw_nodes m →
       nw_internal_labels m !! n = nw_internal_labels m !! n' →
       nw_external_labels m !! n = nw_external_labels m !! n') ∧
    (∀ n n', n ∈ nodes_of path3 → n' ∈ nodes_of path3 →
       nw_internal_labels m !! n = nw_internal_labels m !! n' →
       default_labels path3 !! n = default_labels path3 !! n') ∧
    (∀ n e, n ∈ nodes_of path3 → e ∈ nw_nodes m → e ∉ nodes_of path3 →
       nw_internal_labels m !! n ≠ nw_internal_labels m !! e).
Proof.
  apply (master_internal_labels_refine 5 path3 (default_labels path3)).
  - apply (bool_decide_unpack (graph_wf path3)). vm_compute. exact I.
  - discriminate.
  - apply (bool_decide_unpack (labels_total path3 (default_labels path3))).
    vm_compute. exact I.
  - vm_compute. lia.
Defined.
(** ** The labels that are combined with the overlays *)

Section nodewise_range.
Context (fuel : nat) (G : Graph) (H : Z).
Context (Hnd : NoDup (nodes_of G)) (Hcl : graph_closed G) (Hne : G ≠ []).
Context (Hfuel : (length (nodes_of G) ≤ fuel)%nat).

Lemma nodewise_round_range (internal : gmap Z Z) (ovs : gmap Z (gmap Z Z)) :
  dom_is (nodes_of G) internal → overlays_ok (nodes_of G) ovs →
  ∃ ovs' ids new defs,
    nodewise_get_new_ids_in_order fuel G (nodes_of G) H internal ovs = Ok (ovs', ids) ∧
    assign_new_labels_for_sorted_ids nodewise_key_ne ids = Ok (new, defs) ∧
    dom_is (nodes_of G) new ∧ overlays_ok (nodes_of G) ovs' ∧
    ∀ n l, new !! n = Some l → 0 ≤ l < Z.of_nat (length (nodes_of G)).
Proof.
  intros Hi Ho.
  destruct (nodewise_get_new_ids_in_order_spec fuel G H Hnd Hcl Hne Hfuel internal ovs Hi Ho)
    as [ovs' [ids [Hids [Ho' [Hp [Hs Hval]]]]]].
  destruct (refinement_round nodewise_key_ne nodewise_key_ltb nodewise_key_ltb_StrictWeak
              (nodes_of G) (nodewise_key_of fuel G (nodes_of G) H internal ovs) internal ids)
    as [new [defs [b [Ha [Hb [Hdn [Href [_ [Hlab [_ [Hdist _]]]]]]]]]]]; try done.
  - intros x y [x' [-> Hx]]%list_elem_of_fmap [y' [-> Hy]]%list_elem_of_fmap.
    apply nodewise_key_ne_spec; by apply Hval.
  - intros n m Hn Hm Heq%nodewise_key_equiv_fst. simpl in Heq.
    rewrite (dom_is_lookup _ internal n), (dom_is_lookup _ internal m) by done.
    by rewrite Heq.
  - exists ovs', ids, new, defs. split; [done|]. split; [done|]. split; [done|].
    split; [done|]. intros n l Hl.
    assert (n ∈ nodes_of G) as Hn by (apply Hdn; eauto).
    destruct (Hlab n Hn) as [l0 [d [Hl0 [Hd _]]]]. rewrite Hl in Hl0. injection Hl0 as ->.
    apply lookup_lt_Some in Hd. rewrite <- Hdist in Hd.
    pose proof (distinct_labels_le (nodes_of G) new Hnd Hdn). lia.
Qed.
End nodewise_range.

(** With external labels that are not negative, every label that a nodewise
    instance combines with an overlay value lies in [0, H), at the start and
    after every round, so that [overlay * H + label] never maps two
    different pairs to one number. *)
Theorem nodewise_labels_stay_below_bound (fuel : nat) (G : Graph) (L : gmap Z Z) :
  graph_wf G → G ≠ [] → labels_total G L →
  (length (nodes_of G) + length (edges_of G) ≤ fuel)%nat →
  (∀ n l, n ∈ nodes_of G → L !! n = Some l → 0 ≤ l) →
  ∃ self L',
    nodewise_setup fuel G L = Ok (self, L') ∧
    (∀ n l, nw_internal_labels self !! n = Some l →
       0 ≤ l < nw_higher_than_any_internal_label self) ∧
    (∀ internal ovs,
       dom_is (nw_nodes self) internal → overlays_ok (nw_nodes self) ovs →
       ∃ ovs' ids new defs,
         nodewise_get_new_ids_in_order fuel (nw_G self) (nw_nodes self)
           (nw_higher_than_any_internal_label self) internal ovs = Ok (ovs', ids) ∧
         assign_new_labels_for_sorted_ids nodewise_key_ne ids = Ok (new, defs) ∧
         dom_is (nw_nodes self) new ∧ overlays_ok (nw_nodes self) ovs' ∧
         ∀ n l, new !! n = Some l → 0 ≤ l < nw_higher_than_any_internal_label self) ∧
    (∀ o1 l1 o2 l2,
       0 ≤ l1 < nw_higher_than_any_internal_label self →
       0 ≤ l2 < nw_higher_than_any_internal_label self →
       overlay_key (nw_higher_than_any_internal_label self) o1 l1 =
       overlay_key (nw_higher_than_any_internal_label self) o2 l2 →
       o1 = o2 ∧ l1 = l2).
Proof.
  intros Hwf Hne HL Hfuel Hpos.
  destruct (nodewise_setup_Ok fuel G L Hwf Hne HL Hfuel) as [self [L' [Hs [Hready _]]]].
  exists self, L'. split; [done|].
  destruct Hready as (Hin & HG & Hnodes & Hnd & Hcl & Hne' & Hdi & Hde & Hov & Hkeep & Hlen).
  pose proof Hs as Hsetup. unfold nodewise_setup in Hsetup.
  apply bind_Ok in Hsetup as [[eG eL] [Hexp Hsetup]].
  apply bind_Ok in Hsetup as [nbrs [_ Hsetup]].
  apply bind_Ok in Hsetup as [int0 [Hint0 Hsetup]].
  apply bind_Ok in Hsetup as [ext0 [_ Hsetup]].
  apply bind_Ok in Hsetup as [H0 [HH Hsetup]].
  apply bind_Ok in Hsetup as [basic [_ Hsetup]].
  apply bind_Ok in Hsetup as [ovs0 [_ [= <- <-]]].
  simpl in *.
  unfold higher_than_any_internal_label in HH.
  apply bind_Ok in HH as [mi [Hmi [= <-]]]. apply py_max_spec in Hmi as [_ Hmi].
  destruct (expand_graph_Ok G L Hwf Hne HL)
    as [G' [L1 [mx [ml [He' [Hml [Hmx [Hmax [HL' [HeG [_ _]]]]]]]]]]].
  rewrite Hexp in He'. injection He' as <- <-.
  pose proof (py_max_spec _ _ Hml) as [_ Hle].
  assert (∀ n, n ∈ nodes_of eG → int0 !! n = eL !! n) as Hint0'.
  { intros n Hn.
    destruct (dict_comprehension_getitem eL (nodes_of eG)) as [d [Hd [_ Hl]]].
    - intros j Hj. rewrite HL'. apply HeG in Hj.
      case_decide; [done|]. destruct Hj as [Hj|?]; [|lia].
      rewrite decide_True by done. by apply (proj1 (labels_total_elim G L) HL).
    - rewrite Hint0 in Hd. injection Hd as <-. by apply Hl. }
  assert (0 ≤ ml + 1) as Hml0.
  { destruct (proj1 (labels_total_elim G L) HL mx Hmx) as [l0 Hl0].
    pose proof (Hpos mx l0 Hmx Hl0).
    assert (l0 ≤ ml); [|lia]. apply Hle. apply elem_of_dict_values. eauto. }
  split; [|split].
  - intros n l Hl. split.
    + assert (n ∈ nodes_of eG) as Hn by (apply Hdi; eauto).
      rewrite (Hint0' n Hn), HL' in Hl. case_decide; [injection Hl as <-; done|].
      case_decide as Hin'; [|done]. by apply (Hpos n l).
    + assert (l ≤ mi) by (apply Hmi; apply elem_of_dict_values; eauto). lia.
  - intros internal ovs Hdom Hovs.
    destruct (nodewise_round_range fuel eG (Z.of_nat (length (nodes_of eG)) `max` (mi + 1))
                Hnd Hcl Hne') with (internal := internal) (ovs := ovs)
      as [ovs' [ids [new [defs [Hids [Ha [Hdn [Ho' Hrange]]]]]]]]; [lia|done|done|].
    exists ovs', ids, new, defs. split; [done|]. split; [done|]. split; [done|].
    split; [done|]. intros n l Hl. specialize (Hrange n l Hl). lia.
  - intros o1 l1 o2 l2. apply overlay_key_inj.
Qed.

Lemma nodewise_labels_stay_below_bound_witness :
  ∃ self L',
    nodewise_setup 5 path3 (default_labels path3) = Ok (self, L') ∧
    (∀ n l, nw_internal_labels self !! n = Some l →
       0 ≤ l < nw_higher_than_any_internal_label self) ∧
    (∀ internal ovs,
       dom_is (nw_nodes self) internal → overlays_ok (nw_nodes self) ovs →
       ∃ ovs' ids new defs,
         nodewise_get_new_ids_in_order 5 (nw_G self) (nw_nodes self)
           (nw_higher_than_any_internal_label self) internal ovs = Ok (ovs', ids) ∧
         assign_new_labels_for_sorted_ids nodewise_key_ne ids = Ok (new, defs) ∧
         dom_is (nw_nodes self) new ∧ overlays_ok (nw_nodes self) ovs' ∧
         ∀ n l, new !! n = Some l → 0 ≤ l < nw_higher_than_any_internal_label self) ∧
    (∀ o1 l1 o2 l2,
       0 ≤ l1 < nw_higher_than_any_internal_label self →
       0 ≤ l2 < nw_higher_than_any_internal_label self →
       overlay_key (nw_higher_than_any_internal_label self) o1 l1 =
       overlay_key (nw_higher_than_any_internal_label self) o2 l2 →
       o1 = o2 ∧ l1 = l2).
Proof.
  apply (nodewise_labels_stay_below_bound 5 path3 (default_labels path3)).
  - apply (bool_decide_unpack (graph_wf path3)). vm_compute. exact I.
  - discriminate.
  - apply (bool_decide_unpack (labels_total path3 (default_labels path3))).
    vm_compute. exact I.
  - vm_compute. lia.
  - intros n l Hn Hl.
    assert (Forall (λ n, default_labels path3 !! n = Some 0) (nodes_of path3)) as Hz.
    { apply (bool_decide_unpack _). vm_compute. exact I. }
    rewrite Forall_forall in Hz. rewrite (Hz n Hn) in Hl. injection Hl as <-. lia.
Defined.
